(** * gopogo: the cache core (Robin-Hood map, shards, cache operations) and
      the RESP glob matcher, embedded in Rocq and checked against the
      specification.

    Layout of the development:
    - machine integers and byte strings;
    - [internal/cache/types.go]: Entry, Bucket, Map, Shard, Cache;
    - the map file of package cache (hashKey, resize, insertInternal, lookup,
      delete, insert, get, randomEntries);
    - [internal/cache/operations.go], in module [Ops];
    - the second revision of the operations file (the one with the evicted
      bit and the max-memory guard), in module [Ops2];
    - [internal/protocol/redis.go]: matchPattern;
    - the reference hash XXH64, used to run the code on concrete keys;
    - [iter] of the map file, Sweep and Iterate of operations.go;
    - [internal/protocol/redis.go]: the RESP reader and writers, handleKeys;
    - the proofs.

    Conventions.  A Go [[]byte] or [string] is a Rocq [string] (a list of
    8-bit characters).  Fixed-width integers are [Z] with the wrap-around
    written out at every operation that can leave the range.  A Go loop
    without a bound is a [Fixpoint] on a fuel argument; a function that
    contains such a loop, or an index expression, returns an [option]:
    [None] stands for "does not return normally" (the loop did not finish
    within the fuel, or an index was out of range).  The theorems show that
    on every reachable state the result is [Some _]. *)

From Stdlib Require Import ZArith Lia String Ascii List Permutation.
From stdpp Require Import base option list sets.

Open Scope Z_scope.

(** ** Machine integers *)

Definition wrap_u64 (x : Z) : Z := x mod 2 ^ 64.
Definition wrap_u16 (x : Z) : Z := x mod 2 ^ 16.
Definition wrap_i64 (x : Z) : Z := (x + 2 ^ 63) mod 2 ^ 64 - 2 ^ 63.

(** [byte(n)] for an integer [n], and the value of a byte. *)
Definition byte_of_Z (x : Z) : ascii := ascii_of_N (Z.to_N (x mod 256)).
Definition Z_of_byte (c : ascii) : Z := Z.of_N (N_of_ascii c).

Definition len (s : string) : Z := Z.of_nat (String.length s).

(** ** types.go *)

(** Modelled from the spec: the [evicted] bit of an entry ("evicted (bit set
    by eviction; observers must treat entry as absent)").  types.go as
    present declares no such field; the second revision of the operations
    file reads it with [IsEvicted] and sets it with [SetEvicted].  The
    other fields are those of types.go. *)
Record Entry : Type := mkEntry {
  key : string;
  value : string;
  expireAt : Z;   (* int64, nanoseconds; 0 = no expiry *)
  flags : Z;      (* uint32 *)
  cas : Z;        (* uint64 *)
  evicted : bool
}.

Definition newEntry (k v : string) : Entry :=
  {| key := k; value := v; expireAt := 0; flags := 0; cas := 0; evicted := false |}.

Definition setValue (v : string) (e : Entry) : Entry :=
  {| key := key e; value := v; expireAt := expireAt e; flags := flags e;
     cas := cas e; evicted := evicted e |}.
Definition setExpireAt (t : Z) (e : Entry) : Entry :=
  {| key := key e; value := value e; expireAt := t; flags := flags e;
     cas := cas e; evicted := evicted e |}.
Definition setFlags (f : Z) (e : Entry) : Entry :=
  {| key := key e; value := value e; expireAt := expireAt e; flags := f;
     cas := cas e; evicted := evicted e |}.
Definition setCas (c : Z) (e : Entry) : Entry :=
  {| key := key e; value := value e; expireAt := expireAt e; flags := flags e;
     cas := c; evicted := evicted e |}.
Definition SetEvicted (b : bool) (e : Entry) : Entry :=
  {| key := key e; value := value e; expireAt := expireAt e; flags := flags e;
     cas := cas e; evicted := b |}.
Definition IsEvicted (e : Entry) : bool := evicted e.

(** [expireAt > 0 && expireAt < time.Now().UnixNano()]; the clock reading is
    the argument [now]. *)
Definition IsExpired (now : Z) (e : Entry) : bool :=
  (0 <? expireAt e) && (expireAt e <? now).

(** [atomic.AddUint64(&e.cas, 1)]. *)
Definition IncrementCAS (e : Entry) : Entry := setCas (wrap_u64 (cas e + 1)) e.

(** [int64(len(e.key) + len(e.value) + 24)].  Lengths of slices held in
    memory are far below 2^63, so the sum is not wrapped. *)
Definition Size (e : Entry) : Z := len (key e) + len (value e) + 24.

Record Bucket : Type := mkBucket {
  entry : option Entry;   (* *Entry, nil = None *)
  hash : Z;               (* uint64 *)
  distance : Z            (* uint16 *)
}.

Definition emptyBucket : Bucket := {| entry := None; hash := 0; distance := 0 |}.

Record Map : Type := mkMap {
  buckets : list Bucket;
  numItems : Z;
  mask : Z;
  growAt : Z;
  shrinkAt : Z
}.

(** [int(float64(size) * 0.75)] and [int(float64(size) * 0.10)].  For a power
    of two below 2^53 the first product is exact, and the second is never
    within rounding distance of an integer (its fractional part is .2, .4,
    .6 or .8), so the truncations are the integer quotients below. *)
Definition growThreshold (size : Z) : Z := size * 3 / 4.
Definition shrinkThreshold (size : Z) : Z := size / 10.

(** [make([]Bucket, size)]. *)
Definition makeBuckets (size : Z) : list Bucket := replicate (Z.to_nat size) emptyBucket.

(** [size := 16; for size < initialSize { size *= 2 }]: an [int] can be
    doubled at most 64 times before the loop must have stopped. *)
Fixpoint NewMap_size (fuel : nat) (size initialSize : Z) : Z :=
  match fuel with
  | O => size
  | S fuel' => if size <? initialSize then NewMap_size fuel' (size * 2) initialSize else size
  end.

Definition NewMap (initialSize : Z) : Map :=
  let size := NewMap_size 64 16 initialSize in
  {| buckets := makeBuckets size;
     numItems := 0;
     mask := size - 1;
     growAt := growThreshold size;
     shrinkAt := shrinkThreshold size |}.

Record Shard : Type := mkShard {
  m : Map;
  memUsed : Z;      (* int64 *)
  maxMemory : Z;    (* int64 *)
  numOps : Z;       (* uint64 *)
  numHits : Z;
  numMisses : Z;
  numEvicted : Z;
  numExpired : Z
}.

Definition NewShard (maxMem : Z) : Shard :=
  {| m := NewMap 16; memUsed := 0; maxMemory := maxMem;
     numOps := 0; numHits := 0; numMisses := 0; numEvicted := 0; numExpired := 0 |}.

Definition setM (mp : Map) (s : Shard) : Shard :=
  {| m := mp; memUsed := memUsed s; maxMemory := maxMemory s;
     numOps := numOps s; numHits := numHits s; numMisses := numMisses s;
     numEvicted := numEvicted s; numExpired := numExpired s |}.
Definition setMemUsed (x : Z) (s : Shard) : Shard :=
  {| m := m s; memUsed := x; maxMemory := maxMemory s;
     numOps := numOps s; numHits := numHits s; numMisses := numMisses s;
     numEvicted := numEvicted s; numExpired := numExpired s |}.
(** [atomic.AddInt64(&s.memUsed, delta)]. *)
Definition addMemUsed (delta : Z) (s : Shard) : Shard :=
  setMemUsed (wrap_i64 (memUsed s + delta)) s.
(** [atomic.AddUint64(&shard.numX, 1)] for the five counters. *)
Definition incOps (s : Shard) : Shard :=
  {| m := m s; memUsed := memUsed s; maxMemory := maxMemory s;
     numOps := wrap_u64 (numOps s + 1); numHits := numHits s; numMisses := numMisses s;
     numEvicted := numEvicted s; numExpired := numExpired s |}.
Definition incHits (s : Shard) : Shard :=
  {| m := m s; memUsed := memUsed s; maxMemory := maxMemory s;
     numOps := numOps s; numHits := wrap_u64 (numHits s + 1); numMisses := numMisses s;
     numEvicted := numEvicted s; numExpired := numExpired s |}.
Definition incMisses (s : Shard) : Shard :=
  {| m := m s; memUsed := memUsed s; maxMemory := maxMemory s;
     numOps := numOps s; numHits := numHits s; numMisses := wrap_u64 (numMisses s + 1);
     numEvicted := numEvicted s; numExpired := numExpired s |}.
Definition incEvicted (s : Shard) : Shard :=
  {| m := m s; memUsed := memUsed s; maxMemory := maxMemory s;
     numOps := numOps s; numHits := numHits s; numMisses := numMisses s;
     numEvicted := wrap_u64 (numEvicted s + 1); numExpired := numExpired s |}.
Definition incExpired (s : Shard) : Shard :=
  {| m := m s; memUsed := memUsed s; maxMemory := maxMemory s;
     numOps := numOps s; numHits := numHits s; numMisses := numMisses s;
     numEvicted := numEvicted s; numExpired := wrap_u64 (numExpired s + 1) |}.

(** The field [maxMemory] of [Cache] is [cacheMaxMemory] here: the
    projections of [Shard] and [Cache] share one name space. *)
Record Cache : Type := mkCache {
  shards : list Shard;
  numShards : Z;
  cacheMaxMemory : Z
}.

(** [New]: [maxMemory / int64(numShards)] is Go's truncated division. *)
Definition New (nShards maxMem : Z) : Cache :=
  let n := if nShards <=? 0 then 16 else nShards in
  {| shards := replicate (Z.to_nat n) (NewShard (Z.quot maxMem n));
     numShards := n;
     cacheMaxMemory := maxMem |}.

Definition setShard (i : Z) (s : Shard) (c : Cache) : Cache :=
  {| shards := <[Z.to_nat i := s]> (shards c);
     numShards := numShards c;
     cacheMaxMemory := cacheMaxMemory c |}.

(** [Stats]: the integer counters of the snapshot (the hit rate, a float,
    is left out).  The sums of uint64 counters wrap. *)
Record StatsSnapshot : Type := mkStats {
  num_items : Z;
  mem_used : Z;
  max_memory : Z;
  num_ops : Z;
  num_hits : Z;
  num_misses : Z;
  num_evicted : Z;
  num_expired : Z
}.

Definition Stats (c : Cache) : StatsSnapshot :=
  {| num_items := fold_left (fun acc s => acc + numItems (m s)) (shards c) 0;
     mem_used := fold_left (fun acc s => wrap_i64 (acc + memUsed s)) (shards c) 0;
     max_memory := cacheMaxMemory c;
     num_ops := fold_left (fun acc s => wrap_u64 (acc + numOps s)) (shards c) 0;
     num_hits := fold_left (fun acc s => wrap_u64 (acc + numHits s)) (shards c) 0;
     num_misses := fold_left (fun acc s => wrap_u64 (acc + numMisses s)) (shards c) 0;
     num_evicted := fold_left (fun acc s => wrap_u64 (acc + numEvicted s)) (shards c) 0;
     num_expired := fold_left (fun acc s => wrap_u64 (acc + numExpired s)) (shards c) 0 |}.

(** ** The map file of package cache (Robin-Hood hashing) *)

Definition bucketAt (bs : list Bucket) (idx : Z) : option Bucket := bs !! Z.to_nat idx.
Definition setBucket (bs : list Bucket) (idx : Z) (b : Bucket) : list Bucket :=
  <[Z.to_nat idx := b]> bs.

Definition setBuckets (bs : list Bucket) (mp : Map) : Map :=
  {| buckets := bs; numItems := numItems mp; mask := mask mp;
     growAt := growAt mp; shrinkAt := shrinkAt mp |}.

(** The loop of [insertInternal].  [e], [h], [d] are the candidate entry,
    its hash and its probe distance; a resident with a smaller distance
    trades places with the candidate.  [distance++] is a uint16 increment. *)
Fixpoint insertInternal_loop (fuel : nat) (mp : Map) (idx : Z)
    (e : Entry) (h d : Z) : option Map :=
  match fuel with
  | O => None
  | S fuel' =>
    b ← bucketAt (buckets mp) idx;
    match entry b with
    | None =>
        Some {| buckets := setBucket (buckets mp) idx
                             {| entry := Some e; hash := h; distance := d |};
                numItems := numItems mp + 1;
                mask := mask mp; growAt := growAt mp; shrinkAt := shrinkAt mp |}
    | Some r =>
        if distance b <? d then
          insertInternal_loop fuel'
            (setBuckets (setBucket (buckets mp) idx
                           {| entry := Some e; hash := h; distance := d |}) mp)
            (Z.land (idx + 1) (mask mp)) r (hash b) (wrap_u16 (distance b + 1))
        else
          insertInternal_loop fuel' mp (Z.land (idx + 1) (mask mp)) e h (wrap_u16 (d + 1))
    end
  end.

(** [insertInternal]: the walk starts at the home bucket [hash & mask].  One
    sweep of the table is the fuel: the walk stops at the first empty
    bucket, and a table that has one is left within [len(buckets)] steps. *)
Definition insertInternal (mp : Map) (e : Entry) (h : Z) : option Map :=
  insertInternal_loop (S (length (buckets mp))) mp (Z.land h (mask mp)) e h 0.

(** The loop of [resize] over the old bucket array. *)
Fixpoint reinsert (old : list Bucket) (mp : Map) : option Map :=
  match old with
  | [] => Some mp
  | b :: rest =>
      match entry b with
      | Some e => mp' ← insertInternal mp e (hash b); reinsert rest mp'
      | None => reinsert rest mp
      end
  end.

Definition Map_resize (mp : Map) (newSize : Z) : option Map :=
  reinsert (buckets mp)
    {| buckets := makeBuckets newSize;
       numItems := 0;
       mask := newSize - 1;
       growAt := growThreshold newSize;
       shrinkAt := shrinkThreshold newSize |}.

(** The byte loop of [lookup], run after the two lengths were found equal:
    [for i := range key { if key[i] != entry.key[i] { match = false } }]. *)
Fixpoint sameBytes (k ek : string) : bool :=
  match k, ek with
  | EmptyString, _ => true
  | String c k', String c' ek' => if Ascii.eqb c c' then sameBytes k' ek' else false
  | String _ _, EmptyString => false
  end.

Definition keyMatches (b : Bucket) (e : Entry) (k : string) (h : Z) : bool :=
  (hash b =? h) && (len (key e) =? len k) && sameBytes k (key e).

(** The loop of [lookup]: [Some None] is the Go result [(nil, -1)]. *)
Fixpoint lookup_loop (fuel : nat) (mp : Map) (k : string) (h : Z)
    (idx d : Z) : option (option (Entry * Z)) :=
  match fuel with
  | O => None
  | S fuel' =>
    b ← bucketAt (buckets mp) idx;
    match entry b with
    | None => Some None
    | Some e =>
        if distance b <? d then Some None
        else if keyMatches b e k h then Some (Some (e, idx))
        else lookup_loop fuel' mp k h (Z.land (idx + 1) (mask mp)) (wrap_u16 (d + 1))
    end
  end.

Definition Map_lookup (mp : Map) (k : string) (h : Z) : option (option (Entry * Z)) :=
  lookup_loop (S (length (buckets mp))) mp k h (Z.land h (mask mp)) 0.

Definition clearEntry (b : Bucket) : Bucket :=
  {| entry := None; hash := hash b; distance := distance b |}.
Definition decDistance (b : Bucket) : Bucket :=
  {| entry := entry b; hash := hash b; distance := wrap_u16 (distance b - 1) |}.

(** The backward-shift loop of [delete]. *)
Fixpoint shift_loop (fuel : nat) (bs : list Bucket) (msk idx nextIdx : Z)
    : option (list Bucket) :=
  match fuel with
  | O => None
  | S fuel' =>
    nb ← bucketAt bs nextIdx;
    match entry nb with
    | Some _ =>
        if 0 <? distance nb then
          let bs1 := setBucket bs idx (decDistance nb) in
          nb' ← bucketAt bs1 nextIdx;
          shift_loop fuel' (setBucket bs1 nextIdx (clearEntry nb')) msk
            nextIdx (Z.land (nextIdx + 1) msk)
        else Some bs
    | None => Some bs
    end
  end.

(** [delete]: the result is the map and the removed entry ([None] for the
    Go result nil). *)
Definition Map_delete (mp : Map) (k : string) (h : Z) : option (Map * option Entry) :=
  r ← Map_lookup mp k h;
  match r with
  | None => Some (mp, None)
  | Some (e, idx) =>
      b ← bucketAt (buckets mp) idx;
      let bs0 := setBucket (buckets mp) idx (clearEntry b) in
      bs ← shift_loop (S (length bs0)) bs0 (mask mp) idx (Z.land (idx + 1) (mask mp));
      let mp1 := {| buckets := bs; numItems := numItems mp - 1; mask := mask mp;
                    growAt := growAt mp; shrinkAt := shrinkAt mp |} in
      if (numItems mp1 <? shrinkAt mp1) && (16 <? Z.of_nat (length (buckets mp1))) then
        mp2 ← Map_resize mp1 (Z.of_nat (length (buckets mp1)) / 2);
        Some (mp2, Some e)
      else Some (mp1, Some e)
  end.

(** [randomEntries]: a pointer to an entry of the table is the index of its
    bucket, paired with the entry it points to. *)
Fixpoint randomEntries_loop (bs : list Bucket) (i : Z) (nItems n : Z) (seen : Z)
    (acc : list (Z * Entry)) : list (Z * Entry) :=
  match bs with
  | [] => acc
  | b :: rest =>
      if Z.of_nat (length acc) <? n then
        match entry b with
        | Some e =>
            let acc' := if seen mod (nItems / n + 1) =? 0 then acc ++ [(i, e)] else acc in
            randomEntries_loop rest (i + 1) nItems n (seen + 1) acc'
        | None => randomEntries_loop rest (i + 1) nItems n seen acc
        end
      else acc
  end.

Definition randomEntries (mp : Map) (n : Z) : list (Z * Entry) :=
  if (n <=? 0) || (numItems mp =? 0) then []
  else randomEntries_loop (buckets mp) 0 (numItems mp) n 0 [].

Section WithHash.
(** [hashKey] is [xxhash.Sum64] of the imported package
    github.com/cespare/xxhash/v2: a parameter of the development. *)
Variable hashKey : string -> Z.

(** The in-place update of [insert] on a present key. *)
Definition overwrite (existing e : Entry) : Entry :=
  IncrementCAS (setFlags (flags e) (setExpireAt (expireAt e) (setValue (value e) existing))).

(** [insert]: the result is the map and the copy of the old entry ([None]
    for nil). *)
Definition Map_insert (mp : Map) (e : Entry) : option (Map * option Entry) :=
  let h := hashKey (key e) in
  r ← Map_lookup mp (key e) h;
  match r with
  | Some (existing, idx) =>
      b ← bucketAt (buckets mp) idx;
      Some (setBuckets (setBucket (buckets mp) idx
              {| entry := Some (overwrite existing e); hash := hash b;
                 distance := distance b |}) mp,
            Some existing)
  | None =>
      mp1 ← (if growAt mp <=? numItems mp
             then Map_resize mp (Z.of_nat (length (buckets mp)) * 2)
             else Some mp);
      mp2 ← insertInternal mp1 e h;
      Some (mp2, None)
  end.

Definition Map_get (mp : Map) (k : string) : option (option (Entry * Z)) :=
  Map_lookup mp k (hashKey k).

(** [getShard]: the index [h % uint64(c.numShards)] and the shard there. *)
Definition shardIndex (c : Cache) (k : string) : Z := hashKey k mod numShards c.
Definition getShard (c : Cache) (k : string) : option Shard :=
  shards c !! Z.to_nat (shardIndex c k).
End WithHash.

(** ** operations.go: the parts shared by its two revisions *)

Record StoreOptions : Type := mkStoreOptions {
  TTL : Z;      (* time.Duration, nanoseconds *)
  Flags : Z;    (* uint32 *)
  CAS : Z       (* uint64 *)
}.

(** [int64ToBytes]: the loop runs [i] from 7 down to 0, writing [byte(n)]
    at [b[i]] and shifting [n] right (arithmetically) by 8. *)
Fixpoint int64ToBytes_loop (cnt : nat) (n : Z) (b : string) : string :=
  match cnt with
  | O => b
  | S cnt' => int64ToBytes_loop cnt' (Z.shiftr n 8) (String (byte_of_Z n) b)
  end.
Definition int64ToBytes (n : Z) : string := int64ToBytes_loop 8 n EmptyString.

(** [bytesToInt64]: [n = (n << 8) | int64(b[i])] on int64. *)
Definition bytesToInt64 (b : string) : Z :=
  if (String.length b =? 8)%nat
  then fold_left (fun n c => Z.lor (wrap_i64 (Z.shiftl n 8)) (Z_of_byte c))
         (list_ascii_of_string b) 0
  else 0.

(** The entry [Store] builds before it takes the lock;
    [time.Now().Add(opts.TTL).UnixNano()] is [now + TTL] on int64. *)
Definition storeEntry (k v : string) (opts : option StoreOptions) (now : Z) : Entry :=
  match opts with
  | None => newEntry k v
  | Some o =>
      setCas (CAS o) (setFlags (Flags o)
        (if 0 <? TTL o then setExpireAt (wrap_i64 (now + TTL o)) (newEntry k v)
         else newEntry k v))
  end.

(** [Clear]: every shard gets a fresh map and a zero memory counter; the
    operation counters are not touched. *)
Definition Clear (c : Cache) : Cache :=
  {| shards := map (fun s => setMemUsed 0 (setM (NewMap 16) s)) (shards c);
     numShards := numShards c;
     cacheMaxMemory := cacheMaxMemory c |}.

(** A write through an [*Entry] obtained from the table before other
    entries were removed: keys are unique in the table, so the entry, if it
    is still there, is the one a lookup of its key finds; otherwise the
    write goes to an object the table no longer holds. *)
Definition writeEntry (hashKey : string -> Z) (mp : Map) (k : string)
    (f : Entry -> Entry) : option Map :=
  r ← Map_get hashKey mp k;
  match r with
  | Some (e, idx) =>
      b ← bucketAt (buckets mp) idx;
      Some (setBuckets (setBucket (buckets mp) idx
              {| entry := Some (f e); hash := hash b; distance := distance b |}) mp)
  | None => Some mp
  end.

(** ** internal/cache/operations.go *)

Module Ops.
Section WithHash.
Variable hashKey : string -> Z.

(** The victim of one round, for a sample of two:
    [rand.Intn(2)] is the argument [coin]. *)
Definition chooseVictim (coin : Z) (e0 e1 : Entry) : Entry :=
  if (0 <? expireAt e0) && (0 <? expireAt e1) then
    if expireAt e0 <? expireAt e1 then e0 else e1
  else if coin =? 0 then e0 else e1.

(** The loop of [evictIfNeeded]; [rnd i] is what [rand.Intn(2)] returns
    in round [i].  A round removes its victim from the table. *)
Fixpoint evict_loop (fuel : nat) (round : nat) (rnd : nat -> Z)
    (s : Shard) (requiredSpace : Z) : option Shard :=
  match fuel with
  | O => None
  | S fuel' =>
    if (maxMemory s <? wrap_i64 (memUsed s + requiredSpace)) && (0 <? numItems (m s)) then
      match randomEntries (m s) 2 with
      | [] => Some s
      | p0 :: rest =>
          let toEvict := match rest with
                         | [] => p0.2
                         | p1 :: _ => chooseVictim (rnd round) p0.2 p1.2
                         end in
          r ← Map_delete (m s) (key toEvict) (hashKey (key toEvict));
          match r.2 with
          | Some e =>
              evict_loop fuel' (S round) rnd
                (incEvicted (addMemUsed (- Size e) (setM r.1 s))) requiredSpace
          | None => evict_loop fuel' (S round) rnd (setM r.1 s) requiredSpace
          end
      end
    else Some s
  end.

(** Every round that goes on removes an entry, so [numItems + 1] rounds
    are enough. *)
Definition evictIfNeeded (rnd : nat -> Z) (s : Shard) (requiredSpace : Z) : option Shard :=
  evict_loop (S (Z.to_nat (numItems (m s)))) 0 rnd s requiredSpace.

Definition Store (c : Cache) (k v : string) (opts : option StoreOptions)
    (now : Z) (rnd : nat -> Z) : option Cache :=
  let i := shardIndex hashKey c k in
  shard ← shards c !! Z.to_nat i;
  let e := storeEntry k v opts now in
  s1 ← evictIfNeeded rnd (incOps shard) (Size e);
  r ← Map_insert hashKey (m s1) e;
  let s2 := setM r.1 s1 in
  let s3 := match r.2 with
            | Some oldEntry => addMemUsed (- Size oldEntry) s2
            | None => s2
            end in
  Some (setShard i (addMemUsed (Size e) s3) c).

Definition Delete (c : Cache) (k : string) : option (Cache * bool) :=
  let i := shardIndex hashKey c k in
  shard ← shards c !! Z.to_nat i;
  let s1 := incOps shard in
  r ← Map_delete (m s1) k (hashKey k);
  match r.2 with
  | None => Some (setShard i (setM r.1 s1) c, false)
  | Some e => Some (setShard i (addMemUsed (- Size e) (setM r.1 s1)) c, true)
  end.

Definition Load (c : Cache) (k : string) (now : Z) : option (Cache * option Entry) :=
  let i := shardIndex hashKey c k in
  shard ← shards c !! Z.to_nat i;
  r ← Map_get hashKey (m shard) k;
  let c1 := setShard i (incOps shard) c in
  match r with
  | None => Some (setShard i (incMisses (incOps shard)) c, None)
  | Some (e, _) =>
      if IsExpired now e then
        d ← Delete c1 k;
        shard' ← shards d.1 !! Z.to_nat i;
        Some (setShard i (incMisses (incExpired shard')) d.1, None)
      else Some (setShard i (incHits (incOps shard)) c, Some e)
  end.

Definition CompareAndSwap (c : Cache) (k v : string) (expected : Z)
    (opts : option StoreOptions) (now : Z) (rnd : nat -> Z) : option (Cache * bool) :=
  let i := shardIndex hashKey c k in
  shard ← shards c !! Z.to_nat i;
  let s1 := incOps shard in
  r ← Map_get hashKey (m s1) k;
  match r with
  | None => Some (setShard i s1 c, false)
  | Some (existing, _) =>
      if negb (cas existing =? expected) then Some (setShard i s1 c, false)
      else
        let e0 := setCas (cas existing) (newEntry k v) in
        let e := match opts with
                 | None => e0
                 | Some o =>
                     setFlags (Flags o)
                       (if 0 <? TTL o then setExpireAt (wrap_i64 (now + TTL o)) e0 else e0)
                 end in
        s2 ← evictIfNeeded rnd s1 (Size e - Size existing);
        let upd := fun x => IncrementCAS (setFlags (flags e)
                              (setExpireAt (expireAt e) (setValue v x))) in
        mp ← writeEntry hashKey (m s2) k upd;
        (* entry.Size() - existing.Size(), read after existing.value = value *)
        Some (setShard i (addMemUsed (Size e - Size (upd existing)) (setM mp s2)) c, true)
  end.

Definition Increment (c : Cache) (k : string) (delta : Z) (rnd : nat -> Z)
    : option (Cache * Z) :=
  let i := shardIndex hashKey c k in
  shard ← shards c !! Z.to_nat i;
  let s1 := incOps shard in
  r ← Map_get hashKey (m s1) k;
  match r with
  | None =>
      let e := newEntry k (int64ToBytes delta) in
      s2 ← evictIfNeeded rnd s1 (Size e);
      r' ← Map_insert hashKey (m s2) e;
      Some (setShard i (addMemUsed (Size e) (setM r'.1 s2)) c, delta)
  | Some (e, idx) =>
      let newVal := wrap_i64 (bytesToInt64 (value e) + delta) in
      let e' := IncrementCAS (setValue (int64ToBytes newVal) e) in
      b ← bucketAt (buckets (m s1)) idx;
      let mp := setBuckets (setBucket (buckets (m s1)) idx
                  {| entry := Some e'; hash := hash b; distance := distance b |}) (m s1) in
      Some (setShard i (addMemUsed (Size e' - Size e) (setM mp s1)) c, newVal)
  end.
End WithHash.
End Ops.

(** ** The second revision of the operations file

    It differs from operations.go in [Load] (the evicted bit is checked),
    in [CompareAndSwap] (the size difference is taken before the entry is
    written) and in [evictIfNeeded] (no eviction without a memory limit,
    expired entries go first, and the victim is marked instead of removed). *)

Module Ops2.
Section WithHash.
Variable hashKey : string -> Z.

(** The victim of one round, for a sample of two. *)
Definition chooseVictim (now : Z) (coin : Z) (e0 e1 : Z * Entry) : Z * Entry :=
  let entry0Expired := IsExpired now e0.2 in
  let entry1Expired := IsExpired now e1.2 in
  if entry0Expired && negb entry1Expired then e0
  else if negb entry0Expired && entry1Expired then e1
  else if entry0Expired && entry1Expired then
    if expireAt e0.2 <? expireAt e1.2 then e0 else e1
  else if (0 <? expireAt e0.2) && (0 <? expireAt e1.2) then
    if expireAt e0.2 <? expireAt e1.2 then e0 else e1
  else if coin =? 0 then e0 else e1.

(** [toEvict.SetEvicted(true)]: the pointer is the bucket index. *)
Definition markEvicted (mp : Map) (p : Z * Entry) : option Map :=
  b ← bucketAt (buckets mp) p.1;
  Some (setBuckets (setBucket (buckets mp) p.1
          {| entry := Some (SetEvicted true p.2); hash := hash b;
             distance := distance b |}) mp).

(** One round of the loop of [evictIfNeeded], for a non-empty sample. *)
Definition evictRound (now coin : Z) (s : Shard) (p0 : Z * Entry)
    (rest : list (Z * Entry)) : option Shard :=
  let toEvict := match rest with
                 | [] => p0
                 | p1 :: _ => chooseVictim now coin p0 p1
                 end in
  mp ← markEvicted (m s) toEvict;
  Some (incEvicted (addMemUsed (- Size toEvict.2) (setM mp s))).

Fixpoint evict_loop (fuel : nat) (round : nat) (now : Z) (rnd : nat -> Z)
    (s : Shard) (requiredSpace : Z) : option Shard :=
  match fuel with
  | O => None
  | S fuel' =>
    if (maxMemory s <? wrap_i64 (memUsed s + requiredSpace)) && (0 <? numItems (m s)) then
      match randomEntries (m s) 2 with
      | [] => Some s
      | p0 :: rest =>
          s' ← evictRound now (rnd round) s p0 rest;
          evict_loop fuel' (S round) now rnd s' requiredSpace
      end
    else Some s
  end.

(** The guard [if shard.maxMemory <= 0 { return }], then the loop.  Every
    round lowers [memUsed] by at least 24, which bounds the rounds. *)
Definition evictIfNeeded (now : Z) (rnd : nat -> Z) (s : Shard) (requiredSpace : Z)
    : option Shard :=
  if maxMemory s <=? 0 then Some s
  else evict_loop (S (Z.to_nat (wrap_i64 (memUsed s + requiredSpace)))) 0 now rnd
         s requiredSpace.

Definition Store (c : Cache) (k v : string) (opts : option StoreOptions)
    (now : Z) (rnd : nat -> Z) : option Cache :=
  let i := shardIndex hashKey c k in
  shard ← shards c !! Z.to_nat i;
  let e := storeEntry k v opts now in
  s1 ← evictIfNeeded now rnd (incOps shard) (Size e);
  r ← Map_insert hashKey (m s1) e;
  let s2 := setM r.1 s1 in
  let s3 := match r.2 with
            | Some oldEntry => addMemUsed (- Size oldEntry) s2
            | None => s2
            end in
  Some (setShard i (addMemUsed (Size e) s3) c).

Definition Delete (c : Cache) (k : string) : option (Cache * bool) :=
  let i := shardIndex hashKey c k in
  shard ← shards c !! Z.to_nat i;
  let s1 := incOps shard in
  r ← Map_delete (m s1) k (hashKey k);
  match r.2 with
  | None => Some (setShard i (setM r.1 s1) c, false)
  | Some e => Some (setShard i (addMemUsed (- Size e) (setM r.1 s1)) c, true)
  end.

Definition Load (c : Cache) (k : string) (now : Z) : option (Cache * option Entry) :=
  let i := shardIndex hashKey c k in
  shard ← shards c !! Z.to_nat i;
  r ← Map_get hashKey (m shard) k;
  let c1 := setShard i (incOps shard) c in
  match r with
  | None => Some (setShard i (incMisses (incOps shard)) c, None)
  | Some (e, _) =>
      if IsEvicted e then
        d ← Delete c1 k;
        shard' ← shards d.1 !! Z.to_nat i;
        Some (setShard i (incMisses shard') d.1, None)
      else if IsExpired now e then
        d ← Delete c1 k;
        shard' ← shards d.1 !! Z.to_nat i;
        Some (setShard i (incMisses (incExpired shard')) d.1, None)
      else Some (setShard i (incHits (incOps shard)) c, Some e)
  end.

Definition CompareAndSwap (c : Cache) (k v : string) (expected : Z)
    (opts : option StoreOptions) (now : Z) (rnd : nat -> Z) : option (Cache * bool) :=
  let i := shardIndex hashKey c k in
  shard ← shards c !! Z.to_nat i;
  let s1 := incOps shard in
  r ← Map_get hashKey (m s1) k;
  match r with
  | None => Some (setShard i s1 c, false)
  | Some (existing, idx) =>
      if negb (cas existing =? expected) then Some (setShard i s1 c, false)
      else
        let newExpireAt := match opts with
                           | Some o => if 0 <? TTL o then wrap_i64 (now + TTL o) else 0
                           | None => 0
                           end in
        let newFlags := match opts with Some o => Flags o | None => 0 end in
        let sizeDelta := len v - len (value existing) in
        s2 ← evictIfNeeded now rnd s1 sizeDelta;
        (* the table was not restructured: [existing] is still at [idx] *)
        b ← bucketAt (buckets (m s2)) idx;
        cur ← entry b;
        let e' := IncrementCAS (setFlags newFlags (setExpireAt newExpireAt (setValue v cur))) in
        let mp := setBuckets (setBucket (buckets (m s2)) idx
                    {| entry := Some e'; hash := hash b; distance := distance b |}) (m s2) in
        Some (setShard i (addMemUsed sizeDelta (setM mp s2)) c, true)
  end.

Definition Increment (c : Cache) (k : string) (delta : Z) (now : Z) (rnd : nat -> Z)
    : option (Cache * Z) :=
  let i := shardIndex hashKey c k in
  shard ← shards c !! Z.to_nat i;
  let s1 := incOps shard in
  r ← Map_get hashKey (m s1) k;
  match r with
  | None =>
      let e := newEntry k (int64ToBytes delta) in
      s2 ← evictIfNeeded now rnd s1 (Size e);
      r' ← Map_insert hashKey (m s2) e;
      Some (setShard i (addMemUsed (Size e) (setM r'.1 s2)) c, delta)
  | Some (e, idx) =>
      let newVal := wrap_i64 (bytesToInt64 (value e) + delta) in
      let e' := IncrementCAS (setValue (int64ToBytes newVal) e) in
      b ← bucketAt (buckets (m s1)) idx;
      let mp := setBuckets (setBucket (buckets (m s1)) idx
                  {| entry := Some e'; hash := hash b; distance := distance b |}) (m s1) in
      Some (setShard i (addMemUsed (Size e' - Size e) (setM mp s1)) c, newVal)
  end.
End WithHash.
End Ops2.

(** ** internal/protocol/redis.go: matchPattern

    The indices [i] and [j] of the Go loop are the suffixes [pattern[i:]]
    and [key[j:]]: the loop reads nothing before them.  [matchPattern_loop]
    is the main loop followed by the trailing-star loop and the final test;
    [matchPattern_scan] is the inner loop of the star case, which calls
    [matchPattern] on [pattern[i+1:]] and every non-empty suffix of the key
    ([rec] stands for that call). *)

Definition star : ascii := "*"%char.
Definition qmark : ascii := "?"%char.

(** [for i < len(pattern) && pattern[i] == '*' { i++ }] and then
    [i == len(pattern)]. *)
Fixpoint onlyStars (p : string) : bool :=
  match p with
  | EmptyString => true
  | String c p' => if Ascii.eqb c star then onlyStars p' else false
  end.

Definition isEmpty (s : string) : bool :=
  match s with EmptyString => true | _ => false end.

(** [for j < len(key) { if matchPattern(pattern[i+1:], key[j:]) { return true }; j++ }
    return false]. *)
Fixpoint matchPattern_scan (rec : string -> bool) (k : string) : bool :=
  match k with
  | EmptyString => false
  | String _ k' => if rec k then true else matchPattern_scan rec k'
  end.

Fixpoint matchPattern_loop (p : string) (k : string) {struct p} : bool :=
  match p, k with
  | String c p', String kc k' =>
      if Ascii.eqb c star then
        if isEmpty p' then true
        else matchPattern_scan
               (fun k0 => if String.eqb p' "*" then true else matchPattern_loop p' k0) k
      else if Ascii.eqb c qmark || Ascii.eqb c kc then matchPattern_loop p' k'
      else false
  | _, _ => onlyStars p && isEmpty k
  end.

Definition matchPattern (pattern k : string) : bool :=
  if String.eqb pattern "*" then true else matchPattern_loop pattern k.

(** ** The reference hash

    [XXH64] is the 64-bit xxHash with seed 0, the function the imported
    package's [Sum64] computes.  The theorems below hold for every function
    in the place of [hashKey]; [XXH64] is used where the code is run on
    concrete keys. *)

Module XXH.
Definition prime1 : Z := 11400714785074694791.
Definition prime2 : Z := 14029467366897019727.
Definition prime3 : Z := 1609587929392839161.
Definition prime4 : Z := 9650029242287828579.
Definition prime5 : Z := 2870177450012600261.

Definition rol (r x : Z) : Z :=
  wrap_u64 (Z.lor (Z.shiftl x r) (Z.shiftr x (64 - r))).
Definition round (acc input : Z) : Z :=
  wrap_u64 (rol 31 (wrap_u64 (acc + input * prime2)) * prime1).
Definition mergeRound (acc val : Z) : Z :=
  wrap_u64 (Z.lxor acc (round 0 val) * prime1 + prime4).

(** Little-endian reading of the first [n] bytes of a list. *)
Fixpoint le (n : nat) (b : list Z) : Z :=
  match n, b with
  | S n', x :: b' => x + 256 * le n' b'
  | _, _ => 0
  end.

Fixpoint stripes (fuel : nat) (b : list Z) (v1 v2 v3 v4 : Z) : Z * Z * Z * Z * list Z :=
  match fuel with
  | O => (v1, v2, v3, v4, b)
  | S fuel' =>
      if (32 <=? length b)%nat then
        stripes fuel' (drop 32 b)
          (round v1 (le 8 b)) (round v2 (le 8 (drop 8 b)))
          (round v3 (le 8 (drop 16 b))) (round v4 (le 8 (drop 24 b)))
      else (v1, v2, v3, v4, b)
  end.

Fixpoint tail8 (fuel : nat) (b : list Z) (h : Z) : Z * list Z :=
  match fuel with
  | O => (h, b)
  | S fuel' =>
      if (8 <=? length b)%nat then
        tail8 fuel' (drop 8 b)
          (wrap_u64 (rol 27 (Z.lxor h (round 0 (le 8 b))) * prime1 + prime4))
      else (h, b)
  end.

Definition tail4 (b : list Z) (h : Z) : Z * list Z :=
  if (4 <=? length b)%nat then
    (wrap_u64 (rol 23 (Z.lxor h (wrap_u64 (le 4 b * prime1))) * prime2 + prime3), drop 4 b)
  else (h, b).

Fixpoint tail1 (b : list Z) (h : Z) : Z :=
  match b with
  | [] => h
  | x :: b' => tail1 b' (wrap_u64 (rol 11 (Z.lxor h (wrap_u64 (x * prime5))) * prime1))
  end.

Definition avalanche (h : Z) : Z :=
  let h1 := wrap_u64 (Z.lxor h (Z.shiftr h 33) * prime2) in
  let h2 := wrap_u64 (Z.lxor h1 (Z.shiftr h1 29) * prime3) in
  Z.lxor h2 (Z.shiftr h2 32).

Definition sum64 (s : string) : Z :=
  let b := map Z_of_byte (list_ascii_of_string s) in
  let n := Z.of_nat (length b) in
  let '(h, rest) :=
    if (32 <=? length b)%nat then
      let '(v1, v2, v3, v4, rest) :=
        stripes (length b) b (wrap_u64 (prime1 + prime2)) prime2 0 (wrap_u64 (- prime1)) in
      let h := wrap_u64 (rol 1 v1 + rol 7 v2 + rol 12 v3 + rol 18 v4) in
      (mergeRound (mergeRound (mergeRound (mergeRound h v1) v2) v3) v4, rest)
    else (prime5, b) in
  let h := wrap_u64 (h + n) in
  let '(h, rest) := tail8 (length rest) rest h in
  let '(h, rest) := tail4 rest h in
  avalanche (tail1 rest h).
End XXH.

Definition XXH64 : string -> Z := XXH.sum64.

(** ** The map file: iter *)

(** [iter]: the callback [fn] is a Go closure; the variables it captures
    are a state of type [A] that the callback transforms, and its boolean
    result tells the walk to go on.  The buckets are visited in index
    order. *)
Fixpoint iter_loop {A : Type} (fn : A -> Entry -> A * bool) (bs : list Bucket) (a : A) : A :=
  match bs with
  | [] => a
  | b :: rest =>
      match entry b with
      | Some e => let r := fn a e in if r.2 then iter_loop fn rest r.1 else r.1
      | None => iter_loop fn rest a
      end
  end.

Definition Map_iter {A : Type} (fn : A -> Entry -> A * bool) (mp : Map) (a : A) : A :=
  iter_loop fn (buckets mp) a.

(** ** operations.go: Sweep and Iterate (the same text in both revisions)

    Both call [IsExpired], and so [time.Now()], once for every entry they
    visit.  [clock i] is the [i]-th reading of the clock during the call;
    the number of readings taken so far is threaded through the walk. *)


Section SweepWithHash.
Variable hashKey : string -> Z.




End SweepWithHash.

(** The callback [Iterate] hands to [iter]: an expired entry is skipped;
    [stop] is the captured flag. *)
Definition iterateVisit {A : Type} (fn : A -> Entry -> A * bool) (clock : nat -> Z)
    (st : A * bool * nat) (e : Entry) : (A * bool * nat) * bool :=
  if IsExpired (clock st.2) e then ((st.1.1, st.1.2, S st.2), true)
  else
    let r := fn st.1.1 e in
    if r.2 then ((r.1, st.1.2, S st.2), true) else ((r.1, true, S st.2), false).

(** [Iterate]: the state of the caller's callback, and the number of clock
    readings, after the walk over the shards. *)
Fixpoint Iterate_loop {A : Type} (fn : A -> Entry -> A * bool) (clock : nat -> Z)
    (ss : list Shard) (a : A) (tick : nat) : A * nat :=
  match ss with
  | [] => (a, tick)
  | s :: rest =>
      let r := Map_iter (iterateVisit fn clock) (m s) (a, false, tick) in
      if r.1.2 then (r.1.1, r.2) else Iterate_loop fn clock rest r.1.1 r.2
  end.

Definition Iterate {A : Type} (fn : A -> Entry -> A * bool) (clock : nat -> Z)
    (c : Cache) (a : A) : A :=
  (Iterate_loop fn clock (shards c) a O).1.

(** ** internal/protocol/redis.go: the wire format

    The connection is the string of bytes that are still to be read (all
    the bytes the peer sends until it closes), and the buffered writer is
    the string of bytes written so far.  The functions of the Go library
    that the code calls are modelled by their documented behaviour. *)

Definition CR : ascii := "013"%char.
Definition LF : ascii := "010"%char.
Definition CRLF : string := String CR (String LF EmptyString).

(** [strconv.Itoa] and [strconv.FormatInt(n, 10)]: the decimal digits, most
    significant first, after a minus sign for a negative number.  The loop
    produces the digits from the last one; a number below [2^fuel] has at
    most [fuel] digits. *)
Definition digitChar (d : Z) : ascii := ascii_of_nat (48 + Z.to_nat d).

Fixpoint formatDigits (fuel : nat) (n : Z) (acc : string) : string :=
  match fuel with
  | O => acc
  | S fuel' =>
      let acc' := String (digitChar (n mod 10)) acc in
      if n / 10 =? 0 then acc' else formatDigits fuel' (n / 10) acc'
  end.

Definition formatUint (n : Z) : string :=
  formatDigits (S (Z.to_nat (Z.log2 n))) n EmptyString.

Definition Itoa (n : Z) : string :=
  if n <? 0 then String "-"%char (formatUint (- n)) else formatUint n.

(** [strconv.Atoi]: an optional sign, then one or more decimal digits and
    nothing else, and a value that fits an [int] (64 bits); anything else
    is an error ([None]). *)
Definition isDigit (c : ascii) : bool :=
  (48 <=? nat_of_ascii c)%nat && (nat_of_ascii c <=? 57)%nat.

Fixpoint parseDigits (s : string) (acc : Z) : option Z :=
  match s with
  | EmptyString => Some acc
  | String c s' =>
      if isDigit c then parseDigits s' (acc * 10 + (Z.of_nat (nat_of_ascii c) - 48))
      else None
  end.

Definition Atoi (s : string) : option Z :=
  match s with
  | EmptyString => None
  | String c s' =>
      let negative := Ascii.eqb c "-"%char in
      let body := if negative || Ascii.eqb c "+"%char then s' else s in
      match body with
      | EmptyString => None
      | _ =>
          n ← parseDigits body 0;
          let v := if negative then - n else n in
          if (- 2 ^ 63 <=? v) && (v <? 2 ^ 63) then Some v else None
      end
  end.

(** [strings.TrimSpace] and [strings.Fields], on their ASCII paths.  The Go
    functions switch to Unicode-aware code when they meet a byte of 0x80 or
    more (TrimSpace: while it scans the white space at either end; Fields:
    anywhere in the string); that code is not modelled, and the result is
    then [None]. *)
Definition isASCII (c : ascii) : bool := (nat_of_ascii c <? 128)%nat.

(** The table [asciiSpace]: tab, newline, vertical tab, form feed, carriage
    return and space. *)
Definition asciiSpace (c : ascii) : bool :=
  let n := nat_of_ascii c in
  ((9 <=? n)%nat && (n <=? 13)%nat) || (n =? 32)%nat.

Fixpoint trimLeft (s : string) : option string :=
  match s with
  | EmptyString => Some EmptyString
  | String c s' =>
      if negb (isASCII c) then None
      else if asciiSpace c then trimLeft s'
      else Some s
  end.

(** The scan from the end: [trimRight s'] is empty when the scan has come
    down to the byte before [s']. *)
Fixpoint trimRight (s : string) : option string :=
  match s with
  | EmptyString => Some EmptyString
  | String c s' =>
      r ← trimRight s';
      match r with
      | EmptyString =>
          if negb (isASCII c) then None
          else if asciiSpace c then Some EmptyString
          else Some (String c EmptyString)
      | _ => Some (String c r)
      end
  end.

Definition TrimSpace (s : string) : option string := t ← trimLeft s; trimRight t.

Fixpoint fields_loop (s : string) (cur : string) : list string :=
  match s with
  | EmptyString => match cur with EmptyString => [] | _ => [cur] end
  | String c s' =>
      if asciiSpace c then
        match cur with
        | EmptyString => fields_loop s' EmptyString
        | _ => cur :: fields_loop s' EmptyString
        end
      else fields_loop s' (cur ++ String c EmptyString)%string
  end.

Definition Fields (s : string) : option (list string) :=
  if forallb isASCII (list_ascii_of_string s) then Some (fields_loop s EmptyString) else None.

(** What a read from the connection comes to: a value and the bytes left,
    an error, or a run-time panic. *)
Inductive ReadError : Type :=
  | ErrEOF | ErrUnexpectedEOF | ErrAtoi | ErrExpectedBulk.

Inductive Read (A : Type) : Type :=
  | Got (a : A) (rest : string)
  | Failed (e : ReadError)
  | Panicked.
Arguments Got {A} a rest.
Arguments Failed {A} e.
Arguments Panicked {A}.

(** [bufio.Reader.ReadString('\n')]: the bytes up to and including the
    first newline; [None] when the stream ends before one (the Go call then
    returns io.EOF). *)
Fixpoint ReadString (input : string) : option (string * string) :=
  match input with
  | EmptyString => None
  | String c rest =>
      if Ascii.eqb c LF then Some (String c EmptyString, rest)
      else r ← ReadString rest; Some (String c r.1, r.2)
  end.

Fixpoint takeBytes (n : nat) (s : string) : string :=
  match n, s with
  | S n', String c s' => String c (takeBytes n' s')
  | _, _ => EmptyString
  end.
Fixpoint dropBytes (n : nat) (s : string) : string :=
  match n, s with
  | S n', String _ s' => dropBytes n' s'
  | _, _ => s
  end.

(** [io.ReadFull(reader, buf)] for a buffer of [n] bytes. *)
Definition ReadFull (input : string) (n : Z) : Read string :=
  if n <=? len input then Got (takeBytes (Z.to_nat n) input) (dropBytes (Z.to_nat n) input)
  else match input with
       | EmptyString => Failed ErrEOF
       | _ => Failed ErrUnexpectedEOF
       end.

Section Wire.
(** [maxAlloc]: the largest allocation the Go run time accepts (2^48
    bytes on linux/amd64).  [make] panics on a negative length and on a
    size above [maxAlloc]; an allocation within it is taken to succeed. *)
Variable maxAlloc : Z.

(** The loop of [readArray], for the [count - i] elements still to be
    read; the result is [None] where [TrimSpace] leaves its ASCII
    path. *)
Fixpoint readArray_loop (todo : nat) (input : string) (args : list string)
    : option (Read (list string)) :=
  match todo with
  | O => Some (Got args input)
  | S todo' =>
      match ReadString input with
      | None => Some (Failed ErrEOF)
      | Some (line0, rest) =>
          line ← TrimSpace line0;
          match line with
          | EmptyString => Some (Failed ErrExpectedBulk)
          | String c num =>
              if negb (Ascii.eqb c "$"%char) then Some (Failed ErrExpectedBulk)
              else
                match Atoi num with
                | None => Some (Failed ErrAtoi)
                | Some size =>
                    let n := wrap_i64 (size + 2) in
                    (* buf := make([]byte, size+2) *)
                    if (n <? 0) || (maxAlloc <? n) then Some Panicked
                    else
                      match ReadFull rest n with
                      | Got buf rest' =>
                          (* string(buf[:size]) *)
                          if (size <? 0) || (n <? size) then Some Panicked
                          else readArray_loop todo' rest'
                                 (args ++ [takeBytes (Z.to_nat size) buf])
                      | Failed e => Some (Failed e)
                      | Panicked => Some Panicked
                      end
                end
          end
      end
  end.

(** [readArray]; [line] is the first line, trimmed, and [input] what
    follows it.  A string header takes 16 bytes. *)
Definition readArray (input : string) (line : string) : option (Read (list string)) :=
  match Atoi (match line with String _ tl => tl | EmptyString => EmptyString end) with
  | None => Some (Failed ErrAtoi)
  | Some count =>
      (* args := make([]string, 0, count) *)
      if (count <? 0) || (maxAlloc <? count * 16) then Some Panicked
      else readArray_loop (Z.to_nat count) input []
  end.

(** [readCommand]; [Got [] rest] stands for the Go result [(nil, nil)]. *)
Definition readCommand (input : string) : option (Read (list string)) :=
  match ReadString input with
  | None => Some (Failed ErrEOF)
  | Some (line0, rest) =>
      line ← TrimSpace line0;
      match line with
      | EmptyString => Some (Got [] rest)
      | String c _ =>
          if Ascii.eqb c "*"%char then readArray rest line
          else f ← Fields line; Some (Got f rest)
      end
  end.
End Wire.

(** The writers: each returns the buffer with its bytes appended. *)
Definition writeError (w msg : string) : string := (w ++ "-" ++ msg ++ CRLF)%string.
Definition writeSimpleString (w msg : string) : string := (w ++ "+" ++ msg ++ CRLF)%string.
Definition writeInteger (w : string) (n : Z) : string := (w ++ ":" ++ Itoa n ++ CRLF)%string.
Definition writeBulkString (w s : string) : string :=
  (w ++ "$" ++ Itoa (len s) ++ CRLF ++ s ++ CRLF)%string.
Definition writeNil (w : string) : string := (w ++ "$-1" ++ CRLF)%string.
Definition writeArray (w : string) (items : list string) : string :=
  fold_left writeBulkString items (w ++ "*" ++ Itoa (Z.of_nat (length items)) ++ CRLF)%string.

(** [handleKeys]: the callback collects the keys that match; the reply is
    the array of the keys collected. *)
Definition keysVisit (pattern : string) (keys : list string) (e : Entry)
    : list string * bool :=
  (if String.eqb pattern "*"%string || matchPattern pattern (key e) then keys ++ [key e] else keys,
   true).

Definition handleKeys (clock : nat -> Z) (c : Cache) (w : string) (pattern : string) : string :=
  writeArray w (Iterate (keysVisit pattern) clock c []).

(** * Proofs *)

(** ** Arithmetic of masks and wrapped integers *)

Lemma land_mask (x n k : Z) : 0 <= k -> n = 2 ^ k -> Z.land x (n - 1) = x mod n.
Proof.
  intros Hk ->. rewrite <- Z.land_ones by lia. f_equal.
  rewrite Z.ones_equiv. lia.
Qed.

Lemma wrap_u16_small (x : Z) : 0 <= x < 2 ^ 16 -> wrap_u16 x = x.
Proof. intros H. unfold wrap_u16. apply Z.mod_small. lia. Qed.

Lemma wrap_i64_small (x : Z) : - 2 ^ 63 <= x < 2 ^ 63 -> wrap_i64 x = x.
Proof. intros H. unfold wrap_i64. rewrite Z.mod_small; lia. Qed.

Lemma wrap_i64_add_l (x y : Z) : wrap_i64 (wrap_i64 x + y) = wrap_i64 (x + y).
Proof.
  unfold wrap_i64.
  replace ((x + 2 ^ 63) mod 2 ^ 64 - 2 ^ 63 + y + 2 ^ 63)
    with ((x + 2 ^ 63) mod 2 ^ 64 + y) by lia.
  rewrite Zplus_mod_idemp_l. do 2 f_equal. lia.
Qed.

(** ** The entries of a bucket array *)

Definition live (bs : list Bucket) : list Entry := omap entry bs.
Definition entries (mp : Map) : list Entry := live (buckets mp).
Definition capacity (mp : Map) : Z := Z.of_nat (length (buckets mp)).

Lemma bucketAt_Some (bs : list Bucket) (i : Z) (b : Bucket) :
  bucketAt bs i = Some b -> (Z.to_nat i < length bs)%nat.
Proof. unfold bucketAt. apply lookup_lt_Some. Qed.

Lemma bucketAt_is_Some (bs : list Bucket) (i : Z) :
  0 <= i < Z.of_nat (length bs) -> exists b, bucketAt bs i = Some b.
Proof.
  intros H. unfold bucketAt.
  destruct (lookup_lt_is_Some_2 bs (Z.to_nat i)) as [b Hb]; [lia | eauto].
Qed.

Lemma bucketAt_set_eq (bs : list Bucket) (i : Z) (b : Bucket) :
  0 <= i < Z.of_nat (length bs) -> bucketAt (setBucket bs i b) i = Some b.
Proof. intros H. unfold bucketAt, setBucket. apply list_lookup_insert_eq. lia. Qed.

Lemma bucketAt_set_ne (bs : list Bucket) (i j : Z) (b : Bucket) :
  0 <= i -> 0 <= j -> i <> j -> bucketAt (setBucket bs i b) j = bucketAt bs j.
Proof. intros Hi Hj Hne. unfold bucketAt, setBucket. apply list_lookup_insert_ne. lia. Qed.

Lemma length_setBucket (bs : list Bucket) (i : Z) (b : Bucket) :
  length (setBucket bs i b) = length bs.
Proof. apply length_insert. Qed.

(** Replacing one bucket changes the entry list at one place. *)
Lemma live_setBucket (bs : list Bucket) (i : Z) (b : Bucket) :
  bucketAt bs i = Some b ->
  exists l1 l2, live bs = l1 ++ option_list (entry b) ++ l2 /\
    forall b', live (setBucket bs i b') = l1 ++ option_list (entry b') ++ l2.
Proof.
  intros Hb. unfold bucketAt in Hb.
  exists (live (take (Z.to_nat i) bs)), (live (drop (S (Z.to_nat i)) bs)).
  assert (Hlt := lookup_lt_Some _ _ _ Hb).
  split.
  - rewrite <- (take_drop_middle _ _ _ Hb) at 1.
    unfold live. rewrite omap_app. f_equal. simpl. destruct (entry b); reflexivity.
  - intros b'. unfold setBucket. rewrite insert_take_drop by exact Hlt.
    unfold live. rewrite omap_app. f_equal. simpl. destruct (entry b'); reflexivity.
Qed.

Lemma live_replicate_empty (n : nat) : live (replicate n emptyBucket) = [].
Proof. induction n; simpl; auto. Qed.

Lemma live_In (bs : list Bucket) (e : Entry) :
  In e (live bs) <-> exists i b, 0 <= i /\ bucketAt bs i = Some b /\ entry b = Some e.
Proof.
  unfold live. rewrite <- list_elem_of_In, list_elem_of_omap. split.
  - intros (b & Hb & He). apply list_elem_of_lookup in Hb as [i Hi].
    exists (Z.of_nat i), b. unfold bucketAt. rewrite Nat2Z.id. split; [lia | auto].
  - intros (i & b & _ & Hb & He). exists b. split; [| exact He].
    apply list_elem_of_lookup. eauto.
Qed.

(** A bucket array with fewer entries than buckets has an empty bucket. *)
Lemma live_short_empty (bs : list Bucket) :
  (length (live bs) < length bs)%nat ->
  exists i b, 0 <= i < Z.of_nat (length bs) /\ bucketAt bs i = Some b /\ entry b = None.
Proof.
  induction bs as [| b bs IH]; simpl; [lia |].
  intros H. destruct (entry b) eqn:E.
  - simpl in H. destruct IH as (i & b' & Hi & Hb & He); [lia |].
    exists (i + 1), b'. split; [lia |]. split; [| exact He].
    unfold bucketAt in *. replace (Z.to_nat (i + 1)) with (S (Z.to_nat i)) by lia. exact Hb.
  - exists 0, b. split; [lia |]. auto.
Qed.

Lemma live_length_le (bs : list Bucket) : (length (live bs) <= length bs)%nat.
Proof.
  induction bs as [| b bs IH]; simpl; [lia |]. destruct (entry b); simpl; lia.
Qed.

(** ** The shape of a table *)

(** The geometry the index arithmetic relies on. *)
Definition Geom (bs : list Bucket) (msk : Z) : Prop :=
  exists k, 4 <= k /\ Z.of_nat (length bs) = 2 ^ k /\ msk = 2 ^ k - 1.

Record Shape (mp : Map) : Prop := mkShape {
  shape_geom : Geom (buckets mp) (mask mp);
  shape_grow : growAt mp = growThreshold (capacity mp);
  shape_shrink : shrinkAt mp = shrinkThreshold (capacity mp);
  shape_count : numItems mp = Z.of_nat (length (entries mp))
}.

Lemma Geom_cap (bs : list Bucket) (msk : Z) : Geom bs msk -> 16 <= Z.of_nat (length bs).
Proof.
  intros (k & Hk & Hn & _). rewrite Hn.
  change 16 with (2 ^ 4). apply Z.pow_le_mono_r; lia.
Qed.

Lemma Geom_land (bs : list Bucket) (msk x : Z) :
  Geom bs msk -> Z.land x msk = x mod Z.of_nat (length bs).
Proof.
  intros (k & Hk & Hn & ->). rewrite Hn. apply (land_mask x (2 ^ k) k); [lia | reflexivity].
Qed.

Lemma Geom_land_range (bs : list Bucket) (msk x : Z) :
  Geom bs msk -> 0 <= Z.land x msk < Z.of_nat (length bs).
Proof.
  intros G. rewrite (Geom_land _ _ _ G). apply Z.mod_pos_bound.
  pose proof (Geom_cap _ _ G). lia.
Qed.

Lemma Geom_length (bs bs' : list Bucket) (msk : Z) :
  length bs' = length bs -> Geom bs msk -> Geom bs' msk.
Proof. intros Hl (k & ?). exists k. rewrite Hl. auto. Qed.

Lemma mod_step (n i t : Z) : 0 < n -> ((i + 1) mod n + t) mod n = (i + (t + 1)) mod n.
Proof. intros Hn. rewrite Zplus_mod_idemp_l. f_equal. lia. Qed.

Lemma mod_add_ne (n i s : Z) : 0 <= i < n -> 0 < s < n -> (i + s) mod n <> i.
Proof.
  intros Hi Hs Heq.
  destruct (Z_lt_ge_dec (i + s) n) as [Hlt | Hge].
  - rewrite Z.mod_small in Heq; lia.
  - replace (i + s) with ((i + s - n) + 1 * n) in Heq by lia.
    rewrite Z_mod_plus_full, Z.mod_small in Heq; lia.
Qed.

Lemma perm_middle_swap (A : Type) (x y : A) (l1 l2 : list A) :
  Permutation (x :: l1 ++ y :: l2) (y :: l1 ++ x :: l2).
Proof.
  rewrite <- !Permutation_middle. apply perm_swap.
Qed.

(** ** insertInternal: termination and contents *)

(** What [insertInternal] does to the table, whatever the order inside it:
    one more entry, same geometry. *)
Definition added (e : Entry) (mp mp' : Map) : Prop :=
  length (buckets mp') = length (buckets mp) /\ mask mp' = mask mp /\
  growAt mp' = growAt mp /\ shrinkAt mp' = shrinkAt mp /\
  numItems mp' = numItems mp + 1 /\
  Permutation (entries mp') (e :: entries mp).

Lemma insertInternal_loop_total (t : nat) : forall (fuel : nat) (mp : Map) (idx : Z)
    (e : Entry) (h d : Z),
  Geom (buckets mp) (mask mp) ->
  0 <= idx < capacity mp -> (t < fuel)%nat -> Z.of_nat t < capacity mp ->
  (exists b, bucketAt (buckets mp) ((idx + Z.of_nat t) mod capacity mp) = Some b /\
             entry b = None) ->
  exists mp', insertInternal_loop fuel mp idx e h d = Some mp' /\ added e mp mp'.
Proof.
  induction t as [| t IH]; intros fuel mp idx e h d G Hidx Hfuel Ht (be & Hbe & Hnone).
  - destruct fuel as [| fuel]; [lia |]. simpl.
    replace (idx + Z.of_nat 0) with idx in Hbe by lia.
    unfold capacity in *. rewrite Z.mod_small in Hbe by lia.
    rewrite Hbe. simpl. rewrite Hnone.
    eexists. split; [reflexivity |]. unfold added; simpl.
    rewrite length_setBucket. repeat split; auto.
    unfold entries; simpl.
    destruct (live_setBucket _ _ _ Hbe) as (l1 & l2 & H1 & H2).
    rewrite H2, H1, Hnone. simpl. symmetry. apply Permutation_middle.
  - destruct fuel as [| fuel]; [lia |]. simpl.
    destruct (bucketAt_is_Some (buckets mp) idx Hidx) as [b Hb].
    rewrite Hb. simpl.
    destruct (live_setBucket _ _ _ Hb) as (l1 & l2 & H1 & H2).
    destruct (entry b) as [r |] eqn:Er.
    + assert (Hn : 0 < capacity mp) by (unfold capacity in *; lia).
      assert (Hstep : Z.land (idx + 1) (mask mp) = (idx + 1) mod capacity mp)
        by (apply Geom_land; exact G).
      assert (Hrange : 0 <= (idx + 1) mod capacity mp < capacity mp)
        by (apply Z.mod_pos_bound; lia).
      assert (Hpos : ((idx + 1) mod capacity mp + Z.of_nat t) mod capacity mp
                     = (idx + Z.of_nat (S t)) mod capacity mp).
      { rewrite mod_step by lia. f_equal. lia. }
      destruct (distance b <? d).
      * edestruct (IH fuel (setBuckets (setBucket (buckets mp) idx
                    {| entry := Some e; hash := h; distance := d |}) mp)
                    (Z.land (idx + 1) (mask mp)) r (hash b) (wrap_u16 (distance b + 1)))
          as (mp' & Hrun & Hadd).
        -- simpl. eapply Geom_length; [| exact G]. apply length_setBucket.
        -- unfold capacity; simpl. rewrite length_setBucket. fold (capacity mp).
           rewrite Hstep. exact Hrange.
        -- lia.
        -- unfold capacity; simpl. rewrite length_setBucket. fold (capacity mp). lia.
        -- exists be. split; [| exact Hnone].
           unfold capacity; simpl. rewrite length_setBucket. fold (capacity mp).
           rewrite Hstep, Hpos.
           rewrite bucketAt_set_ne; [exact Hbe | lia | |].
           ++ apply Z.mod_pos_bound; lia.
           ++ intros Heq. symmetry in Heq. revert Heq. apply mod_add_ne; lia.
        -- exists mp'. split; [exact Hrun |].
           destruct Hadd as (A1 & A2 & A3 & A4 & A5 & A6). simpl in *.
           rewrite length_setBucket in A1.
           unfold added. repeat split; auto.
           rewrite A6. unfold entries; simpl. rewrite H2, H1. simpl.
           apply perm_middle_swap.
      * edestruct (IH fuel mp (Z.land (idx + 1) (mask mp)) e h (wrap_u16 (d + 1)))
          as (mp' & Hrun & Hadd); eauto.
        -- rewrite Hstep. exact Hrange.
        -- lia.
        -- lia.
        -- exists be. rewrite Hstep, Hpos. auto.
    + eexists. split; [reflexivity |]. unfold added; simpl.
      rewrite length_setBucket. repeat split; auto.
      unfold entries; simpl. rewrite H2, H1. simpl. symmetry. apply Permutation_middle.
Qed.

(** With an empty bucket somewhere, the forward walk from any index meets
    one within a sweep. *)
Lemma empty_ahead (bs : list Bucket) (idx : Z) :
  0 <= idx < Z.of_nat (length bs) ->
  (exists i b, 0 <= i < Z.of_nat (length bs) /\ bucketAt bs i = Some b /\ entry b = None) ->
  exists t : nat, Z.of_nat t < Z.of_nat (length bs) /\
    exists b, bucketAt bs ((idx + Z.of_nat t) mod Z.of_nat (length bs)) = Some b /\
              entry b = None.
Proof.
  intros Hidx (i & b & Hi & Hb & He).
  exists (Z.to_nat ((i - idx) mod Z.of_nat (length bs))).
  assert (Hm : 0 <= (i - idx) mod Z.of_nat (length bs) < Z.of_nat (length bs))
    by (apply Z.mod_pos_bound; lia).
  split; [lia |]. exists b. split; [| exact He].
  rewrite Z2Nat.id by lia. rewrite Zplus_mod_idemp_r.
  replace (idx + (i - idx)) with i by lia. rewrite Z.mod_small by lia. exact Hb.
Qed.

Lemma insertInternal_total (mp : Map) (e : Entry) (h : Z) :
  Geom (buckets mp) (mask mp) ->
  (length (entries mp) < length (buckets mp))%nat ->
  exists mp', insertInternal mp e h = Some mp' /\ added e mp mp'.
Proof.
  intros G Hroom. unfold insertInternal.
  pose proof (Geom_land_range _ _ h G) as Hidx.
  destruct (empty_ahead (buckets mp) (Z.land h (mask mp)) Hidx) as (t & Ht & Hempty).
  { apply live_short_empty. exact Hroom. }
  apply (insertInternal_loop_total t); auto. lia.
Qed.

(** ** resize *)

Lemma reinsert_total (old : list Bucket) : forall mp : Map,
  Geom (buckets mp) (mask mp) ->
  (length (entries mp) + length (live old) < length (buckets mp))%nat ->
  exists mp', reinsert old mp = Some mp' /\
    length (buckets mp') = length (buckets mp) /\ mask mp' = mask mp /\
    growAt mp' = growAt mp /\ shrinkAt mp' = shrinkAt mp /\
    numItems mp' = numItems mp + Z.of_nat (length (live old)) /\
    Permutation (entries mp') (entries mp ++ live old).
Proof.
  induction old as [| b old IH]; intros mp G Hroom; simpl.
  - exists mp. rewrite app_nil_r. repeat split; auto. simpl. lia.
  - simpl in Hroom. destruct (entry b) as [e |] eqn:Eb; simpl in *.
    + destruct (insertInternal_total mp e (hash b) G) as (mp1 & Hins & Hadd); [lia |].
      rewrite Hins. simpl.
      destruct Hadd as (A1 & A2 & A3 & A4 & A5 & A6).
      destruct (IH mp1) as (mp' & Hrun & B1 & B2 & B3 & B4 & B5 & B6).
      * rewrite A2. eapply Geom_length; [exact A1 | exact G].
      * rewrite A1. apply Permutation_length in A6. simpl in A6. lia.
      * exists mp'. split; [exact Hrun |].
        repeat split; try congruence.
        -- rewrite B5, A5. lia.
        -- rewrite B6, A6. simpl. apply Permutation_middle.
    + apply IH; auto.
Qed.

Lemma length_makeBuckets (n : Z) : length (makeBuckets n) = Z.to_nat n.
Proof. apply length_replicate. Qed.

Lemma Map_resize_total (mp : Map) (newSize k : Z) :
  4 <= k -> newSize = 2 ^ k -> Z.of_nat (length (entries mp)) < newSize ->
  exists mp', Map_resize mp newSize = Some mp' /\
    capacity mp' = newSize /\ Shape mp' /\ Permutation (entries mp') (entries mp).
Proof.
  intros Hk Hn Hroom. unfold Map_resize.
  assert (Hpos : 0 < newSize) by (rewrite Hn; apply Z.pow_pos_nonneg; lia).
  set (fresh := {| buckets := makeBuckets newSize; numItems := 0; mask := newSize - 1;
                   growAt := growThreshold newSize; shrinkAt := shrinkThreshold newSize |}).
  assert (Hfresh : entries fresh = []).
  { unfold entries, fresh; simpl. apply live_replicate_empty. }
  destruct (reinsert_total (buckets mp) fresh) as (mp' & Hrun & B1 & B2 & B3 & B4 & B5 & B6).
  - simpl. exists k. rewrite length_makeBuckets. split; [lia |]. split; [lia |].
    rewrite Hn. reflexivity.
  - rewrite Hfresh. simpl. rewrite length_makeBuckets. unfold entries in Hroom. lia.
  - exists mp'. split; [exact Hrun |].
    simpl in B1, B2, B3, B4, B5. rewrite length_makeBuckets in B1.
    rewrite Hfresh in B6. simpl in B6.
    assert (Hcap : capacity mp' = newSize) by (unfold capacity; lia).
    split; [exact Hcap |]. split; [| exact B6].
    constructor.
    + exists k. fold (capacity mp'). rewrite Hcap, B2. split; [lia |]. split; [lia |].
      rewrite Hn. reflexivity.
    + rewrite Hcap. exact B3.
    + rewrite Hcap. exact B4.
    + rewrite B5. apply Permutation_length in B6. rewrite B6. reflexivity.
Qed.

(** ** lookup: termination and soundness *)

Lemma sameBytes_eq (k ek : string) :
  String.length ek = String.length k -> sameBytes k ek = true -> ek = k.
Proof.
  revert ek. induction k as [| c k IH]; intros [| c' ek] Hlen; simpl in *; try discriminate.
  - reflexivity.
  - destruct (Ascii.eqb c c') eqn:Ec; [| discriminate].
    apply Ascii.eqb_eq in Ec. subst c'. intros H. f_equal. apply IH; [lia | exact H].
Qed.

Lemma sameBytes_refl (k : string) : sameBytes k k = true.
Proof. induction k as [| c k IH]; simpl; [reflexivity |]. rewrite Ascii.eqb_refl. exact IH. Qed.

Lemma keyMatches_true (b : Bucket) (e : Entry) (k : string) (h : Z) :
  keyMatches b e k h = true <-> hash b = h /\ key e = k.
Proof.
  unfold keyMatches, len. split.
  - intros H. apply andb_prop in H as [H H3]. apply andb_prop in H as [H1 H2].
    apply Z.eqb_eq in H1, H2. split; [exact H1 |].
    apply sameBytes_eq; [lia | exact H3].
  - intros [-> ->]. rewrite !Z.eqb_refl, sameBytes_refl. reflexivity.
Qed.

Lemma lookup_loop_sound (fuel : nat) : forall (mp : Map) (k : string) (h idx d : Z)
    (e : Entry) (i : Z),
  Geom (buckets mp) (mask mp) -> 0 <= idx < capacity mp ->
  lookup_loop fuel mp k h idx d = Some (Some (e, i)) ->
  0 <= i < capacity mp /\
  exists b, bucketAt (buckets mp) i = Some b /\ entry b = Some e /\
            hash b = h /\ key e = k.
Proof.
  induction fuel as [| fuel IH]; intros mp k h idx d e i G Hidx Hrun; simpl in Hrun;
    [discriminate |].
  destruct (bucketAt (buckets mp) idx) as [b |] eqn:Hb; simpl in Hrun; [| discriminate].
  destruct (entry b) as [r |] eqn:Er; [| discriminate].
  destruct (distance b <? d); [discriminate |].
  destruct (keyMatches b r k h) eqn:Hm.
  - inversion Hrun; subst. split; [exact Hidx |].
    apply keyMatches_true in Hm as [H1 H2]. exists b. auto.
  - apply IH in Hrun; auto. apply Geom_land_range. exact G.
Qed.

Lemma lookup_loop_total (t : nat) : forall (fuel : nat) (mp : Map) (k : string) (h idx d : Z),
  Geom (buckets mp) (mask mp) -> 0 <= idx < capacity mp -> (t < fuel)%nat ->
  (exists b, bucketAt (buckets mp) ((idx + Z.of_nat t) mod capacity mp) = Some b /\
             entry b = None) ->
  exists r, lookup_loop fuel mp k h idx d = Some r.
Proof.
  induction t as [| t IH]; intros fuel mp k h idx d G Hidx Hfuel (be & Hbe & Hnone);
    (destruct fuel as [| fuel]; [lia |]); simpl.
  - replace (idx + Z.of_nat 0) with idx in Hbe by lia.
    rewrite Z.mod_small in Hbe by lia. rewrite Hbe. simpl. rewrite Hnone. eauto.
  - destruct (bucketAt_is_Some (buckets mp) idx Hidx) as [b Hb]. rewrite Hb. simpl.
    destruct (entry b) as [r |]; [| eauto].
    destruct (distance b <? d); [eauto |].
    destruct (keyMatches b r k h); [eauto |].
    apply IH; auto.
    + apply Geom_land_range. exact G.
    + lia.
    + exists be. split; [| exact Hnone].
      rewrite (Geom_land _ _ _ G). fold (capacity mp).
      rewrite mod_step by lia. rewrite <- Hbe. do 2 f_equal. lia.
Qed.

Lemma Map_lookup_total (mp : Map) (k : string) (h : Z) :
  Geom (buckets mp) (mask mp) ->
  (length (entries mp) < length (buckets mp))%nat ->
  exists r, Map_lookup mp k h = Some r.
Proof.
  intros G Hroom. unfold Map_lookup.
  pose proof (Geom_land_range _ _ h G) as Hidx.
  destruct (empty_ahead (buckets mp) (Z.land h (mask mp)) Hidx) as (t & Ht & Hempty).
  { apply live_short_empty. exact Hroom. }
  apply (lookup_loop_total t); auto. lia.
Qed.

Lemma Map_lookup_sound (mp : Map) (k : string) (h : Z) (e : Entry) (i : Z) :
  Geom (buckets mp) (mask mp) ->
  Map_lookup mp k h = Some (Some (e, i)) ->
  0 <= i < capacity mp /\
  exists b, bucketAt (buckets mp) i = Some b /\ entry b = Some e /\
            hash b = h /\ key e = k.
Proof.
  intros G. unfold Map_lookup. apply lookup_loop_sound; auto.
  apply Geom_land_range. exact G.
Qed.

(** ** delete: the backward shift *)

Lemma shift_loop_total (t : nat) : forall (fuel : nat) (bs : list Bucket) (msk idx : Z),
  Geom bs msk -> 0 <= idx < Z.of_nat (length bs) -> (t < fuel)%nat ->
  Z.of_nat t + 1 < Z.of_nat (length bs) ->
  (exists b, bucketAt bs idx = Some b /\ entry b = None) ->
  (exists b, bucketAt bs ((idx + 1 + Z.of_nat t) mod Z.of_nat (length bs)) = Some b /\
             entry b = None) ->
  exists bs', shift_loop fuel bs msk idx (Z.land (idx + 1) msk) = Some bs' /\
    length bs' = length bs /\ Permutation (live bs') (live bs).
Proof.
  induction t as [| t IH];
    intros fuel bs msk idx G Hidx Hfuel Ht (b0 & Hb0 & Hnone0) (be & Hbe & Hnone);
    (destruct fuel as [| fuel]; [lia |]); simpl;
    set (n := Z.of_nat (length bs)) in *;
    assert (Hn : 16 <= n) by (apply (Geom_cap _ _ G));
    rewrite (Geom_land _ _ _ G); fold n;
    assert (Hnext : 0 <= (idx + 1) mod n < n) by (apply Z.mod_pos_bound; lia).
  - replace (idx + 1 + Z.of_nat 0) with (idx + 1) in Hbe by lia.
    rewrite Hbe. simpl. rewrite Hnone. eauto.
  - destruct (bucketAt_is_Some bs ((idx + 1) mod n) Hnext) as [nb Hnb]. rewrite Hnb. simpl.
    destruct (entry nb) as [r |] eqn:Er; [| eauto].
    destruct (0 <? distance nb); [| eauto].
    assert (Hne : idx <> (idx + 1) mod n).
    { intros Heq. symmetry in Heq. revert Heq. apply mod_add_ne; lia. }
    rewrite bucketAt_set_ne by lia. rewrite Hnb. simpl.
    set (bs1 := setBucket bs idx (decDistance nb)).
    set (bs2 := setBucket bs1 ((idx + 1) mod n) (clearEntry nb)).
    assert (Hl2 : length bs2 = length bs)
      by (unfold bs2, bs1; rewrite !length_setBucket; reflexivity).
    assert (G2 : Geom bs2 msk) by (eapply Geom_length; [exact Hl2 | exact G]).
    assert (Hnb1 : bucketAt bs1 ((idx + 1) mod n) = Some nb)
      by (unfold bs1; rewrite bucketAt_set_ne by lia; exact Hnb).
    destruct (IH fuel bs2 msk ((idx + 1) mod n)) as (bs' & Hrun & Hl & Hp); auto.
    + rewrite Hl2. exact Hnext.
    + lia.
    + rewrite Hl2. fold n. lia.
    + exists (clearEntry nb). split; [| reflexivity].
      unfold bs2. apply bucketAt_set_eq. unfold bs1. rewrite length_setBucket. exact Hnext.
    + exists be. split; [| exact Hnone]. rewrite Hl2. fold n.
      replace (((idx + 1) mod n + 1 + Z.of_nat t) mod n)
        with ((idx + 1 + Z.of_nat (S t)) mod n).
      2: { replace ((idx + 1) mod n + 1 + Z.of_nat t)
             with ((idx + 1) mod n + (1 + Z.of_nat t)) by lia.
           rewrite Zplus_mod_idemp_l. f_equal. lia. }
      unfold bs2, bs1. rewrite !bucketAt_set_ne; auto; try lia.
      * apply Z.mod_pos_bound; lia.
      * intros Heq. symmetry in Heq. revert Heq.
        replace (idx + 1 + Z.of_nat (S t)) with (idx + (Z.of_nat (S t) + 1)) by lia.
        apply mod_add_ne; lia.
      * apply Z.mod_pos_bound; lia.
      * intros Heq. symmetry in Heq. revert Heq.
        rewrite <- (Zplus_mod_idemp_l (idx + 1)).
        apply mod_add_ne; lia.
    + rewrite (Geom_land _ _ _ G2), Hl2 in Hrun. fold n in Hrun.
      exists bs'. split; [rewrite (Geom_land bs msk _ G); exact Hrun |].
      split; [congruence |].
      rewrite Hp.
      destruct (live_setBucket _ _ _ Hb0) as (l1 & l2 & H1 & H2).
      destruct (live_setBucket _ _ _ Hnb1) as (l1' & l2' & H1' & H2').
      fold bs1 in H1'. unfold bs2. rewrite H2'. simpl.
      rewrite Hnone0 in H1. simpl in H1.
      assert (Hx : Permutation (r :: l1' ++ l2') (r :: live bs)).
      { rewrite Permutation_middle. rewrite Er in H1'. simpl in H1'. rewrite <- H1'.
        unfold bs1. rewrite H2, H1. simpl. rewrite Er. simpl.
        symmetry. apply Permutation_middle. }
      apply Permutation_cons_inv in Hx. exact Hx.
Qed.

(** The shift moves entries but neither adds nor drops one, and keeps the
    length of the array: by the code alone. *)
Lemma shift_loop_length (fuel : nat) : forall (bs : list Bucket) (msk idx nx : Z)
    (bs' : list Bucket),
  shift_loop fuel bs msk idx nx = Some bs' -> length bs' = length bs.
Proof.
  induction fuel as [| fuel IH]; intros bs msk idx nx bs' Hrun; simpl in Hrun;
    [discriminate |].
  destruct (bucketAt bs nx) as [nb |]; simpl in Hrun; [| discriminate].
  destruct (entry nb); [| inversion Hrun; reflexivity].
  destruct (0 <? distance nb); [| inversion Hrun; reflexivity].
  destruct (bucketAt (setBucket bs idx (decDistance nb)) nx) as [nb' |];
    simpl in Hrun; [| discriminate].
  apply IH in Hrun. rewrite Hrun, !length_setBucket. reflexivity.
Qed.

Section SoundTables.

#[local] Arguments shift_loop : simpl never.
#[local] Arguments lookup_loop : simpl never.
#[local] Arguments insertInternal_loop : simpl never.
#[local] Arguments Map_resize : simpl never.

(** ** Sound tables: the shape, and room below the growth threshold *)

Definition Sound (mp : Map) : Prop := Shape mp /\ numItems mp <= growAt mp.

Lemma growThreshold_lt (n : Z) : 0 < n -> growThreshold n < n.
Proof. intros H. unfold growThreshold. apply Z.div_lt_upper_bound; lia. Qed.

Lemma Shape_cap (mp : Map) : Shape mp -> 16 <= capacity mp.
Proof. intros [G _ _ _]. apply (Geom_cap _ _ G). Qed.

Lemma Sound_room (mp : Map) : Sound mp -> (length (entries mp) < length (buckets mp))%nat.
Proof.
  intros [HSh Hle]. pose proof (Shape_cap _ HSh) as Hc.
  rewrite (shape_count _ HSh), (shape_grow _ HSh) in Hle.
  pose proof (growThreshold_lt (capacity mp)). unfold capacity in *. lia.
Qed.

Lemma Sound_NewMap : Sound (NewMap 16).
Proof.
  split.
  - constructor; try reflexivity. exists 4. vm_compute.
    split; [discriminate | split; reflexivity].
  - vm_compute. discriminate.
Qed.

Lemma offset_to (n idx i0 : Z) :
  0 <= idx < n -> 0 <= i0 < n -> i0 <> idx ->
  (i0 - (idx + 1)) mod n + 1 < n /\
  (idx + 1 + (i0 - (idx + 1)) mod n) mod n = i0.
Proof.
  intros Hidx Hi0 Hne. split.
  - destruct (Z_lt_ge_dec (i0 - (idx + 1)) 0) as [Hneg | Hpos].
    + replace (i0 - (idx + 1)) with ((i0 - (idx + 1) + n) + (-1) * n) by lia.
      rewrite Z_mod_plus_full.
      destruct (Z.eq_dec (i0 - (idx + 1) + n) 0) as [E | E].
      * rewrite E. rewrite Z.mod_0_l by lia. lia.
      * rewrite Z.mod_small by lia. lia.
    + rewrite Z.mod_small by lia. lia.
  - rewrite Zplus_mod_idemp_r. replace (idx + 1 + (i0 - (idx + 1))) with i0 by lia.
    apply Z.mod_small. lia.
Qed.

(** The first half of [delete]: the lookup found [e] at [idx]; the bucket is
    cleared and the buckets behind it are shifted back. *)
Lemma delete_shift (mp : Map) (k : string) (h : Z) (e : Entry) (idx : Z) :
  Sound mp -> Map_lookup mp k h = Some (Some (e, idx)) ->
  exists b bs, bucketAt (buckets mp) idx = Some b /\ entry b = Some e /\
    shift_loop (S (length (setBucket (buckets mp) idx (clearEntry b))))
      (setBucket (buckets mp) idx (clearEntry b)) (mask mp) idx
      (Z.land (idx + 1) (mask mp)) = Some bs /\
    length bs = length (buckets mp) /\
    Permutation (entries mp) (e :: live bs).
Proof.
  intros HS Hr. pose proof HS as [HSh Hle]. pose proof (shape_geom _ HSh) as G.
  pose proof (Sound_room _ HS) as Hroom.
  destruct (Map_lookup_sound _ _ _ _ _ G Hr) as (Hidx & b & Hb & He & Hh & Hk).
  exists b.
  set (n := capacity mp) in *. unfold capacity in n.
  set (bs0 := setBucket (buckets mp) idx (clearEntry b)).
  assert (Hl0 : length bs0 = length (buckets mp)) by apply length_setBucket.
  destruct (live_short_empty _ Hroom) as (i0 & b0 & Hi0 & Hb0 & Hnone0).
  assert (Hne : i0 <> idx) by (intros ->; congruence).
  destruct (offset_to n idx i0 Hidx Hi0 Hne) as [Ht1 Ht2].
  assert (Hmod : 0 <= (i0 - (idx + 1)) mod n < n).
  { apply Z.mod_pos_bound. lia. }
  destruct (shift_loop_total (Z.to_nat ((i0 - (idx + 1)) mod n)) (Datatypes.S (length bs0)) bs0
              (mask mp) idx) as (bs & Hrun & Hl & Hp).
  { eapply Geom_length; [exact Hl0 | exact G]. }
  { rewrite Hl0. exact Hidx. }
  { rewrite Hl0. fold n in Hmod. lia. }
  { rewrite Hl0. fold n. lia. }
  { exists (clearEntry b). split; [| reflexivity]. apply bucketAt_set_eq. exact Hidx. }
  { exists b0. split; [| exact Hnone0]. rewrite Hl0. fold n.
    rewrite Z2Nat.id by lia. rewrite Ht2. unfold bs0.
    rewrite bucketAt_set_ne; [exact Hb0 | lia | lia | congruence]. }
  exists bs. split; [exact Hb |]. split; [exact He |]. split; [exact Hrun |].
  split; [congruence |].
  destruct (live_setBucket _ _ _ Hb) as (l1 & l2 & H1 & H2).
  rewrite Hp. unfold bs0. rewrite H2. unfold entries. rewrite H1, He. simpl.
  symmetry. apply Permutation_middle.
Qed.

(** [delete] on a sound table: it returns, the table stays sound, and the
    entry list loses exactly the entry the lookup found. *)
Lemma Map_delete_sound (mp : Map) (k : string) (h : Z) :
  Sound mp ->
  exists mp' r, Map_delete mp k h = Some (mp', r) /\ Sound mp' /\
    capacity mp' <= capacity mp /\
    match r with
    | None => mp' = mp /\ Map_lookup mp k h = Some None
    | Some e => (exists i, Map_lookup mp k h = Some (Some (e, i))) /\
                key e = k /\ Permutation (entries mp) (e :: entries mp')
    end.
Proof.
  intros HS. pose proof HS as [HSh Hle]. pose proof (shape_geom _ HSh) as G.
  pose proof (Sound_room _ HS) as Hroom.
  unfold Map_delete.
  destruct (Map_lookup_total mp k h G Hroom) as [r Hr]. rewrite Hr. simpl.
  destruct r as [[e idx] |].
  2: { exists mp, None. split; [reflexivity |]. split; [exact HS |].
       split; [lia |]. split; reflexivity. }
  destruct (Map_lookup_sound _ _ _ _ _ G Hr) as (Hidx & _ & _ & _ & _ & Hk).
  destruct (delete_shift mp k h e idx HS Hr) as (b & bs & Hb & He & Hrun & Hl & Hperm).
  rewrite Hb. simpl. rewrite Hrun. simpl.
  set (n := capacity mp) in *. unfold capacity in n.
  set (mp1 := {| buckets := bs; numItems := numItems mp - 1; mask := mask mp;
                 growAt := growAt mp; shrinkAt := shrinkAt mp |}).
  assert (Hcnt : numItems mp1 = Z.of_nat (length (entries mp1))).
  { unfold mp1, entries; simpl. rewrite (shape_count _ HSh).
    apply Permutation_length in Hperm. rewrite Hperm. simpl. lia. }
  assert (S1 : Shape mp1).
  { constructor; simpl.
    - eapply Geom_length; [| exact G]. congruence.
    - unfold capacity; simpl. rewrite Hl. apply (shape_grow _ HSh).
    - unfold capacity; simpl. rewrite Hl. apply (shape_shrink _ HSh).
    - exact Hcnt. }
  assert (Hc1 : capacity mp1 = n) by (unfold capacity, mp1; simpl; lia).
  destruct ((numItems mp - 1 <? shrinkAt mp) && (16 <? Z.of_nat (length bs))) eqn:Hshrink.
  - apply andb_prop in Hshrink as [Hlt Hbig].
    apply Z.ltb_lt in Hlt, Hbig.
    destruct G as (kk & Hkk & Hpow & Hmask).
    assert (Hlen : Z.of_nat (length bs) = 2 ^ kk) by lia.
    assert (Hk5 : 5 <= kk).
    { destruct (Z_lt_ge_dec kk 5); [| lia]. assert (kk = 4) by lia. subst kk.
      change (2 ^ 4) with 16 in Hlen. lia. }
    assert (Hhalf : Z.of_nat (length bs) / 2 = 2 ^ (kk - 1)).
    { rewrite Hlen. replace kk with ((kk - 1) + 1) at 1 by lia.
      rewrite Z.pow_add_r by lia. change (2 ^ 1) with 2. apply Z.div_mul. lia. }
    destruct (Map_resize_total mp1 (Z.of_nat (length bs) / 2) (kk - 1))
      as (mp2 & Hres & Hc2 & S2 & Hp2); [lia | exact Hhalf | |].
    { rewrite <- Hcnt. unfold mp1; simpl.
      rewrite (shape_shrink _ HSh) in Hlt. unfold shrinkThreshold, capacity in Hlt.
      fold n in Hlt.
      assert (n / 10 <= n / 2) by (apply Z.div_le_compat_l; lia).
      replace (Z.of_nat (length bs)) with n by lia. lia. }
    rewrite Hres. simpl. exists mp2, (Some e).
    split; [reflexivity |]. split; [| split].
    + split; [exact S2 |]. rewrite (shape_count _ S2), (shape_grow _ S2), Hc2.
      apply Permutation_length in Hp2. rewrite Hp2, <- Hcnt. unfold mp1; simpl.
      rewrite (shape_shrink _ HSh) in Hlt. unfold shrinkThreshold, growThreshold in *.
      unfold capacity in Hlt. fold n in Hlt. replace (Z.of_nat (length bs)) with n by lia.
      assert (n / 10 <= n / 2 * 3 / 4); [| lia].
      assert (Hn2 : n = 2 ^ kk) by (unfold n; lia).
      rewrite Hn2. replace kk with ((kk - 5) + 5) by lia.
      rewrite Z.pow_add_r by lia. change (2 ^ 5) with 32.
      assert (0 < 2 ^ (kk - 5)) by (apply Z.pow_pos_nonneg; lia).
      set (q := 2 ^ (kk - 5)) in *.
      replace (q * 32 / 2) with (q * 16) by (apply Z.div_unique_exact; lia).
      replace (q * 16 * 3 / 4) with (q * 12) by (apply Z.div_unique_exact; lia).
      apply Z.div_le_upper_bound; lia.
    + rewrite Hc2. fold n. replace (Z.of_nat (length bs)) with n by lia.
      apply Z.div_le_upper_bound; lia.
    + split; [eauto |]. split; [exact Hk |]. rewrite Hp2. exact Hperm.
  - exists mp1, (Some e). split; [reflexivity |]. split; [| split].
    + split; [exact S1 |]. unfold mp1; simpl. lia.
    + rewrite Hc1. lia.
    + split; [eauto |]. split; [exact Hk |]. exact Hperm.
Qed.

End SoundTables.

Section InPlaceWrites.

#[local] Arguments shift_loop : simpl never.
#[local] Arguments lookup_loop : simpl never.
#[local] Arguments insertInternal_loop : simpl never.
#[local] Arguments Map_resize : simpl never.

(** ** Writing to an entry in place *)

Definition withEntry (b : Bucket) (e : Entry) : Bucket :=
  {| entry := Some e; hash := hash b; distance := distance b |}.

Definition putEntry (mp : Map) (i : Z) (b : Bucket) (e : Entry) : Map :=
  setBuckets (setBucket (buckets mp) i (withEntry b e)) mp.

Lemma putEntry_entries (mp : Map) (i : Z) (b : Bucket) (ex e' : Entry) :
  bucketAt (buckets mp) i = Some b -> entry b = Some ex ->
  exists l1 l2, entries mp = l1 ++ ex :: l2 /\ entries (putEntry mp i b e') = l1 ++ e' :: l2.
Proof.
  intros Hb He. destruct (live_setBucket _ _ _ Hb) as (l1 & l2 & H1 & H2).
  exists l1, l2. unfold entries, putEntry; simpl. rewrite H2, H1, He. auto.
Qed.

Lemma putEntry_Sound (mp : Map) (i : Z) (b : Bucket) (ex e' : Entry) :
  Sound mp -> bucketAt (buckets mp) i = Some b -> entry b = Some ex ->
  Sound (putEntry mp i b e') /\ capacity (putEntry mp i b e') = capacity mp.
Proof.
  intros [HSh Hle] Hb He.
  destruct (putEntry_entries mp i b ex e' Hb He) as (l1 & l2 & H1 & H2).
  assert (Hc : capacity (putEntry mp i b e') = capacity mp).
  { unfold capacity, putEntry; simpl. rewrite length_setBucket. reflexivity. }
  split; [| exact Hc]. split; [| exact Hle].
  destruct HSh as [G Hg Hs Hn]. constructor.
  - simpl. eapply Geom_length; [apply length_setBucket | exact G].
  - rewrite Hc. exact Hg.
  - rewrite Hc. exact Hs.
  - simpl. rewrite Hn, H1, H2, !length_app. simpl. reflexivity.
Qed.

(** ** insert on a sound table *)

Section InsertSound.
Variable hashKey : string -> Z.

Lemma Map_get_total (mp : Map) (k : string) :
  Sound mp -> exists r, Map_get hashKey mp k = Some r.
Proof.
  intros HS. apply Map_lookup_total; [apply HS | apply Sound_room; exact HS].
Qed.

Lemma Map_get_sound (mp : Map) (k : string) (e : Entry) (i : Z) :
  Sound mp -> Map_get hashKey mp k = Some (Some (e, i)) ->
  0 <= i < capacity mp /\
  exists b, bucketAt (buckets mp) i = Some b /\ entry b = Some e /\ key e = k.
Proof.
  intros HS Hg. destruct (Map_lookup_sound _ _ _ _ _ (shape_geom _ (proj1 HS)) Hg)
    as (Hi & b & Hb & He & _ & Hk). eauto.
Qed.

Lemma Map_insert_sound (mp : Map) (e : Entry) :
  Sound mp ->
  exists mp' r, Map_insert hashKey mp e = Some (mp', r) /\ Sound mp' /\
    match r with
    | Some ex =>
        exists i b, Map_get hashKey mp (key e) = Some (Some (ex, i)) /\
          bucketAt (buckets mp) i = Some b /\ entry b = Some ex /\ key ex = key e /\
          mp' = putEntry mp i b (overwrite ex e)
    | None =>
        Map_get hashKey mp (key e) = Some None /\
        Permutation (entries mp') (e :: entries mp) /\
        (capacity mp' = capacity mp \/
         capacity mp' = 2 * capacity mp /\ growAt mp <= numItems mp)
    end.
Proof.
  intros HS. pose proof HS as [HSh Hle]. pose proof (shape_geom _ HSh) as G.
  unfold Map_insert.
  destruct (Map_get_total mp (key e) HS) as [r Hr]. unfold Map_get in Hr.
  rewrite Hr. simpl.
  destruct r as [[ex i] |].
  - destruct (Map_get_sound mp (key e) ex i HS Hr) as (Hi & b & Hb & He & Hk).
    rewrite Hb. simpl. exists (putEntry mp i b (overwrite ex e)), (Some ex).
    split; [reflexivity |]. split.
    + apply (putEntry_Sound mp i b ex); auto.
    + exists i, b. auto.
  - destruct (growAt mp <=? numItems mp) eqn:Hgrow.
    + apply Z.leb_le in Hgrow.
      destruct G as (kk & Hkk & Hpow & Hmask).
      destruct (Map_resize_total mp (Z.of_nat (length (buckets mp)) * 2) (kk + 1))
        as (mp1 & Hres & Hc1 & S1 & Hp1).
      * lia.
      * rewrite Hpow, Z.pow_add_r by lia. reflexivity.
      * pose proof (Sound_room _ HS). lia.
      * rewrite Hres. simpl.
        destruct (insertInternal_total mp1 e (hashKey (key e)) (shape_geom _ S1))
          as (mp2 & Hins & A1 & A2 & A3 & A4 & A5 & A6).
        { apply Permutation_length in Hp1. rewrite Hp1.
          pose proof (Sound_room _ HS). unfold capacity in Hc1. lia. }
        rewrite Hins. simpl. exists mp2, None. split; [reflexivity |].
        assert (Hc2 : capacity mp2 = 2 * capacity mp) by (unfold capacity in *; lia).
        split; [| split; [exact Hr | split]].
        -- split.
           ++ constructor.
              ** rewrite A2. eapply Geom_length; [exact A1 | apply S1].
              ** rewrite A3. replace (capacity mp2)
                   with (capacity mp1) by (unfold capacity in *; lia).
                 apply (shape_grow _ S1).
              ** rewrite A4. replace (capacity mp2)
                   with (capacity mp1) by (unfold capacity in *; lia).
                 apply (shape_shrink _ S1).
              ** rewrite A5, (shape_count _ S1). apply Permutation_length in A6.
                 rewrite A6. simpl. lia.
           ++ rewrite A5, A3, (shape_grow _ S1), Hc1, (shape_count _ S1).
              apply Permutation_length in Hp1. rewrite Hp1, <- (shape_count _ HSh).
              rewrite (shape_grow _ HSh) in Hle. unfold growThreshold, capacity in *.
              rewrite Hpow in *.
              replace kk with ((kk - 2) + 2) in * by lia.
              rewrite Z.pow_add_r in * by lia. change (2 ^ 2) with 4 in *.
              assert (0 < 2 ^ (kk - 2)) by (apply Z.pow_pos_nonneg; lia).
              set (q := 2 ^ (kk - 2)) in *.
              replace (q * 4 * 3 / 4) with (q * 3) in Hle
                by (apply Z.div_unique_exact; lia).
              replace (q * 4 * 2 * 3 / 4) with (q * 6)
                by (apply Z.div_unique_exact; lia).
              lia.
        -- rewrite A6, Hp1. reflexivity.
        -- right. split; [exact Hc2 | exact Hgrow].
    + apply Z.leb_gt in Hgrow. simpl.
      destruct (insertInternal_total mp e (hashKey (key e)) G (Sound_room _ HS))
        as (mp2 & Hins & A1 & A2 & A3 & A4 & A5 & A6).
      rewrite Hins. simpl. exists mp2, None. split; [reflexivity |].
      assert (Hc2 : capacity mp2 = capacity mp) by (unfold capacity; lia).
      split; [| split; [exact Hr | split; [exact A6 | left; exact Hc2]]].
      split.
      * constructor.
        -- rewrite A2. eapply Geom_length; [exact A1 | exact G].
        -- rewrite A3, Hc2. apply (shape_grow _ HSh).
        -- rewrite A4, Hc2. apply (shape_shrink _ HSh).
        -- rewrite A5, (shape_count _ HSh). apply Permutation_length in A6.
           rewrite A6. simpl. lia.
      * rewrite A5, A3. lia.
Qed.
End InsertSound.

End InPlaceWrites.

Section RobinHoodOrder.

#[local] Arguments shift_loop : simpl never.
#[local] Arguments lookup_loop : simpl never.
#[local] Arguments insertInternal_loop : simpl never.
#[local] Arguments Map_resize : simpl never.

(** ** The Robin-Hood order *)

Lemma bucketAt_set (bs : list Bucket) (i j : Z) (x : Bucket) :
  0 <= i -> 0 <= j < Z.of_nat (length bs) ->
  bucketAt (setBucket bs j x) i = if Z.eq_dec i j then Some x else bucketAt bs i.
Proof.
  intros Hi Hj. destruct (Z.eq_dec i j) as [-> | Hne].
  - apply bucketAt_set_eq. exact Hj.
  - apply bucketAt_set_ne; lia.
Qed.

Lemma mod_succ (n i hm d : Z) :
  0 < n -> d = (i - hm) mod n -> d + 1 < n -> ((i + 1) mod n - hm) mod n = d + 1.
Proof.
  intros Hn Hd Hlt. rewrite Zminus_mod_idemp_l.
  replace (i + 1 - hm) with ((i - hm) + 1) by lia.
  rewrite <- Zplus_mod_idemp_l, <- Hd. apply Z.mod_small.
  pose proof (Z.mod_pos_bound (i - hm) n Hn). lia.
Qed.

Lemma mod_pred (n i hm d : Z) :
  0 < n -> d = ((i + 1) mod n - hm) mod n -> 0 < d -> (i - hm) mod n = d - 1.
Proof.
  intros Hn Hd Hpos. rewrite Zminus_mod_idemp_l in Hd.
  pose proof (Z.mod_pos_bound (i + 1 - hm) n Hn) as Hb.
  replace (i - hm) with ((i + 1 - hm) - 1) by lia.
  rewrite <- Zminus_mod_idemp_l, <- Hd. apply Z.mod_small. lia.
Qed.

Lemma mod_back (n i : Z) : 0 < n -> 0 <= i < n -> ((i - 1) mod n + 1) mod n = i.
Proof.
  intros Hn Hi. rewrite Zplus_mod_idemp_l. replace (i - 1 + 1) with i by lia.
  apply Z.mod_small. exact Hi.
Qed.

Lemma mod_fwd (n i : Z) : 0 < n -> 0 <= i < n -> ((i + 1) mod n - 1) mod n = i.
Proof.
  intros Hn Hi. rewrite Zminus_mod_idemp_l. replace (i + 1 - 1) with i by lia.
  apply Z.mod_small. exact Hi.
Qed.

Lemma mod_next_inj (n i j : Z) :
  0 < n -> 0 <= i < n -> 0 <= j < n -> (i + 1) mod n = (j + 1) mod n -> i = j.
Proof.
  intros Hn Hi Hj H. rewrite <- (mod_fwd n i), <- (mod_fwd n j) by lia. rewrite H. reflexivity.
Qed.

Lemma mod_next_ne (n i : Z) : 1 < n -> 0 <= i < n -> (i + 1) mod n <> i.
Proof. intros Hn Hi. apply mod_add_ne; lia. Qed.

Section RobinHood.
Variable hashKey : string -> Z.

(** An occupied bucket at [i] caches the hash of its key, and its distance
    is the number of steps from the home bucket to [i]. *)
Definition SlotOk (bs : list Bucket) (msk i : Z) : Prop :=
  forall b e, bucketAt bs i = Some b -> entry b = Some e ->
    hash b = hashKey (key e) /\
    distance b = (i - Z.land (hash b) msk) mod Z.of_nat (length bs).

(** The order between neighbours: a bucket that is not at home follows an
    occupied bucket whose distance is at most one less. *)
Definition ProbeAt (bs : list Bucket) (i : Z) : Prop :=
  forall b', bucketAt bs ((i + 1) mod Z.of_nat (length bs)) = Some b' ->
    is_Some (entry b') -> 0 < distance b' ->
    exists b, bucketAt bs i = Some b /\ is_Some (entry b) /\
              distance b' <= distance b + 1.

Record Ordered (bs : list Bucket) (msk : Z) : Prop := mkOrdered {
  ord_cap : Z.of_nat (length bs) <= 2 ^ 16;
  ord_slot : forall i, 0 <= i < Z.of_nat (length bs) -> SlotOk bs msk i;
  ord_probe : forall i, 0 <= i < Z.of_nat (length bs) -> ProbeAt bs i
}.

Definition hasEmpty (bs : list Bucket) : Prop :=
  exists i b, 0 <= i < Z.of_nat (length bs) /\ bucketAt bs i = Some b /\ entry b = None.

(** Walking back from an occupied bucket: the [t]-th bucket before it is
    occupied and its distance is at most [t] less. *)
Lemma probe_chain (bs : list Bucket) (t : nat) : forall (p d : Z) (b : Bucket),
  0 < Z.of_nat (length bs) ->
  (forall i, 0 <= i < Z.of_nat (length bs) -> ProbeAt bs i) ->
  0 <= p < Z.of_nat (length bs) ->
  bucketAt bs p = Some b -> is_Some (entry b) -> d <= distance b ->
  Z.of_nat t <= d ->
  exists b1, bucketAt bs ((p - Z.of_nat t) mod Z.of_nat (length bs)) = Some b1 /\
    is_Some (entry b1) /\ d - Z.of_nat t <= distance b1.
Proof.
  set (n := Z.of_nat (length bs)).
  induction t as [| t IH]; intros p d b Hn HP Hp Hb Hocc Hd Ht.
  - exists b. replace (p - Z.of_nat 0) with p by lia. rewrite Z.mod_small by lia.
    split; [exact Hb |]. split; [exact Hocc | lia].
  - assert (Hprev : 0 <= (p - 1) mod n < n) by (apply Z.mod_pos_bound; lia).
    destruct (HP ((p - 1) mod n) Hprev b) as (bp & Hbp & Hoccp & Hdp).
    + fold n. rewrite mod_back by lia. exact Hb.
    + exact Hocc.
    + lia.
    + destruct (IH ((p - 1) mod n) (d - 1) bp) as (b1 & Hb1 & Hocc1 & Hd1); auto; try lia.
      exists b1. split; [| split; [exact Hocc1 | lia]].
      rewrite <- Hb1. f_equal. fold n. rewrite Zminus_mod_idemp_l. f_equal. lia.
Qed.

(** With an empty bucket in the table, no distance reaches [n - 1]. *)
Lemma distance_below (bs : list Bucket) (p : Z) (b : Bucket) :
  0 < Z.of_nat (length bs) ->
  (forall i, 0 <= i < Z.of_nat (length bs) -> ProbeAt bs i) ->
  hasEmpty bs ->
  0 <= p < Z.of_nat (length bs) ->
  bucketAt bs p = Some b -> is_Some (entry b) ->
  distance b + 1 < Z.of_nat (length bs).
Proof.
  set (n := Z.of_nat (length bs)).
  intros Hn HP (i0 & b0 & Hi0 & Hb0 & Hnone) Hp Hb Hocc.
  destruct (Z_lt_ge_dec (distance b + 1) n) as [Hlt | Hge]; [exact Hlt | exfalso].
  assert (Hm : 0 <= (p - i0) mod n < n) by (apply Z.mod_pos_bound; lia).
  destruct (probe_chain bs (Z.to_nat ((p - i0) mod n)) p (distance b) b)
    as (b1 & Hb1 & Hocc1 & _); auto; try lia.
  fold n in Hb1. rewrite Z2Nat.id in Hb1 by lia.
  rewrite Zminus_mod_idemp_r in Hb1.
  replace (p - (p - i0)) with i0 in Hb1 by lia.
  rewrite Z.mod_small in Hb1 by lia.
  rewrite Hb0 in Hb1. inversion Hb1; subst b1. rewrite Hnone in Hocc1.
  destruct Hocc1 as [x Hx]. discriminate.
Qed.

(** Keys are unique: as a list property, and by index. *)
Definition UniqueKeys (bs : list Bucket) : Prop := NoDup (key <$> live bs).

Lemma UniqueKeys_index (bs : list Bucket) : UniqueKeys bs ->
  forall (i j : nat) bi bj ei ej,
    bs !! i = Some bi -> bs !! j = Some bj -> entry bi = Some ei -> entry bj = Some ej ->
    key ei = key ej -> i = j.
Proof.
  unfold UniqueKeys, live.
  induction bs as [| b bs IH]; intros Hnd i j bi bj ei ej Hi Hj Hei Hej Hk.
  - destruct i; discriminate.
  - assert (Hin : forall (x : nat) bx ex, bs !! x = Some bx -> entry bx = Some ex ->
              key ex ∈ key <$> omap entry bs).
    { intros x bx ex Hx Hex. apply list_elem_of_fmap. exists ex. split; [reflexivity |].
      apply list_elem_of_omap. exists bx. split; [| exact Hex].
      apply list_elem_of_lookup. eauto. }
    simpl in Hnd. destruct i as [| i], j as [| j]; simpl in Hi, Hj.
    + reflexivity.
    + inversion Hi; subst bi. rewrite Hei in Hnd. simpl in Hnd.
      apply NoDup_cons in Hnd as [Hnot _]. exfalso. apply Hnot.
      rewrite Hk. eapply Hin; eauto.
    + inversion Hj; subst bj. rewrite Hej in Hnd. simpl in Hnd.
      apply NoDup_cons in Hnd as [Hnot _]. exfalso. apply Hnot.
      rewrite <- Hk. eapply Hin; eauto.
    + f_equal. apply (IH) with (bi := bi) (bj := bj) (ei := ei) (ej := ej); auto.
      destruct (entry b); simpl in Hnd; [apply NoDup_cons in Hnd as [_ Hnd] |]; exact Hnd.
Qed.

Lemma UniqueKeys_at (bs : list Bucket) (i j : Z) bi bj ei ej :
  UniqueKeys bs -> 0 <= i -> 0 <= j ->
  bucketAt bs i = Some bi -> bucketAt bs j = Some bj ->
  entry bi = Some ei -> entry bj = Some ej -> key ei = key ej -> i = j.
Proof.
  intros HU Hi Hj Hbi Hbj Hei Hej Hk.
  pose proof (UniqueKeys_index bs HU _ _ _ _ _ _ Hbi Hbj Hei Hej Hk). lia.
Qed.
End RobinHood.

End RobinHoodOrder.

Section LookupFinds.

#[local] Arguments shift_loop : simpl never.
#[local] Arguments Map_resize : simpl never.

Lemma mod_sub_ne (n p s : Z) : 0 <= p < n -> 0 < s < n -> (p - s) mod n <> p.
Proof.
  intros Hp Hs Heq.
  assert (Hq : ((p - s) mod n + s) mod n = p).
  { rewrite Zplus_mod_idemp_l. replace (p - s + s) with p by lia. apply Z.mod_small. lia. }
  rewrite Heq in Hq. revert Hq. apply mod_add_ne; lia.
Qed.

(** ** lookup finds every key of an ordered table *)

Section LookupComplete.
Variable hashKey : string -> Z.

Lemma lookup_loop_finds (t : nat) : forall (fuel : nat) (mp : Map) (k : string)
    (idx d p : Z) (b : Bucket) (e : Entry),
  Geom (buckets mp) (mask mp) -> Ordered hashKey (buckets mp) (mask mp) ->
  UniqueKeys (buckets mp) ->
  0 <= p < capacity mp -> bucketAt (buckets mp) p = Some b -> entry b = Some e ->
  key e = k -> 0 <= d -> d + Z.of_nat t = distance b ->
  idx = (p - Z.of_nat t) mod capacity mp -> (t < fuel)%nat ->
  lookup_loop fuel mp k (hashKey k) idx d = Some (Some (e, p)).
Proof.
  induction t as [| t IH]; intros fuel mp k idx d p b e G HO HU Hp Hb He Hk Hd HD Hidx Hfuel;
    (destruct fuel as [| fuel]; [lia |]); simpl;
    pose proof (Geom_cap _ _ G) as Hn; unfold capacity in *;
    destruct (ord_slot _ _ _ HO p Hp b e Hb He) as [Hh Hdist].
  - replace (p - Z.of_nat 0) with p in Hidx by lia. rewrite Z.mod_small in Hidx by lia.
    subst idx. rewrite Hb. simpl. rewrite He.
    replace (distance b <? d) with false by (symmetry; apply Z.ltb_ge; lia).
    replace (keyMatches b e k (hashKey k)) with true; [reflexivity |].
    symmetry. apply keyMatches_true. split; congruence.
  - assert (HDn : 0 <= distance b < Z.of_nat (length (buckets mp))).
    { rewrite Hdist. apply Z.mod_pos_bound. lia. }
    destruct (probe_chain (buckets mp) (S t) p (distance b) b ltac:(lia)
                (ord_probe _ _ _ HO) Hp Hb ltac:(rewrite He; eauto) ltac:(lia) ltac:(lia))
      as (b1 & Hb1 & [e1 He1] & Hd1).
    rewrite <- Hidx in Hb1. rewrite Hb1. simpl. rewrite He1.
    replace (distance b1 <? d) with false by (symmetry; apply Z.ltb_ge; lia).
    assert (Hrange : 0 <= idx < Z.of_nat (length (buckets mp))).
    { rewrite Hidx. apply Z.mod_pos_bound. lia. }
    destruct (keyMatches b1 e1 k (hashKey k)) eqn:Hm.
    + exfalso. apply keyMatches_true in Hm as [_ Hk1].
      assert (idx = p).
      { eapply (UniqueKeys_at (buckets mp) idx p b1 b e1 e); eauto; try lia.
        congruence. }
      rewrite Hidx in H. revert H. apply mod_sub_ne; lia.
    + assert (Hw : wrap_u16 (d + 1) = d + 1).
      { pose proof (ord_cap _ _ _ HO). apply wrap_u16_small. lia. }
      rewrite Hw. apply (IH fuel mp k _ _ p b e); auto; try lia.
      rewrite (Geom_land _ _ _ G), Hidx, Zplus_mod_idemp_l. f_equal. lia.
Qed.

Lemma Map_lookup_finds (mp : Map) (p : Z) (b : Bucket) (e : Entry) :
  Geom (buckets mp) (mask mp) -> Ordered hashKey (buckets mp) (mask mp) ->
  UniqueKeys (buckets mp) ->
  0 <= p < capacity mp -> bucketAt (buckets mp) p = Some b -> entry b = Some e ->
  Map_lookup mp (key e) (hashKey (key e)) = Some (Some (e, p)).
Proof.
  intros G HO HU Hp Hb He. unfold Map_lookup.
  pose proof (Geom_cap _ _ G) as Hn. unfold capacity in *.
  destruct (ord_slot _ _ _ HO p Hp b e Hb He) as [Hh Hdist].
  assert (HDn : 0 <= distance b < Z.of_nat (length (buckets mp))).
  { rewrite Hdist. apply Z.mod_pos_bound. lia. }
  apply (lookup_loop_finds (Z.to_nat (distance b)) _ mp (key e) _ 0 p b e); auto; try lia.
  rewrite Z2Nat.id by lia. rewrite Hdist, Hh, !(Geom_land _ _ _ G).
  rewrite Zminus_mod_idemp_r.
  replace (p - (p - hashKey (key e) mod Z.of_nat (length (buckets mp))))
    with (hashKey (key e) mod Z.of_nat (length (buckets mp))) by lia.
  rewrite Zmod_mod. reflexivity.
Qed.
End LookupComplete.

End LookupFinds.

Section InsertKeepsOrder.

#[local] Arguments shift_loop : simpl never.
#[local] Arguments Map_resize : simpl never.

(** ** insertInternal keeps the order *)

Section InsertOrdered.
Variable hashKey : string -> Z.

Lemma hasEmpty_set (bs : list Bucket) (idx : Z) (b x : Bucket) :
  hasEmpty bs -> bucketAt bs idx = Some b -> is_Some (entry b) -> 0 <= idx ->
  hasEmpty (setBucket bs idx x).
Proof.
  intros (i0 & b0 & Hi0 & Hb0 & Hnone) Hb [r Hr] Hidx.
  exists i0, b0. rewrite length_setBucket. split; [exact Hi0 |]. split; [| exact Hnone].
  rewrite bucketAt_set_ne; [exact Hb0 | lia | lia |]. intros ->. congruence.
Qed.

(** Putting the candidate at [idx]: the bucket before holds an entry at
    most one step closer to home, and the bucket displaced (if any) was
    closer to home than the candidate. *)
Lemma Ordered_place (bs : list Bucket) (msk idx : Z) (b : Bucket) (e : Entry) (h d : Z) :
  Geom bs msk -> Ordered hashKey bs msk ->
  0 <= idx < Z.of_nat (length bs) -> bucketAt bs idx = Some b ->
  h = hashKey (key e) ->
  d = (idx - Z.land h msk) mod Z.of_nat (length bs) ->
  (0 < d -> exists bp, bucketAt bs ((idx - 1) mod Z.of_nat (length bs)) = Some bp /\
              is_Some (entry bp) /\ d <= distance bp + 1) ->
  (is_Some (entry b) -> distance b <= d) ->
  Ordered hashKey (setBucket bs idx {| entry := Some e; hash := h; distance := d |}) msk.
Proof.
  intros G [Hcap Hslot Hprobe] Hidx Hb Hh Hd Hpred Hle.
  pose proof (Geom_cap _ _ G) as Hn.
  set (n := Z.of_nat (length bs)) in *.
  constructor; rewrite length_setBucket; fold n.
  - exact Hcap.
  - intros i Hi b0 e0. rewrite length_setBucket. fold n.
    rewrite bucketAt_set by (fold n; lia).
    destruct (Z.eq_dec i idx) as [-> | Hne].
    + intros Hb0 He0. inversion Hb0; subst b0. simpl in *. inversion He0; subst e0.
      split; [exact Hh | exact Hd].
    + apply Hslot. exact Hi.
  - intros i Hi b'. rewrite length_setBucket. fold n.
    assert (Hnext : 0 <= (i + 1) mod n < n) by (apply Z.mod_pos_bound; lia).
    rewrite !bucketAt_set by (fold n; lia).
    destruct (Z.eq_dec ((i + 1) mod n) idx) as [Heq | Hne].
    + intros Hb' Hocc Hpos. inversion Hb'; subst b'. simpl in *.
      destruct (Hpred Hpos) as (bp & Hbp & Hoccp & Hdp).
      assert (Hi' : (idx - 1) mod n = i) by (rewrite <- Heq; apply mod_fwd; lia).
      rewrite Hi' in Hbp.
      destruct (Z.eq_dec i idx) as [-> | Hne'].
      * exfalso. revert Heq. apply mod_next_ne; lia.
      * exists bp. auto.
    + intros Hb' Hocc Hpos.
      destruct (Hprobe i Hi b' Hb' Hocc Hpos) as (b1 & Hb1 & Hocc1 & Hd1).
      destruct (Z.eq_dec i idx) as [-> | Hne'].
      * rewrite Hb in Hb1. inversion Hb1; subst b1.
        eexists. split; [reflexivity |]. simpl. split; [eauto |].
        specialize (Hle Hocc1). lia.
      * exists b1. auto.
Qed.

Lemma insertInternal_loop_ordered (fuel : nat) : forall (mp : Map) (idx : Z)
    (e : Entry) (h d : Z) (mp' : Map),
  Geom (buckets mp) (mask mp) -> Ordered hashKey (buckets mp) (mask mp) ->
  hasEmpty (buckets mp) ->
  0 <= idx < capacity mp -> h = hashKey (key e) ->
  d = (idx - Z.land h (mask mp)) mod capacity mp ->
  (0 < d -> exists bp, bucketAt (buckets mp) ((idx - 1) mod capacity mp) = Some bp /\
              is_Some (entry bp) /\ d <= distance bp + 1) ->
  insertInternal_loop fuel mp idx e h d = Some mp' ->
  Ordered hashKey (buckets mp') (mask mp').
Proof.
  induction fuel as [| fuel IH]; intros mp idx e h d mp' G HO HE Hidx Hh Hd Hpred Hrun;
    simpl in Hrun; [discriminate |].
  pose proof (Geom_cap _ _ G) as Hn. unfold capacity in *.
  set (n := Z.of_nat (length (buckets mp))) in *.
  destruct (bucketAt_is_Some (buckets mp) idx Hidx) as [b Hb].
  rewrite Hb in Hrun. simpl in Hrun.
  assert (Hd0 : 0 <= d < n) by (rewrite Hd; apply Z.mod_pos_bound; lia).
  destruct (entry b) as [r |] eqn:Er.
  - assert (Hocc : is_Some (entry b)) by (rewrite Er; eauto).
    destruct (ord_slot _ _ _ HO idx Hidx b r Hb Er) as [Hhr Hdr].
    fold n in Hdr.
    assert (Hb0 : 0 <= distance b) by (rewrite Hdr; apply Z.mod_pos_bound; lia).
    pose proof (distance_below (buckets mp) idx b ltac:(lia) (ord_probe _ _ _ HO)
                  HE Hidx Hb Hocc) as Hbelow. fold n in Hbelow.
    pose proof (ord_cap _ _ _ HO) as Hcap. fold n in Hcap.
    assert (Hnext : 0 <= (idx + 1) mod n < n) by (apply Z.mod_pos_bound; lia).
    assert (Hstep : Z.land (idx + 1) (mask mp) = (idx + 1) mod n)
      by (apply Geom_land; exact G).
    rewrite Hstep in Hrun.
    destruct (distance b <? d) eqn:Hlt.
    + apply Z.ltb_lt in Hlt.
      rewrite wrap_u16_small in Hrun by lia.
      set (bs1 := setBucket (buckets mp) idx {| entry := Some e; hash := h; distance := d |})
        in *.
      assert (Hl1 : length bs1 = length (buckets mp)) by apply length_setBucket.
      apply IH in Hrun; auto; simpl.
      * eapply Geom_length; [exact Hl1 | exact G].
      * apply (Ordered_place (buckets mp) (mask mp) idx b e h d); auto. intros _. lia.
      * apply (hasEmpty_set _ _ b); auto. lia.
      * rewrite Hl1. exact Hnext.
      * rewrite Hl1. fold n. symmetry. apply mod_succ; [lia | | lia].
        rewrite Hdr. reflexivity.
      * intros _. rewrite Hl1. fold n. rewrite mod_fwd by lia.
        eexists. split; [apply bucketAt_set_eq; exact Hidx |]. simpl. split; [eauto | lia].
    + apply Z.ltb_ge in Hlt.
      rewrite wrap_u16_small in Hrun by lia.
      apply IH in Hrun; auto.
      * symmetry. apply mod_succ; [lia | exact Hd | lia].
      * intros _. fold n. rewrite mod_fwd by lia.
        exists b. split; [exact Hb |]. split; [exact Hocc | lia].
  - inversion Hrun; subst mp'. simpl.
    apply (Ordered_place (buckets mp) (mask mp) idx b e h d); auto.
    rewrite Er. intros [x Hx]. discriminate.
Qed.

Lemma insertInternal_ordered (mp : Map) (e : Entry) (mp' : Map) :
  Geom (buckets mp) (mask mp) -> Ordered hashKey (buckets mp) (mask mp) ->
  hasEmpty (buckets mp) ->
  insertInternal mp e (hashKey (key e)) = Some mp' ->
  Ordered hashKey (buckets mp') (mask mp').
Proof.
  intros G HO HE. unfold insertInternal.
  pose proof (Geom_cap _ _ G) as Hn.
  apply insertInternal_loop_ordered; auto.
  - apply Geom_land_range. exact G.
  - unfold capacity. rewrite Z.sub_diag. symmetry. apply Z.mod_0_l. lia.
  - lia.
Qed.
End InsertOrdered.

End InsertKeepsOrder.

Section ResizeKeepsOrder.

#[local] Arguments shift_loop : simpl never.
#[local] Arguments Map_resize : simpl never.

(** ** resize and in-place writes keep the order *)

Section ResizeOrdered.
Variable hashKey : string -> Z.

Lemma bucketAt_replicate (n : nat) (i : Z) (b : Bucket) :
  bucketAt (replicate n emptyBucket) i = Some b -> b = emptyBucket.
Proof. unfold bucketAt. intros H. apply lookup_replicate in H as [H _]. exact H. Qed.

Lemma Ordered_fresh (size msk : Z) :
  size <= 2 ^ 16 -> 0 <= size -> Ordered hashKey (makeBuckets size) msk.
Proof.
  intros Hs H0. constructor.
  - rewrite length_makeBuckets. lia.
  - intros i _ b e Hb He. apply bucketAt_replicate in Hb. subst b. discriminate.
  - intros i _ b' Hb' [x Hx]. apply bucketAt_replicate in Hb'. subst b'. discriminate.
Qed.

Lemma reinsert_ordered (old : list Bucket) : forall (mp mp' : Map),
  Geom (buckets mp) (mask mp) -> Ordered hashKey (buckets mp) (mask mp) ->
  (length (entries mp) + length (live old) < length (buckets mp))%nat ->
  (forall b e, b ∈ old -> entry b = Some e -> hash b = hashKey (key e)) ->
  reinsert old mp = Some mp' ->
  Ordered hashKey (buckets mp') (mask mp').
Proof.
  induction old as [| b old IH]; intros mp mp' G HO Hroom Hhash Hrun; simpl in Hrun.
  - inversion Hrun; subst. exact HO.
  - simpl in Hroom. destruct (entry b) as [e |] eqn:Eb; simpl in *.
    + destruct (insertInternal_total mp e (hash b) G) as (mp1 & Hins & Hadd); [lia |].
      rewrite Hins in Hrun. simpl in Hrun.
      destruct Hadd as (A1 & A2 & A3 & A4 & A5 & A6).
      apply (IH mp1 mp'); auto.
      * rewrite A2. eapply Geom_length; [exact A1 | exact G].
      * rewrite (Hhash b e) in Hins; [| left | exact Eb].
        apply (insertInternal_ordered hashKey mp e mp1); auto.
        apply live_short_empty. unfold entries in Hroom. lia.
      * rewrite A1. apply Permutation_length in A6. simpl in A6. lia.
      * intros b0 e0 Hin. apply Hhash. right. exact Hin.
    + apply (IH mp mp'); auto. intros b0 e0 Hin. apply Hhash. right. exact Hin.
Qed.

Lemma Map_resize_ordered (mp : Map) (newSize k : Z) (mp' : Map) :
  4 <= k -> newSize = 2 ^ k -> newSize <= 2 ^ 16 ->
  Z.of_nat (length (entries mp)) < newSize ->
  (forall b e, b ∈ buckets mp -> entry b = Some e -> hash b = hashKey (key e)) ->
  Map_resize mp newSize = Some mp' ->
  Ordered hashKey (buckets mp') (mask mp').
Proof.
  intros Hk Hn Hcap Hroom Hhash Hrun. unfold Map_resize in Hrun.
  assert (Hpos : 0 < newSize) by (rewrite Hn; apply Z.pow_pos_nonneg; lia).
  eapply reinsert_ordered; [| | | exact Hhash | exact Hrun]; simpl.
  - exists k. rewrite length_makeBuckets. split; [lia |]. split; [lia |].
    rewrite Hn. reflexivity.
  - apply Ordered_fresh; lia.
  - unfold entries; simpl. unfold makeBuckets at 1. rewrite live_replicate_empty. simpl.
    rewrite length_makeBuckets. unfold entries in Hroom. lia.
Qed.

Lemma Ordered_hashes (bs : list Bucket) (msk : Z) :
  Ordered hashKey bs msk ->
  forall b e, b ∈ bs -> entry b = Some e -> hash b = hashKey (key e).
Proof.
  intros HO b e Hin He. apply list_elem_of_lookup in Hin as [i Hi].
  assert (Hlt := lookup_lt_Some _ _ _ Hi).
  destruct (ord_slot _ _ _ HO (Z.of_nat i) ltac:(lia) b e) as [H _]; auto.
  unfold bucketAt. rewrite Nat2Z.id. exact Hi.
Qed.

Lemma putEntry_ordered (mp : Map) (i : Z) (b : Bucket) (ex e' : Entry) :
  Ordered hashKey (buckets mp) (mask mp) ->
  0 <= i < capacity mp -> bucketAt (buckets mp) i = Some b -> entry b = Some ex ->
  key e' = key ex ->
  Ordered hashKey (buckets (putEntry mp i b e')) (mask (putEntry mp i b e')).
Proof.
  intros [Hcap Hslot Hprobe] Hi Hb He Hk. unfold capacity in Hi.
  unfold putEntry; simpl. set (n := Z.of_nat (length (buckets mp))) in *.
  constructor; rewrite length_setBucket; fold n.
  - exact Hcap.
  - intros j Hj b0 e0. rewrite length_setBucket. fold n.
    rewrite bucketAt_set by (fold n; lia).
    destruct (Z.eq_dec j i) as [-> | Hne].
    + intros Hb0 He0. inversion Hb0; subst b0. simpl in *. inversion He0; subst e0.
      rewrite Hk. apply (Hslot i Hi b ex Hb He).
    + apply Hslot. exact Hj.
  - intros j Hj b'. rewrite length_setBucket. fold n.
    assert (Hn : 0 < n) by lia.
    assert (Hnext : 0 <= (j + 1) mod n < n) by (apply Z.mod_pos_bound; lia).
    rewrite !bucketAt_set by (fold n; lia).
    assert (Hfin : forall b1 dd, bucketAt (buckets mp) j = Some b1 -> is_Some (entry b1) ->
              dd <= distance b1 + 1 ->
              exists b2, (if Z.eq_dec j i then Some (withEntry b e') else
                           bucketAt (buckets mp) j) = Some b2 /\
                         is_Some (entry b2) /\ dd <= distance b2 + 1).
    { intros b1 dd Hb1 Hocc1 Hd1. destruct (Z.eq_dec j i) as [-> | Hne'].
      - rewrite Hb in Hb1. inversion Hb1; subst b1.
        eexists. split; [reflexivity |]. simpl. split; [eauto | exact Hd1].
      - exists b1. auto. }
    destruct (Z.eq_dec ((j + 1) mod n) i) as [Heq | Hne]; intros Hb' Hocc Hpos.
    + inversion Hb'; subst b'. simpl in *.
      assert (Hbn : bucketAt (buckets mp) ((j + 1) mod n) = Some b)
        by (rewrite Heq; exact Hb).
      assert (Hob : is_Some (entry b)) by (rewrite He; eauto).
      destruct (Hprobe j Hj b Hbn Hob Hpos) as (b1 & Hb1 & Hocc1 & Hd1).
      apply (Hfin b1); auto.
    + destruct (Hprobe j Hj b' Hb' Hocc Hpos) as (b1 & Hb1 & Hocc1 & Hd1).
      apply (Hfin b1); auto.
Qed.

Lemma putEntry_unique (mp : Map) (i : Z) (b : Bucket) (ex e' : Entry) :
  UniqueKeys (buckets mp) ->
  bucketAt (buckets mp) i = Some b -> entry b = Some ex -> key e' = key ex ->
  UniqueKeys (buckets (putEntry mp i b e')).
Proof.
  intros HU Hb He Hk. unfold UniqueKeys in *.
  destruct (putEntry_entries mp i b ex e' Hb He) as (l1 & l2 & H1 & H2).
  unfold entries in *. rewrite H2. rewrite H1 in HU.
  rewrite fmap_app in *. simpl in *. rewrite Hk. exact HU.
Qed.
End ResizeOrdered.

End ResizeKeepsOrder.

Section ShiftKeepsOrder.

#[local] Arguments Map_resize : simpl never.

(** ** The backward shift keeps the order *)

Section DeleteOrdered.
Variable hashKey : string -> Z.

(** The table while the shift runs: bucket [idx] is the hole, the order
    holds between all neighbours but the hole and its successor, and an
    entry of distance [d0] in the hole would restore it there too. *)
Record Hole (bs : list Bucket) (msk idx d0 : Z) : Prop := mkHole {
  hole_cap : Z.of_nat (length bs) <= 2 ^ 16;
  hole_idx : 0 <= idx < Z.of_nat (length bs);
  hole_slot : forall i, 0 <= i < Z.of_nat (length bs) -> SlotOk hashKey bs msk i;
  hole_probe : forall i, 0 <= i < Z.of_nat (length bs) -> i <> idx -> ProbeAt bs i;
  hole_empty : exists b, bucketAt bs idx = Some b /\ entry b = None;
  hole_pred : 0 < d0 ->
    exists bp, bucketAt bs ((idx - 1) mod Z.of_nat (length bs)) = Some bp /\
               is_Some (entry bp) /\ d0 <= distance bp + 1;
  hole_succ : forall b', bucketAt bs ((idx + 1) mod Z.of_nat (length bs)) = Some b' ->
    is_Some (entry b') -> 0 < distance b' -> distance b' <= d0 + 1
}.

Lemma Hole_clear (bs : list Bucket) (msk idx : Z) (b : Bucket) :
  Geom bs msk -> Ordered hashKey bs msk ->
  0 <= idx < Z.of_nat (length bs) -> bucketAt bs idx = Some b -> is_Some (entry b) ->
  Hole (setBucket bs idx (clearEntry b)) msk idx (distance b).
Proof.
  intros G [Hcap Hslot Hprobe] Hidx Hb Hocc.
  pose proof (Geom_cap _ _ G) as Hn.
  set (n := Z.of_nat (length bs)) in *.
  assert (Hnext : 0 <= (idx + 1) mod n < n) by (apply Z.mod_pos_bound; lia).
  assert (Hprev : 0 <= (idx - 1) mod n < n) by (apply Z.mod_pos_bound; lia).
  assert (Hne1 : (idx + 1) mod n <> idx) by (apply mod_next_ne; lia).
  assert (Hne2 : (idx - 1) mod n <> idx) by (apply mod_sub_ne; lia).
  constructor; rewrite ?length_setBucket; fold n; auto.
  - intros i Hi b0 e0. rewrite length_setBucket. fold n.
    rewrite bucketAt_set by (fold n; lia).
    destruct (Z.eq_dec i idx) as [-> | Hne].
    + intros Hb0 He0. inversion Hb0; subst b0. discriminate.
    + apply Hslot. exact Hi.
  - intros i Hi Hne b'. rewrite length_setBucket. fold n.
    assert (Hnx : 0 <= (i + 1) mod n < n) by (apply Z.mod_pos_bound; lia).
    rewrite !bucketAt_set by (fold n; lia).
    destruct (Z.eq_dec i idx); [contradiction |].
    destruct (Z.eq_dec ((i + 1) mod n) idx).
    + intros Hb' [x Hx]. inversion Hb'; subst b'. discriminate.
    + apply Hprobe. exact Hi.
  - exists (clearEntry b). split; [apply bucketAt_set_eq; exact Hidx | reflexivity].
  - intros Hpos. rewrite bucketAt_set_ne by lia.
    apply (Hprobe ((idx - 1) mod n) Hprev b); auto.
    fold n. rewrite mod_back by lia. exact Hb.
  - intros b'. rewrite bucketAt_set_ne by lia. intros Hb' Hocc' Hpos.
    destruct (Hprobe idx Hidx b' Hb' Hocc' Hpos) as (b1 & Hb1 & _ & Hd1).
    rewrite Hb in Hb1. inversion Hb1; subst b1. exact Hd1.
Qed.

Lemma Hole_done (bs : list Bucket) (msk idx d0 : Z) :
  Hole bs msk idx d0 ->
  (forall nb, bucketAt bs ((idx + 1) mod Z.of_nat (length bs)) = Some nb ->
              is_Some (entry nb) -> 0 < distance nb -> False) ->
  Ordered hashKey bs msk.
Proof.
  intros [Hcap Hidx Hslot Hprobe Hempty Hpred Hsucc] Hstop. constructor; auto.
  intros i Hi. destruct (Z.eq_dec i idx) as [-> | Hne]; [| apply Hprobe; auto].
  intros b' Hb' Hocc Hpos. exfalso. eapply Hstop; eauto.
Qed.

Lemma Hole_step (bs : list Bucket) (msk idx d0 : Z) (nb : Bucket) :
  Geom bs msk -> Hole bs msk idx d0 ->
  bucketAt bs ((idx + 1) mod Z.of_nat (length bs)) = Some nb ->
  is_Some (entry nb) -> 0 < distance nb ->
  Hole (setBucket (setBucket bs idx (decDistance nb))
          ((idx + 1) mod Z.of_nat (length bs)) (clearEntry nb))
       msk ((idx + 1) mod Z.of_nat (length bs)) (distance nb).
Proof.
  intros G [Hcap Hidx Hslot Hprobe Hempty Hpred Hsucc] Hnb Hocc Hpos.
  pose proof (Geom_cap _ _ G) as Hn.
  set (n := Z.of_nat (length bs)) in *.
  set (nx := (idx + 1) mod n) in *.
  assert (Hnext : 0 <= nx < n) by (apply Z.mod_pos_bound; lia).
  assert (Hprev : 0 <= (idx - 1) mod n < n) by (apply Z.mod_pos_bound; lia).
  assert (Hnn : 0 <= (nx + 1) mod n < n) by (apply Z.mod_pos_bound; lia).
  assert (Hne1 : nx <> idx) by (apply mod_next_ne; lia).
  assert (Hne2 : (idx - 1) mod n <> idx) by (apply mod_sub_ne; lia).
  assert (Hne3 : (nx + 1) mod n <> nx) by (apply mod_next_ne; lia).
  assert (Hne4 : (nx + 1) mod n <> idx).
  { unfold nx. rewrite Zplus_mod_idemp_l. replace (idx + 1 + 1) with (idx + 2) by lia.
    apply mod_add_ne; lia. }
  assert (Hne5 : (idx - 1) mod n <> nx).
  { intros Heq. assert (Hx : ((idx - 1) mod n + 2) mod n = (idx - 1) mod n).
    { rewrite Heq at 2. unfold nx. rewrite Zplus_mod_idemp_l. f_equal. lia. }
    revert Hx. apply mod_add_ne; lia. }
  destruct Hocc as [r Hr].
  destruct (Hslot nx Hnext nb r Hnb Hr) as [Hh Hdist]. fold n in Hdist.
  assert (HD : 0 <= distance nb < n) by (rewrite Hdist; apply Z.mod_pos_bound; lia).
  assert (Hl : length (setBucket (setBucket bs idx (decDistance nb)) nx (clearEntry nb))
               = length bs) by (rewrite !length_setBucket; reflexivity).
  assert (Hat : forall i, 0 <= i ->
            bucketAt (setBucket (setBucket bs idx (decDistance nb)) nx (clearEntry nb)) i
            = if Z.eq_dec i nx then Some (clearEntry nb)
              else if Z.eq_dec i idx then Some (decDistance nb) else bucketAt bs i).
  { intros i Hi. rewrite bucketAt_set by (rewrite ?length_setBucket; fold n; lia).
    destruct (Z.eq_dec i nx); [reflexivity |].
    apply bucketAt_set; fold n; lia. }
  constructor; rewrite ?Hl; fold n; auto.
  - intros i Hi b0 e0. rewrite Hl. fold n. rewrite Hat by lia.
    destruct (Z.eq_dec i nx) as [-> | Hn1].
    { intros Hb0 He0. inversion Hb0; subst b0. discriminate. }
    destruct (Z.eq_dec i idx) as [-> | Hn2]; [| apply Hslot; exact Hi].
    intros Hb0 He0. inversion Hb0; subst b0. simpl in *.
    rewrite Hr in He0. inversion He0; subst e0. split; [exact Hh |].
    rewrite wrap_u16_small by lia. symmetry.
    apply (mod_pred n idx (Z.land (hash nb) msk) (distance nb)); [lia | exact Hdist | lia].
  - intros i Hi Hne b'. rewrite Hl. fold n.
    assert (Hnx : 0 <= (i + 1) mod n < n) by (apply Z.mod_pos_bound; lia).
    rewrite !Hat by lia.
    destruct (Z.eq_dec i nx); [contradiction |].
    destruct (Z.eq_dec ((i + 1) mod n) nx) as [E1 | E1].
    { intros Hb' [x Hx]. inversion Hb'; subst b'. discriminate. }
    destruct (Z.eq_dec ((i + 1) mod n) idx) as [E2 | E2].
    + intros Hb' _ Hp'. inversion Hb'; subst b'. simpl in Hp' |- *.
      rewrite wrap_u16_small in * by lia.
      assert (Hi' : i = (idx - 1) mod n) by (rewrite <- E2; symmetry; apply mod_fwd; lia).
      destruct (Z.eq_dec i idx) as [-> | E3]; [exfalso; revert E2; apply mod_next_ne; lia |].
      assert (Hd0 : distance nb <= d0 + 1) by (apply (Hsucc nb); eauto).
      destruct (Hpred ltac:(lia)) as (bp & Hbp & Hoccp & Hdp).
      exists bp. rewrite Hi'. split; [exact Hbp |]. split; [exact Hoccp | lia].
    + destruct (Z.eq_dec i idx) as [-> | E3]; [contradiction |].
      apply Hprobe; auto.
  - exists (clearEntry nb). rewrite Hat by lia.
    destruct (Z.eq_dec nx nx); [auto | contradiction].
  - intros _. replace ((nx - 1) mod n) with idx
      by (unfold nx; symmetry; apply mod_fwd; lia).
    rewrite Hat by lia.
    destruct (Z.eq_dec idx nx); [congruence |].
    destruct (Z.eq_dec idx idx); [| contradiction].
    eexists. split; [reflexivity |]. simpl. split; [eauto |].
    rewrite wrap_u16_small by lia. lia.
  - intros b'. rewrite Hat by lia.
    destruct (Z.eq_dec ((nx + 1) mod n) nx); [contradiction |].
    destruct (Z.eq_dec ((nx + 1) mod n) idx); [contradiction |].
    intros Hb' Hocc' Hp'.
    destruct (Hprobe nx Hnext Hne1 b' Hb' Hocc' Hp') as (b1 & Hb1 & _ & Hd1).
    rewrite Hnb in Hb1. inversion Hb1; subst b1. exact Hd1.
Qed.

Lemma shift_loop_ordered (fuel : nat) : forall (bs : list Bucket) (msk idx d0 : Z)
    (bs' : list Bucket),
  Geom bs msk -> Hole bs msk idx d0 ->
  shift_loop fuel bs msk idx (Z.land (idx + 1) msk) = Some bs' ->
  Ordered hashKey bs' msk.
Proof.
  induction fuel as [| fuel IH]; intros bs msk idx d0 bs' G HH Hrun; simpl in Hrun;
    [discriminate |].
  pose proof (Geom_cap _ _ G) as Hn.
  rewrite (Geom_land _ _ _ G) in Hrun.
  set (n := Z.of_nat (length bs)) in *.
  pose proof (hole_idx _ _ _ _ HH) as Hidx. fold n in Hidx.
  assert (Hnext : 0 <= (idx + 1) mod n < n) by (apply Z.mod_pos_bound; lia).
  destruct (bucketAt_is_Some bs ((idx + 1) mod n) Hnext) as [nb Hnb].
  rewrite Hnb in Hrun. simpl in Hrun.
  destruct (entry nb) as [r |] eqn:Er.
  - destruct (0 <? distance nb) eqn:Hpos.
    + apply Z.ltb_lt in Hpos.
      assert (Hne : idx <> (idx + 1) mod n).
      { intros Heq. symmetry in Heq. revert Heq. apply mod_next_ne; lia. }
      rewrite bucketAt_set_ne in Hrun by lia. rewrite Hnb in Hrun. simpl in Hrun.
      pose proof (Hole_step bs msk idx d0 nb G HH Hnb ltac:(rewrite Er; eauto) Hpos) as HH2.
      fold n in HH2.
      set (bs2 := setBucket (setBucket bs idx (decDistance nb)) ((idx + 1) mod n)
                    (clearEntry nb)) in *.
      assert (Hl2 : length bs2 = length bs)
        by (unfold bs2; rewrite !length_setBucket; reflexivity).
      apply (IH bs2 msk ((idx + 1) mod n) (distance nb)).
      * eapply Geom_length; [exact Hl2 | exact G].
      * exact HH2.
      * exact Hrun.
    + apply Z.ltb_ge in Hpos. inversion Hrun; subst bs'.
      apply (Hole_done bs msk idx d0 HH). fold n. intros nb' Hnb'.
      rewrite Hnb in Hnb'. inversion Hnb'; subst nb'. lia.
  - inversion Hrun; subst bs'.
    apply (Hole_done bs msk idx d0 HH). fold n. intros nb' Hnb'.
    rewrite Hnb in Hnb'. inversion Hnb'; subst nb'. rewrite Er. intros [x Hx]. discriminate.
Qed.
End DeleteOrdered.

End ShiftKeepsOrder.

Section WellFormedTables.

#[local] Arguments shift_loop : simpl never.
#[local] Arguments lookup_loop : simpl never.
#[local] Arguments insertInternal_loop : simpl never.
#[local] Arguments Map_resize : simpl never.

(** ** Well-formed tables *)

Section WellFormed.
Variable hashKey : string -> Z.

Definition WF (mp : Map) : Prop :=
  Sound mp /\ Ordered hashKey (buckets mp) (mask mp) /\ UniqueKeys (buckets mp).

Lemma WF_NewMap : WF (NewMap 16).
Proof.
  split; [apply Sound_NewMap |]. split.
  - apply Ordered_fresh; vm_compute; discriminate.
  - unfold UniqueKeys. simpl. constructor.
Qed.

Lemma Sound_hasEmpty (mp : Map) : Sound mp -> hasEmpty (buckets mp).
Proof. intros HS. apply live_short_empty. apply Sound_room. exact HS. Qed.

(** [get] on a well-formed table decides membership. *)
Lemma Map_get_present (mp : Map) (e : Entry) :
  WF mp -> e ∈ entries mp -> exists i, Map_get hashKey mp (key e) = Some (Some (e, i)).
Proof.
  intros (HS & HO & HU) Hin. apply list_elem_of_In, live_In in Hin as (i & b & Hi & Hb & He).
  exists i. unfold Map_get. apply (Map_lookup_finds hashKey mp i b e); auto.
  - apply HS.
  - split; [exact Hi |]. apply bucketAt_Some in Hb. unfold capacity. lia.
Qed.

Lemma Map_get_found (mp : Map) (k : string) (e : Entry) (i : Z) :
  Sound mp -> Map_get hashKey mp k = Some (Some (e, i)) -> e ∈ entries mp /\ key e = k.
Proof.
  intros HS Hg. destruct (Map_get_sound hashKey mp k e i HS Hg) as (Hi & b & Hb & He & Hk).
  split; [| exact Hk]. apply list_elem_of_In, live_In. exists i, b. split; [lia | auto].
Qed.

Lemma Map_get_absent (mp : Map) (k : string) :
  WF mp -> Map_get hashKey mp k = Some None -> forall e, e ∈ entries mp -> key e <> k.
Proof.
  intros HW Hg e Hin Hk. destruct (Map_get_present mp e HW Hin) as [i Hi].
  rewrite Hk in Hi. congruence.
Qed.

Lemma Map_insert_wf (mp : Map) (e : Entry) (mp' : Map) (r : option Entry) :
  WF mp -> Map_insert hashKey mp e = Some (mp', r) -> capacity mp' <= 2 ^ 16 -> WF mp'.
Proof.
  intros HW Hrun Hcap. pose proof HW as (HS & HO & HU).
  destruct (Map_insert_sound hashKey mp e HS) as (mp0 & r0 & Hrun0 & HS' & Hspec).
  rewrite Hrun in Hrun0. inversion Hrun0; subst mp0 r0. clear Hrun0.
  split; [exact HS' |].
  destruct r as [ex |].
  - destruct Hspec as (i & b & Hg & Hb & He & Hk & ->).
    destruct (Map_get_sound hashKey mp (key e) ex i HS Hg) as (Hi & _).
    split.
    + apply (putEntry_ordered hashKey mp i b ex); auto.
    + apply (putEntry_unique mp i b ex); auto.
  - destruct Hspec as (Hg & Hperm & Hc).
    split.
    + unfold Map_insert in Hrun. unfold Map_get in Hg. rewrite Hg in Hrun. simpl in Hrun.
      pose proof (shape_geom _ (proj1 HS)) as G.
      destruct (growAt mp <=? numItems mp) eqn:Hgrow.
      * destruct (Map_resize mp (Z.of_nat (length (buckets mp)) * 2)) as [mp1 |] eqn:Hres;
          simpl in Hrun; [| discriminate].
        destruct (insertInternal mp1 e (hashKey (key e))) as [mp2 |] eqn:Hins;
          simpl in Hrun; [| discriminate].
        inversion Hrun; subst mp2.
        destruct G as (kk & Hkk & Hpow & Hmask).
        assert (Hsz : Z.of_nat (length (buckets mp)) * 2 = 2 ^ (kk + 1)).
        { rewrite Hpow, Z.pow_add_r by lia. reflexivity. }
        destruct (Map_resize_total mp _ (kk + 1) ltac:(lia) Hsz)
          as (mp1' & Hres' & Hc1 & S1 & Hp1).
        { pose proof (Sound_room _ HS). lia. }
        rewrite Hres in Hres'. inversion Hres'; subst mp1'.
        destruct (insertInternal_total mp1 e (hashKey (key e)) (shape_geom _ S1))
          as (mp2 & Hins' & A1 & _).
        { apply Permutation_length in Hp1. rewrite Hp1.
          pose proof (Sound_room _ HS). unfold capacity in Hc1. lia. }
        rewrite Hins in Hins'. inversion Hins'; subst mp2.
        assert (Hcap1 : Z.of_nat (length (buckets mp)) * 2 <= 2 ^ 16).
        { unfold capacity in *. lia. }
        apply (insertInternal_ordered hashKey mp1 e mp'); auto.
        -- apply S1.
        -- apply (Map_resize_ordered hashKey mp (Z.of_nat (length (buckets mp)) * 2)
                    (kk + 1) mp1); auto; try lia.
           ++ pose proof (Sound_room _ HS). lia.
           ++ apply (Ordered_hashes hashKey _ _ HO).
        -- apply live_short_empty. apply Permutation_length in Hp1.
           fold (entries mp1). rewrite Hp1.
           pose proof (Sound_room _ HS). unfold capacity in Hc1. lia.
      * simpl in Hrun.
        destruct (insertInternal mp e (hashKey (key e))) as [mp2 |] eqn:Hins;
          simpl in Hrun; [| discriminate].
        inversion Hrun; subst mp2.
        apply (insertInternal_ordered hashKey mp e mp'); auto.
        apply Sound_hasEmpty. exact HS.
    + unfold UniqueKeys. fold (entries mp'). rewrite Hperm. simpl.
      apply NoDup_cons. split; [| exact HU].
      intros Hin. apply list_elem_of_fmap in Hin as (e0 & Hk0 & Hin0).
      apply (Map_get_absent mp (key e) HW Hg e0 Hin0). congruence.
Qed.

Lemma Map_delete_wf (mp : Map) (k : string) (h : Z) (mp' : Map) (r : option Entry) :
  WF mp -> Map_delete mp k h = Some (mp', r) -> WF mp'.
Proof.
  intros HW Hrun. pose proof HW as (HS & HO & HU).
  destruct (Map_delete_sound mp k h HS) as (mp0 & r0 & Hrun0 & HS' & Hcap & Hspec).
  rewrite Hrun in Hrun0. inversion Hrun0; subst mp0 r0. clear Hrun0.
  destruct r as [e |]; [| destruct Hspec as [-> _]; exact HW].
  destruct Hspec as ([i Hl] & Hk & Hperm).
  split; [exact HS' |]. split.
  - pose proof (shape_geom _ (proj1 HS)) as G.
    unfold Map_delete in Hrun. rewrite Hl in Hrun. simpl in Hrun.
    destruct (Map_lookup_sound _ _ _ _ _ G Hl) as (Hi & _).
    destruct (delete_shift mp k h e i HS Hl) as (b & bs & Hb & He & Hshift & Hlen & Hp).
    rewrite Hb in Hrun. simpl in Hrun. rewrite Hshift in Hrun. simpl in Hrun.
    assert (HObs : Ordered hashKey bs (mask mp)).
    { assert (Hg0 : Geom (setBucket (buckets mp) i (clearEntry b)) (mask mp))
        by (eapply Geom_length; [apply length_setBucket | exact G]).
      assert (Hh0 : Hole hashKey (setBucket (buckets mp) i (clearEntry b)) (mask mp) i
                      (distance b)).
      { apply Hole_clear; auto. }
      exact (shift_loop_ordered hashKey _ _ _ _ _ _ Hg0 Hh0 Hshift). }
    destruct ((numItems mp - 1 <? shrinkAt mp) && (16 <? Z.of_nat (length bs))) eqn:Hshrink.
    + destruct (Map_resize _ _) as [mp2 |] eqn:Hres in Hrun; simpl in Hrun; [| discriminate].
      inversion Hrun; subst mp2.
      apply andb_prop in Hshrink as [Hlt Hbig]. apply Z.ltb_lt in Hlt, Hbig.
      pose proof (ord_cap _ _ _ HObs) as Hc16.
      destruct G as (kk & Hkk & Hpow & Hmask).
      assert (Hk5 : 5 <= kk).
      { destruct (Z_lt_ge_dec kk 5); [| lia]. assert (kk = 4) by lia. subst kk.
        change (2 ^ 4) with 16 in Hpow. lia. }
      assert (Hhalf : Z.of_nat (length bs) / 2 = 2 ^ (kk - 1)).
      { rewrite Hlen, Hpow. replace kk with ((kk - 1) + 1) at 1 by lia.
        rewrite Z.pow_add_r by lia. change (2 ^ 1) with 2. apply Z.div_mul. lia. }
      simpl in Hres.
      apply (Map_resize_ordered hashKey _ _ (kk - 1) mp') in Hres; auto; try lia.
      * apply Z.div_le_upper_bound; lia.
      * unfold entries; simpl.
        pose proof (proj1 HS) as HSh. pose proof (shape_count _ HSh) as Hc.
        apply Permutation_length in Hp. simpl in Hp.
        rewrite (shape_shrink _ HSh) in Hlt. unfold shrinkThreshold, capacity in Hlt.
        rewrite Hhalf. rewrite Hpow in Hlt.
        assert (2 ^ kk / 10 <= 2 ^ (kk - 1)).
        { replace kk with ((kk - 1) + 1) at 1 by lia. rewrite Z.pow_add_r by lia.
          change (2 ^ 1) with 2.
          assert (0 < 2 ^ (kk - 1)) by (apply Z.pow_pos_nonneg; lia).
          apply Z.div_le_upper_bound; lia. }
        lia.
      * simpl. apply (Ordered_hashes hashKey _ _ HObs).
    + inversion Hrun; subst mp'. simpl. exact HObs.
  - unfold UniqueKeys in *. fold (entries mp') . fold (entries mp) in HU.
    rewrite Hperm in HU. simpl in HU. apply NoDup_cons in HU as [_ HU]. exact HU.
Qed.
End WellFormed.

End WellFormedTables.

(** ** int64ToBytes and bytesToInt64 *)

Lemma Z_of_byte_range (c : ascii) : 0 <= Z_of_byte c < 256.
Proof.
  unfold Z_of_byte. pose proof (N_ascii_bounded c). lia.
Qed.

Lemma Z_of_byte_of_Z (x : Z) : Z_of_byte (byte_of_Z x) = x mod 256.
Proof.
  unfold Z_of_byte, byte_of_Z.
  pose proof (Z.mod_pos_bound x 256 ltac:(lia)).
  rewrite N_ascii_embedding by lia. lia.
Qed.

Lemma byte_of_Z_of_byte (c : ascii) : byte_of_Z (Z_of_byte c) = c.
Proof.
  unfold byte_of_Z. rewrite Z.mod_small by apply Z_of_byte_range.
  unfold Z_of_byte. rewrite N2Z.id. apply ascii_N_embedding.
Qed.

Lemma wrap_i64_range (x : Z) : - 2 ^ 63 <= wrap_i64 x < 2 ^ 63.
Proof. unfold wrap_i64. pose proof (Z.mod_pos_bound (x + 2 ^ 63) (2 ^ 64) ltac:(lia)). lia. Qed.

Lemma wrap_i64_mod (x : Z) : wrap_i64 (x mod 2 ^ 64) = wrap_i64 x.
Proof. unfold wrap_i64. rewrite Zplus_mod_idemp_l. reflexivity. Qed.

Lemma wrap_i64_cong (x y : Z) : x mod 2 ^ 64 = y mod 2 ^ 64 -> wrap_i64 x = wrap_i64 y.
Proof. intros H. rewrite <- (wrap_i64_mod x), <- (wrap_i64_mod y), H. reflexivity. Qed.

Lemma wrap_i64_split (x : Z) : exists t, wrap_i64 x = x + 2 ^ 64 * t.
Proof.
  unfold wrap_i64. exists (- ((x + 2 ^ 63) / 2 ^ 64)).
  pose proof (Z.div_mod (x + 2 ^ 63) (2 ^ 64) ltac:(lia)). lia.
Qed.

(** One step of the loop of [bytesToInt64] is [256 * n + b] on int64. *)
Lemma bytes_step (n : Z) (c : ascii) :
  Z.lor (wrap_i64 (Z.shiftl n 8)) (Z_of_byte c) = wrap_i64 (256 * n + Z_of_byte c).
Proof.
  pose proof (Z_of_byte_range c) as Hc. set (b := Z_of_byte c) in *.
  rewrite Z.shiftl_mul_pow2 by lia. change (2 ^ 8) with 256.
  destruct (wrap_i64_split (n * 256)) as [t Ht].
  assert (Hm : wrap_i64 (n * 256) = 256 * (n + 2 ^ 56 * t)) by lia.
  pose proof (wrap_i64_range (n * 256)) as Hr.
  rewrite Hm in *. set (a := n + 2 ^ 56 * t) in *.
  assert (Hlor : Z.lor (256 * a) b = 256 * a + b).
  { rewrite <- Z.lxor_lor, <- Z.add_nocarry_lxor; auto;
      apply Z.bits_inj'; intros i Hi; rewrite Z.land_spec, Z.bits_0;
      destruct (Z_lt_ge_dec i 8).
    - replace (256 * a) with (a * 2 ^ 8) by lia. rewrite Z.mul_pow2_bits_low by lia. reflexivity.
    - rewrite (Z.bits_above_log2 b i); [apply andb_false_r | lia |].
      destruct (Z.eq_dec b 0) as [-> | ]; [simpl; lia |].
      apply Z.log2_lt_pow2; [lia |]. apply Z.lt_le_trans with (2 ^ 8); [lia |].
      apply Z.pow_le_mono_r; lia.
    - replace (256 * a) with (a * 2 ^ 8) by lia. rewrite Z.mul_pow2_bits_low by lia. reflexivity.
    - rewrite (Z.bits_above_log2 b i); [apply andb_false_r | lia |].
      destruct (Z.eq_dec b 0) as [-> | ]; [simpl; lia |].
      apply Z.log2_lt_pow2; [lia |]. apply Z.lt_le_trans with (2 ^ 8); [lia |].
      apply Z.pow_le_mono_r; lia. }
  rewrite Hlor. symmetry.
  rewrite (wrap_i64_cong (256 * n + b) (256 * a + b)).
  - apply wrap_i64_small. lia.
  - unfold a. replace (256 * (n + 2 ^ 56 * t) + b) with (256 * n + b + t * 2 ^ 64) by lia.
    rewrite Z_mod_plus_full. reflexivity.
Qed.

(** The big-endian value of a byte list, without wrap-around. *)
Definition beValue (l : list ascii) (acc : Z) : Z :=
  fold_left (fun n c => 256 * n + Z_of_byte c) l acc.

Lemma bytes_fold (l : list ascii) : forall a : Z,
  fold_left (fun n c => Z.lor (wrap_i64 (Z.shiftl n 8)) (Z_of_byte c)) l (wrap_i64 a)
  = wrap_i64 (beValue l a).
Proof.
  induction l as [| c l IH]; intros a; simpl; [reflexivity |].
  rewrite bytes_step.
  rewrite (wrap_i64_cong (256 * wrap_i64 a + Z_of_byte c) (256 * a + Z_of_byte c)).
  - apply IH.
  - destruct (wrap_i64_split a) as [t ->].
    replace (256 * (a + 2 ^ 64 * t) + Z_of_byte c)
      with (256 * a + Z_of_byte c + (256 * t) * 2 ^ 64) by lia.
    apply Z_mod_plus_full.
Qed.

Lemma bytesToInt64_value (b : string) :
  String.length b = 8%nat ->
  bytesToInt64 b = wrap_i64 (beValue (list_ascii_of_string b) 0).
Proof.
  intros Hl. unfold bytesToInt64. rewrite Hl. simpl.
  rewrite <- bytes_fold. reflexivity.
Qed.

(** The bytes [int64ToBytes_loop] writes: the low [cnt] bytes of [n], most
    significant first. *)
Fixpoint beBytes (cnt : nat) (n : Z) : list ascii :=
  match cnt with
  | O => []
  | S cnt' => beBytes cnt' (Z.shiftr n 8) ++ [byte_of_Z n]
  end.

Lemma int64ToBytes_loop_bytes (cnt : nat) : forall (n : Z) (acc : string),
  int64ToBytes_loop cnt n acc = (string_of_list_ascii (beBytes cnt n) ++ acc)%string.
Proof.
  induction cnt as [| cnt IH]; intros n acc; simpl; [reflexivity |].
  rewrite IH. clear IH. generalize (beBytes cnt (Z.shiftr n 8)). intros l.
  induction l as [| c l IHl]; simpl; [reflexivity |]. f_equal. exact IHl.
Qed.

Lemma length_beBytes (cnt : nat) (n : Z) : length (beBytes cnt n) = cnt.
Proof.
  revert n. induction cnt as [| cnt IH]; intros n; simpl; [reflexivity |].
  rewrite length_app, IH. simpl. lia.
Qed.

Lemma beValue_app (l1 l2 : list ascii) (a : Z) :
  beValue (l1 ++ l2) a = beValue l2 (beValue l1 a).
Proof. unfold beValue. apply fold_left_app. Qed.

Lemma beValue_beBytes (cnt : nat) : forall n : Z,
  beValue (beBytes cnt n) 0 = n mod 256 ^ Z.of_nat cnt.
Proof.
  induction cnt as [| cnt IH]; intros n.
  - simpl. rewrite Z.mod_1_r. reflexivity.
  - simpl beBytes. rewrite beValue_app, IH. unfold beValue at 1. simpl fold_left.
    rewrite Z_of_byte_of_Z, Z.shiftr_div_pow2 by lia. change (2 ^ 8) with 256.
    replace (Z.of_nat (S cnt)) with (1 + Z.of_nat cnt) by lia.
    rewrite Z.pow_add_r by lia. change (256 ^ 1) with 256.
    rewrite Z.rem_mul_r by (try apply Z.pow_nonzero; lia). lia.
Qed.

Lemma string_length_of_list (l : list ascii) :
  String.length (string_of_list_ascii l) = length l.
Proof. induction l as [| c l IH]; simpl; [reflexivity | f_equal; exact IH]. Qed.

Lemma int64ToBytes_length (n : Z) : String.length (int64ToBytes n) = 8%nat.
Proof.
  unfold int64ToBytes. rewrite int64ToBytes_loop_bytes.
  assert (H : forall s : string, (s ++ "")%string = s).
  { induction s as [| c s IHs]; simpl; [reflexivity | f_equal; exact IHs]. }
  rewrite H, string_length_of_list. apply length_beBytes.
Qed.

Lemma int64ToBytes_bytes (n : Z) : int64ToBytes n = string_of_list_ascii (beBytes 8 n).
Proof.
  unfold int64ToBytes. rewrite int64ToBytes_loop_bytes.
  generalize (string_of_list_ascii (beBytes 8 n)).
  induction s as [| c s IHs]; simpl; [reflexivity | f_equal; exact IHs].
Qed.

Lemma bytesToInt64_int64ToBytes (n : Z) : bytesToInt64 (int64ToBytes n) = wrap_i64 n.
Proof.
  rewrite bytesToInt64_value by apply int64ToBytes_length.
  rewrite int64ToBytes_bytes, list_ascii_of_string_of_list_ascii, beValue_beBytes.
  change (256 ^ Z.of_nat 8) with (2 ^ 64). apply wrap_i64_mod.
Qed.

(** The bytes written do not depend on the bits above them. *)
Lemma beBytes_high (cnt : nat) : forall x H : Z,
  beBytes cnt (x + 256 ^ Z.of_nat cnt * H) = beBytes cnt x.
Proof.
  induction cnt as [| cnt IH]; intros x H; [reflexivity |].
  simpl beBytes. rewrite !Z.shiftr_div_pow2 by lia. change (2 ^ 8) with 256.
  replace (Z.of_nat (S cnt)) with (1 + Z.of_nat cnt) by lia.
  rewrite Z.pow_add_r by lia. change (256 ^ 1) with 256.
  replace (x + 256 * 256 ^ Z.of_nat cnt * H) with (x + (256 ^ Z.of_nat cnt * H) * 256) by lia.
  rewrite Z.div_add by lia. rewrite IH. f_equal. f_equal.
  unfold byte_of_Z. rewrite Z_mod_plus_full. reflexivity.
Qed.

Lemma beBytes_beValue (l : list ascii) : beBytes (length l) (beValue l 0) = l.
Proof.
  induction l as [| c l IH] using rev_ind; [reflexivity |].
  rewrite length_app. simpl length. replace (length l + 1)%nat with (S (length l)) by lia.
  simpl beBytes. rewrite beValue_app. unfold beValue at 1 3. simpl fold_left.
  fold (beValue l 0). pose proof (Z_of_byte_range c) as Hc.
  rewrite Z.shiftr_div_pow2 by lia. change (2 ^ 8) with 256.
  replace (256 * beValue l 0 + Z_of_byte c) with (Z_of_byte c + beValue l 0 * 256) by lia.
  rewrite Z.div_add by lia. rewrite Z.div_small by lia. rewrite Z.add_0_l, IH.
  f_equal. f_equal. unfold byte_of_Z. rewrite Z_mod_plus_full.
  fold (byte_of_Z (Z_of_byte c)). apply byte_of_Z_of_byte.
Qed.

Lemma int64ToBytes_bytesToInt64 (b : string) :
  String.length b = 8%nat -> int64ToBytes (bytesToInt64 b) = b.
Proof.
  intros Hl. rewrite bytesToInt64_value by exact Hl.
  rewrite int64ToBytes_bytes.
  destruct (wrap_i64_split (beValue (list_ascii_of_string b) 0)) as [t ->].
  change (2 ^ 64) with (256 ^ Z.of_nat 8). rewrite beBytes_high.
  assert (Hl' : length (list_ascii_of_string b) = 8%nat).
  { rewrite <- Hl. clear. induction b as [| c b IH]; simpl; [reflexivity | f_equal; exact IH]. }
  rewrite <- Hl', beBytes_beValue. apply string_of_list_ascii_of_string.
Qed.

Section GlobMatching.

(** ** matchPattern against the glob semantics of the specification *)

(** The specification's glob: [*] matches any run of characters, [?]
    exactly one, every other pattern byte only itself; the pattern has to
    match the whole key. *)
Inductive Glob : string -> string -> Prop :=
  | Glob_nil : Glob "" ""
  | Glob_star_skip (p k : string) : Glob p k -> Glob (String star p) k
  | Glob_star_eat (p : string) (c : ascii) (k : string) :
      Glob (String star p) k -> Glob (String star p) (String c k)
  | Glob_qmark (p : string) (c : ascii) (k : string) :
      Glob p k -> Glob (String qmark p) (String c k)
  | Glob_lit (c : ascii) (p k : string) :
      c <> star -> c <> qmark -> Glob p k -> Glob (String c p) (String c k).

Lemma star_ne_qmark : star <> qmark.
Proof. discriminate. Qed.

Lemma Glob_empty_key (p : string) : Glob p "" <-> onlyStars p = true.
Proof.
  split.
  - intros H. remember EmptyString as k eqn:Hk.
    induction H; try discriminate; simpl; auto.
  - induction p as [| c p IH]; simpl; intros H; [constructor |].
    destruct (Ascii.eqb c star) eqn:E; [| discriminate].
    apply Ascii.eqb_eq in E. subst c. apply Glob_star_skip. auto.
Qed.

Lemma Glob_empty_pattern (k : string) : Glob "" k <-> k = ""%string.
Proof.
  split; [intros H; inversion H; reflexivity | intros ->; constructor].
Qed.

Lemma Glob_star (p k : string) :
  Glob (String star p) k <-> exists k1 k2, k = (k1 ++ k2)%string /\ Glob p k2.
Proof.
  split.
  - intros H. remember (String star p) as q eqn:Hq. revert p Hq.
    induction H; intros p0 Hq; try discriminate.
    + inversion Hq; subst. exists ""%string, k. auto.
    + inversion Hq; subst. destruct (IHGlob p0 eq_refl) as (k1 & k2 & -> & Hg).
      exists (String c k1), k2. auto.
    + inversion Hq; subst. contradiction.
  - intros (k1 & k2 & -> & Hg). induction k1 as [| c k1 IH]; simpl.
    + apply Glob_star_skip. exact Hg.
    + apply Glob_star_eat. exact IH.
Qed.

Lemma onlyStars_Glob (p : string) :
  onlyStars p = true -> p <> ""%string -> forall k, Glob p k.
Proof.
  intros H Hne k. destruct p as [| c p]; [contradiction |]. simpl in H.
  destruct (Ascii.eqb c star) eqn:E; [| discriminate].
  apply Ascii.eqb_eq in E. subst c.
  apply Glob_star. exists k, ""%string. split.
  - clear. induction k as [| c k IH]; simpl; [reflexivity | f_equal; exact IH].
  - apply Glob_empty_key. exact H.
Qed.

Lemma matchPattern_scan_spec (rec : string -> bool) (k : string) :
  matchPattern_scan rec k = true <->
  exists k1 k2, k = (k1 ++ k2)%string /\ k2 <> ""%string /\ rec k2 = true.
Proof.
  induction k as [| c k IH]; simpl.
  - split; [discriminate |]. intros (k1 & k2 & Hk & Hne & _).
    destruct k1; simpl in Hk; [congruence | discriminate].
  - destruct (rec (String c k)) eqn:Hr.
    + split; [| reflexivity]. intros _. exists ""%string, (String c k).
      split; [reflexivity |]. split; [discriminate | exact Hr].
    + rewrite IH. split.
      * intros (k1 & k2 & -> & Hne & H). exists (String c k1), k2. auto.
      * intros (k1 & k2 & Hk & Hne & H). destruct k1 as [| c1 k1]; simpl in Hk.
        -- subst k2. congruence.
        -- inversion Hk; subst. exists k1, k2. auto.
Qed.

#[local] Arguments matchPattern_scan : simpl never.

Lemma matchPattern_loop_spec (p : string) : forall k : string,
  matchPattern_loop p k = true <-> Glob p k.
Proof.
  induction p as [| c p IH]; intros k.
  - simpl. rewrite Glob_empty_pattern. destruct k; simpl; split; congruence.
  - destruct k as [| kc k].
    + rewrite Glob_empty_key. simpl. rewrite andb_true_r. reflexivity.
    + simpl. destruct (Ascii.eqb c star) eqn:Es.
      * apply Ascii.eqb_eq in Es. subst c.
        destruct p as [| c' p'] eqn:Ep.
        { simpl. split; [| reflexivity]. intros _.
          apply onlyStars_Glob; [reflexivity | discriminate]. }
        rewrite <- Ep in *. replace (isEmpty p) with false by (rewrite Ep; reflexivity).
        rewrite matchPattern_scan_spec, Glob_star.
        assert (Hrec : forall k0, (if String.eqb p "*" then true else matchPattern_loop p k0)
                                  = true <-> Glob p k0).
        { intros k0. destruct (String.eqb p "*") eqn:E1.
          - apply String.eqb_eq in E1. split; [| reflexivity]. intros _.
            apply onlyStars_Glob; [rewrite E1; reflexivity | rewrite E1; discriminate].
          - apply IH. }
        split.
        -- intros (k1 & k2 & Hk & _ & H). exists k1, k2. split; [exact Hk |].
           apply Hrec. exact H.
        -- intros (k1 & k2 & Hk & H). destruct k2 as [| c2 k2].
           ++ exists ""%string, (String kc k). split; [reflexivity |].
              split; [discriminate |]. apply Hrec.
              apply onlyStars_Glob; [apply Glob_empty_key; exact H | rewrite Ep; discriminate].
           ++ exists k1, (String c2 k2). split; [exact Hk |].
              split; [discriminate |]. apply Hrec. exact H.
      * assert (Hs : c <> star) by (intros ->; rewrite Ascii.eqb_refl in Es; discriminate).
        destruct (Ascii.eqb c qmark) eqn:Eq; simpl.
        { apply Ascii.eqb_eq in Eq. subst c. rewrite IH. split.
          - apply Glob_qmark.
          - intros H. inversion H; subst; try contradiction; auto. }
        assert (Hq : c <> qmark) by (intros ->; rewrite Ascii.eqb_refl in Eq; discriminate).
        destruct (Ascii.eqb c kc) eqn:Ek.
        { apply Ascii.eqb_eq in Ek. subst kc. rewrite IH. split.
          - apply Glob_lit; auto.
          - intros H. inversion H; subst; try contradiction; auto. }
        split; [discriminate |]. intros H. inversion H; subst; try contradiction.
        rewrite Ascii.eqb_refl in Ek. discriminate.
Qed.

Lemma matchPattern_spec (p k : string) : matchPattern p k = true <-> Glob p k.
Proof.
  unfold matchPattern. destruct (String.eqb p "*") eqn:E.
  - apply String.eqb_eq in E. subst p. split; [| reflexivity]. intros _.
    apply onlyStars_Glob; [reflexivity | discriminate].
  - apply matchPattern_loop_spec.
Qed.

End GlobMatching.

Section Caches.

#[local] Arguments Map_insert : simpl never.
#[local] Arguments Map_delete : simpl never.
#[local] Arguments Map_get : simpl never.
#[local] Arguments Map_lookup : simpl never.
#[local] Arguments NewMap : simpl never.

(** ** Caches *)

(** The shard array has [numShards] shards, and [numShards] is positive. *)
Definition CacheOK (c : Cache) : Prop :=
  0 < numShards c /\ Z.of_nat (length (shards c)) = numShards c.

Lemma CacheOK_New (n maxMem : Z) : CacheOK (New n maxMem).
Proof.
  unfold CacheOK, New; simpl. rewrite length_replicate.
  destruct (n <=? 0) eqn:E; [lia |]. apply Z.leb_gt in E. lia.
Qed.

Lemma CacheOK_setShard (c : Cache) (i : Z) (s : Shard) :
  CacheOK c -> CacheOK (setShard i s c).
Proof. unfold CacheOK, setShard; simpl. rewrite length_insert. auto. Qed.

Section CacheBasics.
Variable hashKey : string -> Z.

Lemma shardIndex_range (c : Cache) (k : string) :
  CacheOK c -> 0 <= shardIndex hashKey c k < Z.of_nat (length (shards c)).
Proof.
  intros [Hpos Hlen]. unfold shardIndex. rewrite Hlen. apply Z.mod_pos_bound. exact Hpos.
Qed.

Lemma shard_exists (c : Cache) (k : string) :
  CacheOK c -> exists s, shards c !! Z.to_nat (shardIndex hashKey c k) = Some s.
Proof.
  intros HC. pose proof (shardIndex_range c k HC) as Hr.
  destruct (lookup_lt_is_Some_2 (shards c) (Z.to_nat (shardIndex hashKey c k))) as [s Hs];
    [lia | eauto].
Qed.

Lemma shardIndex_setShard (c : Cache) (i : Z) (s : Shard) (k : string) :
  shardIndex hashKey (setShard i s c) k = shardIndex hashKey c k.
Proof. reflexivity. Qed.
End CacheBasics.

Lemma shards_setShard_eq (c : Cache) (i : Z) (s : Shard) :
  0 <= i < Z.of_nat (length (shards c)) ->
  shards (setShard i s c) !! Z.to_nat i = Some s.
Proof. intros H. unfold setShard; simpl. apply list_lookup_insert_eq. lia. Qed.

Lemma shards_setShard_ne (c : Cache) (i : Z) (s : Shard) (j : nat) :
  j <> Z.to_nat i -> shards (setShard i s c) !! j = shards c !! j.
Proof. intros H. unfold setShard; simpl. apply list_lookup_insert_ne. lia. Qed.

Lemma shards_setShard (c : Cache) (i : Z) (s : Shard) (j : nat) (s' : Shard) :
  0 <= i < Z.of_nat (length (shards c)) ->
  shards (setShard i s c) !! j = Some s' ->
  (j = Z.to_nat i /\ s' = s) \/ (j <> Z.to_nat i /\ shards c !! j = Some s').
Proof.
  intros Hi H. destruct (Nat.eq_dec j (Z.to_nat i)) as [-> | Hne].
  - rewrite shards_setShard_eq in H by exact Hi. left. split; congruence.
  - rewrite shards_setShard_ne in H by exact Hne. right. auto.
Qed.

(** A property of every shard is kept when the one shard an operation
    touches keeps it. *)
Lemma Forall_setShard (P : Shard -> Prop) (c : Cache) (i : Z) (s : Shard) :
  Forall P (shards c) -> P s -> Forall P (shards (setShard i s c)).
Proof.
  intros HF Hs. unfold setShard; simpl. apply Forall_insert; auto.
Qed.

Lemma Forall_shard (P : Shard -> Prop) (c : Cache) (j : nat) (s : Shard) :
  Forall P (shards c) -> shards c !! j = Some s -> P s.
Proof. intros HF Hs. eapply Forall_lookup_1; eauto. Qed.

(** [Size] summed over a list of entries. *)
Definition totalSize (l : list Entry) : Z := fold_right (fun e acc => Size e + acc) 0 l.

Lemma totalSize_app (l1 l2 : list Entry) : totalSize (l1 ++ l2) = totalSize l1 + totalSize l2.
Proof. induction l1 as [| e l IH]; simpl; lia. Qed.

Lemma totalSize_perm (l1 l2 : list Entry) : Permutation l1 l2 -> totalSize l1 = totalSize l2.
Proof. induction 1; simpl; lia. Qed.

Lemma Size_pos (e : Entry) : 24 <= Size e.
Proof. unfold Size, len. lia. Qed.

Lemma totalSize_nonneg (l : list Entry) : 0 <= totalSize l.
Proof. induction l as [| e l IH]; simpl; [lia |]. pose proof (Size_pos e). lia. Qed.

Lemma wrap_i64_add_r (x y : Z) : wrap_i64 (x + wrap_i64 y) = wrap_i64 (x + y).
Proof. rewrite (Z.add_comm x), wrap_i64_add_l. f_equal. lia. Qed.

Lemma wrap_i64_idem (x : Z) : wrap_i64 (wrap_i64 x) = wrap_i64 x.
Proof. apply wrap_i64_small. apply wrap_i64_range. Qed.

Lemma Size_overwrite (ex e : Entry) : key ex = key e -> Size (overwrite ex e) = Size e.
Proof. intros H. unfold Size, overwrite. simpl. rewrite H. reflexivity. Qed.

Lemma key_overwrite (ex e : Entry) : key (overwrite ex e) = key ex.
Proof. reflexivity. Qed.

Lemma entries_NewMap : entries (NewMap 16) = [].
Proof. reflexivity. Qed.

End Caches.

Section EntryLists.

#[local] Arguments Map_insert : simpl never.
#[local] Arguments Map_delete : simpl never.
#[local] Arguments Map_get : simpl never.
#[local] Arguments Map_lookup : simpl never.
#[local] Arguments NewMap : simpl never.
#[local] Arguments wrap_i64 : simpl never.
#[local] Arguments wrap_u64 : simpl never.

(** Equations between wrapped sums: strip the inner wraps, then compare. *)
Ltac wrap_solve :=
  repeat (rewrite <- ?Z.add_assoc; rewrite wrap_i64_add_l); f_equal; lia.

(** ** What the map operations do to the entry list *)

Section MapContents.
Variable hashKey : string -> Z.

Lemma Map_insert_entries (mp : Map) (e : Entry) (mp' : Map) (r : option Entry) :
  Sound mp -> Map_insert hashKey mp e = Some (mp', r) ->
  Sound mp' /\
  match r with
  | Some ex => key ex = key e /\ (exists i, Map_get hashKey mp (key e) = Some (Some (ex, i))) /\
      exists l1 l2, entries mp = l1 ++ ex :: l2 /\ entries mp' = l1 ++ overwrite ex e :: l2
  | None => Map_get hashKey mp (key e) = Some None /\
      Permutation (entries mp') (e :: entries mp)
  end.
Proof.
  intros HS Hrun.
  destruct (Map_insert_sound hashKey mp e HS) as (mp0 & r0 & Hrun0 & HS' & Hspec).
  rewrite Hrun in Hrun0. inversion Hrun0; subst mp0 r0. split; [exact HS' |].
  destruct r as [ex |].
  - destruct Hspec as (i & b & Hg & Hb & He & Hk & ->).
    split; [exact Hk |]. split; [eauto |]. apply (putEntry_entries mp i b ex); auto.
  - destruct Hspec as (Hg & Hp & _). auto.
Qed.

Lemma Map_insert_total (mp : Map) (e : Entry) :
  Sound mp -> exists mp' r, Map_insert hashKey mp e = Some (mp', r).
Proof.
  intros HS. destruct (Map_insert_sound hashKey mp e HS) as (mp' & r & H & _). eauto.
Qed.

Lemma Map_insert_size (mp : Map) (e : Entry) (mp' : Map) (r : option Entry) :
  Sound mp -> Map_insert hashKey mp e = Some (mp', r) ->
  totalSize (entries mp') =
  totalSize (entries mp) + Size e - match r with Some ex => Size ex | None => 0 end.
Proof.
  intros HS Hrun. destruct (Map_insert_entries mp e mp' r HS Hrun) as [_ Hspec].
  destruct r as [ex |].
  - destruct Hspec as (Hk & _ & l1 & l2 & H1 & H2). rewrite H1, H2, !totalSize_app. simpl.
    rewrite (Size_overwrite ex e Hk). lia.
  - destruct Hspec as (_ & Hp). rewrite (totalSize_perm _ _ Hp). simpl. lia.
Qed.

Lemma Map_delete_size (mp : Map) (k : string) (h : Z) (mp' : Map) (r : option Entry) :
  Sound mp -> Map_delete mp k h = Some (mp', r) ->
  Sound mp' /\
  totalSize (entries mp) =
  totalSize (entries mp') + match r with Some e => Size e | None => 0 end.
Proof.
  intros HS Hrun.
  destruct (Map_delete_sound mp k h HS) as (mp0 & r0 & Hrun0 & HS' & _ & Hspec).
  rewrite Hrun in Hrun0. inversion Hrun0; subst mp0 r0. split; [exact HS' |].
  destruct r as [e |].
  - destruct Hspec as (_ & _ & Hp). rewrite (totalSize_perm _ _ Hp). simpl. lia.
  - destruct Hspec as [-> _]. lia.
Qed.

Lemma putEntry_size (mp : Map) (i : Z) (b : Bucket) (ex e' : Entry) :
  bucketAt (buckets mp) i = Some b -> entry b = Some ex ->
  totalSize (entries (putEntry mp i b e')) = totalSize (entries mp) - Size ex + Size e'.
Proof.
  intros Hb He. destruct (putEntry_entries mp i b ex e' Hb He) as (l1 & l2 & H1 & H2).
  rewrite H1, H2, !totalSize_app. simpl. lia.
Qed.
End MapContents.

(** ** The second revision without a memory limit: every operation returns,
       [memUsed] follows the entry list, and nothing is evicted *)

(** [s'] still holds an entry for every key [s] holds. *)
Definition Keeps (s s' : Shard) : Prop :=
  forall e, e ∈ entries (m s) -> exists e', e' ∈ entries (m s') /\ key e' = key e.

Lemma Keeps_refl (s : Shard) : Keeps s s.
Proof. intros e He. eauto. Qed.

Lemma Keeps_trans (s1 s2 s3 : Shard) : Keeps s1 s2 -> Keeps s2 s3 -> Keeps s1 s3.
Proof.
  intros H12 H23 e He. destruct (H12 e He) as (e2 & He2 & Hk2).
  destruct (H23 e2 He2) as (e3 & He3 & Hk3). exists e3. split; [exact He3 | congruence].
Qed.

Definition KeepsAll (c c' : Cache) : Prop := Forall2 Keeps (shards c) (shards c').

Lemma KeepsAll_refl (c : Cache) : KeepsAll c c.
Proof. unfold KeepsAll. apply Forall_Forall2_diag. apply Forall_forall. intros s _. apply Keeps_refl. Qed.

Lemma KeepsAll_trans (c1 c2 c3 : Cache) : KeepsAll c1 c2 -> KeepsAll c2 c3 -> KeepsAll c1 c3.
Proof.
  unfold KeepsAll. generalize (shards c1) (shards c2) (shards c3). clear.
  intros l1 l2 l3 H12. revert l3. induction H12 as [| x y l l' Hxy _ IH]; intros l3 H23.
  - inversion H23. constructor.
  - inversion H23 as [| y' z l2' l3' Hyz Hrest]; subst. constructor.
    + eapply Keeps_trans; eauto.
    + apply IH. exact Hrest.
Qed.

Lemma KeepsAll_setShard (c : Cache) (i : Z) (s s' : Shard) :
  shards c !! Z.to_nat i = Some s -> Keeps s s' -> KeepsAll c (setShard i s' c).
Proof.
  intros Hs Hk. unfold KeepsAll, setShard; simpl.
  rewrite <- (list_insert_id (shards c) (Z.to_nat i) s Hs) at 1.
  apply Forall2_insert; [| exact Hk].
  apply Forall_Forall2_diag. apply Forall_forall. intros x _. apply Keeps_refl.
Qed.

Section Accounting.
Variable hashKey : string -> Z.

(** A shard without a memory limit on which nothing was evicted: the
    accounting invariant holds, the eviction counter is zero and no
    entry carries the evicted bit. *)
Definition Clean (s : Shard) : Prop :=
  Sound (m s) /\ maxMemory s <= 0 /\
  memUsed s = wrap_i64 (totalSize (entries (m s))) /\
  numEvicted s = 0 /\ (forall e, e ∈ entries (m s) -> evicted e = false).

Lemma Clean_NewShard (maxMem : Z) : maxMem <= 0 -> Clean (NewShard maxMem).
Proof.
  intros H. split; [apply Sound_NewMap |]. split; [exact H |].
  split; [reflexivity |]. split; [reflexivity |].
  intros e He. change (entries (m (NewShard maxMem))) with (entries (NewMap 16)) in He.
  rewrite entries_NewMap in He. inversion He.
Qed.

Lemma evictIfNeeded_unlimited (now : Z) (rnd : nat -> Z) (s : Shard) (req : Z) :
  maxMemory s <= 0 -> Ops2.evictIfNeeded now rnd s req = Some s.
Proof.
  intros H. unfold Ops2.evictIfNeeded.
  replace (maxMemory s <=? 0) with true by (symmetry; apply Z.leb_le; exact H).
  reflexivity.
Qed.

Lemma Store_clean (c : Cache) (k v : string) (opts : option StoreOptions)
    (now : Z) (rnd : nat -> Z) :
  CacheOK c -> Forall Clean (shards c) ->
  exists c', Ops2.Store hashKey c k v opts now rnd = Some c' /\
    CacheOK c' /\ Forall Clean (shards c') /\ KeepsAll c c'.
Proof.
  intros HC HF. unfold Ops2.Store.
  destruct (shard_exists hashKey c k HC) as [s Hs]. rewrite Hs. simpl.
  pose proof (Forall_shard _ _ _ _ HF Hs) as (HS & Hmax & Hmem & Hev & Hbits).
  rewrite evictIfNeeded_unlimited by exact Hmax. simpl.
  set (e := storeEntry k v opts now).
  assert (Hebit : evicted e = false).
  { unfold e, storeEntry. destruct opts as [o |]; [| reflexivity].
    destruct (0 <? TTL o); reflexivity. }
  destruct (Map_insert_total hashKey (m s) e HS) as (mp' & r & Hins).
  simpl. rewrite Hins. simpl.
  destruct (Map_insert_entries hashKey _ _ _ _ HS Hins) as [HS' Hspec].
  pose proof (Map_insert_size hashKey _ _ _ _ HS Hins) as Hsz.
  eexists. split; [reflexivity |]. split; [apply CacheOK_setShard; exact HC |].
  destruct r as [ex |].
  - destruct Hspec as (Hk & _ & l1 & l2 & H1 & H2). split.
    + apply Forall_setShard; [exact HF |].
      split; [exact HS' |]. split; [exact Hmax |]. split; [| split; [exact Hev |]].
      * unfold addMemUsed; simpl. rewrite Hmem, Hsz. wrap_solve.
      * simpl. intros x Hx. rewrite H2 in Hx.
        apply elem_of_app in Hx as [Hx | Hx]; [apply Hbits; rewrite H1; set_solver |].
        apply elem_of_cons in Hx as [-> | Hx]; [| apply Hbits; rewrite H1; set_solver].
        simpl. apply Hbits. rewrite H1. set_solver.
    + apply (KeepsAll_setShard c _ s); [exact Hs |]. intros x Hx. simpl. rewrite H2.
      rewrite H1 in Hx. apply elem_of_app in Hx as [Hx | Hx]; [exists x; set_solver |].
      apply elem_of_cons in Hx as [-> | Hx]; [| exists x; set_solver].
      exists (overwrite ex e). split; [set_solver | reflexivity].
  - destruct Hspec as (_ & Hp). split.
    + apply Forall_setShard; [exact HF |].
      split; [exact HS' |]. split; [exact Hmax |]. split; [| split; [exact Hev |]].
      * unfold addMemUsed; simpl. rewrite Hmem, Hsz. wrap_solve.
      * simpl. intros x Hx. rewrite Hp in Hx.
        apply elem_of_cons in Hx as [-> | Hx]; [exact Hebit | apply Hbits; exact Hx].
    + apply (KeepsAll_setShard c _ s); [exact Hs |]. intros x Hx. simpl.
      exists x. split; [rewrite Hp; set_solver | reflexivity].
Qed.

Lemma Delete_clean (c : Cache) (k : string) :
  CacheOK c -> Forall Clean (shards c) ->
  exists c' r, Ops2.Delete hashKey c k = Some (c', r) /\
    CacheOK c' /\ Forall Clean (shards c') /\ numShards c' = numShards c.
Proof.
  intros HC HF. unfold Ops2.Delete.
  destruct (shard_exists hashKey c k HC) as [s Hs]. rewrite Hs. simpl.
  pose proof (Forall_shard _ _ _ _ HF Hs) as (HS & Hmax & Hmem & Hev & Hbits).
  destruct (Map_delete_sound (m s) k (hashKey k) HS) as (mp' & r & Hdel & _ & _ & Hspec).
  rewrite Hdel. simpl.
  destruct (Map_delete_size _ _ _ _ _ HS Hdel) as [HS' Hsz].
  destruct r as [e |]; simpl; eexists; eexists; (split; [reflexivity |]);
    (split; [apply CacheOK_setShard; exact HC |]); (split; [| reflexivity]);
    (apply Forall_setShard; [exact HF |]); (split; [exact HS' | split; [exact Hmax |]]).
  - split; [| split; [exact Hev |]].
    + unfold addMemUsed; simpl. rewrite Hmem, Hsz. wrap_solve.
    + simpl. destruct Hspec as (_ & _ & Hp). intros x Hx. apply Hbits. rewrite Hp.
      set_solver.
  - destruct Hspec as [-> _]. simpl. auto.
Qed.

Lemma Load_clean (c : Cache) (k : string) (now : Z) :
  CacheOK c -> Forall Clean (shards c) ->
  exists c' r, Ops2.Load hashKey c k now = Some (c', r) /\
    CacheOK c' /\ Forall Clean (shards c').
Proof.
  intros HC HF. unfold Ops2.Load.
  destruct (shard_exists hashKey c k HC) as [s Hs]. rewrite Hs. simpl.
  pose proof (Forall_shard _ _ _ _ HF Hs) as HA.
  pose proof HA as (HS & Hmax & Hmem & Hev & Hbits).
  destruct (Map_get_total hashKey (m s) k HS) as [r Hr]. rewrite Hr. simpl.
  pose proof (shardIndex_range hashKey c k HC) as Hrange.
  assert (Hdel : forall f : Shard -> Shard, (forall x, Clean x -> Clean (f x)) ->
            exists c' r',
              (d ← Ops2.Delete hashKey (setShard (shardIndex hashKey c k) (incOps s) c) k;
               shard' ← shards d.1 !! Z.to_nat (shardIndex hashKey c k);
               Some (setShard (shardIndex hashKey c k) (f shard') d.1, @None Entry))
              = Some (c', r') /\ CacheOK c' /\ Forall Clean (shards c')).
  { intros f Hf.
    destruct (Delete_clean (setShard (shardIndex hashKey c k) (incOps s) c) k)
      as (c1 & r1 & Hd & HC1 & HF1 & Hn).
    { apply CacheOK_setShard. exact HC. }
    { apply Forall_setShard; [exact HF | exact HA]. }
    rewrite Hd. simpl.
    assert (Hidx : shardIndex hashKey c1 k = shardIndex hashKey c k).
    { unfold shardIndex. rewrite Hn. reflexivity. }
    destruct (shard_exists hashKey c1 k HC1) as [s1 Hs1]. rewrite Hidx in Hs1.
    rewrite Hs1. simpl. eexists. eexists. split; [reflexivity |].
    split; [apply CacheOK_setShard; exact HC1 |].
    apply Forall_setShard; [exact HF1 |]. apply Hf.
    apply (Forall_shard _ _ _ _ HF1 Hs1). }
  destruct r as [[e i] |].
  - destruct (IsEvicted e).
    + apply (Hdel incMisses). intros x Hx. exact Hx.
    + destruct (IsExpired now e).
      * apply (Hdel (fun x => incMisses (incExpired x))). intros x Hx. exact Hx.
      * eexists. eexists. split; [reflexivity |].
        split; [apply CacheOK_setShard; exact HC |].
        apply Forall_setShard; [exact HF | exact HA].
  - eexists. eexists. split; [reflexivity |].
    split; [apply CacheOK_setShard; exact HC |].
    apply Forall_setShard; [exact HF | exact HA].
Qed.

Lemma Increment_clean (c : Cache) (k : string) (delta now : Z) (rnd : nat -> Z) :
  CacheOK c -> Forall Clean (shards c) ->
  exists c' r, Ops2.Increment hashKey c k delta now rnd = Some (c', r) /\
    CacheOK c' /\ Forall Clean (shards c') /\ KeepsAll c c'.
Proof.
  intros HC HF. unfold Ops2.Increment.
  destruct (shard_exists hashKey c k HC) as [s Hs]. rewrite Hs. simpl.
  pose proof (Forall_shard _ _ _ _ HF Hs) as HA.
  pose proof HA as (HS & Hmax & Hmem & Hev & Hbits).
  destruct (Map_get_total hashKey (m s) k HS) as [r Hr]. rewrite Hr. simpl.
  destruct r as [[e i] |].
  - destruct (Map_get_sound hashKey (m s) k e i HS Hr) as (Hi & b & Hb & He & Hk).
    rewrite Hb. simpl. eexists. eexists. split; [reflexivity |].
    split; [apply CacheOK_setShard; exact HC |].
    set (e' := IncrementCAS (setValue _ e)).
    destruct (putEntry_Sound (m s) i b e e' HS Hb He) as [HS' _].
    destruct (putEntry_entries (m s) i b e e' Hb He) as (l1 & l2 & H1 & H2).
    pose proof (putEntry_size (m s) i b e e' Hb He) as Hp.
    unfold putEntry, withEntry in *. split.
    + apply Forall_setShard; [exact HF |].
      split; [exact HS' |]. split; [exact Hmax |]. split; [| split; [exact Hev |]].
      * unfold addMemUsed; simpl. rewrite Hp, Hmem. wrap_solve.
      * simpl. intros x Hx. rewrite H2 in Hx.
        apply elem_of_app in Hx as [Hx | Hx]; [apply Hbits; rewrite H1; set_solver |].
        apply elem_of_cons in Hx as [-> | Hx]; [| apply Hbits; rewrite H1; set_solver].
        simpl. apply Hbits. rewrite H1. set_solver.
    + apply (KeepsAll_setShard c _ s); [exact Hs |]. intros x Hx. simpl. rewrite H2.
      rewrite H1 in Hx. apply elem_of_app in Hx as [Hx | Hx]; [exists x; set_solver |].
      apply elem_of_cons in Hx as [-> | Hx]; [| exists x; set_solver].
      exists e'. split; [set_solver | reflexivity].
  - rewrite evictIfNeeded_unlimited by exact Hmax. simpl.
    set (e := newEntry k (int64ToBytes delta)).
    destruct (Map_insert_total hashKey (m s) e HS) as (mp' & r & Hins).
    rewrite Hins. simpl. eexists. eexists. split; [reflexivity |].
    split; [apply CacheOK_setShard; exact HC |].
    destruct (Map_insert_entries hashKey _ _ _ _ HS Hins) as [HS' Hspec].
    pose proof (Map_insert_size hashKey _ _ _ _ HS Hins) as Hsz.
    destruct r as [ex |].
    { destruct Hspec as (_ & [j Hj] & _). unfold e in Hj. simpl in Hj. congruence. }
    destruct Hspec as (_ & Hp). split.
    + apply Forall_setShard; [exact HF |].
      split; [exact HS' |]. split; [exact Hmax |]. split; [| split; [exact Hev |]].
      * unfold addMemUsed; simpl. rewrite Hmem, Hsz. wrap_solve.
      * simpl. intros x Hx. rewrite Hp in Hx.
        apply elem_of_cons in Hx as [-> | Hx]; [reflexivity | apply Hbits; exact Hx].
    + apply (KeepsAll_setShard c _ s); [exact Hs |]. intros x Hx. simpl.
      exists x. split; [rewrite Hp; set_solver | reflexivity].
Qed.

(** [CompareAndSwap]: on success [memUsed] moves by the difference of the
    value lengths. *)
Lemma CompareAndSwap_clean (c : Cache) (k v : string) (expected : Z)
    (opts : option StoreOptions) (now : Z) (rnd : nat -> Z) :
  CacheOK c -> Forall Clean (shards c) ->
  exists c' ok, Ops2.CompareAndSwap hashKey c k v expected opts now rnd = Some (c', ok) /\
    CacheOK c' /\ Forall Clean (shards c') /\ KeepsAll c c' /\
    (ok = true ->
     exists s s' ex i,
       shards c !! Z.to_nat (shardIndex hashKey c k) = Some s /\
       shards c' !! Z.to_nat (shardIndex hashKey c k) = Some s' /\
       Map_get hashKey (m s) k = Some (Some (ex, i)) /\
       memUsed s' = wrap_i64 (memUsed s + (len v - len (value ex)))).
Proof.
  intros HC HF. unfold Ops2.CompareAndSwap.
  destruct (shard_exists hashKey c k HC) as [s Hs]. rewrite Hs. simpl.
  pose proof (Forall_shard _ _ _ _ HF Hs) as HA.
  pose proof HA as (HS & Hmax & Hmem & Hev & Hbits).
  destruct (Map_get_total hashKey (m s) k HS) as [r Hr]. rewrite Hr. simpl.
  pose proof (shardIndex_range hashKey c k HC) as Hrange.
  assert (Hsame : exists c' ok, Some (setShard (shardIndex hashKey c k) (incOps s) c, false)
                    = Some (c', ok) /\ CacheOK c' /\ Forall Clean (shards c') /\
                    KeepsAll c c' /\
                    (ok = true ->
                     exists s0 s' ex i,
                       Some s = Some s0 /\
                       shards c' !! Z.to_nat (shardIndex hashKey c k) = Some s' /\
                       Map_get hashKey (m s0) k = Some (Some (ex, i)) /\
                       memUsed s' = wrap_i64 (memUsed s0 + (len v - len (value ex))))).
  { eexists. eexists. split; [reflexivity |].
    split; [apply CacheOK_setShard; exact HC |].
    split; [apply Forall_setShard; [exact HF | exact HA] |].
    split; [| discriminate].
    apply (KeepsAll_setShard c _ s); [exact Hs |]. exact (Keeps_refl s). }
  destruct r as [[ex i] |]; [| exact Hsame].
  destruct (negb (cas ex =? expected)); [exact Hsame |].
  rewrite evictIfNeeded_unlimited by exact Hmax. simpl.
  destruct (Map_get_sound hashKey (m s) k ex i HS Hr) as (Hi & b & Hb & He & Hk).
  rewrite Hb. simpl. rewrite He. simpl.
  eexists. eexists. split; [reflexivity |].
  split; [apply CacheOK_setShard; exact HC |].
  match goal with |- context [{| entry := Some ?x; hash := _; distance := _ |}] =>
    set (e' := x) end.
  destruct (putEntry_Sound (m s) i b ex e' HS Hb He) as [HS' _].
  destruct (putEntry_entries (m s) i b ex e' Hb He) as (l1 & l2 & H1 & H2).
  pose proof (putEntry_size (m s) i b ex e' Hb He) as Hp.
  unfold putEntry, withEntry in *.
  assert (Hsize : Size e' = Size ex + (len v - len (value ex)))
    by (unfold e', Size; simpl; lia).
  split; [| split].
  - apply Forall_setShard; [exact HF |].
    split; [exact HS' |]. split; [exact Hmax |]. split; [| split; [exact Hev |]].
    + unfold addMemUsed; simpl. rewrite Hp, Hmem. wrap_solve.
    + simpl. intros x Hx. rewrite H2 in Hx.
      apply elem_of_app in Hx as [Hx | Hx]; [apply Hbits; rewrite H1; set_solver |].
      apply elem_of_cons in Hx as [-> | Hx]; [| apply Hbits; rewrite H1; set_solver].
      simpl. apply Hbits. rewrite H1. set_solver.
  - apply (KeepsAll_setShard c _ s); [exact Hs |]. intros x Hx. simpl. rewrite H2.
    rewrite H1 in Hx. apply elem_of_app in Hx as [Hx | Hx]; [exists x; set_solver |].
    apply elem_of_cons in Hx as [-> | Hx]; [| exists x; set_solver].
    exists e'. split; [set_solver | reflexivity].
  - intros _. exists s. eexists. exists ex, i. split; [reflexivity |].
    split; [apply shards_setShard_eq; exact Hrange |]. split; [exact Hr |]. reflexivity.
Qed.
End Accounting.

End EntryLists.

Section SecondRevisionRuns.

#[local] Arguments Map_insert : simpl never.
#[local] Arguments Map_delete : simpl never.
#[local] Arguments Map_get : simpl never.
#[local] Arguments Map_lookup : simpl never.
#[local] Arguments NewMap : simpl never.
#[local] Arguments wrap_i64 : simpl never.
#[local] Arguments wrap_u64 : simpl never.

(** ** Sequences of operations on the second revision *)

(** A call of the public interface, with the clock reading and the random
    numbers it consumes. *)
Inductive CacheOp : Type :=
  | CallStore (k v : string) (opts : option StoreOptions) (now : Z) (rnd : nat -> Z)
  | CallLoad (k : string) (now : Z)
  | CallDelete (k : string)
  | CallIncrement (k : string) (delta now : Z) (rnd : nat -> Z)
  | CallCompareAndSwap (k v : string) (expected : Z) (opts : option StoreOptions)
      (now : Z) (rnd : nat -> Z).

(** The calls that write: Store, Increment, CompareAndSwap. *)
Definition isWrite (op : CacheOp) : bool :=
  match op with
  | CallStore _ _ _ _ _ | CallIncrement _ _ _ _ | CallCompareAndSwap _ _ _ _ _ _ => true
  | _ => false
  end.

Section Runs.
Variable hashKey : string -> Z.

Definition step2 (c : Cache) (op : CacheOp) : option Cache :=
  match op with
  | CallStore k v opts now rnd => Ops2.Store hashKey c k v opts now rnd
  | CallLoad k now => r ← Ops2.Load hashKey c k now; Some r.1
  | CallDelete k => r ← Ops2.Delete hashKey c k; Some r.1
  | CallIncrement k delta now rnd => r ← Ops2.Increment hashKey c k delta now rnd; Some r.1
  | CallCompareAndSwap k v expected opts now rnd =>
      r ← Ops2.CompareAndSwap hashKey c k v expected opts now rnd; Some r.1
  end.

Fixpoint run2 (c : Cache) (ops : list CacheOp) : option Cache :=
  match ops with
  | [] => Some c
  | op :: rest => c' ← step2 c op; run2 c' rest
  end.

Lemma step2_clean (c : Cache) (op : CacheOp) :
  CacheOK c -> Forall (Clean) (shards c) ->
  exists c', step2 c op = Some c' /\ CacheOK c' /\ Forall Clean (shards c') /\
    (isWrite op = true -> KeepsAll c c').
Proof.
  intros HC HF. destruct op as [k v opts now rnd | k now | k | k delta now rnd
                                | k v expected opts now rnd]; simpl.
  - destruct (Store_clean hashKey c k v opts now rnd HC HF) as (c' & H & HC' & HF' & HK).
    exists c'. auto.
  - destruct (Load_clean hashKey c k now HC HF) as (c' & r & H & HC' & HF').
    rewrite H. simpl. exists c'. split; [reflexivity |]. split; [exact HC' |].
    split; [exact HF' | discriminate].
  - destruct (Delete_clean hashKey c k HC HF) as (c' & r & H & HC' & HF' & _).
    rewrite H. simpl. exists c'. split; [reflexivity |]. split; [exact HC' |].
    split; [exact HF' | discriminate].
  - destruct (Increment_clean hashKey c k delta now rnd HC HF)
      as (c' & r & H & HC' & HF' & HK).
    rewrite H. simpl. exists c'. auto.
  - destruct (CompareAndSwap_clean hashKey c k v expected opts now rnd HC HF)
      as (c' & r & H & HC' & HF' & HK & _).
    rewrite H. simpl. exists c'. auto.
Qed.

Lemma run2_clean (ops : list CacheOp) : forall c : Cache,
  CacheOK c -> Forall Clean (shards c) ->
  exists c', run2 c ops = Some c' /\ CacheOK c' /\ Forall Clean (shards c') /\
    (forallb isWrite ops = true -> KeepsAll c c').
Proof.
  induction ops as [| op ops IH]; intros c HC HF; simpl.
  - exists c. split; [reflexivity |]. split; [exact HC |]. split; [exact HF |].
    intros _. apply KeepsAll_refl.
  - destruct (step2_clean c op HC HF) as (c1 & H1 & HC1 & HF1 & HK1).
    rewrite H1. simpl.
    destruct (IH c1 HC1 HF1) as (c' & Hrun & HC' & HF' & HK').
    exists c'. split; [exact Hrun |]. split; [exact HC' |]. split; [exact HF' |].
    intros Hw. apply andb_prop in Hw as [Hw1 Hw2].
    eapply KeepsAll_trans; [apply HK1; exact Hw1 | apply HK'; exact Hw2].
Qed.

Lemma Clean_New (n : Z) : Forall Clean (shards (New n 0)).
Proof.
  unfold New; simpl. apply Forall_replicate.
  replace (Z.quot 0 (if n <=? 0 then 16 else n)) with 0 by (symmetry; apply Z.quot_0_l;
    destruct (n <=? 0) eqn:E; [lia | apply Z.leb_gt in E; lia]).
  apply Clean_NewShard. lia.
Qed.

Lemma run2_app (ops1 ops2 : list CacheOp) (c : Cache) :
  run2 c (ops1 ++ ops2) = (c1 ← run2 c ops1; run2 c1 ops2).
Proof.
  revert c. induction ops1 as [| op ops1 IH]; intros c; simpl; [reflexivity |].
  destruct (step2 c op) as [c1 |]; simpl; [apply IH | reflexivity].
Qed.

(** The sum [Stats] forms over the eviction counters is zero when every
    counter is. *)
Lemma num_evicted_zero (c : Cache) :
  Forall (fun s => numEvicted s = 0) (shards c) -> num_evicted (Stats c) = 0.
Proof.
  unfold Stats; simpl. generalize (shards c). intros l H.
  induction H as [| s l Hs _ IH]; simpl; [reflexivity |].
  rewrite Hs. exact IH.
Qed.
End Runs.

End SecondRevisionRuns.

(** ** The reference hash on known inputs *)

Example XXH64_vectors :
  XXH64 "" = 0xef46db3751d8e999 /\ XXH64 "a" = 0xd24ec4f1a98c6e5b /\
  XXH64 "abc" = 0x44bc2cf5ad770999 /\
  XXH64 "Call me Ishmael. Some years ago--never mind how long precisely-" = 0x02a2e85470d6fd96.
Proof. vm_compute. repeat split; reflexivity. Qed.

(** ** Glob matching *)

(** C9: [matchPattern pattern key] is true exactly when the pattern matches
    the whole key, where a star matches any run of characters (the empty one
    included), a question mark exactly one character and every other
    pattern byte only the same key byte; over the keys a, ab, abc the
    pattern [a*] selects all three and [a?] only ab. *)
Theorem matchPattern_is_glob :
  (forall p k : string, matchPattern p k = true <-> Glob p k) /\
  List.filter (matchPattern "a*") ["a"; "ab"; "abc"]%string = ["a"; "ab"; "abc"]%string /\
  List.filter (matchPattern "a?") ["a"; "ab"; "abc"]%string = ["ab"]%string.
Proof.
  split; [exact matchPattern_spec |]. split; reflexivity.
Qed.

(** ** The counter encoding *)

(** C10: for an int64 [n], [int64ToBytes n] has eight bytes and
    [bytesToInt64] reads [n] back; on a slice [b] of eight bytes,
    [int64ToBytes] undoes [bytesToInt64]. *)
Theorem int64_bytes_inverse (n : Z) (b : string) :
  - 2 ^ 63 <= n < 2 ^ 63 -> String.length b = 8%nat ->
  String.length (int64ToBytes n) = 8%nat /\
  bytesToInt64 (int64ToBytes n) = n /\
  int64ToBytes (bytesToInt64 b) = b.
Proof.
  intros Hn Hb. split; [apply int64ToBytes_length |]. split.
  - rewrite bytesToInt64_int64ToBytes. apply wrap_i64_small. exact Hn.
  - apply int64ToBytes_bytesToInt64. exact Hb.
Qed.

Lemma int64_bytes_inverse_negative :
  (- 2 ^ 63 <= -2 < 2 ^ 63) /\ String.length "counter!" = 8%nat /\
  String.length (int64ToBytes (-2)) = 8%nat /\
  bytesToInt64 (int64ToBytes (-2)) = -2 /\
  int64ToBytes (bytesToInt64 "counter!") = "counter!"%string.
Proof.
  split; [lia |]. split; [reflexivity |].
  apply (int64_bytes_inverse (-2) "counter!"); [lia | reflexivity].
Defined.

Section ClearProofs.

#[local] Arguments Map_insert : simpl never.
#[local] Arguments Map_delete : simpl never.
#[local] Arguments Map_get : simpl never.
#[local] Arguments Map_lookup : simpl never.
#[local] Arguments NewMap : simpl never.
#[local] Arguments wrap_i64 : simpl never.
#[local] Arguments wrap_u64 : simpl never.

(** ** Clear *)

Lemma fold_left_map_shards (g : Z -> Z -> Z) (h : Shard -> Z) (f : Shard -> Shard)
    (l : list Shard) : forall a : Z,
  fold_left (fun acc s => g acc (h s)) (map f l) a
  = fold_left (fun acc s => g acc (h (f s))) l a.
Proof. induction l as [| s l IH]; intros a; simpl; [reflexivity | apply IH]. Qed.

Lemma fold_left_zero (g : Z -> Z -> Z) (l : list Shard) :
  g 0 0 = 0 -> fold_left (fun acc _ => g acc 0) l 0 = 0.
Proof. intros Hg. induction l as [| s l IH]; simpl; [reflexivity |]. rewrite Hg. exact IH. Qed.

Lemma CacheOK_Clear (c : Cache) : CacheOK c -> CacheOK (Clear c).
Proof. unfold CacheOK, Clear; simpl. rewrite length_map. auto. Qed.

Section ClearSection.
Variable hashKey : string -> Z.

Lemma Map_get_NewMap (k : string) : Map_get hashKey (NewMap 16) k = Some None.
Proof.
  destruct (Map_get_total hashKey (NewMap 16) k Sound_NewMap) as [[[e i] |] Hr];
    [| exact Hr].
  destruct (Map_get_found hashKey _ _ _ _ Sound_NewMap Hr) as [Hin _].
  rewrite entries_NewMap in Hin. inversion Hin.
Qed.

Lemma Clear_shard (c : Cache) (k : string) :
  CacheOK c ->
  exists s, shards (Clear c) !! Z.to_nat (shardIndex hashKey (Clear c) k)
            = Some (setMemUsed 0 (setM (NewMap 16) s)).
Proof.
  intros HC. destruct (shard_exists hashKey c k HC) as [s Hs]. exists s.
  unfold shardIndex in *. unfold Clear; simpl. rewrite list_lookup_fmap, Hs. reflexivity.
Qed.

Lemma Load_after_Clear (c : Cache) (k : string) (now : Z) :
  CacheOK c ->
  (exists c', Ops.Load hashKey (Clear c) k now = Some (c', None)) /\
  (exists c', Ops2.Load hashKey (Clear c) k now = Some (c', None)).
Proof.
  intros HC. destruct (Clear_shard c k HC) as [s Hs].
  split; [unfold Ops.Load | unfold Ops2.Load]; rewrite Hs; simpl;
    rewrite Map_get_NewMap; simpl; eauto.
Qed.
End ClearSection.

Lemma Stats_Clear (c : Cache) :
  num_items (Stats (Clear c)) = 0 /\ mem_used (Stats (Clear c)) = 0 /\
  num_ops (Stats (Clear c)) = num_ops (Stats c) /\
  num_hits (Stats (Clear c)) = num_hits (Stats c) /\
  num_misses (Stats (Clear c)) = num_misses (Stats c) /\
  num_evicted (Stats (Clear c)) = num_evicted (Stats c) /\
  num_expired (Stats (Clear c)) = num_expired (Stats c).
Proof.
  unfold Stats, Clear; simpl.
  set (f := fun s : Shard => setMemUsed 0 (setM (NewMap 16) s)).
  split; [| split].
  - rewrite (fold_left_map_shards Z.add (fun s => numItems (m s)) f). simpl.
    apply (fold_left_zero Z.add). reflexivity.
  - rewrite (fold_left_map_shards (fun a b => wrap_i64 (a + b)) memUsed f). simpl.
    apply (fold_left_zero (fun a b => wrap_i64 (a + b))). reflexivity.
  - repeat split.
    + apply (fold_left_map_shards (fun a b => wrap_u64 (a + b)) numOps f).
    + apply (fold_left_map_shards (fun a b => wrap_u64 (a + b)) numHits f).
    + apply (fold_left_map_shards (fun a b => wrap_u64 (a + b)) numMisses f).
    + apply (fold_left_map_shards (fun a b => wrap_u64 (a + b)) numEvicted f).
    + apply (fold_left_map_shards (fun a b => wrap_u64 (a + b)) numExpired f).
Qed.

(** A cache that served a Store, a hit and a miss. *)
Definition servedCache : option Cache :=
  c1 ← Ops.Store XXH64 (New 16 0) "a" "x" None 0 (fun _ => 0);
  r2 ← Ops.Load XXH64 c1 "a" 0;
  r3 ← Ops.Load XXH64 r2.1 "zz" 0;
  Some r3.1.

(** C7, as the code has it: after [Clear] every [Load] misses and [Stats]
    reports no item and no memory in use; the five operation counters
    (num_ops, num_hits, num_misses, num_evicted, num_expired) keep the
    values they had before [Clear]. *)
Theorem Clear_empties_and_keeps_counters (hashKey : string -> Z) (c : Cache)
    (k : string) (now : Z) :
  CacheOK c ->
  (exists c', Ops.Load hashKey (Clear c) k now = Some (c', None)) /\
  (exists c', Ops2.Load hashKey (Clear c) k now = Some (c', None)) /\
  num_items (Stats (Clear c)) = 0 /\ mem_used (Stats (Clear c)) = 0 /\
  num_ops (Stats (Clear c)) = num_ops (Stats c) /\
  num_hits (Stats (Clear c)) = num_hits (Stats c) /\
  num_misses (Stats (Clear c)) = num_misses (Stats c) /\
  num_evicted (Stats (Clear c)) = num_evicted (Stats c) /\
  num_expired (Stats (Clear c)) = num_expired (Stats c).
Proof.
  intros HC. destruct (Load_after_Clear hashKey c k now HC) as [H1 H2].
  split; [exact H1 |]. split; [exact H2 |]. apply Stats_Clear.
Qed.

Lemma Clear_on_served_cache :
  CacheOK (default (New 16 0) servedCache) /\
  (exists c', Ops.Load XXH64 (Clear (default (New 16 0) servedCache)) "a" 5 = Some (c', None)) /\
  num_ops (Stats (Clear (default (New 16 0) servedCache)))
  = num_ops (Stats (default (New 16 0) servedCache)).
Proof.
  assert (HC : CacheOK (default (New 16 0) servedCache))
    by (vm_compute; split; reflexivity).
  split; [exact HC |].
  pose proof (Clear_empties_and_keeps_counters XXH64 _ "a" 5 HC) as H.
  split; [exact (proj1 H) | exact (proj1 (proj2 (proj2 (proj2 (proj2 H)))))].
Defined.

(** C7, the counters: a cache that served a Store, a hit and a miss reports
    after [Clear] three operations, one hit and one miss, not zero. *)
Lemma Clear_counters_not_reset :
  (c ← servedCache;
   Some (num_ops (Stats (Clear c)), num_hits (Stats (Clear c)),
         num_misses (Stats (Clear c)), num_items (Stats (Clear c))))
  = Some (3, 1, 1, 0).
Proof. vm_compute. reflexivity. Qed.

End ClearProofs.

Section WithoutLimit.

#[local] Arguments Map_insert : simpl never.
#[local] Arguments Map_delete : simpl never.
#[local] Arguments Map_get : simpl never.
#[local] Arguments Map_lookup : simpl never.
#[local] Arguments NewMap : simpl never.
#[local] Arguments wrap_i64 : simpl never.
#[local] Arguments wrap_u64 : simpl never.

(** ** A cache without a memory limit *)

Section Unlimited.
Variable hashKey : string -> Z.

(** X15, the second revision: on a cache made with [maxMemory = 0] every
    sequence of Store, Load, Delete, Increment and CompareAndSwap runs to
    its end, and afterwards each shard's [memUsed] is the sum of the sizes
    of the entries of its table (as an int64); a further CompareAndSwap
    that succeeds moves [memUsed] by the new value's length minus the
    old one's. *)
Lemma second_revision_accounting (n : Z) (ops : list CacheOp) :
  exists c, run2 hashKey (New n 0) ops = Some c /\
    Forall (fun s => memUsed s = wrap_i64 (totalSize (entries (m s)))) (shards c) /\
    forall k v expected opts now rnd,
      exists c' ok,
        Ops2.CompareAndSwap hashKey c k v expected opts now rnd = Some (c', ok) /\
        (ok = true ->
         exists s s' ex i,
           shards c !! Z.to_nat (shardIndex hashKey c k) = Some s /\
           shards c' !! Z.to_nat (shardIndex hashKey c k) = Some s' /\
           Map_get hashKey (m s) k = Some (Some (ex, i)) /\
           memUsed s' = wrap_i64 (memUsed s + (len v - len (value ex)))).
Proof.
  destruct (run2_clean hashKey ops (New n 0) (CacheOK_New n 0) (Clean_New n))
    as (c & Hrun & HC & HF & _).
  exists c. split; [exact Hrun |]. split.
  - eapply Forall_impl; [exact HF |]. intros s Hs. apply Hs.
  - intros k v expected opts now rnd.
    destruct (CompareAndSwap_clean hashKey c k v expected opts now rnd HC HF)
      as (c' & ok & Hcas & _ & _ & _ & Hok).
    exists c', ok. split; [exact Hcas | exact Hok].
Qed.

(** X16, the second revision: on a cache made with [maxMemory = 0] nothing
    is ever evicted.  After any sequence of calls [num_evicted] is zero and
    no entry carries the evicted bit; and a sequence of Store, Increment
    and CompareAndSwap calls run from there removes no key. *)
Lemma second_revision_no_eviction (n : Z) (ops writes : list CacheOp) :
  forallb isWrite writes = true ->
  exists c c', run2 hashKey (New n 0) ops = Some c /\ run2 hashKey c writes = Some c' /\
    num_evicted (Stats c) = 0 /\ num_evicted (Stats c') = 0 /\
    Forall (fun s => forall e, e ∈ entries (m s) -> evicted e = false) (shards c') /\
    KeepsAll c c'.
Proof.
  intros Hw.
  destruct (run2_clean hashKey ops (New n 0) (CacheOK_New n 0) (Clean_New n))
    as (c & Hrun & HC & HF & _).
  destruct (run2_clean hashKey writes c HC HF) as (c' & Hrun' & HC' & HF' & HK).
  exists c, c'. split; [exact Hrun |]. split; [exact Hrun' |].
  split; [| split; [| split]].
  - apply num_evicted_zero. eapply Forall_impl; [exact HF |]. intros s Hs. apply Hs.
  - apply num_evicted_zero. eapply Forall_impl; [exact HF' |]. intros s Hs. apply Hs.
  - eapply Forall_impl; [exact HF' |]. intros s Hs. apply Hs.
  - apply HK. exact Hw.
Qed.
End Unlimited.

(** ** The victim of an eviction round *)

(** The second revision follows the priority rule: exactly one of the two
    expired, that one; both expired, the earlier [expireAt]; none expired
    and both with a TTL, the one that expires first; otherwise the coin
    decides. *)
Lemma second_revision_victim (now coin : Z) (p0 p1 : Z * Entry) :
  let x0 := IsExpired now p0.2 in
  let x1 := IsExpired now p1.2 in
  let sooner := if expireAt p0.2 <? expireAt p1.2 then p0 else p1 in
  Ops2.chooseVictim now coin p0 p1 =
    match x0, x1 with
    | true, false => p0
    | false, true => p1
    | true, true => sooner
    | false, false =>
        if (0 <? expireAt p0.2) && (0 <? expireAt p1.2) then sooner
        else if coin =? 0 then p0 else p1
    end.
Proof.
  unfold Ops2.chooseVictim. simpl.
  destruct (IsExpired now p0.2), (IsExpired now p1.2); reflexivity.
Qed.

(** ** operations.go on the same inputs *)

(** C3, operations.go: on [New(1, 0)], after [Store(k, v1)] (mem_used 27)
    the call [CompareAndSwap(k, v22, 0)] reports success, but the eviction
    loop it runs first has removed the entry: mem_used ends at 0 with no
    item left, where the accounting rule asks for 28. *)
Theorem operations_go_cas_loses_entry :
  (c1 ← Ops.Store XXH64 (New 1 0) "k" "v1" None 0 (fun _ => 0);
   r ← Ops.CompareAndSwap XXH64 c1 "k" "v22" 0 None 0 (fun _ => 0);
   l ← Ops.Load XXH64 r.1 "k" 0;
   Some (mem_used (Stats c1), r.2, mem_used (Stats r.1), num_items (Stats r.1),
         num_evicted (Stats r.1), l.2))
  = Some (27, true, 0, 0, 1, None).
Proof. vm_compute. reflexivity. Qed.

(** C4, operations.go: on [New(1, 0)] the second of two Stores evicts the
    entry of the first: num_evicted is 1 and the first key is gone,
    although the cache has no memory limit. *)
Theorem operations_go_evicts_without_limit :
  (c1 ← Ops.Store XXH64 (New 1 0) "a" "x" None 0 (fun _ => 0);
   c2 ← Ops.Store XXH64 c1 "b" "y" None 0 (fun _ => 0);
   l ← Ops.Load XXH64 c2 "a" 0;
   Some (num_evicted (Stats c1), num_evicted (Stats c2), num_items (Stats c2), l.2))
  = Some (0, 1, 1, None).
Proof. vm_compute. reflexivity. Qed.

(** C1, operations.go: on [New(16, 0)], a cache without a memory limit,
    the keys a and b fall into the same shard (number 11).  The Store of b
    runs the eviction loop, which has no guard on [maxMemory] and removes
    the entry of a; the Load of a that follows misses, although the last
    call on a was a Store.  The second revision of the file, on the same
    calls, evicts nothing and the Load hits with the stored value. *)
Theorem operations_go_forgets_stored_key :
  (c1 ← Ops.Store XXH64 (New 16 0) "a" "1" None 0 (fun _ => 0);
   c2 ← Ops.Store XXH64 c1 "b" "2" None 0 (fun _ => 0);
   l ← Ops.Load XXH64 c2 "a" 0;
   Some (shardIndex XXH64 c1 "a", shardIndex XXH64 c1 "b", option_map value l.2,
         num_evicted (Stats c2), num_items (Stats c2)))
  = Some (11, 11, None, 1, 1) /\
  (c1 ← Ops2.Store XXH64 (New 16 0) "a" "1" None 0 (fun _ => 0);
   c2 ← Ops2.Store XXH64 c1 "b" "2" None 0 (fun _ => 0);
   l ← Ops2.Load XXH64 c2 "a" 0;
   Some (option_map value l.2, num_evicted (Stats c2), num_items (Stats c2)))
  = Some (Some "1"%string, 0, 2).
Proof. split; vm_compute; reflexivity. Qed.

(** C5, operations.go: on [New(16, 0)], after [Store(k, v1)] the entry's
    cas is 0 and [CompareAndSwap(k, v2, 0)] reports success; but the
    eviction loop it runs first has removed the entry of k, so the new
    value is installed nowhere: the second [CompareAndSwap(k, v3, 0)] is
    refused because the key is absent, and the final Load misses where v2
    is due (num_evicted is 1 and no item is left).  The second revision, on
    the same calls, answers true, false, and the Load returns v2 with
    cas 1. *)
Theorem operations_go_cas_evicts_its_entry :
  (c1 ← Ops.Store XXH64 (New 16 0) "k" "v1" None 0 (fun _ => 0);
   l0 ← Ops.Load XXH64 c1 "k" 0;
   e0 ← l0.2;
   r1 ← Ops.CompareAndSwap XXH64 l0.1 "k" "v2" (cas e0) None 0 (fun _ => 0);
   r2 ← Ops.CompareAndSwap XXH64 r1.1 "k" "v3" (cas e0) None 0 (fun _ => 0);
   l ← Ops.Load XXH64 r2.1 "k" 0;
   Some (cas e0, r1.2, r2.2, option_map value l.2,
         num_evicted (Stats r2.1), num_items (Stats r2.1)))
  = Some (0, true, false, None, 1, 0) /\
  (c1 ← Ops2.Store XXH64 (New 16 0) "k" "v1" None 0 (fun _ => 0);
   l0 ← Ops2.Load XXH64 c1 "k" 0;
   e0 ← l0.2;
   r1 ← Ops2.CompareAndSwap XXH64 l0.1 "k" "v2" (cas e0) None 0 (fun _ => 0);
   r2 ← Ops2.CompareAndSwap XXH64 r1.1 "k" "v3" (cas e0) None 0 (fun _ => 0);
   l ← Ops2.Load XXH64 r2.1 "k" 0;
   Some (cas e0, r1.2, r2.2, option_map value l.2, option_map cas l.2,
         num_evicted (Stats r2.1), num_items (Stats r2.1)))
  = Some (0, true, false, Some "v2"%string, Some 1, 0, 1).
Proof. split; vm_compute; reflexivity. Qed.

(** The same calls on the second revision evict nothing. *)
Example second_revision_same_calls :
  (c1 ← Ops2.Store XXH64 (New 1 0) "a" "x" None 0 (fun _ => 0);
   c2 ← Ops2.Store XXH64 c1 "b" "y" None 0 (fun _ => 0);
   l ← Ops2.Load XXH64 c2 "a" 0;
   r ← Ops2.CompareAndSwap XXH64 l.1 "a" "v22" 0 None 0 (fun _ => 0);
   Some (num_evicted (Stats c2), num_items (Stats c2), option_map value l.2,
         mem_used (Stats c2), r.2, mem_used (Stats r.1)))
  = Some (0, 2, Some "x"%string, 52, true, 54).
Proof. vm_compute. reflexivity. Qed.

(** A shard with a limit of 100 bytes holding u and v (no TTL) and y
    (expired at time 10); the sample of an eviction round is u and y. *)
Definition threeEntries : option Cache :=
  c1 ← Ops.Store XXH64 (New 1 100) "u" "1" None 0 (fun _ => 0);
  c2 ← Ops.Store XXH64 c1 "v" "2" None 0 (fun _ => 0);
  Ops.Store XXH64 c2 "y" "3" (Some {| TTL := 5; Flags := 0; CAS := 0 |}) 0 (fun _ => 0).

(** C8, operations.go: the sample holds u (no TTL) and y (expired); with the
    coin on 0 the Store of a fourth entry at time 10 evicts u and keeps the
    expired y. *)
Theorem operations_go_keeps_expired :
  (c3 ← threeEntries;
   s3 ← shards c3 !! 0%nat;
   c4 ← Ops.Store XXH64 c3 "d" "4" None 10 (fun _ => 0);
   s4 ← shards c4 !! 0%nat;
   gu ← Map_get XXH64 (m s4) "u";
   gy ← Map_get XXH64 (m s4) "y";
   Some (map (fun p => (key p.2, IsExpired 10 p.2)) (randomEntries (m s3) 2),
         num_evicted (Stats c4), option_map (fun p : Entry * Z => key p.1) gu,
         option_map (fun p : Entry * Z => key p.1) gy))
  = Some ([("u"%string, false); ("y"%string, true)], 1, None, Some "y"%string).
Proof. vm_compute. reflexivity. Qed.

(** On the same sample the second revision picks y whatever the coin. *)
Example second_revision_same_sample :
  (c3 ← threeEntries;
   s3 ← shards c3 !! 0%nat;
   match randomEntries (m s3) 2 with
   | [p0; p1] => Some (key (Ops2.chooseVictim 10 0 p0 p1).2,
                       key (Ops2.chooseVictim 10 1 p0 p1).2,
                       key (Ops.chooseVictim 0 p0.2 p1.2))
   | _ => None
   end) = Some ("y"%string, "y"%string, "u"%string).
Proof. vm_compute. reflexivity. Qed.

End WithoutLimit.

Section EvictionProofs.

#[local] Arguments Map_insert : simpl never.
#[local] Arguments Map_delete : simpl never.
#[local] Arguments Map_get : simpl never.
#[local] Arguments Map_lookup : simpl never.
#[local] Arguments NewMap : simpl never.
#[local] Arguments wrap_i64 : simpl never.
#[local] Arguments wrap_u64 : simpl never.
#[local] Arguments randomEntries : simpl never.

(** ** The eviction loop of operations.go *)

(** The sample is taken from the table. *)
Lemma randomEntries_loop_In (bs : list Bucket) : forall (i nItems n seen : Z)
    (acc : list (Z * Entry)) (p : Z * Entry),
  p ∈ randomEntries_loop bs i nItems n seen acc ->
  p ∈ acc \/ p.2 ∈ live bs.
Proof.
  induction bs as [| b bs IH]; intros i nItems n seen acc p Hp; simpl in Hp; [auto |].
  destruct (Z.of_nat (length acc) <? n); [| auto].
  unfold live. simpl. fold (live bs).
  destruct (entry b) as [e |] eqn:E.
  - apply IH in Hp as [Hp | Hp]; [| right; set_solver].
    destruct (seen mod (nItems / n + 1) =? 0); [| auto].
    apply elem_of_app in Hp as [Hp | Hp]; [auto |].
    apply list_elem_of_singleton in Hp. subst p. right. simpl. set_solver.
  - apply IH in Hp as [Hp | Hp]; auto.
Qed.

Lemma randomEntries_In (mp : Map) (n : Z) (p : Z * Entry) :
  p ∈ randomEntries mp n -> p.2 ∈ entries mp.
Proof.
  unfold randomEntries. destruct ((n <=? 0) || (numItems mp =? 0)); [intros H; inversion H |].
  intros H. apply randomEntries_loop_In in H as [H | H]; [inversion H | exact H].
Qed.

Lemma chooseVictim_cases (coin : Z) (e0 e1 : Entry) :
  Ops.chooseVictim coin e0 e1 = e0 \/ Ops.chooseVictim coin e0 e1 = e1.
Proof.
  unfold Ops.chooseVictim.
  destruct ((0 <? expireAt e0) && (0 <? expireAt e1));
    [destruct (expireAt e0 <? expireAt e1) | destruct (coin =? 0)]; auto.
Qed.

Section EvictionLoop.
Variable hashKey : string -> Z.

(** What the loop leaves alone, and what it guarantees. *)
Record Evicted (s s' : Shard) : Prop := mkEvicted {
  ev_wf : WF hashKey (m s');
  ev_max : maxMemory s' = maxMemory s;
  ev_ops : numOps s' = numOps s;
  ev_hits : numHits s' = numHits s;
  ev_misses : numMisses s' = numMisses s;
  ev_expired : numExpired s' = numExpired s;
  ev_sub : forall e, e ∈ entries (m s') -> e ∈ entries (m s);
  ev_cap : capacity (m s') <= capacity (m s)
}.

Lemma Map_delete_present (mp : Map) (e : Entry) :
  WF hashKey mp -> e ∈ entries mp ->
  exists mp', Map_delete mp (key e) (hashKey (key e)) = Some (mp', Some e) /\
    WF hashKey mp' /\ Permutation (entries mp) (e :: entries mp') /\
    numItems mp' = numItems mp - 1 /\ capacity mp' <= capacity mp.
Proof.
  intros HW Hin. pose proof HW as (HS & _ & _).
  destruct (Map_get_present hashKey mp e HW Hin) as [i Hi]. unfold Map_get in Hi.
  destruct (Map_delete_sound mp (key e) (hashKey (key e)) HS)
    as (mp' & r & Hrun & HS' & Hcap & Hspec).
  destruct r as [e' |].
  - destruct Hspec as ([i' Hi'] & _ & Hp). rewrite Hi in Hi'. inversion Hi'; subst e' i'.
    exists mp'. split; [exact Hrun |]. split; [eapply Map_delete_wf; eauto |].
    split; [exact Hp |]. split; [| exact Hcap].
    rewrite (shape_count _ (proj1 HS)), (shape_count _ (proj1 HS')).
    apply Permutation_length in Hp. simpl in Hp. rewrite Hp. lia.
  - destruct Hspec as [_ Hn]. rewrite Hi in Hn. discriminate.
Qed.

(** The loop of [evictIfNeeded] ends: a round removes one entry. *)
Lemma evict_loop_total (rnd : nat -> Z) (req : Z) (fuel : nat) :
  forall (round : nat) (s : Shard),
  WF hashKey (m s) -> (Z.to_nat (numItems (m s)) < fuel)%nat ->
  exists s', Ops.evict_loop hashKey fuel round rnd s req = Some s' /\ Evicted s s'.
Proof.
  induction fuel as [| fuel IH]; intros round s HW Hfuel; [lia |].
  simpl.
  assert (Hsame : Evicted s s) by (constructor; auto; lia).
  destruct ((maxMemory s <? wrap_i64 (memUsed s + req)) && (0 <? numItems (m s))) eqn:Hc;
    [| eauto].
  destruct (randomEntries (m s) 2) as [| p0 rest] eqn:Hr; [eauto |].
  set (toEvict := match rest with
                  | [] => p0.2
                  | p1 :: _ => Ops.chooseVictim (rnd round) p0.2 p1.2
                  end).
  assert (Hin : toEvict ∈ entries (m s)).
  { assert (H0 : p0.2 ∈ entries (m s))
      by (apply (randomEntries_In _ 2); rewrite Hr; set_solver).
    unfold toEvict. destruct rest as [| p1 rest']; [exact H0 |].
    assert (H1 : p1.2 ∈ entries (m s))
      by (apply (randomEntries_In _ 2); rewrite Hr; set_solver).
    destruct (chooseVictim_cases (rnd round) p0.2 p1.2) as [-> | ->]; assumption. }
  destruct (Map_delete_present (m s) toEvict HW Hin) as (mp' & Hdel & HW' & Hp & Hn & Hcap).
  rewrite Hdel. simpl.
  apply andb_prop in Hc as [_ Hpos]. apply Z.ltb_lt in Hpos.
  destruct (IH (S round) (incEvicted (addMemUsed (- Size toEvict) (setM mp' s))) HW')
    as (s' & Hrun & HE).
  { simpl. rewrite Hn. lia. }
  exists s'. split; [exact Hrun |].
  destruct HE as [A1 A2 A3 A4 A5 A6 A7 A8]. simpl in *.
  constructor; auto; [| lia].
  intros e He. apply A7 in He. rewrite Hp. set_solver.
Qed.

Lemma evictIfNeeded_total (rnd : nat -> Z) (s : Shard) (req : Z) :
  WF hashKey (m s) ->
  exists s', Ops.evictIfNeeded hashKey rnd s req = Some s' /\ Evicted s s'.
Proof. intros HW. apply evict_loop_total; [exact HW | lia]. Qed.

(** Without pressure the loop does nothing. *)
Lemma evictIfNeeded_quiet (rnd : nat -> Z) (s : Shard) (req : Z) :
  wrap_i64 (memUsed s + req) <= maxMemory s ->
  Ops.evictIfNeeded hashKey rnd s req = Some s.
Proof.
  intros H. unfold Ops.evictIfNeeded. simpl.
  replace (maxMemory s <? wrap_i64 (memUsed s + req)) with false
    by (symmetry; apply Z.ltb_ge; exact H).
  reflexivity.
Qed.

Lemma evictIfNeeded_empty (rnd : nat -> Z) (s : Shard) (req : Z) :
  numItems (m s) = 0 -> Ops.evictIfNeeded hashKey rnd s req = Some s.
Proof.
  intros H. unfold Ops.evictIfNeeded. simpl. rewrite H. simpl.
  rewrite andb_false_r. reflexivity.
Qed.
End EvictionLoop.

End EvictionProofs.

Section IncrementProofs.

#[local] Arguments Map_insert : simpl never.
#[local] Arguments Map_delete : simpl never.
#[local] Arguments Map_get : simpl never.
#[local] Arguments Map_lookup : simpl never.
#[local] Arguments NewMap : simpl never.
#[local] Arguments wrap_i64 : simpl never.
#[local] Arguments wrap_u64 : simpl never.
#[local] Arguments randomEntries : simpl never.
#[local] Arguments int64ToBytes : simpl never.
#[local] Arguments bytesToInt64 : simpl never.

(** ** Increment in operations.go *)

Section IncrementSection.
Variable hashKey : string -> Z.

Lemma Map_get_none (mp : Map) (k : string) :
  Sound mp -> (forall e, e ∈ entries mp -> key e <> k) -> Map_get hashKey mp k = Some None.
Proof.
  intros HS Hno. destruct (Map_get_total hashKey mp k HS) as [[[e i] |] Hr]; [| exact Hr].
  destruct (Map_get_found hashKey _ _ _ _ HS Hr) as [Hin Hk]. destruct (Hno e Hin Hk).
Qed.

Lemma Map_get_unique (mp : Map) (e : Entry) (r : option (Entry * Z)) :
  WF hashKey mp -> e ∈ entries mp -> Map_get hashKey mp (key e) = Some r ->
  exists i, r = Some (e, i).
Proof.
  intros HW Hin Hr. destruct (Map_get_present hashKey mp e HW Hin) as [i Hi].
  exists i. congruence.
Qed.


End IncrementSection.

End IncrementProofs.

Section IncrementTheorem.

#[local] Arguments Map_insert : simpl never.
#[local] Arguments Map_delete : simpl never.
#[local] Arguments Map_get : simpl never.
#[local] Arguments Map_lookup : simpl never.
#[local] Arguments NewMap : simpl never.
#[local] Arguments wrap_i64 : simpl never.
#[local] Arguments wrap_u64 : simpl never.
#[local] Arguments randomEntries : simpl never.
#[local] Arguments int64ToBytes : simpl never.
#[local] Arguments bytesToInt64 : simpl never.


(** A key is in a list of entries or it is not. *)
Lemma classic_key_in (l : list Entry) (k : string) :
  (exists e, e ∈ l /\ key e = k) \/ (forall e, e ∈ l -> key e <> k).
Proof.
  induction l as [| x l IH]; [right; intros e He; inversion He |].
  destruct (string_dec (key x) k) as [Hx | Hx]; [left; exists x; split; [set_solver | exact Hx] |].
  destruct IH as [(e & He & Hk) | Hno]; [left; exists e; split; [set_solver | exact Hk] |].
  right. intros e He. apply elem_of_cons in He as [-> | He]; [exact Hx | apply Hno; exact He].
Qed.

Section IncrementRuns.
Variable hashKey : string -> Z.

Lemma New_shard (n maxMem : Z) (k : string) :
  shards (New n maxMem) !! Z.to_nat (shardIndex hashKey (New n maxMem) k)
  = Some (NewShard (Z.quot maxMem (numShards (New n maxMem)))).
Proof.
  destruct (shard_exists hashKey (New n maxMem) k (CacheOK_New n maxMem)) as [s Hs].
  rewrite Hs. unfold New in Hs. simpl in Hs.
  apply lookup_replicate in Hs as [-> _]. reflexivity.
Qed.

End IncrementRuns.



End IncrementTheorem.

Section CompareAndSwapProofs.

#[local] Arguments Map_insert : simpl never.
#[local] Arguments Map_delete : simpl never.
#[local] Arguments Map_get : simpl never.
#[local] Arguments Map_lookup : simpl never.
#[local] Arguments NewMap : simpl never.
#[local] Arguments wrap_i64 : simpl never.
#[local] Arguments wrap_u64 : simpl never.
#[local] Arguments randomEntries : simpl never.

(** ** CompareAndSwap in operations.go *)

(** The flags and the expiry a successful CompareAndSwap installs. *)
Definition casFlags (opts : option StoreOptions) : Z :=
  match opts with Some o => Flags o | None => 0 end.
Definition casExpireAt (opts : option StoreOptions) (now : Z) : Z :=
  match opts with
  | Some o => if 0 <? TTL o then wrap_i64 (now + TTL o) else 0
  | None => 0
  end.

Section CompareAndSwapSection.
Variable hashKey : string -> Z.

Lemma writeEntry_total (mp : Map) (k : string) (f : Entry -> Entry) :
  Sound mp -> exists mp', writeEntry hashKey mp k f = Some mp'.
Proof.
  intros HS. unfold writeEntry.
  destruct (Map_get_total hashKey mp k HS) as [r Hr]. rewrite Hr. simpl.
  destruct r as [[e i] |]; [| eauto].
  destruct (Map_get_sound hashKey mp k e i HS Hr) as (_ & b & Hb & _).
  rewrite Hb. simpl. eauto.
Qed.

Lemma writeEntry_present (mp : Map) (e : Entry) (f : Entry -> Entry) :
  WF hashKey mp -> e ∈ entries mp ->
  exists mp', writeEntry hashKey mp (key e) f = Some mp' /\ f e ∈ entries mp'.
Proof.
  intros HW Hin. pose proof HW as (HS & _ & _). unfold writeEntry.
  destruct (Map_get_present hashKey mp e HW Hin) as [i Hi]. rewrite Hi. simpl.
  destruct (Map_get_sound hashKey mp (key e) e i HS Hi) as (_ & b & Hb & He & _).
  rewrite Hb. simpl. eexists. split; [reflexivity |].
  destruct (putEntry_entries mp i b e (f e) Hb He) as (l1 & l2 & _ & H2).
  unfold putEntry, withEntry in H2. rewrite H2. set_solver.
Qed.

(** The key is absent, or its entry has another cas: nothing but the
    operation counter changes. *)
Lemma CompareAndSwap_refused (c : Cache) (k v : string) (expected : Z)
    (opts : option StoreOptions) (now : Z) (rnd : nat -> Z) (s : Shard) :
  CacheOK c -> shards c !! Z.to_nat (shardIndex hashKey c k) = Some s ->
  WF hashKey (m s) ->
  (forall e, e ∈ entries (m s) -> key e = k -> cas e <> expected) ->
  Ops.CompareAndSwap hashKey c k v expected opts now rnd
  = Some (setShard (shardIndex hashKey c k) (incOps s) c, false).
Proof.
  intros HC Hs HW Hno. pose proof HW as (HS & _ & _).
  unfold Ops.CompareAndSwap. rewrite Hs. simpl.
  destruct (Map_get_total hashKey (m s) k HS) as [r Hr]. rewrite Hr. simpl.
  destruct r as [[e i] |]; [| reflexivity].
  destruct (Map_get_found hashKey _ _ _ _ HS Hr) as [Hin Hk].
  destruct (cas e =? expected) eqn:E; [| reflexivity].
  apply Z.eqb_eq in E. destruct (Hno e Hin Hk E).
Qed.

(** The key is present with the expected cas: the call reports success;
    when the eviction loop has nothing to do, the entry is rewritten in
    place. *)
Lemma CompareAndSwap_accepted (c : Cache) (k v : string) (expected : Z)
    (opts : option StoreOptions) (now : Z) (rnd : nat -> Z) (s : Shard) (e : Entry) :
  CacheOK c -> shards c !! Z.to_nat (shardIndex hashKey c k) = Some s ->
  WF hashKey (m s) -> e ∈ entries (m s) -> key e = k -> cas e = expected ->
  exists c', Ops.CompareAndSwap hashKey c k v expected opts now rnd = Some (c', true) /\
    (wrap_i64 (memUsed s + (len v - len (value e))) <= maxMemory s ->
     exists s' e',
       shards c' !! Z.to_nat (shardIndex hashKey c k) = Some s' /\
       e' ∈ entries (m s') /\ key e' = k /\ value e' = v /\
       flags e' = casFlags opts /\ expireAt e' = casExpireAt opts now /\
       cas e' = wrap_u64 (cas e + 1)).
Proof.
  intros HC Hs HW Hin Hk Hcas. subst expected. pose proof HW as (HS & _ & _).
  pose proof (shardIndex_range hashKey c k HC) as Hrange.
  unfold Ops.CompareAndSwap. rewrite Hs. simpl.
  destruct (Map_get_present hashKey (m s) e HW Hin) as [i Hi]. rewrite Hk in Hi.
  rewrite Hi. simpl. rewrite Z.eqb_refl. simpl.
  match goal with |- context [Ops.evictIfNeeded hashKey rnd (incOps s) ?r] =>
    set (req := r) end.
  assert (Hreq : req = len v - len (value e)).
  { unfold req. destruct opts as [o |]; [destruct (0 <? TTL o) |];
      unfold Size; simpl; rewrite Hk; lia. }
  destruct (evictIfNeeded_total hashKey rnd (incOps s) req HW) as (s2 & Hev & HE).
  rewrite Hev. simpl.
  match goal with |- context [writeEntry hashKey (m s2) k ?f] => set (upd := f) end.
  destruct (writeEntry_total (m s2) k upd (proj1 (ev_wf _ _ _ HE))) as [mp' Hw].
  rewrite Hw. simpl. eexists. split; [reflexivity |].
  intros Hquiet.
  rewrite (evictIfNeeded_quiet hashKey rnd (incOps s) req) in Hev
    by (rewrite Hreq; exact Hquiet).
  inversion Hev; subst s2. clear Hev.
  destruct (writeEntry_present (m s) e upd HW Hin) as (mp2 & Hw2 & Hin2).
  rewrite Hk in Hw2. simpl in Hw. rewrite Hw in Hw2. inversion Hw2; subst mp2.
  eexists. exists (upd e).
  split; [apply shards_setShard_eq; exact Hrange |].
  split; [exact Hin2 |]. unfold upd, casFlags, casExpireAt. simpl.
  split; [exact Hk |]. split; [reflexivity |].
  split; [| split; [| reflexivity]].
  - destruct opts as [o |]; [destruct (0 <? TTL o) |]; reflexivity.
  - destruct opts as [o |]; [destruct (0 <? TTL o) |]; reflexivity.
Qed.
End CompareAndSwapSection.

End CompareAndSwapProofs.

Section CompareAndSwapTheorem.

#[local] Arguments Map_insert : simpl never.
#[local] Arguments Map_delete : simpl never.
#[local] Arguments Map_get : simpl never.
#[local] Arguments Map_lookup : simpl never.
#[local] Arguments NewMap : simpl never.
#[local] Arguments wrap_i64 : simpl never.
#[local] Arguments wrap_u64 : simpl never.
#[local] Arguments randomEntries : simpl never.

(** X14: [CompareAndSwap] of operations.go, on a cache whose tables are
    well-formed, returns.  When the key is absent or its
    entry's cas differs from the expected one, the result is false and the
    cache is the one before with the shard's operation counter raised by
    one: no entry, table or other counter changes.  When the key is present
    with the expected cas, the result is true; if the eviction loop has
    nothing to do (the memory in use with the new value is within the
    shard's limit), the entry then carries the new value, flags and expiry
    and its cas is the old one plus one modulo 2^64, which is a strict
    increase unless the old cas was 2^64 - 1. *)
Theorem CompareAndSwap_outcomes (hashKey : string -> Z) (c : Cache) (k v : string)
    (expected : Z) (opts : option StoreOptions) (now : Z) (rnd : nat -> Z) (s : Shard) :
  CacheOK c -> shards c !! Z.to_nat (shardIndex hashKey c k) = Some s ->
  WF hashKey (m s) ->
  exists c' ok,
    Ops.CompareAndSwap hashKey c k v expected opts now rnd = Some (c', ok) /\
    ((forall e, e ∈ entries (m s) -> key e = k -> cas e <> expected) ->
     ok = false /\ c' = setShard (shardIndex hashKey c k) (incOps s) c) /\
    (forall e, e ∈ entries (m s) -> key e = k -> cas e = expected ->
     ok = true /\
     (wrap_i64 (memUsed s + (len v - len (value e))) <= maxMemory s ->
      exists s' e',
        shards c' !! Z.to_nat (shardIndex hashKey c k) = Some s' /\
        e' ∈ entries (m s') /\ key e' = k /\ value e' = v /\
        flags e' = casFlags opts /\ expireAt e' = casExpireAt opts now /\
        cas e' = (cas e + 1) mod 2 ^ 64 /\
        (0 <= cas e < 2 ^ 64 - 1 -> cas e < cas e'))).
Proof.
  intros HC Hs HW.
  assert (Huniq : forall e e0, e ∈ entries (m s) -> e0 ∈ entries (m s) ->
                    key e = k -> key e0 = k -> e0 = e).
  { intros e e0 Hin Hin0 Hk Hk0.
    destruct (Map_get_present hashKey (m s) e HW Hin) as [i Hi].
    destruct (Map_get_present hashKey (m s) e0 HW Hin0) as [i0 Hi0].
    rewrite Hk in Hi. rewrite Hk0 in Hi0. congruence. }
  assert (Hcase : (exists e, e ∈ entries (m s) /\ key e = k /\ cas e = expected) \/
                  (forall e, e ∈ entries (m s) -> key e = k -> cas e <> expected)).
  { destruct (classic_key_in (entries (m s)) k) as [(e & Hin & Hk) | Hno].
    - destruct (Z.eq_dec (cas e) expected) as [Heq | Hne]; [left; eauto |].
      right. intros e0 Hin0 Hk0. rewrite (Huniq e e0 Hin Hin0 Hk Hk0). exact Hne.
    - right. intros e Hin Hk. destruct (Hno e Hin Hk). }
  destruct Hcase as [(e & Hin & Hk & Hcas) | Hno].
  - destruct (CompareAndSwap_accepted hashKey c k v expected opts now rnd s e
                HC Hs HW Hin Hk Hcas) as (c' & Hrun & Hq).
    exists c', true. split; [exact Hrun |]. split.
    + intros Hno. destruct (Hno e Hin Hk Hcas).
    + intros e0 Hin0 Hk0 _. rewrite (Huniq e e0 Hin Hin0 Hk Hk0).
      split; [reflexivity |]. intros Hquiet.
      destruct (Hq Hquiet) as (s' & e' & A1 & A2 & A3 & A4 & A5 & A6 & A7).
      exists s', e'. do 6 (split; [assumption |]). split; [exact A7 |].
      intros Hr. rewrite A7. unfold wrap_u64. rewrite Z.mod_small; lia.
  - exists (setShard (shardIndex hashKey c k) (incOps s) c), false.
    split; [apply CompareAndSwap_refused; assumption |]. split; [auto |].
    intros e Hin Hk Hcas. destruct (Hno e Hin Hk Hcas).
Qed.

(** A cache of one shard with a limit of 1000 bytes, holding one key. *)
Definition oneKeyCache : Cache :=
  default (New 1 1000) (Ops.Store XXH64 (New 1 1000) "k" "v1" None 0 (fun _ => 0)).
Definition oneKeyShard : Shard := default (NewShard 0) (shards oneKeyCache !! 0%nat).

Lemma oneKeyShard_WF : WF XXH64 (m oneKeyShard).
Proof.
  apply (Map_insert_wf XXH64 (NewMap 16) (newEntry "k" "v1") (m oneKeyShard) None).
  - apply WF_NewMap.
  - vm_compute. reflexivity.
  - vm_compute. discriminate.
Qed.

Lemma CompareAndSwap_on_one_key :
  CacheOK oneKeyCache /\
  shards oneKeyCache !! Z.to_nat (shardIndex XXH64 oneKeyCache "k") = Some oneKeyShard /\
  WF XXH64 (m oneKeyShard) /\
  exists c', Ops.CompareAndSwap XXH64 oneKeyCache "k" "v22" 0 None 0 (fun _ => 0)
             = Some (c', true).
Proof.
  assert (HC : CacheOK oneKeyCache) by (vm_compute; split; reflexivity).
  assert (Hs : shards oneKeyCache !! Z.to_nat (shardIndex XXH64 oneKeyCache "k")
               = Some oneKeyShard) by (vm_compute; reflexivity).
  split; [exact HC |]. split; [exact Hs |]. split; [exact oneKeyShard_WF |].
  destruct (CompareAndSwap_outcomes XXH64 oneKeyCache "k" "v22" 0 None 0 (fun _ => 0)
              oneKeyShard HC Hs oneKeyShard_WF) as (c' & ok & Hrun & _ & Hyes).
  destruct (Hyes (newEntry "k" "v1")) as [-> _].
  - apply list_elem_of_In. vm_compute. left. reflexivity.
  - reflexivity.
  - reflexivity.
  - exists c'. exact Hrun.
Defined.

(** Two edges of [CompareAndSwap]: a refused call changes the cache
    (num_ops goes from 0 to 1), and an accepted one on an entry whose cas is
    2^64 - 1 leaves it with cas 0. *)
Lemma CompareAndSwap_counts_and_wraps :
  (r ← Ops.CompareAndSwap XXH64 (New 1 0) "k" "v" 0 None 0 (fun _ => 0);
   Some (r.2, num_ops (Stats (New 1 0)), num_ops (Stats r.1))) = Some (false, 0, 1) /\
  (c1 ← Ops.Store XXH64 (New 1 1000) "k" "v1"
          (Some {| TTL := 0; Flags := 0; CAS := 2 ^ 64 - 1 |}) 0 (fun _ => 0);
   l1 ← Ops.Load XXH64 c1 "k" 0;
   r ← Ops.CompareAndSwap XXH64 l1.1 "k" "v2" (2 ^ 64 - 1) None 0 (fun _ => 0);
   l2 ← Ops.Load XXH64 r.1 "k" 0;
   Some (option_map cas l1.2, r.2, option_map cas l2.2, option_map value l2.2))
  = Some (Some (2 ^ 64 - 1), true, Some 0, Some "v2"%string).
Proof. split; vm_compute; reflexivity. Qed.

End CompareAndSwapTheorem.

Section PlainCalls.

#[local] Arguments Map_insert : simpl never.
#[local] Arguments Map_delete : simpl never.
#[local] Arguments Map_get : simpl never.
#[local] Arguments Map_lookup : simpl never.
#[local] Arguments NewMap : simpl never.
#[local] Arguments wrap_i64 : simpl never.
#[local] Arguments wrap_u64 : simpl never.
#[local] Arguments randomEntries : simpl never.

(** ** Store, Load and Delete in operations.go, without TTL and without
       eviction pressure *)

(** The plain calls: Store without a TTL, Load, Delete. *)
Definition isPlain (op : CacheOp) : bool :=
  match op with
  | CallStore _ _ opts _ _ =>
      match opts with None => true | Some o => TTL o <=? 0 end
  | CallLoad _ _ | CallDelete _ => true
  | _ => false
  end.

(** The size of the entry a call stores. *)
Definition storeSize (op : CacheOp) : Z :=
  match op with
  | CallStore k v _ _ _ => len k + len v + 24
  | _ => 0
  end.
Definition storeBytes (ops : list CacheOp) : Z :=
  fold_right (fun op acc => storeSize op + acc) 0 ops.

(** The number of Stores among the calls. *)
Definition isStore (op : CacheOp) : Z :=
  match op with CallStore _ _ _ _ _ => 1 | _ => 0 end.
Definition storeCount (ops : list CacheOp) : Z :=
  fold_right (fun op acc => isStore op + acc) 0 ops.

(** What the calls so far say about key [k]: the value of the last Store,
    or nothing when the last call on [k] was a Delete or there was none. *)
Definition after (prev : option string) (op : CacheOp) (k : string) : option string :=
  match op with
  | CallStore k' v _ _ _ => if String.eqb k' k then Some v else prev
  | CallDelete k' => if String.eqb k' k then None else prev
  | _ => prev
  end.
Definition lastStore (ops : list CacheOp) (k : string) : option string :=
  fold_left (fun acc op => after acc op k) ops None.

(** What a table says about key [k]. *)
Definition Has (mp : Map) (k : string) (ov : option string) : Prop :=
  match ov with
  | Some v => exists e, e ∈ entries mp /\ key e = k /\ value e = v
  | None => forall e, e ∈ entries mp -> key e <> k
  end.

Lemma storeSize_nonneg (op : CacheOp) : 0 <= storeSize op.
Proof. destruct op; simpl; unfold len; lia. Qed.

Lemma storeBytes_nonneg (ops : list CacheOp) : 0 <= storeBytes ops.
Proof.
  induction ops as [| op ops IH]; simpl; [lia |]. pose proof (storeSize_nonneg op). lia.
Qed.

Lemma storeCount_nonneg (ops : list CacheOp) : 0 <= storeCount ops.
Proof.
  induction ops as [| op ops IH]; simpl; [lia |]. destruct op; simpl; lia.
Qed.

Lemma pow2_double (k : Z) : 0 <= k -> 2 ^ k < 2 ^ 16 -> 2 * 2 ^ k <= 2 ^ 16.
Proof.
  intros Hk H. apply Z.pow_lt_mono_r_iff in H; [| lia | lia].
  replace (2 * 2 ^ k) with (2 ^ (k + 1)) by (rewrite Z.pow_add_r; lia).
  apply Z.pow_le_mono_r; lia.
Qed.

Section MapUpdates.
Variable hashKey : string -> Z.

(** insert: the stored key then has the stored value, other keys are as
    before, and the table stays well-formed while it holds fewer than
    49152 entries. *)
Lemma Map_insert_Has (mp : Map) (e : Entry) (mp' : Map) (r : option Entry) :
  WF hashKey mp -> Map_insert hashKey mp e = Some (mp', r) ->
  Has mp' (key e) (Some (value e)) /\
  (forall k ov, k <> key e -> Has mp k ov -> Has mp' k ov) /\
  (forall P : Entry -> Prop,
     P e -> (forall ex, P ex -> P (overwrite ex e)) ->
     (forall x, x ∈ entries mp -> P x) -> forall x, x ∈ entries mp' -> P x) /\
  numItems mp' <= numItems mp + 1 /\
  (numItems mp < 49152 -> WF hashKey mp').
Proof.
  intros HW Hrun. pose proof HW as (HS & HO & HU).
  destruct (Map_insert_entries hashKey mp e mp' r HS Hrun) as [HS' Hspec].
  destruct (Map_insert_sound hashKey mp e HS) as (mp0 & r0 & Hrun0 & _ & Hspec0).
  rewrite Hrun in Hrun0. inversion Hrun0; subst mp0 r0. clear Hrun0.
  pose proof (shape_count _ (proj1 HS)) as Hn. pose proof (shape_count _ (proj1 HS')) as Hn'.
  destruct r as [ex |].
  - destruct Hspec as (Hk & _ & l1 & l2 & H1 & H2).
    destruct Hspec0 as (i & b & Hg & Hb & He & _ & Hmp).
    split; [| split; [| split; [| split]]].
    + exists (overwrite ex e). split; [rewrite H2; set_solver |].
      split; [rewrite key_overwrite; exact Hk | reflexivity].
    + intros k ov Hne Hhas. destruct ov as [v |]; simpl in *.
      * destruct Hhas as (x & Hx & Hkx & Hvx). exists x. split; [| auto].
        rewrite H1 in Hx. rewrite H2.
        apply elem_of_app in Hx as [Hx | Hx]; [set_solver |].
        apply elem_of_cons in Hx as [-> | Hx]; [| set_solver]. congruence.
      * intros x Hx. rewrite H2 in Hx.
        apply elem_of_app in Hx as [Hx | Hx]; [apply Hhas; rewrite H1; set_solver |].
        apply elem_of_cons in Hx as [-> | Hx]; [| apply Hhas; rewrite H1; set_solver].
        rewrite key_overwrite. congruence.
    + intros P He0 Hov Hall x Hx. rewrite H2 in Hx.
      apply elem_of_app in Hx as [Hx | Hx]; [apply Hall; rewrite H1; set_solver |].
      apply elem_of_cons in Hx as [-> | Hx]; [| apply Hall; rewrite H1; set_solver].
      apply Hov, Hall. rewrite H1. set_solver.
    + rewrite Hn, Hn', H1, H2, !length_app. simpl. lia.
    + intros _. eapply Map_insert_wf; [exact HW | exact Hrun |].
      subst mp'. destruct (putEntry_Sound mp i b ex (overwrite ex e) HS Hb He) as [_ ->].
      apply (ord_cap _ _ _ HO).
  - destruct Hspec as (_ & Hp). destruct Hspec0 as (_ & _ & Hcap).
    split; [| split; [| split; [| split]]].
    + exists e. split; [rewrite Hp; set_solver | auto].
    + intros k ov Hne Hhas. destruct ov as [v |]; simpl in *.
      * destruct Hhas as (x & Hx & Hkx & Hvx). exists x. split; [rewrite Hp; set_solver | auto].
      * intros x Hx. rewrite Hp in Hx.
        apply elem_of_cons in Hx as [-> | Hx]; [congruence | apply Hhas; exact Hx].
    + intros P He0 _ Hall x Hx. rewrite Hp in Hx.
      apply elem_of_cons in Hx as [-> | Hx]; [exact He0 | apply Hall; exact Hx].
    + rewrite Hn, Hn'. apply Permutation_length in Hp. rewrite Hp. simpl. lia.
    + intros Hlt. eapply Map_insert_wf; [exact HW | exact Hrun |].
      pose proof (ord_cap _ _ _ HO) as Hc. fold (capacity mp) in Hc.
      destruct Hcap as [-> | [-> Hgrow]]; [exact Hc |].
      rewrite (shape_grow _ (proj1 HS)) in Hgrow.
      destruct (shape_geom _ (proj1 HS)) as (kk & Hkk & Hlen & _).
      fold (capacity mp) in Hlen. rewrite Hlen in *.
      apply pow2_double; [lia |].
      unfold growThreshold in Hgrow.
      assert (2 ^ kk * 3 / 4 < 49152) by lia.
      destruct (Z_lt_ge_dec (2 ^ kk) (2 ^ 16)) as [Hl | Hg]; [exact Hl |].
      assert (2 ^ 16 * 3 / 4 <= 2 ^ kk * 3 / 4)
        by (apply Z.div_le_mono; lia).
      change (2 ^ 16 * 3 / 4) with 49152 in *. lia.
Qed.

(** delete: the key is then absent, other keys are as before. *)
Lemma Map_delete_Has (mp : Map) (k : string) (mp' : Map) (r : option Entry) :
  WF hashKey mp -> Map_delete mp k (hashKey k) = Some (mp', r) ->
  Has mp' k None /\
  (forall k' ov, k' <> k -> Has mp k' ov -> Has mp' k' ov) /\
  (forall x, x ∈ entries mp' -> x ∈ entries mp) /\
  numItems mp' <= numItems mp /\ WF hashKey mp'.
Proof.
  intros HW Hrun. pose proof HW as (HS & HO & HU).
  pose proof (Map_delete_wf hashKey mp k (hashKey k) mp' r HW Hrun) as HW'.
  destruct (Map_delete_sound mp k (hashKey k) HS) as (mp0 & r0 & Hrun0 & HS' & _ & Hspec).
  rewrite Hrun in Hrun0. inversion Hrun0; subst mp0 r0. clear Hrun0.
  pose proof (shape_count _ (proj1 HS)) as Hn. pose proof (shape_count _ (proj1 HS')) as Hn'.
  destruct r as [e |].
  - destruct Hspec as (_ & Hk & Hp).
    assert (Hnd : NoDup (key <$> (e :: entries mp'))).
    { unfold UniqueKeys in HU. fold (entries mp) in HU. rewrite Hp in HU. exact HU. }
    rewrite fmap_cons in Hnd. apply NoDup_cons in Hnd as [Hnotin _].
    split; [| split; [| split; [| split]]].
    + intros x Hx Hkx. apply Hnotin. rewrite Hk, <- Hkx.
      apply list_elem_of_fmap. exists x. auto.
    + intros k' ov Hne Hhas. destruct ov as [v |]; simpl in *.
      * destruct Hhas as (x & Hx & Hkx & Hvx). exists x. split; [| auto].
        rewrite Hp in Hx. apply elem_of_cons in Hx as [-> | Hx]; [congruence | exact Hx].
      * intros x Hx. apply Hhas. rewrite Hp. set_solver.
    + intros x Hx. rewrite Hp. set_solver.
    + rewrite Hn, Hn'. apply Permutation_length in Hp. rewrite Hp. simpl. lia.
    + exact HW'.
  - destruct Hspec as [-> Hl].
    split; [exact (Map_get_absent hashKey mp k HW Hl) |].
    split; [auto |]. split; [auto |]. split; [lia | exact HW].
Qed.
End MapUpdates.

End PlainCalls.

Section PlainCallsOnCaches.

#[local] Arguments Map_insert : simpl never.
#[local] Arguments Map_delete : simpl never.
#[local] Arguments Map_get : simpl never.
#[local] Arguments Map_lookup : simpl never.
#[local] Arguments NewMap : simpl never.
#[local] Arguments wrap_i64 : simpl never.
#[local] Arguments wrap_u64 : simpl never.
#[local] Arguments randomEntries : simpl never.

Section PlainRuns.
Variable hashKey : string -> Z.

(** A call of operations.go, and a sequence of calls. *)
Definition step1 (c : Cache) (op : CacheOp) : option Cache :=
  match op with
  | CallStore k v opts now rnd => Ops.Store hashKey c k v opts now rnd
  | CallLoad k now => r ← Ops.Load hashKey c k now; Some r.1
  | CallDelete k => r ← Ops.Delete hashKey c k; Some r.1
  | CallIncrement k delta _ rnd => r ← Ops.Increment hashKey c k delta rnd; Some r.1
  | CallCompareAndSwap k v expected opts now rnd =>
      r ← Ops.CompareAndSwap hashKey c k v expected opts now rnd; Some r.1
  end.

Fixpoint run1 (c : Cache) (ops : list CacheOp) : option Cache :=
  match ops with
  | [] => Some c
  | op :: rest => c' ← step1 c op; run1 c' rest
  end.

(** What the cache says about key [k]: what the table of its shard says. *)
Definition Content (c : Cache) (k : string) (ov : option string) : Prop :=
  exists s, shards c !! Z.to_nat (shardIndex hashKey c k) = Some s /\ Has (m s) k ov.

(** A shard under a limit of [L] bytes that served Stores of at most [B]
    bytes in at most [N] calls, none with a TTL. *)
Record Plain (L B N : Z) (s : Shard) : Prop := mkPlain {
  pl_wf : WF hashKey (m s);
  pl_max : maxMemory s = L;
  pl_mem : memUsed s = totalSize (entries (m s));
  pl_bytes : totalSize (entries (m s)) <= B;
  pl_items : numItems (m s) <= N;
  pl_ttl : forall e, e ∈ entries (m s) -> expireAt e = 0
}.

Lemma Plain_mono (L B N B' N' : Z) (s : Shard) :
  B <= B' -> N <= N' -> Plain L B N s -> Plain L B' N' s.
Proof. intros HB HN [A1 A2 A3 A4 A5 A6]. constructor; auto; lia. Qed.

Lemma Forall_Plain_mono (L B N B' N' : Z) (l : list Shard) :
  B <= B' -> N <= N' -> Forall (Plain L B N) l -> Forall (Plain L B' N') l.
Proof.
  intros HB HN H. eapply Forall_impl; [exact H |]. intros s. apply Plain_mono; assumption.
Qed.

Lemma Content_same (c : Cache) (k0 : string) (s s' : Shard) :
  CacheOK c -> shards c !! Z.to_nat (shardIndex hashKey c k0) = Some s ->
  m s' = m s ->
  forall k ov, Content c k ov -> Content (setShard (shardIndex hashKey c k0) s' c) k ov.
Proof.
  intros HC Hs Hm k ov (s0 & Hs0 & Hh).
  pose proof (shardIndex_range hashKey c k0 HC) as Hr.
  unfold Content. rewrite shardIndex_setShard.
  destruct (Nat.eq_dec (Z.to_nat (shardIndex hashKey c k)) (Z.to_nat (shardIndex hashKey c k0)))
    as [Heq | Hne].
  - rewrite Heq in *. rewrite shards_setShard_eq by exact Hr. exists s'. split; [reflexivity |].
    rewrite Hm. congruence.
  - rewrite shards_setShard_ne by exact Hne. eauto.
Qed.

Lemma Content_step (c : Cache) (k0 : string) (s s' : Shard) (new : option string) :
  CacheOK c -> shards c !! Z.to_nat (shardIndex hashKey c k0) = Some s ->
  Has (m s') k0 new ->
  (forall k ov, k <> k0 -> Has (m s) k ov -> Has (m s') k ov) ->
  forall k ov, Content c k ov ->
    Content (setShard (shardIndex hashKey c k0) s' c) k
      (if String.eqb k0 k then new else ov).
Proof.
  intros HC Hs Hnew Hold k ov (s0 & Hs0 & Hh).
  pose proof (shardIndex_range hashKey c k0 HC) as Hr.
  unfold Content. rewrite shardIndex_setShard.
  destruct (String.eqb_spec k0 k) as [<- | Hk].
  - rewrite shards_setShard_eq by exact Hr. eauto.
  - destruct (Nat.eq_dec (Z.to_nat (shardIndex hashKey c k))
                (Z.to_nat (shardIndex hashKey c k0))) as [Heq | Hne].
    + rewrite Heq in *. rewrite shards_setShard_eq by exact Hr. exists s'.
      split; [reflexivity |]. apply Hold; [congruence |]. congruence.
    + rewrite shards_setShard_ne by exact Hne. eauto.
Qed.

Lemma storeEntry_plain (k v : string) (opts : option StoreOptions) (now : Z) :
  match opts with None => true | Some o => TTL o <=? 0 end = true ->
  key (storeEntry k v opts now) = k /\ value (storeEntry k v opts now) = v /\
  expireAt (storeEntry k v opts now) = 0 /\
  Size (storeEntry k v opts now) = len k + len v + 24.
Proof.
  intros H. destruct opts as [o |]; simpl; [| auto].
  apply Z.leb_le in H. replace (0 <? TTL o) with false by (symmetry; apply Z.ltb_ge; lia).
  auto.
Qed.

Lemma Store_plain (L B N : Z) (c : Cache) (k v : string) (opts : option StoreOptions)
    (now : Z) (rnd : nat -> Z) :
  CacheOK c -> Forall (Plain L B N) (shards c) ->
  match opts with None => true | Some o => TTL o <=? 0 end = true ->
  B + (len k + len v + 24) <= L -> L < 2 ^ 63 -> N < 49152 ->
  exists c', Ops.Store hashKey c k v opts now rnd = Some c' /\ CacheOK c' /\
    Forall (Plain L (B + (len k + len v + 24)) (N + 1)) (shards c') /\
    forall k' ov, Content c k' ov ->
      Content c' k' (if String.eqb k k' then Some v else ov).
Proof.
  intros HC HF Hopts HB HL HN.
  destruct (shard_exists hashKey c k HC) as [s Hs].
  pose proof (Forall_shard _ _ _ _ HF Hs) as [HW Hmax Hmem Hbytes Hitems Httl].
  pose proof HW as (HS & _ & _).
  destruct (storeEntry_plain k v opts now Hopts) as (Ek & Ev & Ex & Esz).
  pose proof (totalSize_nonneg (entries (m s))) as H0.
  assert (Hlen : 0 <= len k + len v) by (unfold len; lia).
  unfold Ops.Store. rewrite Hs. simpl.
  rewrite (evictIfNeeded_quiet hashKey rnd (incOps s)).
  2: { simpl. rewrite Hmax, Hmem, Esz. rewrite wrap_i64_small; lia. }
  simpl.
  destruct (Map_insert_total hashKey (m s) (storeEntry k v opts now) HS) as (mp' & r & Hins).
  rewrite Hins. simpl.
  destruct (Map_insert_Has hashKey (m s) _ mp' r HW Hins) as (Hnew & Hold & Hexp & Hcnt & HW').
  pose proof (Map_insert_size hashKey (m s) _ mp' r HS Hins) as Hsz.
  rewrite Ek, Ev in Hnew. rewrite Ek in Hold. rewrite Esz in *.
  eexists. split; [reflexivity |]. split; [apply CacheOK_setShard; exact HC |].
  match goal with |- context [setShard _ ?x c] => set (s' := x) end.
  assert (Hm' : m s' = mp') by (unfold s'; destruct r; reflexivity).
  split.
  - apply Forall_setShard.
    + eapply Forall_Plain_mono; [| | exact HF]; lia.
    + assert (Hmem' : memUsed s' = totalSize (entries mp')).
      { unfold s'. destruct r as [ex |]; simpl; rewrite Hmem, Hsz.
        - rewrite wrap_i64_add_l.
          assert (24 <= Size ex) by apply Size_pos.
          pose proof (totalSize_nonneg (entries mp')). rewrite Hsz in *.
          rewrite wrap_i64_small; lia.
        - rewrite wrap_i64_small; lia. }
      constructor; rewrite ?Hm'.
      * apply HW'. lia.
      * unfold s'. destruct r; simpl; exact Hmax.
      * exact Hmem'.
      * rewrite Hsz. destruct r as [ex |]; [pose proof (Size_pos ex) |]; lia.
      * lia.
      * apply (Hexp (fun x => expireAt x = 0)); [exact Ex | | exact Httl].
        intros ex _. simpl. exact Ex.
  - apply (Content_step c k s s' (Some v) HC Hs); rewrite Hm'; assumption.
Qed.

Lemma Delete_plain (L B N : Z) (c : Cache) (k : string) :
  CacheOK c -> Forall (Plain L B N) (shards c) -> L < 2 ^ 63 -> B <= L ->
  exists c' ok, Ops.Delete hashKey c k = Some (c', ok) /\ CacheOK c' /\
    Forall (Plain L B N) (shards c') /\
    forall k' ov, Content c k' ov -> Content c' k' (if String.eqb k k' then None else ov).
Proof.
  intros HC HF HL HB.
  destruct (shard_exists hashKey c k HC) as [s Hs].
  pose proof (Forall_shard _ _ _ _ HF Hs) as [HW Hmax Hmem Hbytes Hitems Httl].
  pose proof HW as (HS & _ & _).
  unfold Ops.Delete. rewrite Hs. simpl.
  destruct (Map_delete_sound (m s) k (hashKey k) HS) as (mp' & r & Hdel & _).
  rewrite Hdel. simpl.
  destruct (Map_delete_Has hashKey (m s) k mp' r HW Hdel) as (Hnew & Hold & Hsub & Hcnt & HW').
  destruct (Map_delete_size (m s) k (hashKey k) mp' r HS Hdel) as [_ Hsz].
  pose proof (totalSize_nonneg (entries mp')) as H0.
  destruct r as [e |]; simpl.
  - eexists. eexists. split; [reflexivity |]. split; [apply CacheOK_setShard; exact HC |].
    split.
    + apply Forall_setShard; [exact HF |]. simpl in Hsz. constructor; simpl.
      * exact HW'.
      * exact Hmax.
      * pose proof (Size_pos e). rewrite Hmem, Hsz. rewrite wrap_i64_small; lia.
      * pose proof (Size_pos e). lia.
      * lia.
      * intros x Hx. apply Httl, Hsub, Hx.
    + apply (Content_step c k s _ None HC Hs); simpl; assumption.
  - eexists. eexists. split; [reflexivity |]. split; [apply CacheOK_setShard; exact HC |].
    split.
    + apply Forall_setShard; [exact HF |]. simpl in Hsz. constructor; simpl.
      * exact HW'.
      * exact Hmax.
      * rewrite Hmem, Hsz. lia.
      * lia.
      * lia.
      * intros x Hx. apply Httl, Hsub, Hx.
    + apply (Content_step c k s _ None HC Hs); simpl; assumption.
Qed.

Lemma Load_plain (L B N : Z) (c : Cache) (k : string) (now : Z) :
  CacheOK c -> Forall (Plain L B N) (shards c) ->
  exists c' r, Ops.Load hashKey c k now = Some (c', r) /\ CacheOK c' /\
    Forall (Plain L B N) (shards c') /\
    (forall k' ov, Content c k' ov -> Content c' k' ov) /\
    (forall ov, Content c k ov ->
       match ov with
       | Some v => exists e, r = Some e /\ key e = k /\ value e = v
       | None => r = None
       end).
Proof.
  intros HC HF.
  destruct (shard_exists hashKey c k HC) as [s Hs].
  pose proof (Forall_shard _ _ _ _ HF Hs) as HP.
  pose proof HP as [HW Hmax Hmem Hbytes Hitems Httl].
  pose proof HW as (HS & _ & _).
  unfold Ops.Load. rewrite Hs. simpl.
  destruct (Map_get_total hashKey (m s) k HS) as [r Hr]. rewrite Hr. simpl.
  destruct r as [[e i] |].
  - destruct (Map_get_found hashKey _ _ _ _ HS Hr) as [Hin Hk].
    unfold IsExpired. rewrite (Httl e Hin). simpl.
    eexists. eexists. split; [reflexivity |]. split; [apply CacheOK_setShard; exact HC |].
    split; [apply Forall_setShard; [exact HF |]; destruct HP; constructor; assumption |].
    split; [apply (Content_same c k s); [exact HC | exact Hs | reflexivity] |].
    intros ov (s0 & Hs0 & Hh). rewrite Hs in Hs0. inversion Hs0; subst s0.
    destruct ov as [v |]; simpl in Hh.
    + destruct Hh as (e0 & Hin0 & Hk0 & Hv0). exists e. split; [reflexivity |].
      split; [exact Hk |].
      destruct (Map_get_present hashKey (m s) e0 HW Hin0) as [i0 Hi0].
      rewrite Hk0 in Hi0. congruence.
    + destruct (Hh e Hin Hk).
  - eexists. eexists. split; [reflexivity |]. split; [apply CacheOK_setShard; exact HC |].
    split; [apply Forall_setShard; [exact HF |]; destruct HP; constructor; assumption |].
    split; [apply (Content_same c k s); [exact HC | exact Hs | reflexivity] |].
    intros ov (s0 & Hs0 & Hh). rewrite Hs in Hs0. inversion Hs0; subst s0.
    destruct ov as [v |]; simpl in Hh; [| reflexivity].
    destruct Hh as (e0 & Hin0 & Hk0 & Hv0).
    destruct (Map_get_present hashKey (m s) e0 HW Hin0) as [i0 Hi0].
    rewrite Hk0 in Hi0. congruence.
Qed.
End PlainRuns.

End PlainCallsOnCaches.

Section PlainCallsTheorem.

#[local] Arguments Map_insert : simpl never.
#[local] Arguments Map_delete : simpl never.
#[local] Arguments Map_get : simpl never.
#[local] Arguments Map_lookup : simpl never.
#[local] Arguments NewMap : simpl never.
#[local] Arguments wrap_i64 : simpl never.
#[local] Arguments wrap_u64 : simpl never.
#[local] Arguments randomEntries : simpl never.

Lemma quot_int64 (a b : Z) : a < 2 ^ 63 -> 0 < b -> Z.quot a b < 2 ^ 63.
Proof.
  intros Ha Hb. destruct (Z_lt_ge_dec a 0) as [Hneg | Hpos].
  - replace a with (- - a) by lia. rewrite Z.quot_opp_l by lia.
    pose proof (Z.quot_pos (- a) b). lia.
  - apply Z.quot_lt_upper_bound; [lia | lia | nia].
Qed.

Section PlainTheorem.
Variable hashKey : string -> Z.

Lemma run1_plain (L : Z) (ops : list CacheOp) : forall (c : Cache) (B N : Z),
  CacheOK c -> Forall (Plain hashKey L B N) (shards c) ->
  forallb isPlain ops = true ->
  0 <= B -> B + storeBytes ops <= L -> L < 2 ^ 63 ->
  N + storeCount ops <= 49152 ->
  exists c', run1 hashKey c ops = Some c' /\ CacheOK c' /\
    Forall (Plain hashKey L (B + storeBytes ops) (N + storeCount ops)) (shards c') /\
    forall k ov, Content hashKey c k ov ->
      Content hashKey c' k (fold_left (fun acc op => after acc op k) ops ov).
Proof.
  induction ops as [| op ops IH]; intros c B N HC HF Hp HB0 HB HL HN.
  - exists c. simpl. split; [reflexivity |]. split; [exact HC |].
    split; [eapply Forall_Plain_mono; [| | exact HF]; lia | auto].
  - simpl in Hp. apply andb_prop in Hp as [Hop Hrest].
    pose proof (storeBytes_nonneg ops) as Hsb.
    pose proof (storeSize_nonneg op) as Hss.
    pose proof (storeCount_nonneg ops) as Hsc.
    simpl storeBytes in *. simpl storeCount in *.
    destruct op as [k v opts now rnd | k now | k | k delta now rnd | k v ex opts now rnd];
      try discriminate; simpl in Hop; simpl storeSize in *; simpl isStore in *.
    + destruct (Store_plain hashKey L B N c k v opts now rnd HC HF Hop)
        as (c1 & Hrun & HC1 & HF1 & Hcont); [lia | lia | lia |].
      destruct (IH c1 (B + (len k + len v + 24)) (N + 1) HC1 HF1 Hrest)
        as (c' & Hrun' & HC' & HF' & Hcont'); [lia | lia | lia | lia |].
      exists c'. simpl. rewrite Hrun. simpl. split; [exact Hrun' |]. split; [exact HC' |].
      split; [eapply Forall_Plain_mono; [| | exact HF']; lia |].
      intros k' ov Hc. apply Hcont', Hcont, Hc.
    + destruct (Load_plain hashKey L B N c k now HC HF)
        as (c1 & r & Hrun & HC1 & HF1 & Hcont & _).
      destruct (IH c1 B N HC1 HF1 Hrest) as (c' & Hrun' & HC' & HF' & Hcont');
        [lia | lia | lia | lia |].
      exists c'. simpl. rewrite Hrun. simpl. split; [exact Hrun' |]. split; [exact HC' |].
      split; [eapply Forall_Plain_mono; [| | exact HF']; lia |].
      intros k' ov Hc. apply Hcont', Hcont, Hc.
    + destruct (Delete_plain hashKey L B N c k HC HF)
        as (c1 & ok & Hrun & HC1 & HF1 & Hcont); [lia | lia |].
      destruct (IH c1 B N HC1 HF1 Hrest) as (c' & Hrun' & HC' & HF' & Hcont');
        [lia | lia | lia | lia |].
      exists c'. simpl. rewrite Hrun. simpl. split; [exact Hrun' |]. split; [exact HC' |].
      split; [eapply Forall_Plain_mono; [| | exact HF']; lia |].
      intros k' ov Hc. apply Hcont', Hcont, Hc.
Qed.

Lemma Plain_New (n maxMem : Z) :
  Forall (Plain hashKey (Z.quot maxMem (numShards (New n maxMem))) 0 0)
    (shards (New n maxMem)).
Proof.
  unfold New; simpl. apply Forall_replicate. constructor; unfold NewShard; cbn [m memUsed maxMemory].
  - apply WF_NewMap.
  - reflexivity.
  - rewrite ?entries_NewMap. reflexivity.
  - rewrite ?entries_NewMap. simpl. lia.
  - simpl. lia.
  - intros e He. rewrite entries_NewMap in He. inversion He.
Qed.

Lemma Content_New (n maxMem : Z) (k : string) : Content hashKey (New n maxMem) k None.
Proof.
  eexists. split; [apply New_shard |]. simpl. intros e He.
  rewrite entries_NewMap in He. inversion He.
Qed.
End PlainTheorem.

(** X13: on a fresh cache of operations.go, take any sequence of Stores
    without TTL, Loads and Deletes, on any keys, that puts no pressure on
    the memory limit (the sizes of the entries stored, added up over all
    the Stores of the run, fit a shard's limit, which must then be
    positive as soon as there is a Store) and holds at most 49152 Stores (a shard's table then stays within 65536
    buckets).  Every call returns, and a Load of [k] after the sequence
    hits with the value of the last Store of [k], and misses when the last
    call on [k] was a Delete or [k] was never stored. *)
Theorem Load_returns_last_Store (hashKey : string -> Z) (n maxMem : Z)
    (ops : list CacheOp) (k : string) (now : Z) :
  forallb isPlain ops = true ->
  storeCount ops <= 49152 ->
  storeBytes ops <= Z.quot maxMem (numShards (New n maxMem)) ->
  maxMem < 2 ^ 63 ->
  exists c c' r,
    run1 hashKey (New n maxMem) ops = Some c /\
    Ops.Load hashKey c k now = Some (c', r) /\
    match lastStore ops k with
    | Some v => exists e, r = Some e /\ key e = k /\ value e = v
    | None => r = None
    end.
Proof.
  intros Hp Hlen Hbytes Hmax.
  set (L := Z.quot maxMem (numShards (New n maxMem))) in *.
  assert (HL : L < 2 ^ 63).
  { apply quot_int64; [exact Hmax |]. apply (CacheOK_New n maxMem). }
  destruct (run1_plain hashKey L ops (New n maxMem) 0 0 (CacheOK_New n maxMem)
              (Plain_New hashKey n maxMem) Hp) as (c & Hrun & HC & HF & Hcont);
    [lia | lia | exact HL | lia |].
  destruct (Load_plain hashKey L _ _ c k now HC HF) as (c' & r & Hload & _ & _ & _ & Hres).
  exists c, c', r. split; [exact Hrun |]. split; [exact Hload |].
  apply Hres. apply Hcont. apply Content_New.
Qed.

(** Two Stores, a Delete and a Load on a cache of one shard and 1000 bytes. *)
Definition twoStores : list CacheOp :=
  [CallStore "a" "x" None 0 (fun _ => 0); CallStore "b" "y" None 0 (fun _ => 0);
   CallDelete "a"; CallLoad "b" 0].

Lemma Load_after_two_Stores :
  forallb isPlain twoStores = true /\
  storeCount twoStores <= 49152 /\
  storeBytes twoStores <= Z.quot 1000 (numShards (New 1 1000)) /\
  1000 < 2 ^ 63 /\
  (exists c c' r,
     run1 XXH64 (New 1 1000) twoStores = Some c /\
     Ops.Load XXH64 c "b" 7 = Some (c', r) /\
     exists e, r = Some e /\ key e = "b"%string /\ value e = "y"%string) /\
  (exists c c' r,
     run1 XXH64 (New 1 1000) twoStores = Some c /\
     Ops.Load XXH64 c "a" 7 = Some (c', r) /\ r = None).
Proof.
  assert (H1 : forallb isPlain twoStores = true) by reflexivity.
  assert (H2 : storeCount twoStores <= 49152) by (simpl; lia).
  assert (H3 : storeBytes twoStores <= Z.quot 1000 (numShards (New 1 1000)))
    by (vm_compute; discriminate).
  assert (H4 : 1000 < 2 ^ 63) by lia.
  split; [exact H1 |]. split; [exact H2 |]. split; [exact H3 |]. split; [exact H4 |].
  split.
  - exact (Load_returns_last_Store XXH64 1 1000 twoStores "b" 7 H1 H2 H3 H4).
  - exact (Load_returns_last_Store XXH64 1 1000 twoStores "a" 7 H1 H2 H3 H4).
Defined.

End PlainCallsTheorem.

Section SecondRevisionPlainCalls.

#[local] Arguments Map_insert : simpl never.
#[local] Arguments Map_delete : simpl never.
#[local] Arguments Map_get : simpl never.
#[local] Arguments Map_lookup : simpl never.
#[local] Arguments NewMap : simpl never.
#[local] Arguments wrap_i64 : simpl never.
#[local] Arguments wrap_u64 : simpl never.
#[local] Arguments randomEntries : simpl never.

(** ** Store, Load and Delete in the second revision, without TTL and
       without a memory limit *)

Section PlainRuns2.
Variable hashKey : string -> Z.

(** A shard without a memory limit that served at most [N] Stores, none
    with a TTL: no entry expires and none carries the evicted bit. *)
Record Plain2 (N : Z) (s : Shard) : Prop := mkPlain2 {
  p2_wf : WF hashKey (m s);
  p2_max : maxMemory s <= 0;
  p2_items : numItems (m s) <= N;
  p2_live : forall e, e ∈ entries (m s) -> expireAt e = 0 /\ evicted e = false
}.

Lemma Plain2_mono (N N' : Z) (s : Shard) : N <= N' -> Plain2 N s -> Plain2 N' s.
Proof. intros HN [A1 A2 A3 A4]. constructor; auto; lia. Qed.

Lemma Forall_Plain2_mono (N N' : Z) (l : list Shard) :
  N <= N' -> Forall (Plain2 N) l -> Forall (Plain2 N') l.
Proof.
  intros HN H. eapply Forall_impl; [exact H |]. intros s. apply Plain2_mono; assumption.
Qed.

Lemma Store2_plain (N : Z) (c : Cache) (k v : string) (opts : option StoreOptions)
    (now : Z) (rnd : nat -> Z) :
  CacheOK c -> Forall (Plain2 N) (shards c) ->
  match opts with None => true | Some o => TTL o <=? 0 end = true -> N < 49152 ->
  exists c', Ops2.Store hashKey c k v opts now rnd = Some c' /\ CacheOK c' /\
    Forall (Plain2 (N + 1)) (shards c') /\
    forall k' ov, Content hashKey c k' ov ->
      Content hashKey c' k' (if String.eqb k k' then Some v else ov).
Proof.
  intros HC HF Hopts HN.
  destruct (shard_exists hashKey c k HC) as [s Hs].
  pose proof (Forall_shard _ _ _ _ HF Hs) as [HW Hmax Hitems Hlive].
  pose proof HW as (HS & _ & _).
  destruct (storeEntry_plain k v opts now Hopts) as (Ek & Ev & Ex & _).
  assert (Eev : evicted (storeEntry k v opts now) = false).
  { destruct opts as [o |]; simpl; [destruct (0 <? TTL o) |]; reflexivity. }
  unfold Ops2.Store. rewrite Hs. simpl.
  rewrite evictIfNeeded_unlimited by exact Hmax. simpl.
  destruct (Map_insert_total hashKey (m s) (storeEntry k v opts now) HS) as (mp' & r & Hins).
  rewrite Hins. simpl.
  destruct (Map_insert_Has hashKey (m s) _ mp' r HW Hins) as (Hnew & Hold & HP & Hcnt & HW').
  rewrite Ek, Ev in Hnew. rewrite Ek in Hold.
  eexists. split; [reflexivity |]. split; [apply CacheOK_setShard; exact HC |].
  match goal with |- context [setShard _ ?x c] => set (s' := x) end.
  assert (Hm' : m s' = mp') by (unfold s'; destruct r; reflexivity).
  split.
  - apply Forall_setShard; [eapply Forall_Plain2_mono; [| exact HF]; lia |].
    constructor; rewrite ?Hm'.
    + apply HW'. lia.
    + unfold s'. destruct r; simpl; exact Hmax.
    + lia.
    + apply (HP (fun x => expireAt x = 0 /\ evicted x = false)); [auto | | exact Hlive].
      intros ex [_ He]. simpl. auto.
  - apply (Content_step hashKey c k s s' (Some v) HC Hs); rewrite Hm'; assumption.
Qed.

Lemma Delete2_plain (N : Z) (c : Cache) (k : string) :
  CacheOK c -> Forall (Plain2 N) (shards c) ->
  exists c' ok, Ops2.Delete hashKey c k = Some (c', ok) /\ CacheOK c' /\
    Forall (Plain2 N) (shards c') /\
    forall k' ov, Content hashKey c k' ov ->
      Content hashKey c' k' (if String.eqb k k' then None else ov).
Proof.
  intros HC HF.
  destruct (shard_exists hashKey c k HC) as [s Hs].
  pose proof (Forall_shard _ _ _ _ HF Hs) as [HW Hmax Hitems Hlive].
  pose proof HW as (HS & _ & _).
  unfold Ops2.Delete. rewrite Hs. simpl.
  destruct (Map_delete_sound (m s) k (hashKey k) HS) as (mp' & r & Hdel & _).
  rewrite Hdel. simpl.
  destruct (Map_delete_Has hashKey (m s) k mp' r HW Hdel) as (Hnew & Hold & Hsub & Hcnt & HW').
  assert (HP : forall s', m s' = mp' -> maxMemory s' = maxMemory s -> Plain2 N s').
  { intros s' Hm Hx. constructor; rewrite ?Hm, ?Hx.
    - exact HW'.
    - exact Hmax.
    - lia.
    - intros x Hin. apply Hlive, Hsub, Hin. }
  destruct r as [e |]; simpl;
    (eexists; eexists; split; [reflexivity |]; split; [apply CacheOK_setShard; exact HC |];
     split; [apply Forall_setShard; [exact HF | apply HP; reflexivity] |];
     apply (Content_step hashKey c k s _ None HC Hs); simpl; assumption).
Qed.

Lemma Load2_plain (N : Z) (c : Cache) (k : string) (now : Z) :
  CacheOK c -> Forall (Plain2 N) (shards c) ->
  exists c' r, Ops2.Load hashKey c k now = Some (c', r) /\ CacheOK c' /\
    Forall (Plain2 N) (shards c') /\
    (forall k' ov, Content hashKey c k' ov -> Content hashKey c' k' ov) /\
    (forall ov, Content hashKey c k ov ->
       match ov with
       | Some v => exists e, r = Some e /\ key e = k /\ value e = v
       | None => r = None
       end).
Proof.
  intros HC HF.
  destruct (shard_exists hashKey c k HC) as [s Hs].
  pose proof (Forall_shard _ _ _ _ HF Hs) as HP.
  pose proof HP as [HW Hmax Hitems Hlive].
  pose proof HW as (HS & _ & _).
  unfold Ops2.Load. rewrite Hs. simpl.
  destruct (Map_get_total hashKey (m s) k HS) as [r Hr]. rewrite Hr. simpl.
  destruct r as [[e i] |].
  - destruct (Map_get_found hashKey _ _ _ _ HS Hr) as [Hin Hk].
    destruct (Hlive e Hin) as [Hex Hev].
    unfold IsEvicted, IsExpired. rewrite Hex, Hev. simpl.
    eexists. eexists. split; [reflexivity |]. split; [apply CacheOK_setShard; exact HC |].
    split; [apply Forall_setShard; [exact HF |]; destruct HP; constructor; assumption |].
    split; [apply (Content_same hashKey c k s); [exact HC | exact Hs | reflexivity] |].
    intros ov (s0 & Hs0 & Hh). rewrite Hs in Hs0. inversion Hs0; subst s0.
    destruct ov as [v |]; simpl in Hh.
    + destruct Hh as (e0 & Hin0 & Hk0 & Hv0). exists e. split; [reflexivity |].
      split; [exact Hk |].
      destruct (Map_get_present hashKey (m s) e0 HW Hin0) as [i0 Hi0].
      rewrite Hk0 in Hi0. congruence.
    + destruct (Hh e Hin Hk).
  - eexists. eexists. split; [reflexivity |]. split; [apply CacheOK_setShard; exact HC |].
    split; [apply Forall_setShard; [exact HF |]; destruct HP; constructor; assumption |].
    split; [apply (Content_same hashKey c k s); [exact HC | exact Hs | reflexivity] |].
    intros ov (s0 & Hs0 & Hh). rewrite Hs in Hs0. inversion Hs0; subst s0.
    destruct ov as [v |]; simpl in Hh; [| reflexivity].
    destruct Hh as (e0 & Hin0 & Hk0 & Hv0).
    destruct (Map_get_present hashKey (m s) e0 HW Hin0) as [i0 Hi0].
    rewrite Hk0 in Hi0. congruence.
Qed.

Lemma run2_plain (ops : list CacheOp) : forall (c : Cache) (N : Z),
  CacheOK c -> Forall (Plain2 N) (shards c) ->
  forallb isPlain ops = true -> N + storeCount ops <= 49152 ->
  exists c', run2 hashKey c ops = Some c' /\ CacheOK c' /\
    Forall (Plain2 (N + storeCount ops)) (shards c') /\
    forall k ov, Content hashKey c k ov ->
      Content hashKey c' k (fold_left (fun acc op => after acc op k) ops ov).
Proof.
  induction ops as [| op ops IH]; intros c N HC HF Hp HN.
  - exists c. simpl. split; [reflexivity |]. split; [exact HC |].
    split; [eapply Forall_Plain2_mono; [| exact HF]; lia | auto].
  - simpl in Hp. apply andb_prop in Hp as [Hop Hrest].
    pose proof (storeCount_nonneg ops) as Hsc. simpl storeCount in *.
    destruct op as [k v opts now rnd | k now | k | k delta now rnd | k v ex opts now rnd];
      try discriminate; simpl in Hop; simpl isStore in *.
    + destruct (Store2_plain N c k v opts now rnd HC HF Hop)
        as (c1 & Hrun & HC1 & HF1 & Hcont); [lia |].
      destruct (IH c1 (N + 1) HC1 HF1 Hrest) as (c' & Hrun' & HC' & HF' & Hcont'); [lia |].
      exists c'. simpl. rewrite Hrun. simpl. split; [exact Hrun' |]. split; [exact HC' |].
      split; [eapply Forall_Plain2_mono; [| exact HF']; lia |].
      intros k' ov Hc. apply Hcont', Hcont, Hc.
    + destruct (Load2_plain N c k now HC HF) as (c1 & r & Hrun & HC1 & HF1 & Hcont & _).
      destruct (IH c1 N HC1 HF1 Hrest) as (c' & Hrun' & HC' & HF' & Hcont'); [lia |].
      exists c'. simpl. rewrite Hrun. simpl. split; [exact Hrun' |]. split; [exact HC' |].
      split; [eapply Forall_Plain2_mono; [| exact HF']; lia |].
      intros k' ov Hc. apply Hcont', Hcont, Hc.
    + destruct (Delete2_plain N c k HC HF) as (c1 & ok & Hrun & HC1 & HF1 & Hcont).
      destruct (IH c1 N HC1 HF1 Hrest) as (c' & Hrun' & HC' & HF' & Hcont'); [lia |].
      exists c'. simpl. rewrite Hrun. simpl. split; [exact Hrun' |]. split; [exact HC' |].
      split; [eapply Forall_Plain2_mono; [| exact HF']; lia |].
      intros k' ov Hc. apply Hcont', Hcont, Hc.
Qed.

(** X17, the second revision on a cache made with [maxMemory = 0]: after any
    sequence of Stores without TTL, Loads and Deletes with at most 49152
    Stores, a Load of [k] hits with the value of the last Store of [k],
    and misses when the last call on [k] was a Delete or there was
    none. *)
Lemma second_revision_Load_returns_last_Store (n : Z) (ops : list CacheOp)
    (k : string) (now : Z) :
  forallb isPlain ops = true -> storeCount ops <= 49152 ->
  exists c c' r,
    run2 hashKey (New n 0) ops = Some c /\
    Ops2.Load hashKey c k now = Some (c', r) /\
    match lastStore ops k with
    | Some v => exists e, r = Some e /\ key e = k /\ value e = v
    | None => r = None
    end.
Proof.
  intros Hp Hn.
  assert (HF : Forall (Plain2 0) (shards (New n 0))).
  { unfold New; simpl. apply Forall_replicate.
    constructor; unfold NewShard; cbn [m maxMemory].
    - apply WF_NewMap.
    - pose proof (quot_int64 0 (if n <=? 0 then 16 else n)).
      rewrite Z.quot_0_l; [lia |]. destruct (n <=? 0) eqn:E; [lia |].
      apply Z.leb_gt in E. lia.
    - simpl. lia.
    - intros e He. rewrite entries_NewMap in He. inversion He. }
  destruct (run2_plain ops (New n 0) 0 (CacheOK_New n 0) HF Hp) as (c & Hrun & HC & HF' & Hcont);
    [lia |].
  destruct (Load2_plain _ c k now HC HF') as (c' & r & Hload & _ & _ & _ & Hres).
  exists c, c', r. split; [exact Hrun |]. split; [exact Hload |].
  apply Hres. apply Hcont. apply Content_New.
Qed.
End PlainRuns2.

End SecondRevisionPlainCalls.

Section InvariantProofs.

#[local] Arguments Map_insert : simpl never.
#[local] Arguments Map_delete : simpl never.
#[local] Arguments Map_get : simpl never.
#[local] Arguments Map_lookup : simpl never.
#[local] Arguments Map_resize : simpl never.
#[local] Arguments NewMap : simpl never.

(** ** The invariants of the table *)

Section TableInvariants.
Variable hashKey : string -> Z.

(** The four invariants, on the buckets: keys are unique; an occupied
    bucket caches its key's hash and its distance is its offset from the
    home bucket; a scan from the home bucket of a stored key meets, until
    it reaches the key, only occupied buckets whose distance is at least
    the number of steps taken; the capacity is a power of two, at
    least 16. *)
Record Invariants (mp : Map) : Prop := mkInvariants {
  inv_unique : forall i j bi bj ei ej,
    0 <= i -> 0 <= j ->
    bucketAt (buckets mp) i = Some bi -> bucketAt (buckets mp) j = Some bj ->
    entry bi = Some ei -> entry bj = Some ej -> key ei = key ej -> i = j;
  inv_distance : forall i b e,
    0 <= i -> bucketAt (buckets mp) i = Some b -> entry b = Some e ->
    hash b = hashKey (key e) /\
    distance b = (i - Z.land (hash b) (mask mp)) mod capacity mp;
  inv_scan : forall p b e t,
    0 <= p -> bucketAt (buckets mp) p = Some b -> entry b = Some e ->
    0 <= t <= distance b ->
    exists b1, bucketAt (buckets mp)
                 ((Z.land (hashKey (key e)) (mask mp) + t) mod capacity mp) = Some b1 /\
      is_Some (entry b1) /\ t <= distance b1;
  inv_pow2 : exists j, 4 <= j /\ capacity mp = 2 ^ j;
  inv_min : 16 <= capacity mp
}.

Lemma WF_Invariants (mp : Map) : WF hashKey mp -> Invariants mp.
Proof.
  intros (HS & HO & HU). pose proof (shape_geom _ (proj1 HS)) as G.
  pose proof (Geom_cap _ _ G) as Hcap.
  assert (Hrange : forall i b, 0 <= i -> bucketAt (buckets mp) i = Some b ->
                     0 <= i < Z.of_nat (length (buckets mp))).
  { intros i b Hi Hb. apply bucketAt_Some in Hb. lia. }
  constructor.
  - intros i j bi bj ei ej Hi Hj Hbi Hbj Hei Hej Hk.
    apply (UniqueKeys_at (buckets mp) i j bi bj ei ej); assumption.
  - intros i b e Hi Hb He.
    apply (ord_slot _ _ _ HO i (Hrange i b Hi Hb) b e Hb He).
  - intros p b e t Hp Hb He Ht.
    pose proof (Hrange p b Hp Hb) as Hpr.
    destruct (ord_slot _ _ _ HO p Hpr b e Hb He) as [Hh Hd].
    assert (Hocc : is_Some (entry b)) by (rewrite He; eauto).
    destruct (probe_chain (buckets mp) (Z.to_nat (distance b - t)) p (distance b) b
                ltac:(lia) (ord_probe _ _ _ HO) Hpr Hb Hocc ltac:(lia) ltac:(lia))
      as (b1 & Hb1 & Ho1 & Hd1).
    rewrite Z2Nat.id in Hb1, Hd1 by lia.
    exists b1. split; [| split; [exact Ho1 | lia]].
    rewrite <- Hb1. f_equal. unfold capacity. rewrite <- Hh.
    rewrite Hd at 1.
    replace (p - ((p - Z.land (hash b) (mask mp)) mod Z.of_nat (length (buckets mp)) - t))
      with (p + t - (p - Z.land (hash b) (mask mp)) mod Z.of_nat (length (buckets mp)))
      by lia.
    rewrite Zminus_mod_idemp_r. f_equal. lia.
  - destruct G as (j & Hj & Hlen & _). exists j. split; [exact Hj | exact Hlen].
  - exact Hcap.
Qed.

Lemma UniqueKeys_perm (mp mp' : Map) :
  Permutation (entries mp') (entries mp) -> UniqueKeys (buckets mp) ->
  UniqueKeys (buckets mp').
Proof.
  intros Hp HU. unfold UniqueKeys in *. fold (entries mp) in HU. fold (entries mp').
  rewrite Hp. exact HU.
Qed.

(** [NewMap]: the doubling loop stops at a power of two. *)
Lemma NewMap_size_pow2 (n : Z) (fuel : nat) : forall j : Z,
  n <= 2 ^ 16 -> 4 <= j <= 16 -> (Z.to_nat (16 - j) < fuel)%nat ->
  exists j', j <= j' <= 16 /\ NewMap_size fuel (2 ^ j) n = 2 ^ j'.
Proof.
  induction fuel as [| fuel IH]; intros j Hn Hj Hfuel; [lia |].
  simpl. destruct (2 ^ j <? n) eqn:E; [| exists j; split; [lia | reflexivity]].
  apply Z.ltb_lt in E.
  assert (Hj16 : j < 16).
  { destruct (Z_lt_ge_dec j 16) as [H | H]; [exact H |].
    assert (2 ^ 16 <= 2 ^ j) by (apply Z.pow_le_mono_r; lia). lia. }
  replace (2 ^ j * 2) with (2 ^ (j + 1)) by (rewrite Z.pow_add_r; lia).
  destruct (IH (j + 1) Hn ltac:(lia) ltac:(lia)) as (j' & Hj' & Hrun).
  exists j'. split; [lia | exact Hrun].
Qed.

Lemma WF_NewMap_upto (n : Z) : n <= 2 ^ 16 -> WF hashKey (NewMap n).
Proof.
  intros Hn.
  destruct (NewMap_size_pow2 n 64 4 Hn ltac:(lia) ltac:(simpl; lia)) as (j & Hj & Hsize).
  change (2 ^ 4) with 16 in Hsize.
  assert (Hpos : 0 < 2 ^ j) by (apply Z.pow_pos_nonneg; lia).
  assert (Hle : 2 ^ j <= 2 ^ 16) by (apply Z.pow_le_mono_r; lia).
  assert (Hent : entries (NewMap n) = []).
  { unfold entries, NewMap; cbn [buckets]. apply live_replicate_empty. }
  assert (Hcap : capacity (NewMap n) = 2 ^ j).
  { unfold capacity, NewMap; cbn [buckets]. rewrite Hsize, length_makeBuckets; lia. }
  split; [| split].
  - split.
    + constructor.
      * exists j. fold (capacity (NewMap n)). rewrite Hcap.
        split; [lia |]. split; [reflexivity |]. unfold NewMap; cbn [buckets numItems mask growAt shrinkAt]. rewrite Hsize. reflexivity.
      * rewrite Hcap. unfold NewMap; cbn [buckets numItems mask growAt shrinkAt]. rewrite Hsize. reflexivity.
      * rewrite Hcap. unfold NewMap; cbn [buckets numItems mask growAt shrinkAt]. rewrite Hsize. reflexivity.
      * rewrite Hent. reflexivity.
    + unfold NewMap; cbn [buckets numItems mask growAt shrinkAt]. rewrite Hsize. unfold growThreshold.
      apply Z.div_pos; lia.
  - unfold NewMap; cbn [buckets numItems mask growAt shrinkAt]. rewrite Hsize. apply Ordered_fresh; lia.
  - unfold UniqueKeys. fold (entries (NewMap n)). rewrite Hent. constructor.
Qed.

(** resize to [2^j] buckets, with room for the entries. *)
Lemma Map_resize_wf (mp : Map) (j : Z) :
  WF hashKey mp -> 4 <= j <= 16 -> numItems mp <= growThreshold (2 ^ j) ->
  exists mp', Map_resize mp (2 ^ j) = Some mp' /\ WF hashKey mp' /\
    capacity mp' = 2 ^ j /\ Permutation (entries mp') (entries mp).
Proof.
  intros (HS & HO & HU) Hj Hn.
  pose proof (shape_count _ (proj1 HS)) as Hc.
  assert (Hpos : 0 < 2 ^ j) by (apply Z.pow_pos_nonneg; lia).
  pose proof (growThreshold_lt (2 ^ j) Hpos) as Hlt.
  destruct (Map_resize_total mp (2 ^ j) j ltac:(lia) eq_refl) as (mp' & Hrun & Hcap & HSh & Hp);
    [lia |].
  exists mp'. split; [exact Hrun |]. split; [| split; [exact Hcap | exact Hp]].
  split; [| split].
  - split; [exact HSh |]. rewrite (shape_grow _ HSh), (shape_count _ HSh), Hcap.
    apply Permutation_length in Hp. rewrite Hp. lia.
  - apply (Map_resize_ordered hashKey mp (2 ^ j) j mp'); auto; try lia.
    + apply Z.pow_le_mono_r; lia.
    + apply (Ordered_hashes hashKey _ _ HO).
  - apply (UniqueKeys_perm mp mp' Hp HU).
Qed.
End TableInvariants.

End InvariantProofs.

(** C2, as the code has it.  A fresh table (of an initial size up to 65536)
    is well-formed; on a well-formed
    table insert, delete and resize (to a power of two between 16 and 65536
    with room for the entries) return, and leave a well-formed table,
    insert as long as the capacity stays within 65536 (the distance field
    has 16 bits).  On a well-formed table the keys are unique, the distance
    of an occupied bucket at [i] is [(i - (hash & mask)) mod capacity], a
    scan from the home bucket of a stored key meets only occupied buckets
    whose distance is at least the number of steps taken until it reaches
    the key, and the capacity is a power of two, at least 16. *)
Theorem table_invariants_hold (hashKey : string -> Z) :
  (forall n, n <= 2 ^ 16 -> WF hashKey (NewMap n)) /\
  (forall mp, WF hashKey mp -> Invariants hashKey mp /\ capacity mp <= 2 ^ 16) /\
  (forall mp e, WF hashKey mp ->
     exists mp' r, Map_insert hashKey mp e = Some (mp', r) /\
       (capacity mp' <= 2 ^ 16 -> WF hashKey mp')) /\
  (forall mp k, WF hashKey mp ->
     exists mp' r, Map_delete mp k (hashKey k) = Some (mp', r) /\ WF hashKey mp') /\
  (forall mp j, WF hashKey mp -> 4 <= j <= 16 -> numItems mp <= growThreshold (2 ^ j) ->
     exists mp', Map_resize mp (2 ^ j) = Some mp' /\ WF hashKey mp').
Proof.
  split; [apply WF_NewMap_upto |]. split; [| split; [| split]].
  - intros mp HW. split; [apply WF_Invariants; exact HW |].
    destruct HW as (_ & HO & _). apply (ord_cap _ _ _ HO).
  - intros mp e HW. pose proof HW as (HS & _ & _).
    destruct (Map_insert_sound hashKey mp e HS) as (mp' & r & Hrun & _).
    exists mp', r. split; [exact Hrun |]. intros Hcap.
    apply (Map_insert_wf hashKey mp e mp' r HW Hrun Hcap).
  - intros mp k HW. pose proof HW as (HS & _ & _).
    destruct (Map_delete_sound mp k (hashKey k) HS) as (mp' & r & Hrun & _).
    exists mp', r. split; [exact Hrun |].
    apply (Map_delete_wf hashKey mp k (hashKey k) mp' r HW Hrun).
  - intros mp j HW Hj Hn.
    destruct (Map_resize_wf hashKey mp j HW Hj Hn) as (mp' & Hrun & HW' & _).
    exists mp'. split; [exact Hrun | exact HW'].
Qed.

Lemma table_invariants_after_insert :
  WF XXH64 (NewMap 16) /\
  exists mp' r, Map_insert XXH64 (NewMap 16) (newEntry "d" "1") = Some (mp', r) /\
    WF XXH64 mp' /\ Invariants XXH64 mp'.
Proof.
  pose proof (table_invariants_hold XXH64) as (Hnew & Hinv & Hins & _).
  assert (H16 : WF XXH64 (NewMap 16)) by (apply Hnew; lia).
  split; [exact H16 |].
  destruct (Hins (NewMap 16) (newEntry "d" "1") H16) as (mp' & r & Hrun & HW).
  assert (Hcap : capacity mp' <= 2 ^ 16).
  { vm_compute in Hrun. inversion Hrun. vm_compute. discriminate. }
  exists mp', r. split; [exact Hrun |]. split; [exact (HW Hcap) |].
  exact (proj1 (Hinv mp' (HW Hcap))).
Defined.

(** The ordering clause in the words of the specification: scanning forward
    from the home bucket of [k], the distance does not decrease from one
    bucket to the next, as long as the scan goes on (the buckets are
    occupied by other keys and none has a distance below the number of
    steps taken). *)
Definition ScanNonDecreasing (hashKey : string -> Z) (mp : Map) (k : string) : Prop :=
  forall (t : Z) (b b' : Bucket),
    0 <= t ->
    (forall u, 0 <= u <= t + 1 ->
       exists bu eu,
         bucketAt (buckets mp) ((Z.land (hashKey k) (mask mp) + u) mod capacity mp) = Some bu /\
         entry bu = Some eu /\ key eu <> k /\ u <= distance bu) ->
    bucketAt (buckets mp) ((Z.land (hashKey k) (mask mp) + t) mod capacity mp) = Some b ->
    bucketAt (buckets mp) ((Z.land (hashKey k) (mask mp) + t + 1) mod capacity mp) = Some b' ->
    distance b <= distance b'.

(** Seven inserts into a fresh table: five keys with home bucket 4, then two
    with home bucket 8. *)
Fixpoint insertAll (hashKey : string -> Z) (ks : list string) (mp : Map) : option Map :=
  match ks with
  | [] => Some mp
  | k :: rest => r ← Map_insert hashKey mp (newEntry k ""); insertAll hashKey rest r.1
  end.
Definition crowdedMap : option Map :=
  insertAll XXH64 ["d"; "e"; "t"; "k3"; "k10"; "m"; "z"]%string (NewMap 16).

(** C2, the ordering clause as worded: in the table of the seven inserts the
    scan for z starts at bucket 8 and meets the distances 4 (k10, bucket 8)
    and 1 (m, bucket 9) before it finds z in bucket 10. *)
Lemma scan_distances_decrease :
  exists mp,
    crowdedMap = Some mp /\
    map (fun b => (option_map key (entry b), distance b)) (take 3 (drop 8 (buckets mp)))
      = [(Some "k10"%string, 4); (Some "m"%string, 1); (Some "z"%string, 2)] /\
    option_map (option_map snd) (Map_get XXH64 mp "z") = Some (Some 10) /\
    ~ ScanNonDecreasing XXH64 mp "z".
Proof.
  eexists. split; [vm_compute; reflexivity |].
  split; [vm_compute; reflexivity |]. split; [vm_compute; reflexivity |].
  intros H.
  match type of H with ScanNonDecreasing _ ?mp _ =>
    assert (H8 : exists b, bucketAt (buckets mp) 8 = Some b /\ distance b = 4 /\
                   exists e, entry b = Some e /\ key e = "k10"%string)
      by (eexists; split; [vm_compute; reflexivity |]; split; [reflexivity |];
          eexists; split; reflexivity);
    assert (H9 : exists b, bucketAt (buckets mp) 9 = Some b /\ distance b = 1 /\
                   exists e, entry b = Some e /\ key e = "m"%string)
      by (eexists; split; [vm_compute; reflexivity |]; split; [reflexivity |];
          eexists; split; reflexivity)
  end.
  destruct H8 as (b8 & Hb8 & Hd8 & e8 & He8 & Hk8).
  destruct H9 as (b9 & Hb9 & Hd9 & e9 & He9 & Hk9).
  specialize (H 0 b8 b9 ltac:(lia)).
  assert (Hle : distance b8 <= distance b9); [| lia].
  apply H; [| exact Hb8 | exact Hb9].
  intros u Hu. assert (Hcase : u = 0 \/ u = 1) by lia.
  destruct Hcase as [-> | ->].
  - exists b8, e8. split; [exact Hb8 |]. split; [exact He8 |].
    split; [rewrite Hk8; discriminate | lia].
  - exists b9, e9. split; [exact Hb9 |]. split; [exact He9 |].
    split; [rewrite Hk9; discriminate | lia].
Qed.

Section TablesAsMaps.

#[local] Arguments Map_insert : simpl never.
#[local] Arguments Map_delete : simpl never.
#[local] Arguments Map_get : simpl never.
#[local] Arguments Map_lookup : simpl never.
#[local] Arguments Map_resize : simpl never.
#[local] Arguments NewMap : simpl never.

(** ** The table as a finite map: get, insert, delete, resize *)

Section TableAsMap.
Variable hashKey : string -> Z.

(** The entry [get] returns, without the bucket index. *)
Definition Map_find (mp : Map) (k : string) : option (option Entry) :=
  match Map_get hashKey mp k with
  | Some r => Some (option_map fst r)
  | None => None
  end.

Lemma Map_find_total (mp : Map) (k : string) :
  Sound mp -> exists r, Map_find mp k = Some r.
Proof.
  intros HS. unfold Map_find. destruct (Map_get_total hashKey mp k HS) as [r ->].
  simpl. eauto.
Qed.

Lemma Map_find_Some (mp : Map) (k : string) (x : Entry) :
  WF hashKey mp -> (Map_find mp k = Some (Some x) <-> x ∈ entries mp /\ key x = k).
Proof.
  intros HW. pose proof HW as (HS & _ & _). unfold Map_find. split.
  - destruct (Map_get hashKey mp k) as [[[e i] |] |] eqn:Hg; simpl; intros H;
      inversion H; subst. apply (Map_get_found hashKey mp k x i HS Hg).
  - intros [Hin Hk]. destruct (Map_get_present hashKey mp x HW Hin) as [i Hi].
    rewrite Hk in Hi. rewrite Hi. reflexivity.
Qed.

Lemma Map_find_None (mp : Map) (k : string) :
  WF hashKey mp ->
  (Map_find mp k = Some None <-> forall x, x ∈ entries mp -> key x <> k).
Proof.
  intros HW. pose proof HW as (HS & _ & _). unfold Map_find. split.
  - destruct (Map_get hashKey mp k) as [[[e i] |] |] eqn:Hg; simpl; intros H;
      inversion H. apply (Map_get_absent hashKey mp k HW Hg).
  - intros Hno. rewrite (Map_get_none hashKey mp k HS Hno). reflexivity.
Qed.

(** Two well-formed tables with the same entries for [k] answer [get k]
    alike. *)
Lemma Map_find_ext (mp mp' : Map) (k : string) :
  WF hashKey mp -> WF hashKey mp' ->
  (forall x, key x = k -> (x ∈ entries mp <-> x ∈ entries mp')) ->
  Map_find mp' k = Map_find mp k.
Proof.
  intros HW HW' Hsame.
  destruct (Map_find_total mp k (proj1 HW)) as [[x |] Hr]; rewrite Hr.
  - apply (Map_find_Some mp k x HW) in Hr as [Hin Hk].
    apply (Map_find_Some mp' k x HW'). split; [apply Hsame; assumption | exact Hk].
  - apply (Map_find_None mp' k HW'). intros x Hin Hk.
    apply (proj1 (Map_find_None mp k HW) Hr x); [apply Hsame; assumption | exact Hk].
Qed.

Lemma entries_bucket (mp : Map) (x : Entry) :
  x ∈ entries mp <->
  exists i b, 0 <= i /\ bucketAt (buckets mp) i = Some b /\ entry b = Some x.
Proof. unfold entries. rewrite list_elem_of_In. apply live_In. Qed.
End TableAsMap.

(** X1: on a well-formed table [get k] returns; when it returns an entry,
    the entry sits in the bucket whose index the lookup reports, its key is
    [k], and no other bucket holds [k]; when it returns nil, no bucket of
    the table holds an entry with key [k]. *)
Theorem get_finds_the_stored_key (hashKey : string -> Z) (mp : Map) (k : string) :
  WF hashKey mp ->
  exists r, Map_get hashKey mp k = Some r /\
    match r with
    | Some (e, i) =>
        0 <= i < capacity mp /\ key e = k /\
        (exists b, bucketAt (buckets mp) i = Some b /\ entry b = Some e) /\
        (forall j b x, 0 <= j -> bucketAt (buckets mp) j = Some b -> entry b = Some x ->
           key x = k -> j = i /\ x = e)
    | None =>
        forall j b x, 0 <= j -> bucketAt (buckets mp) j = Some b -> entry b = Some x ->
          key x <> k
    end.
Proof.
  intros HW. pose proof HW as (HS & HO & HU).
  destruct (Map_get_total hashKey mp k HS) as [r Hr]. exists r. split; [exact Hr |].
  destruct r as [[e i] |].
  - destruct (Map_get_sound hashKey mp k e i HS Hr) as (Hi & b & Hb & He & Hk).
    split; [exact Hi |]. split; [exact Hk |]. split; [eauto |].
    intros j b' x Hj Hb' Hx Hkx.
    assert (j = i) as ->.
    { apply (UniqueKeys_at (buckets mp) j i b' b x e); auto; [lia | congruence]. }
    split; [reflexivity | congruence].
  - intros j b x Hj Hb Hx. apply (Map_get_absent hashKey mp k HW Hr).
    apply entries_bucket. eauto.
Qed.


(** X2: [insert] followed by [get].  On a well-formed table with fewer
    than 49152 entries [insert e] returns and leaves a well-formed table in
    which [get (key e)] finds an entry with the key, value, expiry and
    flags of [e]: [e] itself when the key was new (the result is nil and
    numItems grows by one), and otherwise the old entry rewritten, with its
    cas raised by one (the result is a copy of the old entry and numItems
    stays).  For every other key [get] answers as before. *)
Theorem insert_then_get (hashKey : string -> Z) (mp : Map) (e : Entry) :
  WF hashKey mp -> numItems mp < 49152 ->
  exists mp' r, Map_insert hashKey mp e = Some (mp', r) /\ WF hashKey mp' /\
    Map_find hashKey mp (key e) = Some r /\
    (exists e', Map_find hashKey mp' (key e) = Some (Some e') /\
       key e' = key e /\ value e' = value e /\
       expireAt e' = expireAt e /\ flags e' = flags e /\
       match r with
       | None => e' = e /\ numItems mp' = numItems mp + 1
       | Some old => cas e' = wrap_u64 (cas old + 1) /\ numItems mp' = numItems mp
       end) /\
    (forall k, k <> key e -> Map_find hashKey mp' k = Map_find hashKey mp k).
Proof.
  intros HW Hn. pose proof HW as (HS & HO & HU).
  destruct (Map_insert_total hashKey mp e HS) as (mp' & r & Hrun).
  destruct (Map_insert_Has hashKey mp e mp' r HW Hrun) as (_ & _ & _ & _ & HW').
  specialize (HW' Hn).
  destruct (Map_insert_entries hashKey mp e mp' r HS Hrun) as [HS' Hspec].
  pose proof (shape_count _ (proj1 HS)) as Hc. pose proof (shape_count _ (proj1 HS')) as Hc'.
  exists mp', r. split; [exact Hrun |]. split; [exact HW' |].
  destruct r as [old |].
  - destruct Hspec as (Hk & (i & Hg) & l1 & l2 & H1 & H2).
    assert (Hold : old ∈ entries mp) by (rewrite H1; set_solver).
    split; [unfold Map_find; rewrite Hg; reflexivity |]. split.
    + exists (overwrite old e). split.
      * apply (Map_find_Some hashKey mp' (key e) _ HW'). split; [rewrite H2; set_solver |].
        rewrite key_overwrite. exact Hk.
      * split; [rewrite key_overwrite; exact Hk |]. split; [reflexivity |].
        split; [reflexivity |]. split; [reflexivity |]. split; [reflexivity |].
        rewrite Hc, Hc', H1, H2, !length_app. simpl. lia.
    + intros k Hne. apply Map_find_ext; [exact HW | exact HW' |].
      intros x Hkx. rewrite H1, H2. rewrite !elem_of_app, !elem_of_cons.
      assert (x <> old) by congruence.
      assert (x <> overwrite old e) by (intros ->; rewrite key_overwrite in Hkx; congruence).
      tauto.
  - destruct Hspec as (Hg & Hp).
    split; [unfold Map_find; rewrite Hg; reflexivity |]. split.
    + exists e. split.
      * apply (Map_find_Some hashKey mp' (key e) e HW'). split; [rewrite Hp; set_solver | reflexivity].
      * do 4 (split; [reflexivity |]). split; [reflexivity |].
        rewrite Hc, Hc'. apply Permutation_length in Hp. rewrite Hp. simpl. lia.
    + intros k Hne. apply Map_find_ext; [exact HW | exact HW' |].
      intros x Hkx. rewrite Hp, elem_of_cons.
      assert (x <> e) by congruence. tauto.
Qed.

Lemma insert_then_get_on_fresh_table :
  WF XXH64 (NewMap 16) /\ numItems (NewMap 16) < 49152 /\
  exists mp' r, Map_insert XXH64 (NewMap 16) (newEntry "a" "1") = Some (mp', r) /\
    WF XXH64 mp' /\
    exists e', Map_find XXH64 mp' "a" = Some (Some e') /\ value e' = "1"%string.
Proof.
  assert (H1 : WF XXH64 (NewMap 16)) by apply WF_NewMap.
  assert (H2 : numItems (NewMap 16) < 49152) by (vm_compute; reflexivity).
  split; [exact H1 |]. split; [exact H2 |].
  destruct (insert_then_get XXH64 (NewMap 16) (newEntry "a" "1") H1 H2)
    as (mp' & r & Hrun & HW & _ & (e' & Hf & _ & Hv & _) & _).
  exists mp', r. split; [exact Hrun |]. split; [exact HW |]. exists e'. split; assumption.
Defined.




End TablesAsMaps.

Section ProbesAndSamples.

#[local] Arguments Map_insert : simpl never.
#[local] Arguments Map_delete : simpl never.
#[local] Arguments Map_get : simpl never.
#[local] Arguments Map_lookup : simpl never.
#[local] Arguments Map_resize : simpl never.
#[local] Arguments NewMap : simpl never.

(** ** Tables of any size: the probe loops end *)

(** X5: the load factor, for tables of any size.  On a table reached from
    [NewMap(16)] by inserts and deletes (a sound table) [numItems] is the
    number of occupied buckets and at most three quarters of the capacity,
    the capacity is a power of two (at least 16), and some bucket is empty;
    so the loops of [lookup], [insert] and [delete] end: each of the three
    returns, and [insert] and [delete] leave a sound table again. *)
Theorem probe_loops_end (hashKey : string -> Z) (mp : Map) (e : Entry) (k : string) (h : Z) :
  Sound mp ->
  numItems mp = Z.of_nat (length (entries mp)) /\
  4 * numItems mp <= 3 * capacity mp /\
  (exists j, 4 <= j /\ capacity mp = 2 ^ j) /\
  (exists i b, 0 <= i < capacity mp /\ bucketAt (buckets mp) i = Some b /\ entry b = None) /\
  (exists r, Map_lookup mp k h = Some r) /\
  (exists mp' r, Map_insert hashKey mp e = Some (mp', r) /\ Sound mp') /\
  (exists mp' r, Map_delete mp k h = Some (mp', r) /\ Sound mp' /\
     capacity mp' <= capacity mp).
Proof.
  intros HS. pose proof HS as [HSh Hle].
  split; [apply (shape_count _ HSh) |]. split.
  - rewrite (shape_grow _ HSh) in Hle. unfold growThreshold in Hle.
    pose proof (Z.mul_div_le (capacity mp * 3) 4 ltac:(lia)). lia.
  - split.
    + destruct (shape_geom _ HSh) as (j & Hj & Hlen & _). exists j. split; [exact Hj | exact Hlen].
    + split; [apply (Sound_hasEmpty mp HS) |]. split.
      * apply Map_lookup_total; [apply HSh | apply Sound_room; exact HS].
      * split.
        -- destruct (Map_insert_sound hashKey mp e HS) as (mp' & r & Hrun & HS' & _). eauto.
        -- destruct (Map_delete_sound mp k h HS) as (mp' & r & Hrun & HS' & Hcap & _).
           exists mp', r. auto.
Qed.


(** ** randomEntries *)

(** The occupied buckets of an array that starts at index [i], each with
    its index, in index order. *)
Fixpoint occupiedFrom (i : Z) (bs : list Bucket) : list (Z * Entry) :=
  match bs with
  | [] => []
  | b :: rest =>
      match entry b with
      | Some e => (i, e) :: occupiedFrom (i + 1) rest
      | None => occupiedFrom (i + 1) rest
      end
  end.
Definition occupied (mp : Map) : list (Z * Entry) := occupiedFrom 0 (buckets mp).

(** The loop of [randomEntries] as a walk over the occupied buckets. *)
Fixpoint pick (occ : list (Z * Entry)) (stride n seen : Z) (acc : list (Z * Entry))
    : list (Z * Entry) :=
  match occ with
  | [] => acc
  | p :: rest =>
      if Z.of_nat (length acc) <? n then
        pick rest stride n (seen + 1) (if seen mod stride =? 0 then acc ++ [p] else acc)
      else acc
  end.

Lemma pick_full (occ : list (Z * Entry)) (stride n seen : Z) (acc : list (Z * Entry)) :
  n <= Z.of_nat (length acc) -> pick occ stride n seen acc = acc.
Proof.
  intros H. destruct occ as [| p rest]; simpl; [reflexivity |].
  replace (Z.of_nat (length acc) <? n) with false by (symmetry; apply Z.ltb_ge; exact H).
  reflexivity.
Qed.

Lemma randomEntries_loop_pick (bs : list Bucket) : forall (i nItems n seen : Z)
    (acc : list (Z * Entry)),
  randomEntries_loop bs i nItems n seen acc
  = pick (occupiedFrom i bs) (nItems / n + 1) n seen acc.
Proof.
  induction bs as [| b bs IH]; intros i nItems n seen acc; simpl; [reflexivity |].
  destruct (Z.of_nat (length acc) <? n) eqn:E.
  - destruct (entry b) as [e |]; simpl; [rewrite E |]; apply IH.
  - apply Z.ltb_ge in E. destruct (entry b) as [e |]; symmetry; apply pick_full; exact E.
Qed.

(** After the first pick, a sample of two is completed by the occupied
    bucket that is [stride] places after the first. *)
Lemma pick_second (rest : list (Z * Entry)) (stride : Z) (p0 : Z * Entry) :
  forall seen : Z, 1 <= seen <= stride ->
  pick rest stride 2 seen [p0]
  = match rest !! Z.to_nat (stride - seen) with
    | Some p1 => [p0; p1]
    | None => [p0]
    end.
Proof.
  induction rest as [| p rest IH]; intros seen Hs; simpl; [reflexivity |].
  destruct (Z.eq_dec seen stride) as [-> | Hne].
  - rewrite Z_mod_same_full. simpl. rewrite Z.sub_diag. simpl. apply pick_full. simpl. lia.
  - rewrite Z.mod_small by lia.
    replace (seen =? 0) with false by (symmetry; apply Z.eqb_neq; lia).
    rewrite IH by lia.
    replace (Z.to_nat (stride - seen)) with (S (Z.to_nat (stride - (seen + 1)))) by lia.
    reflexivity.
Qed.

Lemma occupiedFrom_live (bs : list Bucket) : forall i, snd <$> occupiedFrom i bs = live bs.
Proof.
  induction bs as [| b bs IH]; intros i; simpl; [reflexivity |].
  unfold live in *. simpl. destruct (entry b); simpl; rewrite IH; reflexivity.
Qed.

Lemma occupiedFrom_bucket (bs : list Bucket) : forall (i : Z) (p : Z * Entry),
  0 <= i -> p ∈ occupiedFrom i bs ->
  i <= p.1 /\ exists b, bucketAt bs (p.1 - i) = Some b /\ entry b = Some p.2.
Proof.
  induction bs as [| b bs IH]; intros i p Hi Hp; simpl in Hp; [inversion Hp |].
  assert (Hrest : p ∈ occupiedFrom (i + 1) bs ->
            i <= p.1 /\ exists b0, bucketAt (b :: bs) (p.1 - i) = Some b0 /\ entry b0 = Some p.2).
  { intros H. destruct (IH (i + 1) p ltac:(lia) H) as (Hle & b0 & Hb0 & He0).
    split; [lia |]. exists b0. split; [| exact He0].
    unfold bucketAt in *. replace (Z.to_nat (p.1 - i)) with (S (Z.to_nat (p.1 - (i + 1)))) by lia.
    exact Hb0. }
  destruct (entry b) as [e |] eqn:E; [| auto].
  apply elem_of_cons in Hp as [-> | Hp]; [| auto].
  simpl. split; [lia |]. exists b. rewrite Z.sub_diag. split; [reflexivity | exact E].
Qed.

Lemma occupiedFrom_increasing (bs : list Bucket) : forall (i : Z) (a c : nat) (p q : Z * Entry),
  0 <= i -> occupiedFrom i bs !! a = Some p -> occupiedFrom i bs !! c = Some q ->
  (a < c)%nat -> p.1 < q.1.
Proof.
  induction bs as [| b bs IH]; intros i a c p q Hi Ha Hc Hlt; simpl in *; [discriminate |].
  destruct (entry b) as [e |]; [| apply (IH (i + 1) a c p q); auto; lia].
  destruct c as [| c]; [lia |]. simpl in Hc.
  destruct a as [| a]; simpl in Ha.
  - inversion Ha; subst p. simpl.
    apply list_elem_of_lookup_2 in Hc.
    destruct (occupiedFrom_bucket bs (i + 1) q ltac:(lia) Hc) as [Hle _]. lia.
  - apply (IH (i + 1) a c p q); auto; lia.
Qed.

(** X6: the sample of [randomEntries(2)] is fixed by the table.  With
    [numItems] the number of occupied buckets, the result holds pointers to
    the entry of the first occupied bucket and, when the table has at least
    three items, the entry of the occupied bucket [numItems/2 + 1] places
    after it; a table of one or two items yields the first alone, an empty
    table nothing.  The pointers are to entries that sit in the table, in
    buckets of increasing index. *)
Theorem randomEntries_of_two (mp : Map) :
  numItems mp = Z.of_nat (length (occupied mp)) ->
  randomEntries mp 2
  = match occupied mp with
    | [] => []
    | p0 :: _ =>
        match occupied mp !! Z.to_nat (numItems mp / 2 + 1) with
        | Some p1 => [p0; p1]
        | None => [p0]
        end
    end /\
  length (randomEntries mp 2)
  = (if numItems mp =? 0 then 0%nat else if numItems mp <=? 2 then 1%nat else 2%nat) /\
  snd <$> occupied mp = entries mp /\
  (forall (a c : nat) p q, occupied mp !! a = Some p -> occupied mp !! c = Some q ->
     (a < c)%nat -> p.1 < q.1) /\
  (forall p, p ∈ occupied mp ->
     exists b, bucketAt (buckets mp) p.1 = Some b /\ entry b = Some p.2).
Proof.
  intros Hn.
  assert (Hocc : forall p, p ∈ occupied mp ->
            exists b, bucketAt (buckets mp) p.1 = Some b /\ entry b = Some p.2).
  { intros p Hp. destruct (occupiedFrom_bucket (buckets mp) 0 p ltac:(lia) Hp) as (_ & b & Hb & He).
    rewrite Z.sub_0_r in Hb. eauto. }
  assert (Hrun : randomEntries mp 2
                 = match occupied mp with
                   | [] => []
                   | p0 :: _ =>
                       match occupied mp !! Z.to_nat (numItems mp / 2 + 1) with
                       | Some p1 => [p0; p1]
                       | None => [p0]
                       end
                   end).
  { unfold randomEntries. simpl.
    destruct (numItems mp =? 0) eqn:E.
    - apply Z.eqb_eq in E. rewrite E in Hn. destruct (occupied mp); [reflexivity | simpl in Hn; lia].
    - apply Z.eqb_neq in E. rewrite randomEntries_loop_pick. fold (occupied mp).
      destruct (occupied mp) as [| p0 rest] eqn:Ho; [reflexivity |].
      assert (0 <= numItems mp / 2) by (apply Z.div_pos; lia).
      simpl pick. change (0 `mod` (numItems mp / 2 + 1)) with 0. simpl.
      rewrite pick_second by lia.
      replace (Z.to_nat (numItems mp / 2 + 1)) with (S (Z.to_nat (numItems mp / 2 + 1 - 1))) by lia.
      reflexivity. }
  split; [exact Hrun |]. split; [| split; [apply occupiedFrom_live |
    split; [| exact Hocc]]].
  2: { intros a c p q Ha Hc Hlt.
       apply (occupiedFrom_increasing (buckets mp) 0 a c p q); auto. lia. }
  rewrite Hrun. destruct (occupied mp) as [| p0 rest] eqn:Ho; [simpl in *; rewrite Hn; reflexivity |].
  assert (Hpos : numItems mp =? 0 = false) by (apply Z.eqb_neq; simpl in Hn; lia).
  rewrite Hpos.
  destruct ((p0 :: rest) !! Z.to_nat (numItems mp / 2 + 1)) as [p1 |] eqn:E.
  - apply lookup_lt_Some in E. simpl in *.
    assert (numItems mp / 2 + 1 < numItems mp) by lia.
    assert (3 <= numItems mp).
    { destruct (Z_lt_ge_dec (numItems mp) 3); [| lia].
      assert (Hc : numItems mp = 1 \/ numItems mp = 2) by lia.
      destruct Hc as [Hc | Hc]; rewrite Hc in *; vm_compute in H; discriminate. }
    replace (numItems mp <=? 2) with false by (symmetry; apply Z.leb_gt; lia). reflexivity.
  - apply lookup_ge_None in E. simpl in *.
    assert (numItems mp <= 2).
    { destruct (Z_le_gt_dec (numItems mp) 2); [assumption |].
      pose proof (Z.mul_div_le (numItems mp) 2 ltac:(lia)).
      assert (numItems mp / 2 + 1 < numItems mp); [| lia].
      pose proof (Z.div_lt_upper_bound (numItems mp) 2 (numItems mp - 1) ltac:(lia)). lia. }
    replace (numItems mp <=? 2) with true by (symmetry; apply Z.leb_le; lia). reflexivity.
Qed.

(** A table built by inserting the given keys, with empty values, into a
    fresh one. *)
Definition tableOf (ks : list string) : Map :=
  fold_left (fun mp k => match Map_insert XXH64 mp (newEntry k "") with
                         | Some r => r.1
                         | None => mp
                         end) ks (NewMap 16).

Definition sevenKeys : list string := ["d"; "e"; "t"; "k3"; "k10"; "m"; "z"]%string.

Lemma randomEntries_of_two_on_seven_items :
  numItems (tableOf sevenKeys)
  = Z.of_nat (length (occupied (tableOf sevenKeys))) /\
  map (fun p : Z * Entry => (p.1, key p.2))
    (randomEntries (tableOf sevenKeys) 2)
  = [(4, "d"%string); (8, "k10"%string)].
Proof.
  assert (H : numItems (tableOf sevenKeys)
              = Z.of_nat (length (occupied (tableOf sevenKeys))))
    by (vm_compute; reflexivity).
  split; [exact H |].
  rewrite (proj1 (randomEntries_of_two _ H)). vm_compute. reflexivity.
Defined.

End ProbesAndSamples.

Section MakingRoom.

#[local] Arguments Map_insert : simpl never.
#[local] Arguments Map_delete : simpl never.
#[local] Arguments Map_get : simpl never.
#[local] Arguments Map_lookup : simpl never.
#[local] Arguments Map_resize : simpl never.
#[local] Arguments NewMap : simpl never.
#[local] Arguments wrap_i64 : simpl never.
#[local] Arguments wrap_u64 : simpl never.
#[local] Arguments randomEntries : simpl never.

(** ** operations.go under a memory limit: evictIfNeeded *)

Lemma wrap_u64_add_l (a b : Z) : wrap_u64 (wrap_u64 a + b) = wrap_u64 (a + b).
Proof. unfold wrap_u64. apply Zplus_mod_idemp_l. Qed.

Lemma pick_extends (occ : list (Z * Entry)) : forall (stride n seen : Z) (acc : list (Z * Entry)),
  exists l, pick occ stride n seen acc = acc ++ l.
Proof.
  induction occ as [| p rest IH]; intros stride n seen acc; simpl.
  - exists []. rewrite app_nil_r. reflexivity.
  - destruct (Z.of_nat (length acc) <? n).
    + destruct (seen mod stride =? 0).
      * destruct (IH stride n (seen + 1) (acc ++ [p])) as [l Hl]. rewrite Hl.
        exists (p :: l). rewrite <- app_assoc. reflexivity.
      * apply IH.
    + exists []. rewrite app_nil_r. reflexivity.
Qed.

(** A table that holds an entry yields a sample. *)
Lemma randomEntries_nonempty (mp : Map) :
  numItems mp = Z.of_nat (length (entries mp)) -> 0 < numItems mp ->
  randomEntries mp 2 <> [].
Proof.
  intros Hn Hpos. unfold randomEntries.
  replace (numItems mp =? 0) with false by (symmetry; apply Z.eqb_neq; lia). simpl.
  rewrite randomEntries_loop_pick. fold (occupied mp).
  assert (Hocc : snd <$> occupied mp = entries mp) by apply occupiedFrom_live.
  destruct (occupied mp) as [| p rest] eqn:Ho.
  - simpl in Hocc. rewrite <- Hocc in Hn. simpl in Hn. lia.
  - simpl.
    destruct (pick_extends rest (numItems mp / 2 + 1) 2 (0 + 1) [p]) as [l Hl].
    rewrite Hl. discriminate.
Qed.

Section EvictionRoom.
Variable hashKey : string -> Z.

(** What [evictIfNeeded] leaves of a shard whose memory counter is exact. *)
Record Room (req : Z) (s s' : Shard) : Prop := mkRoom {
  rm_wf : WF hashKey (m s');
  rm_max : maxMemory s' = maxMemory s;
  rm_ops : numOps s' = numOps s;
  rm_hits : numHits s' = numHits s;
  rm_misses : numMisses s' = numMisses s;
  rm_expired : numExpired s' = numExpired s;
  rm_sub : forall e, e ∈ entries (m s') -> e ∈ entries (m s);
  rm_cap : capacity (m s') <= capacity (m s);
  rm_items : numItems (m s') <= numItems (m s);
  rm_mem : memUsed s' = totalSize (entries (m s'));
  rm_evicted : numEvicted s' = wrap_u64 (numEvicted s + (numItems (m s) - numItems (m s')));
  rm_room : memUsed s' + req <= maxMemory s' \/ numItems (m s') = 0;
  rm_same : memUsed s + req <= maxMemory s -> s' = s
}.

Lemma evict_loop_room (rnd : nat -> Z) (req : Z) (fuel : nat) :
  forall (round : nat) (s : Shard),
  WF hashKey (m s) -> memUsed s = totalSize (entries (m s)) ->
  0 <= req -> memUsed s + req < 2 ^ 63 -> 0 <= numEvicted s < 2 ^ 64 ->
  (Z.to_nat (numItems (m s)) < fuel)%nat ->
  exists s', Ops.evict_loop hashKey fuel round rnd s req = Some s' /\ Room req s s'.
Proof.
  induction fuel as [| fuel IH]; intros round s HW Hmem Hlo Hhi Hev Hfuel; [lia |].
  simpl.
  pose proof HW as (HS & _ & _).
  pose proof (shape_count _ (proj1 HS)) as Hcnt.
  pose proof (totalSize_nonneg (entries (m s))) as Hnn.
  assert (Hwr : wrap_i64 (memUsed s + req) = memUsed s + req)
    by (apply wrap_i64_small; lia).
  rewrite Hwr.
  assert (Hsame : (memUsed s + req <= maxMemory s \/ numItems (m s) = 0) -> Room req s s).
  { intros H. constructor; auto; try lia.
    rewrite Z.sub_diag, Z.add_0_r. unfold wrap_u64. rewrite Z.mod_small; lia. }
  destruct (maxMemory s <? memUsed s + req) eqn:Hc1; simpl.
  2: { apply Z.ltb_ge in Hc1. eauto. }
  apply Z.ltb_lt in Hc1.
  destruct (0 <? numItems (m s)) eqn:Hc2.
  2: { apply Z.ltb_ge in Hc2. exists s. split; [reflexivity |]. apply Hsame. right. lia. }
  apply Z.ltb_lt in Hc2.
  destruct (randomEntries (m s) 2) as [| p0 rest] eqn:Hr.
  { destruct (randomEntries_nonempty (m s) Hcnt Hc2 Hr). }
  set (toEvict := match rest with
                  | [] => p0.2
                  | p1 :: _ => Ops.chooseVictim (rnd round) p0.2 p1.2
                  end).
  assert (Hin : toEvict ∈ entries (m s)).
  { assert (H0 : p0.2 ∈ entries (m s))
      by (apply (randomEntries_In _ 2); rewrite Hr; set_solver).
    unfold toEvict. destruct rest as [| p1 rest']; [exact H0 |].
    assert (H1 : p1.2 ∈ entries (m s))
      by (apply (randomEntries_In _ 2); rewrite Hr; set_solver).
    destruct (chooseVictim_cases (rnd round) p0.2 p1.2) as [-> | ->]; assumption. }
  destruct (Map_delete_present hashKey (m s) toEvict HW Hin)
    as (mp' & Hdel & HW' & Hp & Hn & Hcap).
  rewrite Hdel. simpl.
  pose proof (totalSize_perm _ _ Hp) as Hsz.
  change (totalSize (toEvict :: entries mp'))
    with (Size toEvict + totalSize (entries mp')) in Hsz.
  pose proof (totalSize_nonneg (entries mp')) as Hnn'.
  pose proof (Size_pos toEvict) as Hpos.
  assert (Hmem' : wrap_i64 (memUsed s + - Size toEvict) = totalSize (entries mp'))
    by (rewrite wrap_i64_small; lia).
  destruct (IH (S round) (incEvicted (addMemUsed (- Size toEvict) (setM mp' s))))
    as (s' & Hrun & HE).
  { exact HW'. }
  { simpl. exact Hmem'. }
  { exact Hlo. }
  { simpl. rewrite Hmem'. lia. }
  { simpl. unfold wrap_u64. apply Z.mod_pos_bound. lia. }
  { simpl. rewrite Hn. lia. }
  exists s'. split; [exact Hrun |].
  destruct HE as [A1 A2 A3 A4 A5 A6 A7 A8 A9 A10 A11 A12 A13]. simpl in *.
  constructor; auto; try lia.
  - intros e He. apply A7 in He. rewrite Hp. set_solver.
  - rewrite A11, wrap_u64_add_l. f_equal. lia.
Qed.

Lemma evictIfNeeded_room (rnd : nat -> Z) (s : Shard) (req : Z) :
  WF hashKey (m s) -> memUsed s = totalSize (entries (m s)) ->
  0 <= req -> memUsed s + req < 2 ^ 63 -> 0 <= numEvicted s < 2 ^ 64 ->
  exists s', Ops.evictIfNeeded hashKey rnd s req = Some s' /\ Room req s s'.
Proof. intros. apply evict_loop_room; auto; lia. Qed.

(** Eviction only removes entries, so the item count cannot grow. *)
Lemma Evicted_items (s s' : Shard) :
  WF hashKey (m s) -> Evicted hashKey s s' -> numItems (m s') <= numItems (m s).
Proof.
  intros HW [HW' _ _ _ _ _ Hsub _].
  pose proof HW as (HS & _ & _). pose proof HW' as (HS' & _ & HU').
  rewrite (shape_count _ (proj1 HS)), (shape_count _ (proj1 HS')).
  apply Nat2Z.inj_le. apply submseteq_length. apply NoDup_submseteq; [| exact Hsub].
  unfold UniqueKeys in HU'. apply (NoDup_fmap_1 key). exact HU'.
Qed.

(** [delete] in terms of what [get] finds. *)
Lemma Map_delete_find (mp : Map) (k : string) (mp' : Map) (r : option Entry) :
  WF hashKey mp -> Map_delete mp k (hashKey k) = Some (mp', r) ->
  WF hashKey mp' /\ Map_find hashKey mp k = Some r /\
  Map_find hashKey mp' k = Some None /\
  (forall k', k' <> k -> Map_find hashKey mp' k' = Map_find hashKey mp k') /\
  totalSize (entries mp) = totalSize (entries mp') + match r with Some e => Size e | None => 0 end /\
  numItems mp' <= numItems mp /\ capacity mp' <= capacity mp /\
  (forall x, x ∈ entries mp' -> x ∈ entries mp) /\
  (forall x, x ∈ entries mp -> key x <> k -> x ∈ entries mp').
Proof.
  intros HW Hrun. pose proof HW as (HS & HO & HU).
  destruct (Map_delete_sound mp k (hashKey k) HS) as (mp0 & r0 & Hrun0 & HS' & Hcap & Hspec).
  rewrite Hrun in Hrun0. inversion Hrun0; subst mp0 r0. clear Hrun0.
  pose proof (Map_delete_wf hashKey mp k (hashKey k) mp' r HW Hrun) as HW'.
  destruct (Map_delete_Has hashKey mp k mp' r HW Hrun) as (Hgone & _ & Hsub & Hcnt & _).
  destruct (Map_delete_size mp k (hashKey k) mp' r HS Hrun) as [_ Hsz].
  split; [exact HW' |].
  destruct r as [e |].
  - destruct Hspec as ((i & Hl) & Hk & Hp).
    split; [unfold Map_find, Map_get; rewrite Hl; reflexivity |].
    split; [apply (Map_find_None hashKey mp' k HW'); exact Hgone |]. split.
    { intros k' Hne. apply Map_find_ext; [exact HW | exact HW' |].
      intros x Hkx. rewrite Hp, elem_of_cons. assert (x <> e) by congruence. tauto. }
    do 4 (split; [assumption |]).
    intros x Hx Hkx. rewrite Hp in Hx. apply elem_of_cons in Hx as [-> | Hx]; [| exact Hx].
    contradiction.
  - destruct Hspec as [-> Hl].
    split; [unfold Map_find, Map_get; rewrite Hl; reflexivity |].
    split; [apply (Map_find_None hashKey mp k HW); exact Hgone |].
    split; [reflexivity |]. do 4 (split; [assumption |]). auto.
Qed.

(** [insert] in terms of what [get] finds. *)
Lemma Map_insert_find (mp : Map) (e : Entry) (mp' : Map) (r : option Entry) :
  WF hashKey mp -> numItems mp < 49152 -> Map_insert hashKey mp e = Some (mp', r) ->
  WF hashKey mp' /\ Map_find hashKey mp (key e) = Some r /\
  Map_find hashKey mp' (key e)
    = Some (Some (match r with Some old => overwrite old e | None => e end)) /\
  (forall k, k <> key e -> Map_find hashKey mp' k = Map_find hashKey mp k) /\
  totalSize (entries mp') =
    totalSize (entries mp) + Size e - match r with Some ex => Size ex | None => 0 end /\
  numItems mp' <= numItems mp + 1 /\
  (forall x, x ∈ entries mp' -> key x <> key e -> x ∈ entries mp) /\
  (forall x, x ∈ entries mp -> key x <> key e -> x ∈ entries mp').
Proof.
  intros HW Hn Hrun. pose proof HW as (HS & HO & HU).
  destruct (Map_insert_Has hashKey mp e mp' r HW Hrun) as (_ & _ & _ & Hcnt & HW').
  specialize (HW' Hn).
  destruct (Map_insert_entries hashKey mp e mp' r HS Hrun) as [HS' Hspec].
  pose proof (Map_insert_size hashKey mp e mp' r HS Hrun) as Hsz.
  split; [exact HW' |].
  destruct r as [old |].
  - destruct Hspec as (Hk & (i & Hg) & l1 & l2 & H1 & H2).
    split; [unfold Map_find; rewrite Hg; reflexivity |]. split.
    { apply (Map_find_Some hashKey mp' (key e) _ HW'). split; [rewrite H2; set_solver |].
      rewrite key_overwrite. exact Hk. }
    split.
    { intros k Hne. apply Map_find_ext; [exact HW | exact HW' |].
      intros x Hkx. rewrite H1, H2. rewrite !elem_of_app, !elem_of_cons.
      assert (x <> old) by congruence.
      assert (x <> overwrite old e) by (intros ->; rewrite key_overwrite in Hkx; congruence).
      tauto. }
    split; [exact Hsz |]. split; [exact Hcnt |]. split.
    + intros x Hx Hkx. rewrite H2 in Hx. rewrite H1.
      rewrite !elem_of_app, !elem_of_cons in *.
      destruct Hx as [Hx | [-> | Hx]]; auto.
      rewrite key_overwrite in Hkx. congruence.
    + intros x Hx Hkx. rewrite H1 in Hx. rewrite H2.
      rewrite !elem_of_app, !elem_of_cons in *.
      destruct Hx as [Hx | [-> | Hx]]; auto. congruence.
  - destruct Hspec as (Hg & Hp).
    split; [unfold Map_find; rewrite Hg; reflexivity |]. split.
    { apply (Map_find_Some hashKey mp' (key e) e HW').
      split; [rewrite Hp; set_solver | reflexivity]. }
    split.
    { intros k Hne. apply Map_find_ext; [exact HW | exact HW' |].
      intros x Hkx. rewrite Hp, elem_of_cons.
      assert (x <> e) by congruence. tauto. }
    split; [exact Hsz |]. split; [exact Hcnt |]. split.
    + intros x Hx Hkx. rewrite Hp in Hx. apply elem_of_cons in Hx as [-> | Hx]; congruence.
    + intros x Hx Hkx. rewrite Hp. set_solver.
Qed.

(** A table and a shard holding given entries, for the examples. *)
Fixpoint insertEntries (es : list Entry) (mp : Map) : Map :=
  match es with
  | [] => mp
  | e :: rest =>
      match Map_insert hashKey mp e with
      | Some r => insertEntries rest r.1
      | None => mp
      end
  end.

Definition shardWith (limit : Z) (es : list Entry) : Shard :=
  let mp := insertEntries es (NewMap 16) in
  {| m := mp; memUsed := totalSize (entries mp); maxMemory := limit;
     numOps := 0; numHits := 0; numMisses := 0; numEvicted := 0; numExpired := 0 |}.

Definition cacheWith (limit : Z) (es : list Entry) : Cache :=
  {| shards := [shardWith limit es]; numShards := 1; cacheMaxMemory := limit |}.

Lemma insertEntries_WF (es : list Entry) : forall mp : Map,
  WF hashKey mp -> numItems mp + Z.of_nat (length es) <= 49152 ->
  WF hashKey (insertEntries es mp).
Proof.
  induction es as [| e rest IH]; intros mp HW Hn; simpl; [exact HW |].
  destruct (Map_insert hashKey mp e) as [[mp' r] |] eqn:Hrun; [| exact HW].
  simpl length in Hn.
  destruct (Map_insert_Has hashKey mp e mp' r HW Hrun) as (_ & _ & _ & Hcnt & HW').
  simpl. apply IH; [apply HW'; lia | lia].
Qed.

Lemma shardWith_WF (limit : Z) (es : list Entry) :
  Z.of_nat (length es) <= 49152 -> WF hashKey (m (shardWith limit es)).
Proof.
  intros H. simpl. apply insertEntries_WF; [apply WF_NewMap |].
  change (numItems (NewMap 16)) with 0. lia.
Qed.
End EvictionRoom.


Definition sampleEntries : list Entry :=
  [newEntry "u" "1"; newEntry "v" "2"; setExpireAt 5 (newEntry "y" "3")].


(** ** The table operations on a table of three entries *)

Definition sampleTable : Map := m (shardWith XXH64 100 sampleEntries).

Lemma sampleTable_WF : WF XXH64 sampleTable.
Proof. apply shardWith_WF. simpl. lia. Qed.

Lemma get_on_sample_table :
  WF XXH64 sampleTable /\
  exists e i, Map_get XXH64 sampleTable "y" = Some (Some (e, i)) /\
    key e = "y"%string /\ value e = "3"%string /\ 0 <= i < capacity sampleTable.
Proof.
  split; [exact sampleTable_WF |].
  destruct (get_finds_the_stored_key XXH64 sampleTable "y" sampleTable_WF) as (r & Hr & Hspec).
  pose proof Hr as Hval. vm_compute in Hval. inversion Hval; subst r. clear Hval.
  destruct Hspec as (Hi & Hk & _).
  eexists. eexists. split; [exact Hr |]. split; [exact Hk |]. split; [reflexivity | exact Hi].
Defined.



Lemma probe_loops_end_on_sample_table :
  Sound sampleTable /\
  numItems sampleTable = 3 /\ capacity sampleTable = 16 /\
  (exists r, Map_lookup sampleTable "y" (XXH64 "y") = Some r) /\
  (exists mp' r, Map_insert XXH64 sampleTable (newEntry "w" "4") = Some (mp', r) /\ Sound mp') /\
  (exists mp' r, Map_delete sampleTable "v" (XXH64 "v") = Some (mp', r) /\ Sound mp').
Proof.
  assert (HS : Sound sampleTable) by apply sampleTable_WF.
  split; [exact HS |].
  destruct (probe_loops_end XXH64 sampleTable (newEntry "w" "4") "y" (XXH64 "y") HS)
    as (_ & _ & _ & _ & Hl & Hi & _).
  destruct (probe_loops_end XXH64 sampleTable (newEntry "w" "4") "v" (XXH64 "v") HS)
    as (_ & _ & _ & _ & _ & _ & (mp' & r & Hd & HS' & _)).
  split; [vm_compute; reflexivity |]. split; [vm_compute; reflexivity |].
  split; [exact Hl |]. split; [exact Hi |]. exists mp', r. split; assumption.
Defined.

End MakingRoom.

Section LoadDeleteStore.

#[local] Arguments Map_insert : simpl never.
#[local] Arguments Map_delete : simpl never.
#[local] Arguments Map_get : simpl never.
#[local] Arguments Map_lookup : simpl never.
#[local] Arguments Map_resize : simpl never.
#[local] Arguments NewMap : simpl never.
#[local] Arguments wrap_i64 : simpl never.
#[local] Arguments wrap_u64 : simpl never.
#[local] Arguments randomEntries : simpl never.

(** ** operations.go: Load, Delete and Store on one key *)

Section OneKey.
Variable hashKey : string -> Z.
Variable c : Cache.
Variable k : string.
Variable s : Shard.
Hypothesis HC : CacheOK c.
Hypothesis Hs : shards c !! Z.to_nat (shardIndex hashKey c k) = Some s.
Hypothesis HW : WF hashKey (m s).

Lemma Map_find_get (mp : Map) (x : option Entry) :
  Map_find hashKey mp k = Some x ->
  exists r, Map_get hashKey mp k = Some r /\ option_map fst r = x.
Proof.
  unfold Map_find. destruct (Map_get hashKey mp k) as [r |]; [| discriminate].
  intros H. inversion H. eauto.
Qed.

Lemma Load_absent (now : Z) :
  Map_find hashKey (m s) k = Some None ->
  Ops.Load hashKey c k now
  = Some (setShard (shardIndex hashKey c k) (incMisses (incOps s)) c, None).
Proof.
  intros Hf. destruct (Map_find_get _ _ Hf) as (r & Hr & Hx).
  destruct r as [[e i] |]; [discriminate |].
  unfold Ops.Load. rewrite Hs. simpl. rewrite Hr. reflexivity.
Qed.

Lemma Load_found (now : Z) (e : Entry) :
  Map_find hashKey (m s) k = Some (Some e) -> IsExpired now e = false ->
  Ops.Load hashKey c k now
  = Some (setShard (shardIndex hashKey c k) (incHits (incOps s)) c, Some e).
Proof.
  intros Hf Hx. destruct (Map_find_get _ _ Hf) as (r & Hr & Hxr).
  destruct r as [[e0 i] |]; [| discriminate]. simpl in Hxr. inversion Hxr; subst e0.
  unfold Ops.Load. rewrite Hs. simpl. rewrite Hr. simpl. rewrite Hx. reflexivity.
Qed.

Lemma Load_expired (now : Z) (e : Entry) :
  Map_find hashKey (m s) k = Some (Some e) -> IsExpired now e = true ->
  exists c' mp',
    Map_delete (m s) k (hashKey k) = Some (mp', Some e) /\
    Ops.Load hashKey c k now = Some (c', None) /\ CacheOK c' /\
    shards c' !! Z.to_nat (shardIndex hashKey c k)
      = Some (incMisses (incExpired (addMemUsed (- Size e) (setM mp' (incOps (incOps s)))))) /\
    (forall j, j <> Z.to_nat (shardIndex hashKey c k) -> shards c' !! j = shards c !! j).
Proof.
  intros Hf Hx. destruct (Map_find_get _ _ Hf) as (r & Hr & Hxr).
  destruct r as [[e0 i] |]; [| discriminate]. simpl in Hxr. inversion Hxr; subst e0.
  pose proof (shardIndex_range hashKey c k HC) as Hi.
  pose proof HW as (HS & _ & _).
  destruct (Map_delete_sound (m s) k (hashKey k) HS) as (mp' & r & Hdel & _).
  destruct (Map_delete_find hashKey (m s) k mp' r HW Hdel) as (_ & Hfr & _).
  rewrite Hf in Hfr. inversion Hfr; subst r.
  unfold Ops.Load. rewrite Hs. simpl. rewrite Hr. simpl. rewrite Hx.
  unfold Ops.Delete. unfold shardIndex in *. simpl numShards.
  rewrite shards_setShard_eq by exact Hi. simpl. rewrite Hdel. simpl.
  rewrite list_lookup_insert_eq by (rewrite length_insert; lia). simpl.
  eexists. exists mp'. split; [reflexivity |]. split; [reflexivity |].
  split; [repeat apply CacheOK_setShard; exact HC |]. split.
  - rewrite shards_setShard_eq; [reflexivity |]. simpl. rewrite !length_insert. exact Hi.
  - intros j Hj. rewrite !shards_setShard_ne by exact Hj. reflexivity.
Qed.
End OneKey.



Section StoreOneKey.
Variable hashKey : string -> Z.

(** What Store does to the shard of its key, whatever the memory limit. *)
Lemma Store_shard (c : Cache) (k v : string) (opts : option StoreOptions) (now : Z)
    (rnd : nat -> Z) (s : Shard) :
  CacheOK c -> shards c !! Z.to_nat (shardIndex hashKey c k) = Some s ->
  WF hashKey (m s) -> numItems (m s) < 49152 ->
  exists s1 mp' r,
    Ops.evictIfNeeded hashKey rnd (incOps s) (Size (storeEntry k v opts now)) = Some s1 /\
    Evicted hashKey (incOps s) s1 /\
    Map_insert hashKey (m s1) (storeEntry k v opts now) = Some (mp', r) /\
    Ops.Store hashKey c k v opts now rnd
    = Some (setShard (shardIndex hashKey c k)
              (addMemUsed (Size (storeEntry k v opts now))
                 (match r with
                  | Some oldEntry => addMemUsed (- Size oldEntry) (setM mp' s1)
                  | None => setM mp' s1
                  end)) c) /\
    numItems (m s1) < 49152.
Proof.
  intros HC Hs HW Hn. pose proof HW as (HS & _ & _).
  destruct (evictIfNeeded_total hashKey rnd (incOps s) (Size (storeEntry k v opts now)) HW)
    as (s1 & Hev & HE).
  pose proof (Evicted_items hashKey (incOps s) s1 HW HE) as Hit. simpl in Hit.
  pose proof (ev_wf _ _ _ HE) as HW1. pose proof HW1 as (HS1 & _ & _).
  destruct (Map_insert_total hashKey (m s1) (storeEntry k v opts now) HS1) as (mp' & r & Hins).
  exists s1, mp', r. split; [exact Hev |]. split; [exact HE |]. split; [exact Hins |].
  split; [| lia].
  unfold Ops.Store. rewrite Hs. simpl. rewrite Hev. simpl. rewrite Hins. reflexivity.
Qed.

Lemma key_storeEntry (k v : string) (opts : option StoreOptions) (now : Z) :
  key (storeEntry k v opts now) = k /\ value (storeEntry k v opts now) = v.
Proof.
  destruct opts as [o |]; simpl; [| auto]. destruct (0 <? TTL o); simpl; auto.
Qed.
End StoreOneKey.

(** X10: Store then Load, under any memory limit.  On a shard with a
    well-formed table of fewer than 49152 entries Store returns; eviction
    may have removed other entries, but no entry under another key
    appears, and the stored key is in the table: a Load of it at time
    [later] is a miss when the stored entry has a TTL that ran out before
    [later], and otherwise a hit that returns the stored value with the
    flags and the expiry time Store computed. *)
Theorem Store_then_Load (hashKey : string -> Z) (c : Cache) (k v : string)
    (opts : option StoreOptions) (now : Z) (rnd : nat -> Z) (later : Z) (s : Shard) :
  CacheOK c -> shards c !! Z.to_nat (shardIndex hashKey c k) = Some s ->
  WF hashKey (m s) -> numItems (m s) < 49152 ->
  exists c' s',
    Ops.Store hashKey c k v opts now rnd = Some c' /\ CacheOK c' /\
    shards c' !! Z.to_nat (shardIndex hashKey c k) = Some s' /\
    (forall j, j <> Z.to_nat (shardIndex hashKey c k) -> shards c' !! j = shards c !! j) /\
    WF hashKey (m s') /\ numOps s' = wrap_u64 (numOps s + 1) /\
    (forall x, x ∈ entries (m s') -> key x <> k -> x ∈ entries (m s)) /\
    exists c'' r, Ops.Load hashKey c' k later = Some (c'', r) /\
      if IsExpired later (storeEntry k v opts now) then r = None
      else exists e, r = Some e /\ key e = k /\ value e = v /\
             flags e = flags (storeEntry k v opts now) /\
             expireAt e = expireAt (storeEntry k v opts now).
Proof.
  intros HC Hs HW Hn.
  pose proof (shardIndex_range hashKey c k HC) as Hi.
  destruct (Store_shard hashKey c k v opts now rnd s HC Hs HW Hn)
    as (s1 & mp' & r & Hev & HE & Hins & Hrun & Hn1).
  destruct (key_storeEntry k v opts now) as [Ek Ev].
  set (e := storeEntry k v opts now) in *.
  destruct (Map_insert_find hashKey (m s1) e mp' r (ev_wf _ _ _ HE) Hn1 Hins)
    as (HW' & _ & Hfind & _ & _ & _ & Hnew & _).
  rewrite Ek in Hfind, Hnew.
  set (s' := addMemUsed (Size e)
               (match r with
                | Some oldEntry => addMemUsed (- Size oldEntry) (setM mp' s1)
                | None => setM mp' s1
                end)) in *.
  assert (Hm' : m s' = mp') by (unfold s'; destruct r; reflexivity).
  assert (HC' : CacheOK (setShard (shardIndex hashKey c k) s' c))
    by (apply CacheOK_setShard; exact HC).
  assert (Hs' : shards (setShard (shardIndex hashKey c k) s' c)
                  !! Z.to_nat (shardIndex hashKey (setShard (shardIndex hashKey c k) s' c) k)
                = Some s')
    by (rewrite shardIndex_setShard; apply shards_setShard_eq; exact Hi).
  exists (setShard (shardIndex hashKey c k) s' c), s'.
  split; [exact Hrun |]. split; [exact HC' |].
  split; [apply shards_setShard_eq; exact Hi |].
  split; [intros j Hj; apply shards_setShard_ne; exact Hj |].
  split; [rewrite Hm'; exact HW' |].
  split; [unfold s'; destruct r; simpl; rewrite (ev_ops _ _ _ HE); reflexivity |].
  split.
  { rewrite Hm'. intros x Hx Hkx. apply (ev_sub _ _ _ HE). apply Hnew; assumption. }
  set (e' := match r with Some old => overwrite old e | None => e end) in *.
  assert (He' : value e' = v /\ flags e' = flags e /\ expireAt e' = expireAt e /\ key e' = k).
  { unfold e'. destruct r as [old |]; simpl; [| auto].
    repeat split; auto.
    destruct (Map_insert_entries hashKey (m s1) e mp' (Some old)
                (proj1 (ev_wf _ _ _ HE)) Hins) as [_ (Hk & _)].
    congruence. }
  destruct He' as (Hv' & Hf' & Hx' & Hk').
  assert (Hexp : IsExpired later e' = IsExpired later e)
    by (unfold IsExpired; rewrite Hx'; reflexivity).
  rewrite <- Hm' in Hfind, HW'.
  destruct (IsExpired later e) eqn:Hx.
  - destruct (Load_expired hashKey _ k s' HC' Hs' HW' later e' Hfind)
      as (c'' & _ & _ & Hload & _); [congruence |].
    exists c'', None. split; [exact Hload | reflexivity].
  - rewrite (Load_found hashKey _ k s' Hs' later e' Hfind) by congruence.
    eexists. eexists. split; [reflexivity |]. exists e'. auto.
Qed.

Lemma sampleCache_ok :
  CacheOK (cacheWith XXH64 100 sampleEntries) /\
  (forall k, shards (cacheWith XXH64 100 sampleEntries)
               !! Z.to_nat (shardIndex XXH64 (cacheWith XXH64 100 sampleEntries) k)
             = Some (shardWith XXH64 100 sampleEntries)) /\
  WF XXH64 (m (shardWith XXH64 100 sampleEntries)) /\
  numItems (m (shardWith XXH64 100 sampleEntries)) < 49152.
Proof.
  split; [split; reflexivity |]. split.
  - intros k. unfold shardIndex. change (numShards (cacheWith XXH64 100 sampleEntries)) with 1.
    rewrite Z.mod_1_r. reflexivity.
  - split; [apply shardWith_WF; simpl; lia | vm_compute; reflexivity].
Qed.



Lemma Store_then_Load_on_full_shard :
  CacheOK (cacheWith XXH64 100 sampleEntries) /\
  shards (cacheWith XXH64 100 sampleEntries)
    !! Z.to_nat (shardIndex XXH64 (cacheWith XXH64 100 sampleEntries) "d")
  = Some (shardWith XXH64 100 sampleEntries) /\
  WF XXH64 (m (shardWith XXH64 100 sampleEntries)) /\
  numItems (m (shardWith XXH64 100 sampleEntries)) < 49152 /\
  exists c' s', Ops.Store XXH64 (cacheWith XXH64 100 sampleEntries) "d" "4" None 10 (fun _ => 0)
                = Some c' /\
    shards c' !! 0%nat = Some s' /\ numEvicted s' = 1 /\
    exists c'' e, Ops.Load XXH64 c' "d" 11 = Some (c'', Some e) /\ value e = "4"%string.
Proof.
  destruct sampleCache_ok as (H1 & H2 & H3 & H4). specialize (H2 "d"%string).
  split; [exact H1 |]. split; [exact H2 |]. split; [exact H3 |]. split; [exact H4 |].
  destruct (Store_then_Load XXH64 _ "d" "4" None 10 (fun _ => 0) 11 _ H1 H2 H3 H4)
    as (c' & s' & Hrun & _ & _ & _ & _ & _ & _ & c'' & r & Hload & Hr).
  change (IsExpired 11 (storeEntry "d" "4" None 10)) with false in Hr.
  destruct Hr as (e & -> & _ & Hv & _).
  pose proof Hrun as Hval. vm_compute in Hval. inversion Hval; subst. clear Hval.
  eexists. eexists. split; [exact Hrun |]. split; [reflexivity |]. split; [reflexivity |].
  exists c'', e. split; [exact Hload | exact Hv].
Defined.

End LoadDeleteStore.

Section MemoryLimit.

#[local] Arguments Map_insert : simpl never.
#[local] Arguments Map_delete : simpl never.
#[local] Arguments Map_get : simpl never.
#[local] Arguments Map_lookup : simpl never.
#[local] Arguments Map_resize : simpl never.
#[local] Arguments NewMap : simpl never.
#[local] Arguments wrap_i64 : simpl never.
#[local] Arguments wrap_u64 : simpl never.
#[local] Arguments randomEntries : simpl never.

(** ** operations.go: the memory limit over runs of Store, Load and Delete *)

(** The calls that keep the memory counter exact: Store (with or without a
    TTL), Load and Delete. *)
Definition isBasic (op : CacheOp) : bool :=
  match op with
  | CallStore _ _ _ _ _ | CallLoad _ _ | CallDelete _ => true
  | _ => false
  end.

Section BudgetRuns.
Variable hashKey : string -> Z.

(** A shard under a limit of [L] bytes that holds at most [N] entries:
    its memory counter is the total size of its entries and within the
    limit. *)
Record Budget (L N : Z) (s : Shard) : Prop := mkBudget {
  bg_wf : WF hashKey (m s);
  bg_max : maxMemory s = L;
  bg_mem : memUsed s = totalSize (entries (m s));
  bg_fit : memUsed s <= L;
  bg_items : numItems (m s) <= N;
  bg_evicted : 0 <= numEvicted s < 2 ^ 64
}.

Lemma Budget_mono (L N N' : Z) (s : Shard) : N <= N' -> Budget L N s -> Budget L N' s.
Proof. intros HN [A1 A2 A3 A4 A5 A6]. constructor; auto; lia. Qed.

Lemma Forall_Budget_mono (L N N' : Z) (l : list Shard) :
  N <= N' -> Forall (Budget L N) l -> Forall (Budget L N') l.
Proof.
  intros HN H. eapply Forall_impl; [exact H |]. intros s. apply Budget_mono; assumption.
Qed.

Lemma Size_storeEntry (k v : string) (opts : option StoreOptions) (now : Z) :
  Size (storeEntry k v opts now) = len k + len v + 24.
Proof.
  unfold Size. destruct (key_storeEntry k v opts now) as [-> ->]. reflexivity.
Qed.

Lemma Store_budget (L N : Z) (c : Cache) (k v : string) (opts : option StoreOptions)
    (now : Z) (rnd : nat -> Z) :
  CacheOK c -> Forall (Budget L N) (shards c) ->
  len k + len v + 24 <= L -> L < 2 ^ 62 -> N < 49152 ->
  exists c', Ops.Store hashKey c k v opts now rnd = Some c' /\ CacheOK c' /\
    Forall (Budget L (N + 1)) (shards c').
Proof.
  intros HC HF Hsz HL HN.
  destruct (shard_exists hashKey c k HC) as [s Hs].
  pose proof (Forall_shard _ _ _ _ HF Hs) as [HW Hmax Hmem Hfit Hitems Hev].
  pose proof (Size_storeEntry k v opts now) as Esz.
  destruct (key_storeEntry k v opts now) as [Ek Ev].
  set (e := storeEntry k v opts now) in *.
  pose proof (totalSize_nonneg (entries (m s))) as H0.
  assert (Hlen : 0 <= len k + len v) by (unfold len; lia).
  destruct (evictIfNeeded_room hashKey rnd (incOps s) (Size e))
    as (s1 & Hrun1 & [A1 A2 A3 A4 A5 A6 A7 A8 A9 A10 A11 A12 A13]);
    [exact HW | exact Hmem | lia | simpl; lia | exact Hev |].
  simpl in A2, A9, A11.
  pose proof A1 as (HS1 & _ & _).
  destruct (Map_insert_total hashKey (m s1) e HS1) as (mp' & r & Hins).
  destruct (Map_insert_find hashKey (m s1) e mp' r A1 ltac:(lia) Hins)
    as (HW' & Hold & _ & _ & Hsize & Hcnt & _).
  pose proof (totalSize_nonneg (entries mp')) as H0'.
  pose proof (totalSize_nonneg (entries (m s1))) as H01.
  pose proof (shape_count _ (proj1 HS1)) as Hc1.
  unfold Ops.Store. rewrite Hs. cbn [mbind option_bind]. fold e. rewrite Hrun1.
  cbn [mbind option_bind]. rewrite Hins. cbn [mbind option_bind fst snd].
  eexists. split; [reflexivity |]. split; [apply CacheOK_setShard; exact HC |].
  apply Forall_setShard; [eapply Forall_Budget_mono; [| exact HF]; lia |].
  assert (Hev1 : 0 <= numEvicted s1 < 2 ^ 64)
    by (rewrite A11; unfold wrap_u64; apply Z.mod_pos_bound; lia).
  assert (Hroom : r = None \/ memUsed s1 + Size e <= L).
  { destruct A12 as [H | H]; [right; lia |]. left.
    destruct r as [old |]; [| reflexivity].
    apply (Map_find_Some hashKey (m s1) (key e) old A1) in Hold as [Hin _].
    rewrite H in Hc1. destruct (entries (m s1)); [inversion Hin | simpl in Hc1; lia]. }
  destruct r as [old |]; simpl.
  - destruct Hroom as [Hr | Hr]; [discriminate |].
    pose proof (Size_pos old) as Hpo.
    assert (E1 : wrap_i64 (wrap_i64 (memUsed s1 + - Size old) + Size e)
                 = totalSize (entries mp')).
    { rewrite wrap_i64_add_l. rewrite wrap_i64_small; lia. }
    constructor; simpl; rewrite ?E1; auto; try lia.
  - assert (Hm1 : memUsed s1 + Size e <= L).
    { destruct A12 as [H | H]; [lia |].
      rewrite H in Hc1. destruct (entries (m s1)) eqn:El; [| simpl in Hc1; lia].
      simpl in A10. lia. }
    assert (E1 : wrap_i64 (memUsed s1 + Size e) = totalSize (entries mp')).
    { rewrite wrap_i64_small; lia. }
    constructor; simpl; rewrite ?E1; auto; try lia.
Qed.

Lemma Delete_budget (L N : Z) (c : Cache) (k : string) :
  CacheOK c -> Forall (Budget L N) (shards c) -> L < 2 ^ 62 ->
  exists c' ok, Ops.Delete hashKey c k = Some (c', ok) /\ CacheOK c' /\
    Forall (Budget L N) (shards c').
Proof.
  intros HC HF HL.
  destruct (shard_exists hashKey c k HC) as [s Hs].
  pose proof (Forall_shard _ _ _ _ HF Hs) as [HW Hmax Hmem Hfit Hitems Hev].
  pose proof HW as (HS & _ & _).
  destruct (Map_delete_sound (m s) k (hashKey k) HS) as (mp' & r & Hdel & _).
  destruct (Map_delete_find hashKey (m s) k mp' r HW Hdel)
    as (HW' & _ & _ & _ & Hsz & Hcnt & _).
  pose proof (totalSize_nonneg (entries mp')) as H0.
  unfold Ops.Delete. rewrite Hs. simpl. rewrite Hdel. simpl.
  destruct r as [e |]; simpl.
  - pose proof (Size_pos e) as Hp.
    assert (E1 : wrap_i64 (memUsed s + - Size e) = totalSize (entries mp'))
      by (rewrite wrap_i64_small; lia).
    eexists. eexists. split; [reflexivity |]. split; [apply CacheOK_setShard; exact HC |].
    apply Forall_setShard; [exact HF |].
    constructor; simpl; rewrite ?E1; auto; try lia.
  - eexists. eexists. split; [reflexivity |]. split; [apply CacheOK_setShard; exact HC |].
    apply Forall_setShard; [exact HF |].
    constructor; simpl; auto; try lia.
Qed.

Lemma Load_budget (L N : Z) (c : Cache) (k : string) (now : Z) :
  CacheOK c -> Forall (Budget L N) (shards c) -> L < 2 ^ 62 ->
  exists c' r, Ops.Load hashKey c k now = Some (c', r) /\ CacheOK c' /\
    Forall (Budget L N) (shards c').
Proof.
  intros HC HF HL.
  destruct (shard_exists hashKey c k HC) as [s Hs].
  pose proof (Forall_shard _ _ _ _ HF Hs) as HB.
  pose proof HB as [HW Hmax Hmem Hfit Hitems Hev].
  pose proof HW as (HS & _ & _).
  pose proof (shardIndex_range hashKey c k HC) as Hi.
  destruct (Map_find_total hashKey (m s) k HS) as [found Hf].
  destruct found as [e |].
  - destruct (IsExpired now e) eqn:Hx.
    + destruct (Load_expired hashKey c k s HC Hs HW now e Hf Hx)
        as (c' & mp' & Hdel & Hrun & HC' & Hs' & Hoth).
      destruct (Map_delete_find hashKey (m s) k mp' (Some e) HW Hdel)
        as (HW' & _ & _ & _ & Hsz & Hcnt & _).
      pose proof (totalSize_nonneg (entries mp')) as H0.
      pose proof (Size_pos e) as Hp.
      assert (E1 : wrap_i64 (memUsed s + - Size e) = totalSize (entries mp'))
        by (rewrite wrap_i64_small; lia).
      exists c', None. split; [exact Hrun |]. split; [exact HC' |].
      apply Forall_lookup. intros j x Hj.
      destruct (Nat.eq_dec j (Z.to_nat (shardIndex hashKey c k))) as [-> | Hne].
      * rewrite Hs' in Hj. inversion Hj; subst x.
        constructor; simpl; rewrite ?E1; auto; try lia.
      * rewrite (Hoth j Hne) in Hj. exact (Forall_shard _ _ _ _ HF Hj).
    + rewrite (Load_found hashKey c k s Hs now e Hf Hx).
      eexists. eexists. split; [reflexivity |]. split; [apply CacheOK_setShard; exact HC |].
      apply Forall_setShard; [exact HF |]. constructor; simpl; auto.
  - rewrite (Load_absent hashKey c k s Hs now Hf).
    eexists. eexists. split; [reflexivity |]. split; [apply CacheOK_setShard; exact HC |].
    apply Forall_setShard; [exact HF |]. constructor; simpl; auto.
Qed.

Lemma run1_budget (L : Z) (ops : list CacheOp) : forall (c : Cache) (N : Z),
  CacheOK c -> Forall (Budget L N) (shards c) ->
  forallb isBasic ops = true ->
  Forall (fun op => storeSize op <= L) ops -> L < 2 ^ 62 ->
  N + storeCount ops <= 49152 ->
  exists c', run1 hashKey c ops = Some c' /\ CacheOK c' /\
    numShards c' = numShards c /\ cacheMaxMemory c' = cacheMaxMemory c /\
    Forall (Budget L (N + storeCount ops)) (shards c').
Proof.
  induction ops as [| op ops IH]; intros c N HC HF Hp Hfit HL HN.
  - exists c. simpl. split; [reflexivity |]. split; [exact HC |].
    split; [reflexivity |]. split; [reflexivity |].
    eapply Forall_Budget_mono; [| exact HF]. lia.
  - simpl in Hp. apply andb_prop in Hp as [Hop Hrest].
    inversion Hfit as [| ? ? Hfit1 Hfit2]; subst.
    pose proof (storeCount_nonneg ops) as Hsc.
    simpl storeCount in *.
    destruct op as [k v opts now rnd | k now | k | k delta now rnd | k v ex opts now rnd];
      try discriminate; simpl storeSize in *; simpl isStore in *.
    + destruct (Store_budget L N c k v opts now rnd HC HF)
        as (c1 & Hrun & HC1 & HF1); [lia | lia | lia |].
      assert (Hsame : numShards c1 = numShards c /\ cacheMaxMemory c1 = cacheMaxMemory c).
      { unfold Ops.Store in Hrun.
        destruct (shards c !! Z.to_nat (shardIndex hashKey c k)); [| discriminate].
        simpl in Hrun.
        destruct (Ops.evictIfNeeded hashKey rnd _ _); [| discriminate]. simpl in Hrun.
        destruct (Map_insert hashKey _ _); [| discriminate]. simpl in Hrun.
        inversion Hrun. split; reflexivity. }
      destruct (IH c1 (N + 1) HC1 HF1 Hrest Hfit2 HL) as (c' & Hrun' & HC' & Hn' & Hm' & HF');
        [lia |].
      exists c'. simpl. rewrite Hrun. simpl. split; [exact Hrun' |]. split; [exact HC' |].
      split; [lia |]. split; [destruct Hsame; congruence |].
      eapply Forall_Budget_mono; [| exact HF']. lia.
    + destruct (Load_budget L N c k now HC HF HL) as (c1 & r & Hrun & HC1 & HF1).
      assert (Hsame : numShards c1 = numShards c /\ cacheMaxMemory c1 = cacheMaxMemory c).
      { unfold Ops.Load in Hrun.
        destruct (shards c !! Z.to_nat (shardIndex hashKey c k)); [| discriminate].
        simpl in Hrun.
        destruct (Map_get hashKey _ _) as [[[e i] |] |]; [| | discriminate]; simpl in Hrun.
        - destruct (IsExpired now e).
          + unfold Ops.Delete in Hrun.
            destruct (shards _ !! _); [| discriminate]. simpl in Hrun.
            destruct (Map_delete _ _ _) as [[mp' [x |]] |]; [| | discriminate];
              simpl in Hrun; (destruct (_ !! _); [| discriminate]); simpl in Hrun;
              inversion Hrun; split; reflexivity.
          + inversion Hrun. split; reflexivity.
        - inversion Hrun. split; reflexivity. }
      destruct (IH c1 N HC1 HF1 Hrest Hfit2 HL) as (c' & Hrun' & HC' & Hn' & Hm' & HF');
        [lia |].
      exists c'. simpl. rewrite Hrun. simpl. split; [exact Hrun' |]. split; [exact HC' |].
      split; [lia |]. split; [destruct Hsame; congruence |].
      eapply Forall_Budget_mono; [| exact HF']. lia.
    + destruct (Delete_budget L N c k HC HF HL) as (c1 & ok & Hrun & HC1 & HF1).
      assert (Hsame : numShards c1 = numShards c /\ cacheMaxMemory c1 = cacheMaxMemory c).
      { unfold Ops.Delete in Hrun.
        destruct (shards c !! Z.to_nat (shardIndex hashKey c k)); [| discriminate].
        simpl in Hrun.
        destruct (Map_delete _ _ _) as [[mp' [x |]] |]; [| | discriminate];
          simpl in Hrun; inversion Hrun; split; reflexivity. }
      destruct (IH c1 N HC1 HF1 Hrest Hfit2 HL) as (c' & Hrun' & HC' & Hn' & Hm' & HF');
        [lia |].
      exists c'. simpl. rewrite Hrun. simpl. split; [exact Hrun' |]. split; [exact HC' |].
      split; [lia |]. split; [destruct Hsame; congruence |].
      eapply Forall_Budget_mono; [| exact HF']. lia.
Qed.

Lemma Budget_New (n maxMem : Z) :
  0 <= maxMem ->
  Forall (Budget (Z.quot maxMem (numShards (New n maxMem))) 0) (shards (New n maxMem)).
Proof.
  intros Hm. unfold New; simpl. apply Forall_replicate.
  assert (Hq : 0 <= Z.quot maxMem (if n <=? 0 then 16 else n)).
  { apply Z.quot_pos; [exact Hm |]. destruct (n <=? 0) eqn:E; [lia |].
    apply Z.leb_gt in E. lia. }
  constructor; unfold NewShard; cbn [m memUsed maxMemory numEvicted].
  - apply WF_NewMap.
  - reflexivity.
  - rewrite ?entries_NewMap. reflexivity.
  - exact Hq.
  - simpl. lia.
  - lia.
Qed.

(** The sum Stats makes of the shards' memory counters. *)
Lemma mem_used_sum (L : Z) (l : list Shard) : forall acc : Z,
  0 <= L -> 0 <= acc -> acc + Z.of_nat (length l) * L < 2 ^ 63 ->
  Forall (fun s => 0 <= memUsed s <= L) l ->
  0 <= fold_left (fun a s => wrap_i64 (a + memUsed s)) l acc
    <= acc + Z.of_nat (length l) * L.
Proof.
  induction l as [| s l IH]; intros acc HL Ha Hb HF; simpl fold_left.
  - simpl. lia.
  - inversion HF as [| ? ? Hs Hl]; subst.
    rewrite wrap_i64_small by (simpl length in Hb; nia).
    simpl length in *.
    specialize (IH (acc + memUsed s) HL ltac:(lia) ltac:(nia) Hl). nia.
Qed.
End BudgetRuns.

(** X11: the memory limit holds over runs.  On a fresh cache of
    operations.go with a limit of [maxMem] bytes, take any sequence of
    Store (with or without TTL), Load and Delete calls, on any keys, with
    any clock readings and any outcomes of the random choice, in which
    every stored entry fits a shard's share of the limit by itself and
    which holds at most 49152 Stores.  Every call returns; afterwards each
    shard's memory counter is exactly the total size of the entries it
    holds and is within the shard's limit; and the [mem_used] that Stats
    reports is at most [max_memory]. *)
Theorem memory_limit_is_kept (hashKey : string -> Z) (n maxMem : Z) (ops : list CacheOp) :
  forallb isBasic ops = true ->
  0 <= maxMem < 2 ^ 62 ->
  Forall (fun op => storeSize op <= Z.quot maxMem (numShards (New n maxMem))) ops ->
  storeCount ops <= 49152 ->
  exists c, run1 hashKey (New n maxMem) ops = Some c /\
    Forall (fun s => memUsed s = totalSize (entries (m s)) /\ memUsed s <= maxMemory s)
      (shards c) /\
    0 <= mem_used (Stats c) <= max_memory (Stats c).
Proof.
  intros Hb Hmax Hfit Hcnt.
  set (L := Z.quot maxMem (numShards (New n maxMem))) in *.
  assert (Hn : 0 < numShards (New n maxMem)) by apply CacheOK_New.
  assert (HL : 0 <= L) by (apply Z.quot_pos; lia).
  assert (HL2 : numShards (New n maxMem) * L <= maxMem).
  { unfold L. pose proof (Z.mul_quot_le maxMem (numShards (New n maxMem))). lia. }
  destruct (run1_budget hashKey L ops (New n maxMem) 0 (CacheOK_New n maxMem)
              (Budget_New hashKey n maxMem ltac:(lia)) Hb Hfit ltac:(nia) ltac:(lia))
    as (c & Hrun & HC & Hns & Hcm & HF).
  exists c. split; [exact Hrun |]. split.
  - eapply Forall_impl; [exact HF |]. intros s [A1 A2 A3 A4 A5 A6]. split; [exact A3 | lia].
  - unfold Stats. cbn [mem_used max_memory]. rewrite Hcm.
    change (cacheMaxMemory (New n maxMem)) with maxMem.
    destruct HC as [_ Hlen]. rewrite Hns in Hlen.
    pose proof (mem_used_sum L (shards c) 0 HL ltac:(lia)) as Hsum.
    rewrite Hlen in Hsum. specialize (Hsum ltac:(lia)).
    assert (HF' : Forall (fun s => 0 <= memUsed s <= L) (shards c)).
    { eapply Forall_impl; [exact HF |]. intros s [A1 A2 A3 A4 A5 A6].
      pose proof (totalSize_nonneg (entries (m s))). lia. }
    specialize (Hsum HF'). lia.
Qed.

Definition busyRun : list CacheOp :=
  [CallStore "u" "1" None 0 (fun _ => 0);
   CallStore "v" "2" None 0 (fun _ => 0);
   CallStore "y" "3" (Some {| TTL := 5; Flags := 0; CAS := 0 |}) 0 (fun _ => 0);
   CallStore "d" "4" None 10 (fun _ => 0);
   CallLoad "y" 20;
   CallDelete "zz";
   CallStore "v" "22222" None 30 (fun _ => 0)]%string.

Lemma memory_limit_on_busy_run :
  forallb isBasic busyRun = true /\ 0 <= 100 < 2 ^ 62 /\
  Forall (fun op => storeSize op <= Z.quot 100 (numShards (New 1 100))) busyRun /\
  storeCount busyRun <= 49152 /\
  exists c, run1 XXH64 (New 1 100) busyRun = Some c /\
    mem_used (Stats c) = 56 /\ num_evicted (Stats c) = 1 /\ num_expired (Stats c) = 1.
Proof.
  assert (H1 : forallb isBasic busyRun = true) by reflexivity.
  assert (H2 : 0 <= 100 < 2 ^ 62) by lia.
  assert (H3 : Forall (fun op => storeSize op <= Z.quot 100 (numShards (New 1 100))) busyRun).
  { repeat constructor; vm_compute; discriminate. }
  assert (H4 : storeCount busyRun <= 49152) by (vm_compute; discriminate).
  do 4 (split; [assumption |]).
  destruct (memory_limit_is_kept XXH64 1 100 busyRun H1 H2 H3 H4) as (c & Hrun & _).
  exists c. split; [exact Hrun |].
  vm_compute in Hrun. inversion Hrun. vm_compute. repeat split; reflexivity.
Defined.

End MemoryLimit.

Section Sweeping.

#[local] Arguments Map_insert : simpl never.
#[local] Arguments Map_delete : simpl never.
#[local] Arguments Map_get : simpl never.
#[local] Arguments Map_lookup : simpl never.
#[local] Arguments Map_resize : simpl never.
#[local] Arguments NewMap : simpl never.
#[local] Arguments wrap_i64 : simpl never.
#[local] Arguments wrap_u64 : simpl never.
#[local] Arguments randomEntries : simpl never.

(** ** operations.go: Sweep *)



Lemma IsExpired_mono (t t' : Z) (e : Entry) :
  t <= t' -> IsExpired t e = true -> IsExpired t' e = true.
Proof.
  unfold IsExpired. intros Ht H. apply andb_prop in H as [H1 H2].
  rewrite H1. simpl. apply Z.ltb_lt in H2. apply Z.ltb_lt. lia.
Qed.





Section SweepProofs.
Variable hashKey : string -> Z.
Variables t0 t1 : Z.




Variable clock : nat -> Z.
Hypothesis Hclock : forall i, t0 <= clock i <= t1.


End SweepProofs.



End Sweeping.

(** ** The second revision without a memory limit: examples *)

Definition mixedRun : list CacheOp :=
  [CallStore "a" "1" None 0 (fun _ => 0);
   CallIncrement "n" 5 0 (fun _ => 0);
   CallLoad "a" 1;
   CallDelete "a";
   CallStore "b" "22" None 2 (fun _ => 0)]%string.

Definition writeRun : list CacheOp :=
  [CallStore "c" "333" None 3 (fun _ => 0);
   CallCompareAndSwap "b" "4" 0 None 4 (fun _ => 0);
   CallIncrement "n" 1 5 (fun _ => 0)]%string.

Lemma second_revision_no_eviction_on_mixed_run :
  forallb isWrite writeRun = true /\
  exists c', (c ← run2 XXH64 (New 1 0) mixedRun; run2 XXH64 c writeRun) = Some c' /\
    num_items (Stats c') = 3 /\ num_evicted (Stats c') = 0.
Proof.
  assert (H : forallb isWrite writeRun = true) by reflexivity.
  split; [exact H |].
  destruct (second_revision_no_eviction XXH64 1 mixedRun writeRun H)
    as (c & c' & Hrun & Hrun' & _).
  exists c'. rewrite Hrun. cbn [mbind option_bind]. split; [exact Hrun' |].
  vm_compute in Hrun. inversion Hrun; subst c. clear Hrun.
  vm_compute in Hrun'. inversion Hrun'; subst c'. split; reflexivity.
Defined.

Definition plainRun : list CacheOp :=
  [CallStore "a" "1" None 0 (fun _ => 0);
   CallStore "b" "2" None 0 (fun _ => 0);
   CallStore "a" "3" None 0 (fun _ => 0);
   CallDelete "b"]%string.

Lemma second_revision_Load_after_plain_run :
  forallb isPlain plainRun = true /\ storeCount plainRun <= 49152 /\
  exists c c' e,
    run2 XXH64 (New 1 0) plainRun = Some c /\
    Ops2.Load XXH64 c "a" 0 = Some (c', Some e) /\ value e = "3"%string.
Proof.
  assert (H1 : forallb isPlain plainRun = true) by reflexivity.
  assert (H2 : storeCount plainRun <= 49152) by (vm_compute; discriminate).
  split; [exact H1 |]. split; [exact H2 |].
  destruct (second_revision_Load_returns_last_Store XXH64 1 plainRun "a" 0 H1 H2)
    as (c & c' & r & Hrun & Hload & Hlast).
  change (lastStore plainRun "a") with (Some "3"%string) in Hlast.
  destruct Hlast as (e & -> & _ & Hv).
  exists c, c', e. split; [exact Hrun |]. split; [exact Hload | exact Hv].
Defined.

Section WireFormat.

#[local] Arguments wrap_i64 : simpl never.
#[local] Arguments Z.mul : simpl never.
#[local] Arguments Z.add : simpl never.
#[local] Arguments Z.pow : simpl never.
#[local] Arguments digitChar : simpl never.
#[local] Arguments isDigit : simpl never.
#[local] Arguments nat_of_ascii : simpl never.
#[local] Arguments Z.of_nat : simpl never.

(** ** The wire format of redis.go *)

Lemma sapp_assoc (a b c : string) : ((a ++ b) ++ c)%string = (a ++ (b ++ c))%string.
Proof. induction a as [| x a IH]; simpl; [reflexivity | rewrite IH; reflexivity]. Qed.

Lemma sapp_nil_r (a : string) : (a ++ "")%string = a.
Proof. induction a as [| x a IH]; simpl; [reflexivity | rewrite IH; reflexivity]. Qed.

Lemma len_sapp (a b : string) : len (a ++ b)%string = len a + len b.
Proof.
  unfold len. induction a as [| x a IH]; simpl String.length; [lia |].
  rewrite !Nat2Z.inj_succ. lia.
Qed.

Lemma len_nonneg (a : string) : 0 <= len a.
Proof. unfold len. lia. Qed.

(** Every byte of the string passes the test. *)
Fixpoint allb (P : ascii -> bool) (s : string) : bool :=
  match s with
  | EmptyString => true
  | String c s' => P c && allb P s'
  end.

Lemma allb_sapp (P : ascii -> bool) (a b : string) :
  allb P (a ++ b)%string = allb P a && allb P b.
Proof.
  induction a as [| x a IH]; simpl; [reflexivity |]. rewrite IH, andb_assoc. reflexivity.
Qed.

(** The bytes of a header line: a digit, a sign, or one of the type bytes
    [*] and [$]. *)
Definition headerByte (c : ascii) : bool :=
  isDigit c || Ascii.eqb c "-"%char || Ascii.eqb c "*"%char || Ascii.eqb c "$"%char.

Lemma headerByte_plain (c : ascii) :
  headerByte c = true ->
  isASCII c = true /\ asciiSpace c = false /\ Ascii.eqb c LF = false.
Proof.
  destruct c as [[] [] [] [] [] [] [] []]; vm_compute; intros H;
    first [discriminate H | repeat split].
Qed.

Lemma digitChar_spec (d : Z) :
  0 <= d <= 9 ->
  isDigit (digitChar d) = true /\ Z.of_nat (nat_of_ascii (digitChar d)) - 48 = d.
Proof.
  intros Hd. unfold digitChar, isDigit.
  rewrite nat_ascii_embedding by lia.
  split; [| lia].
  apply andb_true_intro. split; apply Nat.leb_le; lia.
Qed.

Lemma parseDigits_sapp (a b : string) : forall (acc v : Z),
  parseDigits a acc = Some v -> parseDigits (a ++ b)%string acc = parseDigits b v.
Proof.
  induction a as [| c a IH]; intros acc v H; simpl in *.
  - inversion H. reflexivity.
  - destruct (isDigit c); [| discriminate]. apply IH. exact H.
Qed.

Lemma formatDigits_spec (f : nat) : forall (n : Z) (acc : string),
  0 <= n < 2 ^ Z.of_nat (S f) ->
  exists D, formatDigits (S f) n acc = (D ++ acc)%string /\ D <> EmptyString /\
    allb isDigit D = true /\
    forall a, parseDigits D a = Some (a * 10 ^ len D + n).
Proof.
  induction f as [| f IH]; intros n acc Hn.
  - change (2 ^ Z.of_nat 1) with 2 in Hn.
    assert (Hq : n / 10 = 0) by (apply Z.div_small; lia).
    assert (Hm : n mod 10 = n) by (apply Z.mod_small; lia).
    destruct (digitChar_spec (n mod 10)) as [Hd Hv]; [rewrite Hm; lia |].
    exists (String (digitChar (n mod 10)) EmptyString).
    cbn [formatDigits]. rewrite Hq. cbn [Z.eqb append].
    split; [reflexivity |]. split; [discriminate |].
    split; [cbn [allb]; rewrite Hd; reflexivity |].
    intros a. cbn [parseDigits]. rewrite Hd, Hv, Hm. f_equal;
      try (unfold len; cbn [String.length]; lia).
  - pose proof (Z.mod_pos_bound n 10 ltac:(lia)) as Hmod.
    destruct (digitChar_spec (n mod 10)) as [Hd Hv]; [lia |].
    pose proof (Z.div_mod n 10 ltac:(lia)) as Hdm.
    change (formatDigits (S (S f)) n acc)
      with (let acc' := String (digitChar (n mod 10)) acc in
            if n / 10 =? 0 then acc' else formatDigits (S f) (n / 10) acc').
    cbv zeta. destruct (n / 10 =? 0) eqn:Hq.
    + apply Z.eqb_eq in Hq.
      exists (String (digitChar (n mod 10)) EmptyString).
      split; [reflexivity |]. split; [discriminate |].
      split; [cbn [allb]; rewrite Hd; reflexivity |].
      intros a. cbn [parseDigits]. rewrite Hd, Hv. f_equal;
        try (unfold len; cbn [String.length]; lia).
    + apply Z.eqb_neq in Hq.
      destruct (IH (n / 10) (String (digitChar (n mod 10)) acc)) as (D & HD & Hne & Hall & Hp).
      { split; [apply Z.div_pos; lia |].
        apply Z.div_lt_upper_bound; [lia |].
        rewrite (Nat2Z.inj_succ (S f)) in Hn. rewrite Z.pow_succ_r in Hn by lia. lia. }
      exists (D ++ String (digitChar (n mod 10)) EmptyString)%string.
      split; [rewrite HD, sapp_assoc; reflexivity |].
      split; [destruct D; [congruence | discriminate] |].
      split; [rewrite allb_sapp, Hall; cbn [allb]; rewrite Hd; reflexivity |].
      intros a. rewrite (parseDigits_sapp _ _ _ _ (Hp a)). cbn [parseDigits]. rewrite Hd, Hv.
      f_equal. rewrite len_sapp.
      replace (len (String (digitChar (n mod 10)) "")) with 1
        by (unfold len; cbn [String.length]; lia).
      rewrite Z.pow_add_r by (pose proof (len_nonneg D); lia). lia.
Qed.

Lemma formatUint_spec (n : Z) :
  0 <= n ->
  exists D, formatUint n = D /\ D <> EmptyString /\ allb isDigit D = true /\
    parseDigits D 0 = Some n.
Proof.
  intros Hn. unfold formatUint.
  destruct (formatDigits_spec (Z.to_nat (Z.log2 n)) n EmptyString) as (D & HD & Hne & Hall & Hp).
  { split; [exact Hn |]. rewrite Nat2Z.inj_succ, Z2Nat.id by apply Z.log2_nonneg.
    destruct (Z.eq_dec n 0) as [-> | Hz]; [reflexivity |].
    apply Z.log2_spec. lia. }
  exists D. rewrite HD, sapp_nil_r. split; [reflexivity |]. split; [exact Hne |].
  split; [exact Hall |]. rewrite Hp. f_equal; lia.
Qed.

Lemma isDigit_not_sign (c : ascii) :
  isDigit c = true -> Ascii.eqb c "-"%char = false /\ Ascii.eqb c "+"%char = false.
Proof.
  destruct c as [[] [] [] [] [] [] [] []]; vm_compute; intros H;
    first [discriminate H | split; reflexivity].
Qed.

(** The number [Itoa] writes is the number [Atoi] reads. *)
Lemma Atoi_Itoa (n : Z) : - 2 ^ 63 <= n < 2 ^ 63 -> Atoi (Itoa n) = Some n.
Proof.
  intros Hn. unfold Itoa. destruct (n <? 0) eqn:Hs.
  - apply Z.ltb_lt in Hs.
    destruct (formatUint_spec (- n) ltac:(lia)) as (D & -> & Hne & Hall & Hp).
    unfold Atoi. simpl. destruct D as [| c D]; [congruence |].
    rewrite Hp. simpl. rewrite Z.opp_involutive.
    replace (- 2 ^ 63 <=? n) with true by (symmetry; apply Z.leb_le; lia).
    replace (n <? 2 ^ 63) with true by (symmetry; apply Z.ltb_lt; lia).
    reflexivity.
  - apply Z.ltb_ge in Hs.
    destruct (formatUint_spec n Hs) as (D & -> & Hne & Hall & Hp).
    unfold Atoi. destruct D as [| c D]; [congruence |].
    simpl in Hall. apply andb_prop in Hall as [Hc _].
    destruct (isDigit_not_sign c Hc) as [-> ->]. simpl orb. cbv iota.
    rewrite Hp. simpl.
    replace (- 2 ^ 63 <=? n) with true by (symmetry; apply Z.leb_le; lia).
    replace (n <? 2 ^ 63) with true by (symmetry; apply Z.ltb_lt; lia).
    reflexivity.
Qed.

Lemma allb_impl (P Q : ascii -> bool) (s : string) :
  (forall c, P c = true -> Q c = true) -> allb P s = true -> allb Q s = true.
Proof.
  intros H. induction s as [| c s IH]; simpl; [auto |].
  intros Hs. apply andb_prop in Hs as [H1 H2]. rewrite (H c H1), (IH H2). reflexivity.
Qed.

Lemma Itoa_header (n : Z) : allb headerByte (Itoa n) = true /\ Itoa n <> EmptyString.
Proof.
  assert (Hd : forall c, isDigit c = true -> headerByte c = true)
    by (intros c Hc; unfold headerByte; rewrite Hc; reflexivity).
  unfold Itoa. destruct (n <? 0) eqn:Hs.
  - apply Z.ltb_lt in Hs.
    destruct (formatUint_spec (- n) ltac:(lia)) as (D & -> & Hne & Hall & Hp).
    split; [| discriminate]. simpl. apply (allb_impl isDigit); assumption.
  - apply Z.ltb_ge in Hs.
    destruct (formatUint_spec n Hs) as (D & -> & Hne & Hall & Hp).
    split; [apply (allb_impl isDigit); assumption | exact Hne].
Qed.

(** A header line is read whole, and trimmed to the header. *)
Lemma ReadString_line (h rest : string) :
  allb headerByte h = true ->
  ReadString (h ++ CRLF ++ rest)%string = Some ((h ++ CRLF)%string, rest).
Proof.
  induction h as [| c h IH]; intros Hh; simpl in *.
  - reflexivity.
  - apply andb_prop in Hh as [Hc Hh]. destruct (headerByte_plain c Hc) as (_ & _ & ->).
    rewrite (IH Hh). reflexivity.
Qed.

Lemma trimRight_line (h : string) :
  allb headerByte h = true -> trimRight (h ++ CRLF)%string = Some h.
Proof.
  induction h as [| c h IH]; intros Hh; simpl in *.
  - reflexivity.
  - apply andb_prop in Hh as [Hc Hh]. destruct (headerByte_plain c Hc) as (Ha & Hs & _).
    rewrite (IH Hh). simpl. destruct h; [rewrite Ha, Hs; reflexivity | reflexivity].
Qed.

Lemma TrimSpace_line (h : string) :
  allb headerByte h = true -> h <> EmptyString -> TrimSpace (h ++ CRLF)%string = Some h.
Proof.
  intros Hh Hne. unfold TrimSpace. destruct h as [| c h]; [congruence |].
  simpl in Hh. apply andb_prop in Hh as [Hc Hh].
  destruct (headerByte_plain c Hc) as (Ha & Hs & _).
  change ((String c h ++ CRLF)%string) with (String c (h ++ CRLF)%string).
  cbn [trimLeft]. rewrite Ha, Hs. cbn [negb mbind option_bind].
  apply (trimRight_line (String c h)). simpl. rewrite Hc, Hh. reflexivity.
Qed.

Lemma takeBytes_sapp (a b : string) : takeBytes (String.length a) (a ++ b)%string = a.
Proof. induction a as [| c a IH]; simpl; [destruct b; reflexivity | rewrite IH; reflexivity]. Qed.

Lemma dropBytes_sapp (a b : string) : dropBytes (String.length a) (a ++ b)%string = b.
Proof. induction a as [| c a IH]; simpl; [destruct b; reflexivity | exact IH]. Qed.

Lemma ReadFull_sapp (a b : string) : ReadFull (a ++ b)%string (len a) = Got a b.
Proof.
  unfold ReadFull. rewrite len_sapp.
  replace (len a <=? len a + len b) with true
    by (symmetry; apply Z.leb_le; pose proof (len_nonneg b); lia).
  unfold len. rewrite Nat2Z.id, takeBytes_sapp, dropBytes_sapp. reflexivity.
Qed.

(** What [writeBulkString] appends. *)
Definition bulk (s : string) : string := ("$" ++ Itoa (len s) ++ CRLF ++ s ++ CRLF)%string.

Fixpoint bulks (items : list string) : string :=
  match items with
  | [] => EmptyString
  | s :: rest => (bulk s ++ bulks rest)%string
  end.

Lemma writeBulkString_bulk (w s : string) : writeBulkString w s = (w ++ bulk s)%string.
Proof. reflexivity. Qed.

Lemma fold_writeBulkString (items : list string) : forall w : string,
  fold_left writeBulkString items w = (w ++ bulks items)%string.
Proof.
  induction items as [| s items IH]; intros w; simpl.
  - rewrite sapp_nil_r. reflexivity.
  - rewrite IH, writeBulkString_bulk, sapp_assoc. reflexivity.
Qed.

Section WireProofs.
Variable maxAlloc : Z.
Hypothesis HmaxAlloc : maxAlloc < 2 ^ 63.

Lemma readArray_loop_bulks (items : list string) : forall (args : list string) (rest : string),
  Forall (fun s => len s + 2 <= maxAlloc) items ->
  readArray_loop maxAlloc (length items) (bulks items ++ rest)%string args
  = Some (Got (args ++ items) rest).
Proof.
  induction items as [| s items IH]; intros args rest HF.
  - simpl. rewrite app_nil_r. reflexivity.
  - inversion HF as [| ? ? Hs Hrest]; subst.
    pose proof (len_nonneg s) as H0.
    destruct (Itoa_header (len s)) as [Hh Hne].
    assert (Hline : allb headerByte (String "$"%char (Itoa (len s))) = true)
      by (simpl; rewrite Hh; reflexivity).
    cbn [length readArray_loop bulks].
    replace ((bulk s ++ bulks items) ++ rest)%string
      with (String "$"%char (Itoa (len s)) ++ CRLF ++ ((s ++ CRLF) ++ (bulks items ++ rest)))%string.
    2: { unfold bulk. rewrite !sapp_assoc. reflexivity. }
    rewrite (ReadString_line _ _ Hline).
    rewrite (TrimSpace_line _ Hline) by discriminate.
    cbn [mbind option_bind]. cbn [Ascii.eqb Bool.eqb negb andb].
    rewrite Atoi_Itoa by lia.
    rewrite wrap_i64_small by lia.
    replace (len s + 2 <? 0) with false by (symmetry; apply Z.ltb_ge; lia).
    replace (maxAlloc <? len s + 2) with false by (symmetry; apply Z.ltb_ge; lia).
    cbn [orb].
    replace (len s + 2) with (len (s ++ CRLF)%string) at 1
      by (rewrite len_sapp; reflexivity).
    rewrite ReadFull_sapp.
    replace (len s <? 0) with false by (symmetry; apply Z.ltb_ge; lia).
    replace (len s + 2 <? len s) with false by (symmetry; apply Z.ltb_ge; lia).
    cbn [orb].
    unfold len at 1. rewrite Nat2Z.id, takeBytes_sapp.
    rewrite IH by exact Hrest. rewrite <- app_assoc. reflexivity.
Qed.
End WireProofs.

(** X18: the reader reads what the writer wrote.  Whatever the items (any
    bytes, line ends included) and whatever follows them on the
    connection, [readCommand] reads the bytes [writeArray] wrote back as
    the same items and leaves what follows unread.  The items must be
    within what the run time can allocate: 16 bytes per string header for
    the argument slice, and each item with its two closing bytes for the
    read buffer. *)
Theorem readCommand_reads_writeArray (maxAlloc : Z) (items : list string) (rest : string) :
  maxAlloc < 2 ^ 63 ->
  Z.of_nat (length items) * 16 <= maxAlloc ->
  Forall (fun s => len s + 2 <= maxAlloc) items ->
  readCommand maxAlloc (writeArray "" items ++ rest)%string = Some (Got items rest).
Proof.
  intros Hmax Hcount Hitems.
  set (n := Z.of_nat (length items)) in *.
  destruct (Itoa_header n) as [Hh Hne].
  assert (Hline : allb headerByte (String "*"%char (Itoa n)) = true)
    by (cbn [allb]; rewrite Hh; reflexivity).
  unfold writeArray. rewrite fold_writeBulkString. fold n.
  replace ((("" ++ "*" ++ Itoa n ++ CRLF) ++ bulks items) ++ rest)%string
    with (String "*"%char (Itoa n) ++ CRLF ++ (bulks items ++ rest))%string.
  2: { cbn [append]. rewrite !sapp_assoc. reflexivity. }
  unfold readCommand.
  rewrite (ReadString_line _ _ Hline).
  rewrite (TrimSpace_line _ Hline) by discriminate.
  cbn [mbind option_bind]. cbn [Ascii.eqb Bool.eqb andb].
  unfold readArray. rewrite Atoi_Itoa by (unfold n; lia).
  replace (n <? 0) with false by (symmetry; apply Z.ltb_ge; unfold n; lia).
  replace (maxAlloc <? n * 16) with false by (symmetry; apply Z.ltb_ge; lia).
  cbn [orb]. unfold n. rewrite Nat2Z.id.
  rewrite (readArray_loop_bulks maxAlloc Hmax items [] rest Hitems). reflexivity.
Qed.

Lemma readCommand_reads_a_SET_command :
  2 ^ 48 < 2 ^ 63 /\
  Z.of_nat (length ["SET"; "k"; "v"]%string) * 16 <= 2 ^ 48 /\
  Forall (fun s => len s + 2 <= 2 ^ 48) ["SET"; "k"; "v"]%string /\
  writeArray "" ["SET"; "k"; "v"]%string
  = ("*3" ++ CRLF ++ "$3" ++ CRLF ++ "SET" ++ CRLF ++ "$1" ++ CRLF ++ "k" ++ CRLF
     ++ "$1" ++ CRLF ++ "v" ++ CRLF)%string /\
  readCommand (2 ^ 48) (writeArray "" ["SET"; "k"; "v"] ++ "*1")%string
  = Some (Got ["SET"; "k"; "v"]%string "*1"%string).
Proof.
  assert (H1 : 2 ^ 48 < 2 ^ 63) by lia.
  assert (H2 : Z.of_nat (length ["SET"; "k"; "v"]%string) * 16 <= 2 ^ 48)
    by (vm_compute; discriminate).
  assert (H3 : Forall (fun s => len s + 2 <= 2 ^ 48) ["SET"; "k"; "v"]%string)
    by (repeat constructor; vm_compute; discriminate).
  split; [exact H1 |]. split; [exact H2 |]. split; [exact H3 |].
  split; [vm_compute; reflexivity |].
  exact (readCommand_reads_writeArray (2 ^ 48) ["SET"; "k"; "v"]%string "*1" H1 H2 H3).
Defined.

(** X19: negative sizes.  A frame that announces a negative number of
    elements makes [readArray] panic in [make]; a bulk string that
    announces a negative length makes it panic in [make] (length below -2)
    or in the slice expression [buf[:size]] (length -2, and length -1 when
    a byte follows).  For length -1 with nothing left on the connection the
    read fails with EOF before the slice expression is reached.  No
    function of the package recovers from the panic. *)
Theorem readCommand_panics_on_negative_sizes (maxAlloc n : Z) (rest : string) :
  16 <= maxAlloc -> - 2 ^ 63 <= n < 0 ->
  readCommand maxAlloc ("*" ++ Itoa n ++ CRLF ++ rest)%string = Some Panicked /\
  readCommand maxAlloc ("*1" ++ CRLF ++ "$" ++ Itoa n ++ CRLF ++ rest)%string
  = match rest with
    | EmptyString => if n =? -1 then Some (Failed ErrEOF) else Some Panicked
    | _ => Some Panicked
    end.
Proof.
  intros Hmax Hn.
  destruct (Itoa_header n) as [Hh Hne]. split.
  - assert (Hline : allb headerByte (String "*"%char (Itoa n)) = true)
      by (cbn [allb]; rewrite Hh; reflexivity).
    change ("*" ++ Itoa n ++ CRLF ++ rest)%string
      with (String "*"%char (Itoa n) ++ CRLF ++ rest)%string.
    unfold readCommand.
    rewrite (ReadString_line _ _ Hline).
    rewrite (TrimSpace_line _ Hline) by discriminate.
    cbn [mbind option_bind]. cbn [Ascii.eqb Bool.eqb andb].
    unfold readArray. rewrite Atoi_Itoa by lia.
    replace (n <? 0) with true by (symmetry; apply Z.ltb_lt; lia). reflexivity.
  - assert (Hline : allb headerByte (String "$"%char (Itoa n)) = true)
      by (cbn [allb]; rewrite Hh; reflexivity).
    pose proof (ReadString_line _ rest Hline) as Hrd.
    change ("*1" ++ CRLF ++ "$" ++ Itoa n ++ CRLF ++ rest)%string
      with ("*1" ++ CRLF ++ (String "$"%char (Itoa n) ++ CRLF ++ rest))%string.
    set (tail := (String "$"%char (Itoa n) ++ CRLF ++ rest)%string) in *.
    unfold readCommand.
    rewrite (ReadString_line "*1" _ eq_refl).
    rewrite (TrimSpace_line "*1" eq_refl) by discriminate.
    cbn [mbind option_bind]. cbn [Ascii.eqb Bool.eqb andb].
    unfold readArray. change (Atoi "1") with (Some 1). cbv beta iota.
    assert (E : (1 <? 0) || (maxAlloc <? 1 * 16) = false)
      by (apply orb_false_intro; [reflexivity | apply Z.ltb_ge; lia]).
    rewrite E. change (Z.to_nat 1) with 1%nat. cbn [readArray_loop].
    rewrite Hrd.
    rewrite (TrimSpace_line _ Hline) by discriminate.
    cbn [mbind option_bind]. cbn [Ascii.eqb Bool.eqb andb negb].
    rewrite Atoi_Itoa by lia.
    rewrite wrap_i64_small by lia.
    destruct (Z_lt_ge_dec (n + 2) 0) as [Hlt | Hge].
    + replace (n + 2 <? 0) with true by (symmetry; apply Z.ltb_lt; lia). cbn [orb].
      replace (n =? -1) with false by (symmetry; apply Z.eqb_neq; lia).
      destruct rest; reflexivity.
    + replace (n + 2 <? 0) with false by (symmetry; apply Z.ltb_ge; lia).
      replace (maxAlloc <? n + 2) with false by (symmetry; apply Z.ltb_ge; lia).
      cbn [orb]. unfold ReadFull.
      assert (Hsz : forall buf rest' : string,
                (if (n <? 0) || (n + 2 <? n) then Some (@Panicked (list string))
                 else readArray_loop maxAlloc 0 rest' ([] ++ [takeBytes (Z.to_nat n) buf]))
                = Some Panicked).
      { intros. replace (n <? 0) with true by (symmetry; apply Z.ltb_lt; lia). reflexivity. }
      destruct rest as [| c rest].
      * change (len "") with 0.
        destruct (Z.eq_dec n (-1)) as [-> | Hne1].
        -- reflexivity.
        -- replace (n =? -1) with false by (symmetry; apply Z.eqb_neq; lia).
           replace (n + 2 <=? 0) with true by (symmetry; apply Z.leb_le; lia).
           apply Hsz.
      * replace (n + 2 <=? len (String c rest)) with true.
        2: { symmetry. apply Z.leb_le. pose proof (len_nonneg rest).
             unfold len in *. cbn [String.length]. lia. }
        apply Hsz.
Qed.

Lemma readCommand_panics_on_null_frames :
  16 <= 2 ^ 48 /\ - 2 ^ 63 <= -1 < 0 /\
  readCommand (2 ^ 48) ("*-1" ++ CRLF)%string = Some Panicked /\
  readCommand (2 ^ 48) ("*1" ++ CRLF ++ "$-1" ++ CRLF ++ "*1" ++ CRLF)%string = Some Panicked.
Proof.
  assert (H1 : 16 <= 2 ^ 48) by lia.
  assert (H2 : - 2 ^ 63 <= -1 < 0) by lia.
  split; [exact H1 |]. split; [exact H2 |]. split.
  - exact (proj1 (readCommand_panics_on_negative_sizes (2 ^ 48) (-1) "" H1 H2)).
  - exact (proj2 (readCommand_panics_on_negative_sizes (2 ^ 48) (-1) ("*1" ++ CRLF) H1 H2)).
Defined.

End WireFormat.

(** ** Iterate and the KEYS command *)

Section KeysProofs.
Variable pattern : string.
Variable clock : nat -> Z.
Variables t0 t1 : Z.
Hypothesis Hclock : forall i, t0 <= clock i <= t1.

(** The test of the callback is the glob match. *)
Lemma keysVisit_test (k : string) :
  String.eqb pattern "*" || matchPattern pattern k = true <-> Glob pattern k.
Proof.
  rewrite <- matchPattern_spec. unfold matchPattern.
  destruct (String.eqb pattern "*"); simpl; tauto.
Qed.

(** The keys the walk over one table collects, when it starts at clock
    reading [tick]. *)
Fixpoint listed (tick : nat) (es : list Entry) : list string :=
  match es with
  | [] => []
  | e :: rest =>
      if IsExpired (clock tick) e then listed (S tick) rest
      else if String.eqb pattern "*" || matchPattern pattern (key e)
           then key e :: listed (S tick) rest
           else listed (S tick) rest
  end.

Lemma visit_keys (acc : list string) (tick : nat) (e : Entry) :
  iterateVisit (keysVisit pattern) clock (acc, false, tick) e
  = ((if IsExpired (clock tick) e then acc
      else if String.eqb pattern "*" || matchPattern pattern (key e)
           then acc ++ [key e] else acc, false, S tick), true).
Proof.
  unfold iterateVisit, keysVisit. cbn [fst snd].
  destruct (IsExpired (clock tick) e); reflexivity.
Qed.

Lemma iter_keys (bs : list Bucket) : forall (acc : list string) (tick : nat),
  iter_loop (iterateVisit (keysVisit pattern) clock) bs (acc, false, tick)
  = (acc ++ listed tick (live bs), false, (tick + length (live bs))%nat).
Proof.
  induction bs as [| b bs IH]; intros acc tick.
  - simpl. rewrite app_nil_r. f_equal. lia.
  - assert (Hlive : live (b :: bs)
                    = match entry b with Some e => e :: live bs | None => live bs end)
      by (unfold live; simpl; destruct (entry b); reflexivity).
    rewrite Hlive. cbn [iter_loop].
    destruct (entry b) as [e |]; [| apply IH].
    rewrite visit_keys. cbn [fst snd listed]. rewrite IH. cbn [length].
    destruct (IsExpired (clock tick) e).
    + f_equal. lia.
    + destruct (String.eqb pattern "*" || matchPattern pattern (key e));
        [rewrite <- app_assoc |]; f_equal; lia.
Qed.

Lemma listed_sound (es : list Entry) : forall (tick : nat) (k : string),
  k ∈ listed tick es ->
  Glob pattern k /\ exists e, e ∈ es /\ key e = k /\ IsExpired t0 e = false.
Proof.
  induction es as [| e rest IH]; intros tick k Hk; simpl in Hk; [inversion Hk |].
  assert (Hrest : k ∈ listed (S tick) rest ->
            Glob pattern k /\ exists e0, e0 ∈ e :: rest /\ key e0 = k /\ IsExpired t0 e0 = false).
  { intros H. destruct (IH _ _ H) as (HG & e0 & Hin & Hke & Hx).
    split; [exact HG |]. exists e0. split; [right; exact Hin | auto]. }
  destruct (IsExpired (clock tick) e) eqn:Hx; [auto |].
  destruct (String.eqb pattern "*" || matchPattern pattern (key e)) eqn:Hm; [| auto].
  apply elem_of_cons in Hk as [-> | Hk]; [| auto].
  split; [apply keysVisit_test; exact Hm |].
  exists e. split; [left |]. split; [reflexivity |].
  destruct (IsExpired t0 e) eqn:H0; [| reflexivity].
  rewrite (IsExpired_mono t0 (clock tick) e (proj1 (Hclock tick)) H0) in Hx. discriminate.
Qed.

Lemma listed_complete (es : list Entry) : forall (tick : nat) (e : Entry),
  e ∈ es -> IsExpired t1 e = false -> Glob pattern (key e) -> key e ∈ listed tick es.
Proof.
  induction es as [| x rest IH]; intros tick e He Hx HG; [inversion He |].
  simpl. apply elem_of_cons in He as [<- | He].
  - destruct (IsExpired (clock tick) e) eqn:Hc.
    + rewrite (IsExpired_mono (clock tick) t1 e (proj2 (Hclock tick)) Hc) in Hx. discriminate.
    + apply keysVisit_test in HG. rewrite HG. left.
  - destruct (IsExpired (clock tick) x); [apply IH; assumption |].
    destruct (String.eqb pattern "*" || matchPattern pattern (key x));
      [right |]; apply IH; assumption.
Qed.

Lemma listed_length (es : list Entry) : forall tick : nat,
  (length (listed tick es) <= length es)%nat.
Proof.
  induction es as [| x rest IH]; intros tick; simpl; [lia |].
  destruct (IsExpired (clock tick) x); [specialize (IH (S tick)); lia |].
  destruct (String.eqb pattern "*" || matchPattern pattern (key x)); simpl;
    specialize (IH (S tick)); lia.
Qed.

Lemma Iterate_loop_keys (ss : list Shard) : forall (acc : list string) (tick : nat),
  exists L tick', Iterate_loop (keysVisit pattern) clock ss acc tick = (acc ++ L, tick') /\
    (forall k, k ∈ L ->
       Glob pattern k /\
       exists s e, s ∈ ss /\ e ∈ entries (m s) /\ key e = k /\ IsExpired t0 e = false) /\
    (forall s e, s ∈ ss -> e ∈ entries (m s) -> IsExpired t1 e = false ->
       Glob pattern (key e) -> key e ∈ L).
Proof.
  induction ss as [| s ss IH]; intros acc tick.
  - exists [], tick. simpl. rewrite app_nil_r. split; [reflexivity |].
    split; [intros k Hk; inversion Hk | intros s e Hs; inversion Hs].
  - cbn [Iterate_loop]. unfold Map_iter. rewrite iter_keys. cbn [fst snd].
    fold (entries (m s)).
    destruct (IH (acc ++ listed tick (entries (m s)))
                (tick + length (entries (m s)))%nat) as (L & tick' & Hrun & Hsound & Hcompl).
    exists (listed tick (entries (m s)) ++ L), tick'.
    split; [rewrite Hrun, <- app_assoc; reflexivity |]. split.
    + intros k Hk. apply elem_of_app in Hk as [Hk | Hk].
      * destruct (listed_sound _ _ _ Hk) as (HG & e & He & Hke & Hx).
        split; [exact HG |]. exists s, e. split; [left | auto].
      * destruct (Hsound k Hk) as (HG & s0 & e & Hs0 & He & Hke & Hx).
        split; [exact HG |]. exists s0, e. split; [right; exact Hs0 | auto].
    + intros s0 e Hs0 He Hx HG. apply elem_of_app.
      apply elem_of_cons in Hs0 as [-> | Hs0].
      * left. apply listed_complete; assumption.
      * right. apply (Hcompl s0 e); assumption.
Qed.
End KeysProofs.

(** X20: the KEYS command.  When every reading of the clock during the call
    lies between [t0] and [t1], the reply of [handleKeys] is the array of a
    list of keys such that: every key listed matches the pattern (as a
    glob: a star for any run of bytes, a question mark for one byte) and is
    the key of an entry of the cache that had not expired at [t0]; and the
    key of every entry that has not expired at [t1] and matches the pattern
    is listed. *)
Theorem handleKeys_lists_matching_keys (clock : nat -> Z) (t0 t1 : Z) (c : Cache)
    (w pattern : string) :
  (forall i, t0 <= clock i <= t1) ->
  exists keys, handleKeys clock c w pattern = writeArray w keys /\
    (forall k, k ∈ keys ->
       Glob pattern k /\
       exists s e, s ∈ shards c /\ e ∈ entries (m s) /\ key e = k /\
         IsExpired t0 e = false) /\
    (forall s e, s ∈ shards c -> e ∈ entries (m s) -> IsExpired t1 e = false ->
       Glob pattern (key e) -> key e ∈ keys).
Proof.
  intros Hclock.
  destruct (Iterate_loop_keys pattern clock t0 t1 Hclock (shards c) [] O)
    as (L & tick' & Hrun & Hsound & Hcompl).
  exists L. unfold handleKeys, Iterate. rewrite Hrun. cbn [fst app].
  split; [reflexivity |]. split; assumption.
Qed.

Lemma handleKeys_on_sample_cache :
  (forall i : nat, 10 <= (fun _ : nat => 10) i <= 10) /\
  (exists keys, handleKeys (fun _ => 10) (cacheWith XXH64 100 sampleEntries) "" "?"
                = writeArray "" keys) /\
  handleKeys (fun _ => 10) (cacheWith XXH64 100 sampleEntries) "" "?"
  = ("*2" ++ CRLF ++ "$1" ++ CRLF ++ "u" ++ CRLF ++ "$1" ++ CRLF ++ "v" ++ CRLF)%string.
Proof.
  assert (H : forall i : nat, 10 <= (fun _ : nat => 10) i <= 10) by (intros; simpl; lia).
  split; [exact H |].
  destruct (handleKeys_lists_matching_keys (fun _ => 10) 10 10
              (cacheWith XXH64 100 sampleEntries) "" "?" H) as (keys & Hrun & _).
  split; [exists keys; exact Hrun | vm_compute; reflexivity].
Defined.
